(** * Smooth Pixels: the pixel-art vector smoothing engine

    A shallow embedding of the geometry engine of the two editor variants,
    - the monochrome editor ([Mono], grid stored as a JS [Set] of "x,y" keys),
    - the colored editor ([Colored], grid stored as a JS [Map] from "x,y"
      keys to colors),
    followed by the properties of contour tracing, corner classification,
    rounding selection, bridge synthesis, path construction, painting and
    undo/redo.

    Conventions of the embedding.
    - Grid coordinates, grid sizes, brush sizes and loop counters are
      integers ([Z]); array indices are [nat].
    - Every other JS number (seed, ratios, screen coordinates) is a rational
      ([Q]).  Where a number decides an integer that the code returns (the
      display size, the cell under the pointer, the integer of [rInt] and
      of [pickRandom]), every
      arithmetic operation on the way is rounded to the nearest IEEE double
      ([JS.double], round to nearest, ties to even; infinities and NaN are
      not modelled).  The coordinates of paths, which are only drawn, are
      kept exact.  [Math.floor] is [Qfloor]; [Math.sin] is a platform
      function and is a parameter ([Math_sin]) of everything that calls
      [pseudoRandom].
    - A JS [Set]/[Map] iterates in insertion order, and the order in which
      cells were painted decides the order of the traced contours.  They are
      therefore lists without repeated keys, in insertion order.
    - React state is threaded explicitly: every handler is a function from
      the editor state to the editor state. *)

From Stdlib Require Import ZArith QArith Qround Qabs Qminmax Qpower Lia Lqa.
From stdpp Require Import base decidable list gmap strings.

#[local] Open Scope Z_scope.

(** ** JavaScript numbers *)

Module JS.

(** [a < b] on numbers. *)
Definition ltb (a b : Q) : bool := negb (Qle_bool b a).

(** [a > b]. *)
Definition gtb (a b : Q) : bool := ltb b a.

(** [Math.floor]. *)
Definition floor (a : Q) : Q := inject_Z (Qfloor a).

(** [Math.round]: the nearest integer, halves rounded up. *)
Definition round (a : Q) : Z := Qfloor (a + (1 # 2)).

(** The exponent of the power of two at or below [|x|], for [x] other
    than 0. *)
Definition log2floor (x : Q) : Z :=
  let e := Z.log2 (Z.abs (Qnum x)) - Z.log2 (Z.pos (Qden x)) in
  if Qle_bool (2 ^ e) (Qabs x) then e else e - 1.

(** The exponent of the last place of the double nearest to [x]: a double
    has 53 significant bits, and no bit below [2^-1074]. *)
Definition ulpExp (x : Q) : Z := Z.max (-1074) (log2floor x - 52).

(** The integer nearest to [q], a tie going to the even one. *)
Definition roundHalfEven (q : Q) : Z :=
  let f := Qfloor q in
  match (q - inject_Z f ?= 1 # 2)%Q with
  | Lt => f
  | Gt => f + 1
  | Eq => if Z.even f then f else f + 1
  end.

(** The double nearest to [x], a tie going to the even significand: what
    an arithmetic operation on numbers returns for the exact result [x].
    A result beyond the largest double, which JS gives as [Infinity], is
    not modelled. *)
Definition double (x : Q) : Q :=
  let e := ulpExp x in
  (inject_Z (roundHalfEven (x / 2 ^ e)) * 2 ^ e)%Q.

(** [Math.min] and [Math.max]. *)
Definition min (a b : Q) : Q := if Qle_bool a b then a else b.
Definition max (a b : Q) : Q := if Qle_bool a b then b else a.

(** [Math.sign] of an integer, as a number. *)
Definition sign (d : Z) : Q := inject_Z (Z.sgn d).

(** [for (let k = lo; k < hi; k++)]: the values [k] takes. *)
Definition range (lo hi : Z) : list Z := seqZ lo (hi - lo).

(** [arr.slice(-n)]: the last [n] elements. *)
Definition slice_last {A} (n : nat) (l : list A) : list A :=
  drop (length l - n)%nat l.

(** [arr.slice(0, -1)]: all but the last element. *)
Definition slice_init {A} (l : list A) : list A :=
  take (length l - 1)%nat l.

End JS.

(** ** Insertion-ordered sets and maps *)

Module InsOrd.
Section set.
Context {K : Type} `{EqDecision K}.

(** [s.has(k)] *)
Definition has (k : K) (s : list K) : bool := bool_decide (k ∈ s).

(** [s.add(k)]: a key already present keeps its place. *)
Definition add (k : K) (s : list K) : list K :=
  if decide (k ∈ s) then s else s ++ [k].

(** [s.delete(k)] *)
Definition delete (k : K) (s : list K) : list K :=
  filter (λ k', k' ≠ k) s.

(** [a.size === b.size && [...a].every(x => b.has(x))] *)
Definition same_elements (a b : list K) : bool :=
  bool_decide (length a = length b) && forallb (λ x, has x b) a.
End set.

Section map.
Context {K V : Type} `{EqDecision K}.

(** [m.has(k)] *)
Definition mhas (k : K) (m : list (K * V)) : bool :=
  bool_decide (k ∈ m.*1).

(** [m.get(k)] *)
Fixpoint mget (k : K) (m : list (K * V)) : option V :=
  match m with
  | [] => None
  | (k', v) :: m' => if decide (k' = k) then Some v else mget k m'
  end.

(** [m.set(k, v)]: an existing key keeps its place and gets the new
    value, a new key goes to the end. *)
Fixpoint mset (k : K) (v : V) (m : list (K * V)) : list (K * V) :=
  match m with
  | [] => [(k, v)]
  | (k', v') :: m' =>
      if decide (k' = k) then (k', v) :: m' else (k', v') :: mset k v m'
  end.

(** [m.delete(k)] *)
Definition mdelete (k : K) (m : list (K * V)) : list (K * V) :=
  filter (λ kv, kv.1 ≠ k) m.
End map.
End InsOrd.

(** ** Geometry shared by the two editors *)

(** A grid cell, and equally a lattice point: the key ["x,y"]. *)
Definition Cell : Type := Z * Z.

Inductive Side := top | right | bottom | left.

Record Edge := mkEdge { x1 : Z; y1 : Z; x2 : Z; y2 : Z; side : Side }.

Inductive CornerType := convex | concave.

Inductive CornerMode := random | outer | inner.

Inductive Quadrant :=
  TR_GAP_FILLET | BL_GAP_FILLET | BR_GAP_FILLET | TL_GAP_FILLET.

Record Bridge := mkBridge { bX : Z; bY : Z; quadrant : Quadrant }.

#[global] Instance Side_eq_dec : EqDecision Side.
Proof. solve_decision. Defined.
#[global] Instance Edge_eq_dec : EqDecision Edge.
Proof. solve_decision. Defined.
#[global] Instance CornerType_eq_dec : EqDecision CornerType.
Proof. solve_decision. Defined.
#[global] Instance CornerMode_eq_dec : EqDecision CornerMode.
Proof. solve_decision. Defined.
#[global] Instance Quadrant_eq_dec : EqDecision Quadrant.
Proof. solve_decision. Defined.
#[global] Instance Bridge_eq_dec : EqDecision Bridge.
Proof. solve_decision. Defined.

Definition startPt (e : Edge) : Cell := (x1 e, y1 e).
Definition endPt (e : Edge) : Cell := (x2 e, y2 e).

(** The four candidate boundary edges of the cell [(x, y)], in the order the
    source pushes them; [hasPixel] is the occupancy query. *)
Definition cellEdges (hasPixel : Z → Z → bool) (x y : Z) : list Edge :=
  (if negb (hasPixel x (y - 1)) then [mkEdge x y (x + 1) y top] else []) ++
  (if negb (hasPixel (x + 1) y)
   then [mkEdge (x + 1) y (x + 1) (y + 1) right] else []) ++
  (if negb (hasPixel x (y + 1))
   then [mkEdge (x + 1) (y + 1) x (y + 1) bottom] else []) ++
  (if negb (hasPixel (x - 1) y) then [mkEdge x (y + 1) x y left] else []).

(** The 2D cross product of the direction vectors of two edges. *)
Definition cross (edge1 edge2 : Edge) : Z :=
  (x2 edge1 - x1 edge1) * (y2 edge2 - y1 edge2)
  - (y2 edge1 - y1 edge1) * (x2 edge2 - x1 edge2).

Definition getCornerType (edge1 edge2 : Edge) : CornerType :=
  if 0 <? cross edge1 edge2 then convex else concave.

(** [contour[(i + 1) % contour.length]]; the default is never reached for
    [i] an index of [contour]. *)
Definition nextEdge (contour : list Edge) (i : nat) (edge : Edge) : Edge :=
  default edge (contour !! ((i + 1) mod length contour)%nat).

(** [cornerMode === 'outer' && type !== 'convex'] and
    [cornerMode === 'inner' && type !== 'concave']: the two early returns of
    the rounding loop. *)
Definition modeExcludes (mode : CornerMode) (t : CornerType) : bool :=
  match mode, t with
  | outer, concave => true
  | inner, convex => true
  | _, _ => false
  end.

Section pseudo_random.
Variable Math_sin : Q → Q.

Definition pseudoRandom (x y seed : Q) : Q :=
  let n := (Math_sin (x * 12.9898 + y * 78.233 + seed * 43758.5453)
            * 43758.5453)%Q in
  (n - JS.floor n)%Q.
End pseudo_random.

(** ** Greedy chaining of boundary edges

    The part of [findContour] after edge generation.  The two editors differ
    only in the test that an edge continues another one, so the tracer takes
    it as [meets cur nxt]: the start of [nxt] is the end of [cur]. *)

Section tracer.
Variable meets : Cell → Cell → bool.

(** The inner [for (j ...)] loop: the first unused edge, from index [j]
    on, that starts where [current] ends. *)
Fixpoint scan (used : gset nat) (current : Edge) (j : nat)
    (rest : list Edge) : option (nat * Edge) :=
  match rest with
  | [] => None
  | next :: rest' =>
      if decide (j ∈ used) then scan used current (S j) rest'
      else if meets (endPt current) (startPt next) then Some (j, next)
      else scan used current (S j) rest'
  end.

(** The [while (true)] loop.  Every round marks one more edge as used, so
    [length edges] rounds of fuel are never exhausted: see [traceLoop_fuel]
    and [chainEdges_fuel]. *)
Fixpoint traceLoop (fuel : nat) (edges : list Edge) (used : gset nat)
    (contour : list Edge) (current : Edge) : list Edge * gset nat :=
  match fuel with
  | O => (contour, used)
  | S fuel' =>
      match scan used current 0 edges with
      | None => (contour, used)
      | Some (j, next) =>
          let contour' := contour ++ [next] in
          let used' := {[j]} ∪ used in
          if meets (endPt next) (startPt (default next (head contour')))
          then (contour', used')
          else traceLoop fuel' edges used' contour' next
      end
  end.

(** The outer [for (i ...)] loop, at index [i] with [rest] the edges from
    [i] on; [fuel] is the fuel handed to every run of the inner loop. *)
Fixpoint traceAll (fuel : nat) (edges : list Edge) (i : nat)
    (rest : list Edge) (used : gset nat) (contours : list (list Edge))
  : list (list Edge) :=
  match rest with
  | [] => contours
  | e :: rest' =>
      if decide (i ∈ used) then traceAll fuel edges (S i) rest' used contours
      else
        let '(contour, used') :=
          traceLoop fuel edges ({[i]} ∪ used) [e] e in
        traceAll fuel edges (S i) rest' used'
          (if (2 <? length contour)%nat
           then contours ++ [contour] else contours)
  end.

Definition chainEdges (edges : list Edge) : list (list Edge) :=
  if decide (length edges = 0%nat) then []
  else traceAll (length edges) edges 0 edges ∅ [].
End tracer.

(** ** Rounding selection and bridge placement

    The body of [regenerateRounding] is the same in the two editors up to
    the occupancy query; it is shared here. *)

(** [arr.forEach((a, i) => ...)] with the loop state made explicit. *)
Fixpoint forEachFrom {A St : Type} (f : A → nat → St → St) (i : nat)
    (l : list A) (s : St) : St :=
  match l with
  | [] => s
  | a :: l' => forEachFrom f (S i) l' (f a i s)
  end.

Definition forEach {A St : Type} (f : A → nat → St → St) (l : list A)
    (s : St) : St := forEachFrom f 0%nat l s.

Section rounding.
Variable Math_sin : Q → Q.
Variables (cornerMode : CornerMode) (roundedRatio seed : Q).

(** One round of the inner [contour.forEach]: the corner at the end of
    [edge], keyed [`${cId}-${i}`], joins the rounded set or not. *)
Definition roundingStep (contour : list Edge) (cId : nat) (edge : Edge)
    (i : nat) (newRoundedCorners : list (nat * nat)) : list (nat * nat) :=
  let cornerType := getCornerType edge (nextEdge contour i edge) in
  if modeExcludes cornerMode cornerType then newRoundedCorners
  else
    let val :=
      pseudoRandom Math_sin (inject_Z (x2 edge)) (inject_Z (y2 edge)) seed in
    if JS.ltb val roundedRatio
    then InsOrd.add (cId, i) newRoundedCorners
    else newRoundedCorners.

Definition roundingPass (contours : list (list Edge)) : list (nat * nat) :=
  forEach (λ contour cId, forEach (roundingStep contour cId) contour)
    contours [].

(** The body of the double loop over lattice points.  The membership map
    only ever stores [true], so it is kept as its list of keys. *)
Definition bridgeStep (hasPixel : Z → Z → bool) (X Y : Z)
    (acc : list Bridge * list Cell) : list Bridge * list Cell :=
  let Ptl := hasPixel (X - 1) (Y - 1) in
  let Ptr := hasPixel X (Y - 1) in
  let Pbl := hasPixel (X - 1) Y in
  let Pbr := hasPixel X Y in
  let acc1 :=
    if Ptl && Pbr && negb Ptr && negb Pbl
       && JS.ltb (pseudoRandom Math_sin (inject_Z X) (inject_Z Y)
                    (seed + 1)%Q) roundedRatio
    then (acc.1 ++ [mkBridge X Y TR_GAP_FILLET; mkBridge X Y BL_GAP_FILLET],
          InsOrd.add (X, Y) acc.2)
    else acc in
  if Ptr && Pbl && negb Ptl && negb Pbr
     && JS.ltb (pseudoRandom Math_sin (inject_Z X) (inject_Z Y)
                  (seed + 2)%Q) roundedRatio
  then (acc1.1 ++ [mkBridge X Y BR_GAP_FILLET; mkBridge X Y TL_GAP_FILLET],
        InsOrd.add (X, Y) acc1.2)
  else acc1.

(** [if (cornerMode !== 'outer' && size > 0) for X ... for Y ...] *)
Definition bridgePass (hasPixel : Z → Z → bool) (size : nat)
    (gridWidth gridHeight : Z) : list Bridge * list Cell :=
  if negb (bool_decide (cornerMode = outer)) && (0 <? size)%nat
  then
    fold_left
      (λ acc X,
         fold_left (λ acc Y, bridgeStep hasPixel X Y acc)
           (JS.range 1 gridHeight) acc)
      (JS.range 1 gridWidth) ([], [])
  else ([], []).
End rounding.

(** ** The monochrome editor *)

Module Mono.

Inductive Tool := brush | eraser.

Record State := mkState {
  pixels : list Cell;
  isDrawing : bool;
  history : list (list Cell);
  redoStack : list (list Cell);
  roundness : Q;
  roundedRatio : Q;
  brushSize : Z;
  tool : Tool;
  roundedCorners : list (nat * nat);
  bridges : list Bridge;
  bridgeMap : list Cell;
  cornerMode : CornerMode;
  seed : Q;
  aspectRatio : Q;
  lastActivePixel : option Cell;
  gridWidth : Z;
  gridHeight : Z
}.

(** The state of a freshly mounted editor. *)
Definition initial : State :=
  mkState [] false [] [] 0.4 0.7 1 brush [] [] [] random 12345 1 None 32 32.

Definition setPixels (v : list Cell) (s : State) : State :=
  mkState v (isDrawing s) (history s) (redoStack s) (roundness s)
    (roundedRatio s) (brushSize s) (tool s) (roundedCorners s) (bridges s)
    (bridgeMap s) (cornerMode s) (seed s) (aspectRatio s)
    (lastActivePixel s) (gridWidth s) (gridHeight s).

Definition setHistory (v : list (list Cell)) (s : State) : State :=
  mkState (pixels s) (isDrawing s) v (redoStack s) (roundness s)
    (roundedRatio s) (brushSize s) (tool s) (roundedCorners s) (bridges s)
    (bridgeMap s) (cornerMode s) (seed s) (aspectRatio s)
    (lastActivePixel s) (gridWidth s) (gridHeight s).

Definition setRedoStack (v : list (list Cell)) (s : State) : State :=
  mkState (pixels s) (isDrawing s) (history s) v (roundness s)
    (roundedRatio s) (brushSize s) (tool s) (roundedCorners s) (bridges s)
    (bridgeMap s) (cornerMode s) (seed s) (aspectRatio s)
    (lastActivePixel s) (gridWidth s) (gridHeight s).

Definition setRoundness (v : Q) (s : State) : State :=
  mkState (pixels s) (isDrawing s) (history s) (redoStack s) v
    (roundedRatio s) (brushSize s) (tool s) (roundedCorners s) (bridges s)
    (bridgeMap s) (cornerMode s) (seed s) (aspectRatio s)
    (lastActivePixel s) (gridWidth s) (gridHeight s).

Definition setRoundedRatio (v : Q) (s : State) : State :=
  mkState (pixels s) (isDrawing s) (history s) (redoStack s) (roundness s)
    v (brushSize s) (tool s) (roundedCorners s) (bridges s)
    (bridgeMap s) (cornerMode s) (seed s) (aspectRatio s)
    (lastActivePixel s) (gridWidth s) (gridHeight s).

Definition setRoundedCorners (v : list (nat * nat)) (s : State) : State :=
  mkState (pixels s) (isDrawing s) (history s) (redoStack s) (roundness s)
    (roundedRatio s) (brushSize s) (tool s) v (bridges s)
    (bridgeMap s) (cornerMode s) (seed s) (aspectRatio s)
    (lastActivePixel s) (gridWidth s) (gridHeight s).

Definition setBridges (v : list Bridge) (s : State) : State :=
  mkState (pixels s) (isDrawing s) (history s) (redoStack s) (roundness s)
    (roundedRatio s) (brushSize s) (tool s) (roundedCorners s) v
    (bridgeMap s) (cornerMode s) (seed s) (aspectRatio s)
    (lastActivePixel s) (gridWidth s) (gridHeight s).

Definition setBridgeMap (v : list Cell) (s : State) : State :=
  mkState (pixels s) (isDrawing s) (history s) (redoStack s) (roundness s)
    (roundedRatio s) (brushSize s) (tool s) (roundedCorners s) (bridges s)
    v (cornerMode s) (seed s) (aspectRatio s)
    (lastActivePixel s) (gridWidth s) (gridHeight s).

Definition setLastActivePixel (v : option Cell) (s : State) : State :=
  mkState (pixels s) (isDrawing s) (history s) (redoStack s) (roundness s)
    (roundedRatio s) (brushSize s) (tool s) (roundedCorners s) (bridges s)
    (bridgeMap s) (cornerMode s) (seed s) (aspectRatio s)
    v (gridWidth s) (gridHeight s).

Definition setGridWidth (v : Z) (s : State) : State :=
  mkState (pixels s) (isDrawing s) (history s) (redoStack s) (roundness s)
    (roundedRatio s) (brushSize s) (tool s) (roundedCorners s) (bridges s)
    (bridgeMap s) (cornerMode s) (seed s) (aspectRatio s)
    (lastActivePixel s) v (gridHeight s).

(** *** Grid store *)

(** The body of the two brush loops for one cell of the brush square. *)
Definition paintCell (gridWidth gridHeight : Z) (actionType : Tool)
    (px py : Z) (next : list Cell) : list Cell :=
  if (0 <=? px) && (px <? gridWidth) && (0 <=? py) && (py <? gridHeight)
  then match actionType with
       | brush => InsOrd.add (px, py) next
       | eraser => InsOrd.delete (px, py) next
       end
  else next.

Definition updatePixels (points : list Cell) (actionType : Tool)
    (s : State) : State :=
  let offset := brushSize s / 2 in
  let next :=
    fold_left
      (λ next pt,
         fold_left
           (λ next dy,
              fold_left
                (λ next dx,
                   paintCell (gridWidth s) (gridHeight s) actionType
                     (pt.1 + dx - offset) (pt.2 + dy - offset) next)
                (JS.range 0 (brushSize s)) next)
           (JS.range 0 (brushSize s)) next)
      points (pixels s) in
  setPixels next s.

(** *** History *)

Definition saveToHistory (s : State) : State :=
  match last (history s) with
  | Some lastState =>
      if InsOrd.same_elements lastState (pixels s) then s
      else setRedoStack []
             (setHistory (JS.slice_last 50 (history s ++ [pixels s])) s)
  | None =>
      setRedoStack []
        (setHistory (JS.slice_last 50 (history s ++ [pixels s])) s)
  end.

Definition handleUndo (s : State) : State :=
  match last (history s) with
  | None => s
  | Some previousState =>
      setLastActivePixel None
        (setHistory (JS.slice_init (history s))
           (setPixels previousState
              (setRedoStack (pixels s :: redoStack s) s)))
  end.

Definition handleRedo (s : State) : State :=
  match redoStack s with
  | [] => s
  | nextState :: newRedoStack =>
      setRedoStack newRedoStack
        (setPixels nextState (setHistory (history s ++ [pixels s]) s))
  end.

(** *** Contours *)

(** [Math.abs(a - b) < 0.01] *)
Definition near (a b : Z) : bool :=
  JS.ltb (Qabs (inject_Z (a - b))) 0.01.

Definition meets (p q : Cell) : bool := near p.1 q.1 && near p.2 q.2.

Definition hasPixel (s : State) (x y : Z) : bool :=
  InsOrd.has (x, y) (pixels s).

(** The edge list built by the first loop of [findContour]; a stored cell
    outside the current grid contributes nothing. *)
Definition boundaryEdges (s : State) : list Edge :=
  flat_map
    (λ key : Cell,
       let (x, y) := key in
       if (gridWidth s <=? x) || (gridHeight s <=? y) || (x <? 0)
          || (y <? 0)
       then []
       else cellEdges (hasPixel s) x y)
    (pixels s).

Definition findContour (s : State) : list (list Edge) :=
  chainEdges meets (boundaryEdges s).

(** *** Rounding and bridges *)

Definition regenerateRounding (Math_sin : Q → Q) (s : State) : State :=
  let contours := findContour s in
  let newRoundedCorners :=
    roundingPass Math_sin (cornerMode s) (roundedRatio s) (seed s)
      contours in
  let newBridges :=
    bridgePass Math_sin (cornerMode s) (roundedRatio s) (seed s)
      (hasPixel s) (length (pixels s)) (gridWidth s) (gridHeight s) in
  setBridgeMap newBridges.2
    (setBridges newBridges.1 (setRoundedCorners newRoundedCorners s)).

End Mono.

(** ** Paths

    The canvas calls issued on the 2D context, and the commands of the
    [d] attribute of the exported SVG path.  Numbers are kept as numbers:
    their printing in the SVG text is not modelled. *)

Inductive CanvasOp :=
  | fillStyle (color : string)
  | fillRect (x y w h : Q)
  | beginPath
  | strokeStyle (color : string)
  | lineWidth (w : Q)
  | moveTo (x y : Q)
  | lineTo (x y : Q)
  | arcTo (x1 y1 x2 y2 radius : Q)
  | quadraticCurveTo (cpx cpy x y : Q)
  | closePath
  | stroke
  | fill (rule : string).

Inductive PathCmd :=
  | svgM (x y : Q)
  | svgL (x y : Q)
  | svgQ (cpx cpy x y : Q)
  | svgZ.

Record DisplayMetrics := mkMetrics {
  visualPixelWidth : Q;
  visualPixelHeight : Q;
  scaleFactor : Q;
  displayWidth : Z;
  displayHeight : Z
}.

Definition MAX_DISPLAY_SIZE : Q := 700.

Definition getDisplayMetrics (gridWidth gridHeight : Z) (aspectRatio : Q)
  : DisplayMetrics :=
  let totalGridWidth := JS.double (inject_Z gridWidth * aspectRatio) in
  let totalGridHeight := inject_Z gridHeight in
  let scaleFactor :=
    JS.double (MAX_DISPLAY_SIZE / JS.max totalGridWidth totalGridHeight) in
  let visualPixelWidth := JS.double (scaleFactor * aspectRatio) in
  let visualPixelHeight := scaleFactor in
  mkMetrics visualPixelWidth visualPixelHeight scaleFactor
    (JS.round (JS.double (inject_Z gridWidth * visualPixelWidth)))
    (JS.round (JS.double (inject_Z gridHeight * visualPixelHeight))).

(** The four points of the rounding of the corner at the end of [edge]:
    the back-off point on the incoming edge and the forward point on the
    outgoing edge, [maxR] away from the vertex [(px, py)].
    [d !== 0 ? Math.sign(d) * maxR : 0] in the monochrome editor and
    [(Math.sign(d) || 0) * maxR] in the colored one agree on integers. *)
Definition signedStep (d : Z) (maxR : Q) : Q :=
  if bool_decide (d ≠ 0) then (JS.sign d * maxR)%Q else 0%Q.

Module Render.
Section mono.
Import Mono.
Variable s : State.

Definition metrics : DisplayMetrics :=
  getDisplayMetrics (gridWidth s) (gridHeight s) (aspectRatio s).

(** [drawBridgeFillet(ctx, b, r, isSvg)]: the path text when [isSvg],
    the context calls otherwise. *)
Definition drawBridgeFillet (b : Bridge) (r : Q) (isSvg : bool)
  : list PathCmd * list CanvasOp :=
  let cx := (inject_Z (bX b) * visualPixelWidth metrics)%Q in
  let cy := (inject_Z (bY b) * visualPixelHeight metrics)%Q in
  let minDim :=
    JS.min (visualPixelWidth metrics) (visualPixelHeight metrics) in
  let maxR := JS.min r (minDim * 0.5)%Q in
  let '(sx, sy, ex, ey) :=
    match quadrant b with
    | TR_GAP_FILLET => (cx, cy - maxR, cx + maxR, cy)
    | BL_GAP_FILLET => (cx - maxR, cy, cx, cy + maxR)
    | BR_GAP_FILLET => (cx + maxR, cy, cx, cy + maxR)
    | TL_GAP_FILLET => (cx, cy - maxR, cx - maxR, cy)
    end%Q in
  if isSvg
  then ([svgM sx sy; svgQ cx cy ex ey; svgL cx cy; svgZ], [])
  else ([], [moveTo sx sy; quadraticCurveTo cx cy ex ey; lineTo cx cy;
             lineTo sx sy]).

(** [shouldRound] as both renderers compute it for the corner [i] of
    contour [contourId]. *)
Definition shouldRound (contourId i : nat) (edge : Edge) : bool :=
  if InsOrd.has (x2 edge, y2 edge) (bridgeMap s) then false
  else InsOrd.has (contourId, i) (roundedCorners s).

(** The body of [contour.forEach] in [drawScene]. *)
Definition drawCorner (r minDim : Q) (contour : list Edge)
    (contourId i : nat) (edge : Edge) : list CanvasOp :=
  let next := nextEdge contour i edge in
  let px := (inject_Z (x2 edge) * visualPixelWidth metrics)%Q in
  let py := (inject_Z (y2 edge) * visualPixelHeight metrics)%Q in
  if shouldRound contourId i edge && JS.gtb r 0
  then
    let dx1 := x2 edge - x1 edge in
    let dy1 := y2 edge - y1 edge in
    let dx2 := x2 next - x1 next in
    let dy2 := y2 next - y1 next in
    let maxR := JS.min r (minDim * 0.5)%Q in
    let backX := (px - signedStep dx1 maxR)%Q in
    let backY := (py - signedStep dy1 maxR)%Q in
    let fwdX := (px + signedStep dx2 maxR)%Q in
    let fwdY := (py + signedStep dy2 maxR)%Q in
    [lineTo backX backY; arcTo px py fwdX fwdY maxR]
  else [lineTo px py].

Definition drawContour (r minDim : Q) (contourId : nat)
    (contour : list Edge) : list CanvasOp :=
  (match contour with
   | e0 :: _ =>
       [moveTo (inject_Z (x1 e0) * visualPixelWidth metrics)%Q
               (inject_Z (y1 e0) * visualPixelHeight metrics)%Q]
   | [] => []
   end)
  ++ concat (imap (drawCorner r minDim contour contourId) contour)
  ++ [closePath].

Definition drawGridLines : list CanvasOp :=
  [beginPath; strokeStyle "#e5e7eb"; lineWidth 0.5]
  ++ flat_map
       (λ i, let xPos := (inject_Z i * visualPixelWidth metrics)%Q in
             [moveTo xPos 0; lineTo xPos (inject_Z (displayHeight metrics))])
       (JS.range 0 (gridWidth s + 1))
  ++ flat_map
       (λ i, let yPos := (inject_Z i * visualPixelHeight metrics)%Q in
             [moveTo 0 yPos; lineTo (inject_Z (displayWidth metrics)) yPos])
       (JS.range 0 (gridHeight s + 1))
  ++ [stroke].

(** The filled silhouette path of [drawScene]: contours, then bridges. *)
Definition drawSilhouette : list CanvasOp :=
  let contours := findContour s in
  let minDim :=
    JS.min (visualPixelWidth metrics) (visualPixelHeight metrics) in
  let r := (roundness s * minDim)%Q in
  concat (imap (drawContour r minDim) contours)
  ++ (if (0 <? length (bridges s))%nat && JS.gtb r 0
      then flat_map (λ b, (drawBridgeFillet b (r * minDim)%Q false).2)
             (bridges s)
      else []).

Definition drawScene (isExport : bool) : list CanvasOp :=
  [fillStyle "#ffffff";
   fillRect 0 0 (inject_Z (displayWidth metrics))
     (inject_Z (displayHeight metrics))]
  ++ (if isExport then [] else drawGridLines)
  ++ (if decide (length (pixels s) = 0%nat) then []
      else [fillStyle "#000000"; beginPath] ++ drawSilhouette
           ++ [fill "evenodd"]).

(** The body of [contour.forEach] in [getSVGString]. *)
Definition svgCorner (r minDim : Q) (contour : list Edge)
    (contourId i : nat) (edge : Edge) : list PathCmd :=
  let next := nextEdge contour i edge in
  let px := (inject_Z (x2 edge) * visualPixelWidth metrics)%Q in
  let py := (inject_Z (y2 edge) * visualPixelHeight metrics)%Q in
  if shouldRound contourId i edge && JS.gtb r 0
  then
    let dx1 := x2 edge - x1 edge in
    let dy1 := y2 edge - y1 edge in
    let dx2 := x2 next - x1 next in
    let dy2 := y2 next - y1 next in
    let maxR := JS.min r (minDim * 0.5)%Q in
    let backX := (px - signedStep dx1 maxR)%Q in
    let backY := (py - signedStep dy1 maxR)%Q in
    let fwdX := (px + signedStep dx2 maxR)%Q in
    let fwdY := (py + signedStep dy2 maxR)%Q in
    [svgL backX backY; svgQ px py fwdX fwdY]
  else [svgL px py].

Definition svgContour (r minDim : Q) (contourId : nat)
    (contour : list Edge) : list PathCmd :=
  match contour with
  | [] => []
  | e0 :: _ =>
      [svgM (inject_Z (x1 e0) * visualPixelWidth metrics)%Q
            (inject_Z (y1 e0) * visualPixelHeight metrics)%Q]
      ++ concat (imap (svgCorner r minDim contour contourId) contour)
      ++ [svgZ]
  end.

(** The [d] attribute built by [getSVGString]. *)
Definition pathData : list PathCmd :=
  let contours := findContour s in
  let minDim :=
    JS.min (visualPixelWidth metrics) (visualPixelHeight metrics) in
  let r := (roundness s * minDim)%Q in
  concat (imap (svgContour r minDim) contours)
  ++ (if (0 <? length (bridges s))%nat && JS.gtb r 0
      then flat_map (λ b, (drawBridgeFillet b r true).1) (bridges s)
      else []).

Record SvgDocument := mkSvg {
  svgWidth : Z;
  svgHeight : Z;
  svgBackground : string;
  svgPath : list PathCmd;
  svgFill : string;
  svgFillRule : string
}.

Definition getSVGString : SvgDocument :=
  mkSvg (displayWidth metrics) (displayHeight metrics) "white" pathData
    "black" "evenodd".
End mono.
End Render.

(** ** The colored editor *)

Module Colored.

Inductive Tool := brush | eraser | eyedropper.

Abbreviation PixelMap := (list (Cell * string)).

Record State := mkState {
  pixelMap : PixelMap;
  isDrawing : bool;
  tool : Tool;
  brushSize : Z;
  currentColor : string;
  history : list PixelMap;
  redoStack : list PixelMap;
  roundness : Q;
  roundedRatio : Q;
  roundedCorners : list (nat * nat);
  cornerMode : CornerMode;
  bridges : list Bridge;
  bridgeMap : list Cell;
  seed : Q;
  aspectRatio : Q;
  gridWidth : Z;
  gridHeight : Z
}.

(** The state of a freshly mounted editor. *)
Definition initial : State :=
  mkState [] false brush 1 "#000000" [] [] 0.4 0.7 [] random [] [] 12345 1
    32 32.

Definition setPixelMap (v : PixelMap) (s : State) : State :=
  mkState v (isDrawing s) (tool s) (brushSize s) (currentColor s)
    (history s) (redoStack s) (roundness s) (roundedRatio s)
    (roundedCorners s) (cornerMode s) (bridges s) (bridgeMap s) (seed s)
    (aspectRatio s) (gridWidth s) (gridHeight s).

Definition setHistory (v : list PixelMap) (s : State) : State :=
  mkState (pixelMap s) (isDrawing s) (tool s) (brushSize s) (currentColor s)
    v (redoStack s) (roundness s) (roundedRatio s)
    (roundedCorners s) (cornerMode s) (bridges s) (bridgeMap s) (seed s)
    (aspectRatio s) (gridWidth s) (gridHeight s).

Definition setRedoStack (v : list PixelMap) (s : State) : State :=
  mkState (pixelMap s) (isDrawing s) (tool s) (brushSize s) (currentColor s)
    (history s) v (roundness s) (roundedRatio s)
    (roundedCorners s) (cornerMode s) (bridges s) (bridgeMap s) (seed s)
    (aspectRatio s) (gridWidth s) (gridHeight s).

Definition setRoundedCorners (v : list (nat * nat)) (s : State) : State :=
  mkState (pixelMap s) (isDrawing s) (tool s) (brushSize s) (currentColor s)
    (history s) (redoStack s) (roundness s) (roundedRatio s)
    v (cornerMode s) (bridges s) (bridgeMap s) (seed s)
    (aspectRatio s) (gridWidth s) (gridHeight s).

Definition setBridges (v : list Bridge) (s : State) : State :=
  mkState (pixelMap s) (isDrawing s) (tool s) (brushSize s) (currentColor s)
    (history s) (redoStack s) (roundness s) (roundedRatio s)
    (roundedCorners s) (cornerMode s) v (bridgeMap s) (seed s)
    (aspectRatio s) (gridWidth s) (gridHeight s).

Definition setBridgeMap (v : list Cell) (s : State) : State :=
  mkState (pixelMap s) (isDrawing s) (tool s) (brushSize s) (currentColor s)
    (history s) (redoStack s) (roundness s) (roundedRatio s)
    (roundedCorners s) (cornerMode s) (bridges s) v (seed s)
    (aspectRatio s) (gridWidth s) (gridHeight s).

(** *** Grid store *)

Definition paintCell (gridWidth gridHeight : Z) (actionType : Tool)
    (currentColor : string) (px py : Z) (next : PixelMap) : PixelMap :=
  if (0 <=? px) && (px <? gridWidth) && (0 <=? py) && (py <? gridHeight)
  then match actionType with
       | brush => InsOrd.mset (px, py) currentColor next
       | eraser => InsOrd.mdelete (px, py) next
       | eyedropper => next
       end
  else next.

Definition updatePixels (points : list Cell) (actionType : Tool)
    (s : State) : State :=
  let offset := brushSize s / 2 in
  let next :=
    fold_left
      (λ next pt,
         fold_left
           (λ next dy,
              fold_left
                (λ next dx,
                   paintCell (gridWidth s) (gridHeight s) actionType
                     (currentColor s)
                     (pt.1 + dx - offset) (pt.2 + dy - offset) next)
                (JS.range 0 (brushSize s)) next)
           (JS.range 0 (brushSize s)) next)
      points (pixelMap s) in
  setPixelMap next s.

(** *** History *)

Definition saveToHistory (s : State) : State :=
  let currentMap := pixelMap s in
  match last (history s) with
  | Some lastState =>
      if bool_decide (length lastState = length currentMap)
         && bool_decide (length lastState = 0%nat)
      then s
      else setRedoStack []
             (setHistory (JS.slice_last 50 (history s ++ [currentMap])) s)
  | None =>
      setRedoStack []
        (setHistory (JS.slice_last 50 (history s ++ [currentMap])) s)
  end.

Definition handleUndo (s : State) : State :=
  match last (history s) with
  | None => s
  | Some prev =>
      setHistory (JS.slice_init (history s))
        (setPixelMap prev (setRedoStack (pixelMap s :: redoStack s) s))
  end.

Definition handleRedo (s : State) : State :=
  match redoStack s with
  | [] => s
  | next :: rest =>
      setRedoStack rest
        (setPixelMap next (setHistory (history s ++ [pixelMap s]) s))
  end.

(** *** Contours *)

(** [current.x2 === next.x1 && current.y2 === next.y1] *)
Definition meets (p q : Cell) : bool :=
  bool_decide (p.1 = q.1) && bool_decide (p.2 = q.2).

Definition hasPixel (s : State) (x y : Z) : bool :=
  InsOrd.mhas (x, y) (pixelMap s).

Definition boundaryEdges (s : State) : list Edge :=
  flat_map (λ key : Cell, cellEdges (hasPixel s) key.1 key.2)
    (pixelMap s).*1.

Definition findContour (s : State) : list (list Edge) :=
  chainEdges meets (boundaryEdges s).

(** *** Rounding and bridges *)

Definition regenerateRounding (Math_sin : Q → Q) (s : State) : State :=
  let contours := findContour s in
  let newCorners :=
    roundingPass Math_sin (cornerMode s) (roundedRatio s) (seed s)
      contours in
  let newBridges :=
    bridgePass Math_sin (cornerMode s) (roundedRatio s) (seed s)
      (hasPixel s) (length (pixelMap s)) (gridWidth s) (gridHeight s) in
  setBridgeMap newBridges.2
    (setBridges newBridges.1 (setRoundedCorners newCorners s)).

End Colored.

(** ** Lines on the grid

    [getLinePixels], Bresenham's algorithm, is the same in the two
    editors. *)

(** The [while (true)] loop, with the loop variables [x0], [y0], [err] and
    [points]; [None] when [fuel] rounds were not enough to reach the
    [break]. *)
Fixpoint lineLoop (fuel : nat) (x1 y1 dx dy sx sy : Z) (x0 y0 err : Z)
    (points : list Cell) : option (list Cell) :=
  match fuel with
  | O => None
  | S fuel' =>
      let points := points ++ [(x0, y0)] in
      if (x0 =? x1) && (y0 =? y1) then Some points
      else
        let e2 := 2 * err in
        let '(err, x0) :=
          if - dy <? e2 then (err - dy, x0 + sx) else (err, x0) in
        let '(err, y0) :=
          if e2 <? dx then (err + dx, y0 + sy) else (err, y0) in
        lineLoop fuel' x1 y1 dx dy sx sy x0 y0 err points
  end.

(** [getLinePixels] run for at most [fuel] rounds of its loop. *)
Definition getLinePixelsWithin (fuel : nat) (x0 y0 x1 y1 : Z)
  : option (list Cell) :=
  let dx := Z.abs (x1 - x0) in
  let dy := Z.abs (y1 - y0) in
  let sx := if x0 <? x1 then 1 else -1 in
  let sy := if y0 <? y1 then 1 else -1 in
  lineLoop fuel x1 y1 dx dy sx sy x0 y0 (dx - dy) [].

(** The number of rounds the loop takes: one per step along the longer
    side of the bounding box, and the one that breaks
    (see [getLinePixels_returns]). *)
Definition lineRounds (x0 y0 x1 y1 : Z) : nat :=
  S (Z.to_nat (Z.max (Z.abs (x1 - x0)) (Z.abs (y1 - y0)))).

Definition getLinePixels (x0 y0 x1 y1 : Z) : list Cell :=
  default [] (getLinePixelsWithin (lineRounds x0 y0 x1 y1) x0 y0 x1 y1).
(** ** Pointer and keyboard events

    The fields of the DOM events that the handlers read. *)

Module Pointer.
Record Event := mkEvent {
  clientX : Q;
  clientY : Q;
  shiftKey : bool;
  metaKey : bool;
  ctrlKey : bool;
  altKey : bool
}.
End Pointer.

Module Keyboard.
Record Event := mkEvent {
  key : string;
  shiftKey : bool;
  metaKey : bool;
  ctrlKey : bool
}.
End Keyboard.

(** The box of the brush cursor, in CSS pixels relative to the canvas. *)
Module Cursor.
Record Style := mkStyle { width : Q; height : Q; left : Q; top : Q }.
End Cursor.

(** [canvas.getBoundingClientRect()]: the corner of the canvas element on
    the page. *)
Record Rect := mkRect { rectLeft : Q; rectTop : Q }.

(** [getPixelCoords(clientX, clientY)]; [canvas] is [canvasRef.current],
    absent before the canvas is mounted.  The subtractions and the
    divisions are rounded to doubles.  The visual cell sizes are positive
    for a grid with positive sizes and aspect ratio; a division by zero is
    not modelled. *)
Definition getPixelCoords (canvas : option Rect) (m : DisplayMetrics)
    (clientX clientY : Q) : Cell :=
  match canvas with
  | None => (0, 0)
  | Some rect =>
      let relX := JS.double (clientX - rectLeft rect) in
      let relY := JS.double (clientY - rectTop rect) in
      (Qfloor (JS.double (relX / visualPixelWidth m)),
       Qfloor (JS.double (relY / visualPixelHeight m)))
  end.

(** The Shift+Drag lock of [handlePointerMove]: the pointer cell [(x, y)]
    is moved onto the row or the column of the cell the stroke started
    at, whichever the pointer moved further along. *)
Definition orthogonalLock (strokeOrigin : Cell) (x y : Z) : Cell :=
  let dx := Z.abs (x - strokeOrigin.1) in
  let dy := Z.abs (y - strokeOrigin.2) in
  if dy <? dx then (x, strokeOrigin.2) else (strokeOrigin.1, y).

#[global] Instance MonoTool_eq_dec : EqDecision Mono.Tool.
Proof. solve_decision. Defined.
#[global] Instance ColoredTool_eq_dec : EqDecision Colored.Tool.
Proof. solve_decision. Defined.

(** ** The monochrome editor: pointer, keyboard and buttons *)

Module MonoUI.

(** The editor state, with the part of the component state that only the
    event handlers use. *)
Record View := mkView {
  editor : Mono.State;
  strokeOrigin : option Cell;
  cursorX : Q;
  cursorY : Q;
  isCursorVisible : bool
}.

Definition initial : View := mkView Mono.initial None 0 0 false.

Definition setEditor (s : Mono.State) (v : View) : View :=
  mkView s (strokeOrigin v) (cursorX v) (cursorY v) (isCursorVisible v).

Definition setStrokeOrigin (o : option Cell) (v : View) : View :=
  mkView (editor v) o (cursorX v) (cursorY v) (isCursorVisible v).

Definition setCursor (x y : Q) (v : View) : View :=
  mkView (editor v) (strokeOrigin v) x y (isCursorVisible v).

Definition setIsCursorVisible (b : bool) (v : View) : View :=
  mkView (editor v) (strokeOrigin v) (cursorX v) (cursorY v) b.

Definition setIsDrawing (b : bool) (s : Mono.State) : Mono.State :=
  Mono.mkState (Mono.pixels s) b (Mono.history s) (Mono.redoStack s)
    (Mono.roundness s) (Mono.roundedRatio s) (Mono.brushSize s)
    (Mono.tool s) (Mono.roundedCorners s) (Mono.bridges s)
    (Mono.bridgeMap s) (Mono.cornerMode s) (Mono.seed s)
    (Mono.aspectRatio s) (Mono.lastActivePixel s) (Mono.gridWidth s)
    (Mono.gridHeight s).

Definition setTool (t : Mono.Tool) (s : Mono.State) : Mono.State :=
  Mono.mkState (Mono.pixels s) (Mono.isDrawing s) (Mono.history s)
    (Mono.redoStack s) (Mono.roundness s) (Mono.roundedRatio s)
    (Mono.brushSize s) t (Mono.roundedCorners s) (Mono.bridges s)
    (Mono.bridgeMap s) (Mono.cornerMode s) (Mono.seed s)
    (Mono.aspectRatio s) (Mono.lastActivePixel s) (Mono.gridWidth s)
    (Mono.gridHeight s).

Definition setBrushSize (n : Z) (s : Mono.State) : Mono.State :=
  Mono.mkState (Mono.pixels s) (Mono.isDrawing s) (Mono.history s)
    (Mono.redoStack s) (Mono.roundness s) (Mono.roundedRatio s)
    n (Mono.tool s) (Mono.roundedCorners s) (Mono.bridges s)
    (Mono.bridgeMap s) (Mono.cornerMode s) (Mono.seed s)
    (Mono.aspectRatio s) (Mono.lastActivePixel s) (Mono.gridWidth s)
    (Mono.gridHeight s).

Definition setCornerMode (m : CornerMode) (s : Mono.State) : Mono.State :=
  Mono.mkState (Mono.pixels s) (Mono.isDrawing s) (Mono.history s)
    (Mono.redoStack s) (Mono.roundness s) (Mono.roundedRatio s)
    (Mono.brushSize s) (Mono.tool s) (Mono.roundedCorners s)
    (Mono.bridges s) (Mono.bridgeMap s) m (Mono.seed s)
    (Mono.aspectRatio s) (Mono.lastActivePixel s) (Mono.gridWidth s)
    (Mono.gridHeight s).

Definition setSeed (seed : Q) (s : Mono.State) : Mono.State :=
  Mono.mkState (Mono.pixels s) (Mono.isDrawing s) (Mono.history s)
    (Mono.redoStack s) (Mono.roundness s) (Mono.roundedRatio s)
    (Mono.brushSize s) (Mono.tool s) (Mono.roundedCorners s)
    (Mono.bridges s) (Mono.bridgeMap s) (Mono.cornerMode s) seed
    (Mono.aspectRatio s) (Mono.lastActivePixel s) (Mono.gridWidth s)
    (Mono.gridHeight s).

Definition setAspectRatio (a : Q) (s : Mono.State) : Mono.State :=
  Mono.mkState (Mono.pixels s) (Mono.isDrawing s) (Mono.history s)
    (Mono.redoStack s) (Mono.roundness s) (Mono.roundedRatio s)
    (Mono.brushSize s) (Mono.tool s) (Mono.roundedCorners s)
    (Mono.bridges s) (Mono.bridgeMap s) (Mono.cornerMode s) (Mono.seed s)
    a (Mono.lastActivePixel s) (Mono.gridWidth s) (Mono.gridHeight s).

(** [isTempEraser ? (tool === 'brush' ? 'eraser' : 'brush') : tool] *)
Definition effectiveTool (e : Pointer.Event) (tool : Mono.Tool)
  : Mono.Tool :=
  if Pointer.metaKey e || Pointer.ctrlKey e
  then match tool with Mono.brush => Mono.eraser | _ => Mono.brush end
  else tool.

Definition handlePointerDown (canvas : option Rect) (e : Pointer.Event)
    (v : View) : View :=
  let s := editor v in
  let effectiveTool := effectiveTool e (Mono.tool s) in
  let s1 := setIsDrawing true (Mono.saveToHistory s) in
  let '(x, y) :=
    getPixelCoords canvas (Render.metrics s) (Pointer.clientX e)
      (Pointer.clientY e) in
  let s2 :=
    match Mono.lastActivePixel s with
    | Some lastActivePixel =>
        if Pointer.shiftKey e && bool_decide (Mono.tool s = Mono.brush)
        then Mono.updatePixels
               (getLinePixels lastActivePixel.1 lastActivePixel.2 x y)
               effectiveTool s1
        else Mono.updatePixels [(x, y)] effectiveTool s1
    | None => Mono.updatePixels [(x, y)] effectiveTool s1
    end in
  setEditor (Mono.setLastActivePixel (Some (x, y)) s2)
    (setStrokeOrigin (Some (x, y)) v).

Definition handlePointerMove (canvas : option Rect) (e : Pointer.Event)
    (v : View) : View :=
  let s := editor v in
  let m := Render.metrics s in
  match canvas with
  | None => v
  | Some _ =>
      let '(x, y) :=
        getPixelCoords canvas m (Pointer.clientX e) (Pointer.clientY e) in
      let '(x, y) :=
        match strokeOrigin v with
        | Some origin =>
            if Mono.isDrawing s && Pointer.shiftKey e
            then orthogonalLock origin x y
            else (x, y)
        | None => (x, y)
        end in
      let v1 :=
        setCursor (inject_Z x * visualPixelWidth m)
          (inject_Z y * visualPixelHeight m) v in
      if negb (Mono.isDrawing s) then v1
      else
        setEditor
          (Mono.setLastActivePixel (Some (x, y))
             (Mono.updatePixels [(x, y)] (effectiveTool e (Mono.tool s)) s))
          v1
  end.

Definition handlePointerUp (v : View) : View :=
  setStrokeOrigin None (setEditor (setIsDrawing false (editor v)) v).

(** The [onPointerLeave] and [onPointerEnter] handlers of the canvas. *)
Definition onPointerLeave (v : View) : View :=
  setIsCursorVisible false (setEditor (setIsDrawing false (editor v)) v).

Definition onPointerEnter (v : View) : View := setIsCursorVisible true v.

Definition handleKeyDown (e : Keyboard.Event) (v : View) : View :=
  let s := editor v in
  let s1 :=
    if (Keyboard.metaKey e || Keyboard.ctrlKey e)
       && bool_decide (Keyboard.key e = "z")
    then if Keyboard.shiftKey e then Mono.handleRedo s
         else Mono.handleUndo s
    else s in
  let s2 :=
    if bool_decide (Keyboard.key e = "b") then setTool Mono.brush s1
    else s1 in
  let s3 :=
    if bool_decide (Keyboard.key e = "e") then setTool Mono.eraser s2
    else s2 in
  setEditor s3 v.

(** The geometry of [cursorStyle]. *)
Definition cursorStyle (v : View) : Cursor.Style :=
  let s := editor v in
  let m := Render.metrics s in
  let brushScreenSizeW :=
    (inject_Z (Mono.brushSize s) * visualPixelWidth m)%Q in
  let brushScreenSizeH :=
    (inject_Z (Mono.brushSize s) * visualPixelHeight m)%Q in
  let brushCenterOffsetW :=
    (inject_Z (Mono.brushSize s / 2) * visualPixelWidth m)%Q in
  let brushCenterOffsetH :=
    (inject_Z (Mono.brushSize s / 2) * visualPixelHeight m)%Q in
  Cursor.mkStyle brushScreenSizeW brushScreenSizeH
    (cursorX v - brushCenterOffsetW) (cursorY v - brushCenterOffsetH).

Definition clearCanvas (s : Mono.State) : Mono.State :=
  Mono.setLastActivePixel None
    (Mono.setBridgeMap []
       (Mono.setBridges []
          (Mono.setRoundedCorners []
             (Mono.setPixels [] (Mono.saveToHistory s))))).

End MonoUI.

(** ** The colored editor: pointer, keyboard and buttons *)

Module ColoredUI.

Record View := mkView {
  editor : Colored.State;
  lastActivePixel : option Cell;
  strokeOrigin : option Cell;
  cursorX : Q;
  cursorY : Q;
  isCursorVisible : bool
}.

Definition initial : View := mkView Colored.initial None None 0 0 false.

Definition setEditor (s : Colored.State) (v : View) : View :=
  mkView s (lastActivePixel v) (strokeOrigin v) (cursorX v) (cursorY v)
    (isCursorVisible v).

Definition setLastActivePixel (p : option Cell) (v : View) : View :=
  mkView (editor v) p (strokeOrigin v) (cursorX v) (cursorY v)
    (isCursorVisible v).

Definition setStrokeOrigin (o : option Cell) (v : View) : View :=
  mkView (editor v) (lastActivePixel v) o (cursorX v) (cursorY v)
    (isCursorVisible v).

Definition setCursor (x y : Q) (v : View) : View :=
  mkView (editor v) (lastActivePixel v) (strokeOrigin v) x y
    (isCursorVisible v).

Definition setIsCursorVisible (b : bool) (v : View) : View :=
  mkView (editor v) (lastActivePixel v) (strokeOrigin v) (cursorX v)
    (cursorY v) b.

Definition setIsDrawing (b : bool) (s : Colored.State) : Colored.State :=
  Colored.mkState (Colored.pixelMap s) b (Colored.tool s)
    (Colored.brushSize s) (Colored.currentColor s) (Colored.history s)
    (Colored.redoStack s) (Colored.roundness s) (Colored.roundedRatio s)
    (Colored.roundedCorners s) (Colored.cornerMode s) (Colored.bridges s)
    (Colored.bridgeMap s) (Colored.seed s) (Colored.aspectRatio s)
    (Colored.gridWidth s) (Colored.gridHeight s).

Definition setTool (t : Colored.Tool) (s : Colored.State) : Colored.State :=
  Colored.mkState (Colored.pixelMap s) (Colored.isDrawing s) t
    (Colored.brushSize s) (Colored.currentColor s) (Colored.history s)
    (Colored.redoStack s) (Colored.roundness s) (Colored.roundedRatio s)
    (Colored.roundedCorners s) (Colored.cornerMode s) (Colored.bridges s)
    (Colored.bridgeMap s) (Colored.seed s) (Colored.aspectRatio s)
    (Colored.gridWidth s) (Colored.gridHeight s).

Definition setBrushSize (n : Z) (s : Colored.State) : Colored.State :=
  Colored.mkState (Colored.pixelMap s) (Colored.isDrawing s)
    (Colored.tool s) n (Colored.currentColor s) (Colored.history s)
    (Colored.redoStack s) (Colored.roundness s) (Colored.roundedRatio s)
    (Colored.roundedCorners s) (Colored.cornerMode s) (Colored.bridges s)
    (Colored.bridgeMap s) (Colored.seed s) (Colored.aspectRatio s)
    (Colored.gridWidth s) (Colored.gridHeight s).

Definition setCurrentColor (c : string) (s : Colored.State)
  : Colored.State :=
  Colored.mkState (Colored.pixelMap s) (Colored.isDrawing s)
    (Colored.tool s) (Colored.brushSize s) c (Colored.history s)
    (Colored.redoStack s) (Colored.roundness s) (Colored.roundedRatio s)
    (Colored.roundedCorners s) (Colored.cornerMode s) (Colored.bridges s)
    (Colored.bridgeMap s) (Colored.seed s) (Colored.aspectRatio s)
    (Colored.gridWidth s) (Colored.gridHeight s).

Definition setRoundness (r : Q) (s : Colored.State) : Colored.State :=
  Colored.mkState (Colored.pixelMap s) (Colored.isDrawing s)
    (Colored.tool s) (Colored.brushSize s) (Colored.currentColor s)
    (Colored.history s) (Colored.redoStack s) r (Colored.roundedRatio s)
    (Colored.roundedCorners s) (Colored.cornerMode s) (Colored.bridges s)
    (Colored.bridgeMap s) (Colored.seed s) (Colored.aspectRatio s)
    (Colored.gridWidth s) (Colored.gridHeight s).

Definition setRoundedRatio (r : Q) (s : Colored.State) : Colored.State :=
  Colored.mkState (Colored.pixelMap s) (Colored.isDrawing s)
    (Colored.tool s) (Colored.brushSize s) (Colored.currentColor s)
    (Colored.history s) (Colored.redoStack s) (Colored.roundness s) r
    (Colored.roundedCorners s) (Colored.cornerMode s) (Colored.bridges s)
    (Colored.bridgeMap s) (Colored.seed s) (Colored.aspectRatio s)
    (Colored.gridWidth s) (Colored.gridHeight s).

Definition setCornerMode (m : CornerMode) (s : Colored.State)
  : Colored.State :=
  Colored.mkState (Colored.pixelMap s) (Colored.isDrawing s)
    (Colored.tool s) (Colored.brushSize s) (Colored.currentColor s)
    (Colored.history s) (Colored.redoStack s) (Colored.roundness s)
    (Colored.roundedRatio s) (Colored.roundedCorners s) m
    (Colored.bridges s) (Colored.bridgeMap s) (Colored.seed s)
    (Colored.aspectRatio s) (Colored.gridWidth s) (Colored.gridHeight s).

Definition setSeed (seed : Q) (s : Colored.State) : Colored.State :=
  Colored.mkState (Colored.pixelMap s) (Colored.isDrawing s)
    (Colored.tool s) (Colored.brushSize s) (Colored.currentColor s)
    (Colored.history s) (Colored.redoStack s) (Colored.roundness s)
    (Colored.roundedRatio s) (Colored.roundedCorners s)
    (Colored.cornerMode s) (Colored.bridges s) (Colored.bridgeMap s) seed
    (Colored.aspectRatio s) (Colored.gridWidth s) (Colored.gridHeight s).

Definition setAspectRatio (a : Q) (s : Colored.State) : Colored.State :=
  Colored.mkState (Colored.pixelMap s) (Colored.isDrawing s)
    (Colored.tool s) (Colored.brushSize s) (Colored.currentColor s)
    (Colored.history s) (Colored.redoStack s) (Colored.roundness s)
    (Colored.roundedRatio s) (Colored.roundedCorners s)
    (Colored.cornerMode s) (Colored.bridges s) (Colored.bridgeMap s)
    (Colored.seed s) a (Colored.gridWidth s) (Colored.gridHeight s).

Definition setGridWidth (w : Z) (s : Colored.State) : Colored.State :=
  Colored.mkState (Colored.pixelMap s) (Colored.isDrawing s)
    (Colored.tool s) (Colored.brushSize s) (Colored.currentColor s)
    (Colored.history s) (Colored.redoStack s) (Colored.roundness s)
    (Colored.roundedRatio s) (Colored.roundedCorners s)
    (Colored.cornerMode s) (Colored.bridges s) (Colored.bridgeMap s)
    (Colored.seed s) (Colored.aspectRatio s) w (Colored.gridHeight s).

Definition metrics (s : Colored.State) : DisplayMetrics :=
  getDisplayMetrics (Colored.gridWidth s) (Colored.gridHeight s)
    (Colored.aspectRatio s).

(** [isAltAction ? (tool === 'brush' ? 'eraser' : 'brush') : tool] *)
Definition effectiveTool (e : Pointer.Event) (tool : Colored.Tool)
  : Colored.Tool :=
  if Pointer.metaKey e || Pointer.ctrlKey e
  then match tool with
       | Colored.brush => Colored.eraser
       | _ => Colored.brush
       end
  else tool.

(** The eyedropper branch of [handlePointerDown]: [if (color)] holds for a
    stored color other than the empty string. *)
Definition pickColor (x y : Z) (s : Colored.State) : Colored.State :=
  match InsOrd.mget (x, y) (Colored.pixelMap s) with
  | Some color =>
      if bool_decide (color ≠ EmptyString)
      then setTool Colored.brush (setCurrentColor color s)
      else s
  | None => s
  end.

Definition handlePointerDown (canvas : option Rect) (e : Pointer.Event)
    (v : View) : View :=
  let s := editor v in
  let '(x, y) :=
    getPixelCoords canvas (metrics s) (Pointer.clientX e)
      (Pointer.clientY e) in
  if bool_decide (Colored.tool s = Colored.eyedropper) || Pointer.altKey e
  then setEditor (pickColor x y s) v
  else
    let effectiveTool := effectiveTool e (Colored.tool s) in
    let s1 := setIsDrawing true (Colored.saveToHistory s) in
    let s2 :=
      match lastActivePixel v with
      | Some last =>
          if Pointer.shiftKey e
             && bool_decide (effectiveTool = Colored.brush)
          then Colored.updatePixels (getLinePixels last.1 last.2 x y)
                 effectiveTool s1
          else Colored.updatePixels [(x, y)] effectiveTool s1
      | None => Colored.updatePixels [(x, y)] effectiveTool s1
      end in
    setLastActivePixel (Some (x, y))
      (setStrokeOrigin (Some (x, y)) (setEditor s2 v)).

Definition handlePointerMove (canvas : option Rect) (e : Pointer.Event)
    (v : View) : View :=
  let s := editor v in
  let m := metrics s in
  let '(x, y) :=
    getPixelCoords canvas m (Pointer.clientX e) (Pointer.clientY e) in
  let '(x, y) :=
    match strokeOrigin v with
    | Some origin =>
        if Colored.isDrawing s && Pointer.shiftKey e
        then orthogonalLock origin x y
        else (x, y)
    | None => (x, y)
    end in
  let v1 :=
    setCursor (inject_Z x * visualPixelWidth m)
      (inject_Z y * visualPixelHeight m) v in
  if negb (Colored.isDrawing s) then v1
  else
    let effectiveTool := effectiveTool e (Colored.tool s) in
    if bool_decide (effectiveTool = Colored.eyedropper) then v1
    else
      setLastActivePixel (Some (x, y))
        (setEditor (Colored.updatePixels [(x, y)] effectiveTool s) v1).

(** The [onPointerUp], [onPointerLeave] and [onPointerEnter] handlers of
    the canvas. *)
Definition onPointerUp (v : View) : View :=
  setEditor (setIsDrawing false (editor v)) v.

Definition onPointerLeave (v : View) : View :=
  setIsCursorVisible false (setEditor (setIsDrawing false (editor v)) v).

Definition onPointerEnter (v : View) : View := setIsCursorVisible true v.

Definition onKey (e : Keyboard.Event) (v : View) : View :=
  let s := editor v in
  let s1 :=
    if (Keyboard.metaKey e || Keyboard.ctrlKey e)
       && bool_decide (Keyboard.key e = "z")
    then if Keyboard.shiftKey e then Colored.handleRedo s
         else Colored.handleUndo s
    else s in
  let s2 :=
    if bool_decide (Keyboard.key e = "b") then setTool Colored.brush s1
    else s1 in
  let s3 :=
    if bool_decide (Keyboard.key e = "e") then setTool Colored.eraser s2
    else s2 in
  setEditor s3 v.

Definition clearCanvas (s : Colored.State) : Colored.State :=
  Colored.setBridgeMap []
    (Colored.setBridges []
       (Colored.setRoundedCorners []
          (Colored.setPixelMap [] (Colored.saveToHistory s)))).

End ColoredUI.
(** ** The colored editor: the fill of the silhouette

    [drawScene] of the colored editor fills the clipped silhouette from a
    small canvas with one pixel per cell.  The calls [fillRect(x, y, 1, 1)]
    on that canvas are kept as pairs of the cell and the [fillStyle]. *)

Module ColoredRender.

(** [[[x+1,y], [x-1,y], [x,y+1], [x,y-1]]] *)
Definition neighbors (x y : Z) : list Cell :=
  [(x + 1, y); (x - 1, y); (x, y + 1); (x, y - 1)].

(** The dilation pass: every painted cell gives its color to its empty
    neighbours. *)
Definition dilationPass (pixelMap : Colored.PixelMap)
  : list (Cell * string) :=
  flat_map
    (λ entry : Cell * string,
       let '((x, y), color) := entry in
       flat_map
         (λ n : Cell,
            if negb (InsOrd.mhas n pixelMap) then [(n, color)] else [])
         (neighbors x y))
    pixelMap.

(** The fills of the small canvas, in order: the dilation pass when the
    gradient is shown without blending, then the painted cells. *)
Definition tempCanvasFills (showGradient blendBg : bool)
    (pixelMap : Colored.PixelMap) : list (Cell * string) :=
  (if showGradient && negb blendBg then dilationPass pixelMap else [])
  ++ pixelMap.

End ColoredRender.
(** * The visual discovery tool: random helpers and the search log

    [Math.random] is a stream of draws; a function that draws takes the
    stream and gives it back without the draws it used.  Each draw is a
    double in [0, 1), which the properties below assume. *)

Module VisualSearch.

Definition Random (A : Type) : Type := (nat → Q) → A * (nat → Q).

Definition ret {A} (a : A) : Random A := λ rnd, (a, rnd).

Definition bind {A B} (m : Random A) (f : A → Random B) : Random B :=
  λ rnd, let '(a, rnd') := m rnd in f a rnd'.

Definition Math_random : Random Q := λ rnd, (rnd 0%nat, λ n, rnd (S n)).

(** [arr[j]] for an integer [j]: [None] is [undefined]. *)
Definition item {A} (arr : list A) (j : Z) : option A :=
  if j <? 0 then None else arr !! Z.to_nat j.

(** [Math.floor(Math.random() * (max - min) + min)], every operation
    rounded to a double. *)
Definition rInt (min max : Z) : Random Z :=
  bind Math_random
    (λ r,
       let span := JS.double (inject_Z max - inject_Z min) in
       ret (Qfloor (JS.double (JS.double (r * span) + inject_Z min)))).

(** [arr[Math.floor(Math.random() * arr.length)]], the product rounded to
    a double. *)
Definition pickRandom {A} (arr : list A) : Random (option A) :=
  bind Math_random
    (λ r,
       ret (item arr
              (Qfloor (JS.double (r * inject_Z (Z.of_nat (length arr))))))).

(** [[arr[i], arr[j]] = [arr[j], arr[i]]] for two indices of [arr].
    With an index outside the array JS would store [undefined] in it; the
    embedding does not follow that and gives [None]. *)
Definition swap {A} (i : nat) (j : Z) (arr : list A) : option (list A) :=
  match arr !! i, item arr j with
  | Some ai, Some aj => Some (<[Z.to_nat j := ai]> (<[i := aj]> arr))
  | _, _ => None
  end.

(** The loop [for (let i = ...; i > 0; i--)] of [shuffle], at index [i].
    The product [r * (i + 1)] is taken as it is, not rounded to a double:
    both ways the index lies from 0 to [i]. *)
Fixpoint shuffleFrom {A} (i : nat) (arr : list A)
  : Random (option (list A)) :=
  match i with
  | O => ret (Some arr)
  | S i' =>
      bind Math_random
        (λ r,
           let j := Qfloor (r * inject_Z (Z.of_nat i + 1)) in
           match swap i j arr with
           | Some arr' => shuffleFrom i' arr'
           | None => ret None
           end)
  end.

Definition shuffle {A} (arr : list A) : Random (option (list A)) :=
  shuffleFrom (length arr - 1) arr.

(** The array part of [logSearch]: the entry goes to the front, and the
    oldest entry is dropped once the log holds more than 15. *)
Definition logSearch {Entry} (entry : Entry) (SEARCH_LOG : list Entry)
  : list Entry :=
  let log := entry :: SEARCH_LOG in
  if (15 <? length log)%nat then removelast log else log.

End VisualSearch.
(** ** Vocabulary for doubles *)

(** The unit roundoff of doubles: rounding to the nearest double moves a
    number of the normal range by this fraction of it at most. *)
Definition unitRoundoff : Q := 1 / 2 ^ 53.

(** The point at [rel] lies in the interval of the cell [n] of a row of
    cells of size [size], one part in [2^53] of [rel] apart at most. *)
Definition inCellUpToRounding (rel size : Q) (n : Z) : Prop :=
  (inject_Z n * size <= rel * (1 + unitRoundoff)
   ∧ rel * (1 - unitRoundoff) < (inject_Z n + 1) * size)%Q.

(** [unitRoundoff] written out, for linear arithmetic. *)
Notation u53 := (1 # 9007199254740992)%Q (only parsing).

(** * Vocabulary of the properties

    The predicates and example states that the statements below are written
    with. *)

(** ** Vocabulary for painting *)

(** The cells of the brush squares, in the order the three nested loops
    visit them. *)
Definition brushCells (size : Z) (points : list Cell) : list Cell :=
  pt ← points; dy ← JS.range 0 size; dx ← JS.range 0 size;
  [(pt.1 + dx - size / 2, pt.2 + dy - size / 2)].

(** [c] is a cell of the [size]-wide square of some point, inside the grid. *)
Definition covered (gridWidth gridHeight size : Z) (points : list Cell)
    (c : Cell) : Prop :=
  ∃ pt dx dy, pt ∈ points ∧ 0 ≤ dx < size ∧ 0 ≤ dy < size
    ∧ c = (pt.1 + dx - size / 2, pt.2 + dy - size / 2)
    ∧ 0 ≤ c.1 < gridWidth ∧ 0 ≤ c.2 < gridHeight.

Definition inGrid (gridWidth gridHeight : Z) (c : Cell) : Prop :=
  0 ≤ c.1 < gridWidth ∧ 0 ≤ c.2 < gridHeight.

#[global] Instance inGrid_dec (gridWidth gridHeight : Z) (c : Cell) :
  Decision (inGrid gridWidth gridHeight c).
Proof. unfold inGrid. apply _. Defined.

(** ** Strokes and the history stack

    A stroke is what one pointer-down and the pointer-moves that follow it
    do to the grid: [handlePointerDown] calls [saveToHistory] and then
    [updatePixels], every [handlePointerMove] calls [updatePixels] again.
    A stroke is given by the batches of points and the tool passed to
    these calls. *)

Definition monoStroke (batches : list (list Cell * Mono.Tool))
    (s : Mono.State) : Mono.State :=
  fold_left (λ s b, Mono.updatePixels b.1 b.2 s) batches
    (Mono.saveToHistory s).

Definition coloredStroke (batches : list (list Cell * Colored.Tool))
    (s : Colored.State) : Colored.State :=
  fold_left (λ s b, Colored.updatePixels b.1 b.2 s) batches
    (Colored.saveToHistory s).

(** [N] strokes from a fresh editor, then [N] undos, give back the empty
    grid, and [N] redos after that give back the painted grid. *)
Definition undo_redo_restores (N : nat) : Prop :=
  (∀ (s0 : Mono.State) (strokes : list (list (list Cell * Mono.Tool))),
     Mono.pixels s0 = [] → Mono.history s0 = [] → Mono.redoStack s0 = [] →
     length strokes = N →
     let painted := fold_left (λ s b, monoStroke b s) strokes s0 in
     let undone := Nat.iter N Mono.handleUndo painted in
     let redone := Nat.iter N Mono.handleRedo undone in
     Mono.pixels undone = [] ∧ Mono.pixels redone = Mono.pixels painted)
  ∧ (∀ (s0 : Colored.State)
       (strokes : list (list (list Cell * Colored.Tool))),
       Colored.pixelMap s0 = [] → Colored.history s0 = [] →
       Colored.redoStack s0 = [] →
       length strokes = N →
       let painted := fold_left (λ s b, coloredStroke b s) strokes s0 in
       let undone := Nat.iter N Colored.handleUndo painted in
       let redone := Nat.iter N Colored.handleRedo undone in
       Colored.pixelMap undone = []
       ∧ Colored.pixelMap redone = Colored.pixelMap painted).

(** The history mechanism of both editors, on the triple
    (grid, history, redo stack). *)
Definition undoH {G : Type} (x : G * list G * list G) : G * list G * list G :=
  let '(g, h, r) := x in
  match last h with
  | None => x
  | Some p => (p, JS.slice_init h, g :: r)
  end.

Definition redoH {G : Type} (x : G * list G * list G) : G * list G * list G :=
  let '(g, h, r) := x in
  match r with
  | [] => x
  | n :: r' => (n, h ++ [g], r')
  end.

Definition monoH (s : Mono.State)
  : list Cell * list (list Cell) * list (list Cell) :=
  (Mono.pixels s, Mono.history s, Mono.redoStack s).

Definition coloredH (s : Colored.State)
  : Colored.PixelMap * list Colored.PixelMap * list Colored.PixelMap :=
  (Colored.pixelMap s, Colored.history s, Colored.redoStack s).

(** What a run of strokes from a fresh editor leaves in the history: no more
    than one snapshot per stroke, the oldest one empty, nothing to redo. *)
Definition fresh_history {G} (k : nat)
    (x : list G * list (list G) * list (list G)) : Prop :=
  x.2 = [] ∧ (length x.1.2 ≤ k)%nat
  ∧ match x.1.2 with [] => x.1.1 = [] | h1 :: _ => h1 = [] end.

(** 51 strokes of one cell each, all distinct and inside the 32x32 grid. *)
Definition strokes51 : list (list (list Cell * Mono.Tool)) :=
  map (λ k : nat, [([(Z.of_nat k mod 32, Z.of_nat k / 32)], Mono.brush)])
    (seq 0 51).

(** The grid and every snapshot satisfy [P] (here: no repeated key). *)
Definition ok3 {G : Type} (P : G → Prop) (x : G * list G * list G) : Prop :=
  P x.1.1 ∧ Forall P x.1.2 ∧ Forall P x.2.

(** No key of a colored grid occurs twice. *)
Definition keysNoDup (m : list (Cell * string)) : Prop := NoDup m.*1.


(** ** Vocabulary for rounding and bridges *)

Section rounding_vocabulary.
Variable Math_sin : Q → Q.
Variables (cornerMode : CornerMode) (roundedRatio seed : Q).
Variable hasPixel : Z → Z → bool.

(** The corner at the end of edge [i] of [contour] passes the corner-mode
    filter and the pseudo-random draw. *)
Definition selected (contour : list Edge) (i : nat) (edge : Edge) : bool :=
  negb (modeExcludes cornerMode
          (getCornerType edge (nextEdge contour i edge)))
  && JS.ltb (pseudoRandom Math_sin (inject_Z (x2 edge)) (inject_Z (y2 edge))
               seed) roundedRatio.

(** The two diagonal-touch patterns around the lattice point [(X, Y)]. *)
Definition posDiagonal (X Y : Z) : bool :=
  hasPixel (X - 1) (Y - 1) && hasPixel X Y
  && negb (hasPixel X (Y - 1)) && negb (hasPixel (X - 1) Y).

Definition negDiagonal (X Y : Z) : bool :=
  hasPixel X (Y - 1) && hasPixel (X - 1) Y
  && negb (hasPixel (X - 1) (Y - 1)) && negb (hasPixel X Y).

Definition posBridge (X Y : Z) : bool :=
  posDiagonal X Y
  && JS.ltb (pseudoRandom Math_sin (inject_Z X) (inject_Z Y) (seed + 1)%Q)
       roundedRatio.

Definition negBridge (X Y : Z) : bool :=
  negDiagonal X Y
  && JS.ltb (pseudoRandom Math_sin (inject_Z X) (inject_Z Y) (seed + 2)%Q)
       roundedRatio.

(** The records pushed at the lattice point [(X, Y)]. *)
Definition bridgesAt (X Y : Z) : list Bridge :=
  (if posBridge X Y
   then [mkBridge X Y TR_GAP_FILLET; mkBridge X Y BL_GAP_FILLET] else [])
  ++ (if negBridge X Y
      then [mkBridge X Y BR_GAP_FILLET; mkBridge X Y TL_GAP_FILLET] else []).
End rounding_vocabulary.

(** The same three cells painted in two orders, on editors that agree on
    everything else: corner mode 'outer' and roundedRatio 1, so that every
    convex corner is selected whatever the draws. *)
Definition paintedEarly : Mono.State :=
  MonoUI.setCornerMode outer
    (Mono.setRoundedRatio 1
       (Mono.setPixels [(0, 0); (2, 1); (1, 0)] Mono.initial)).

Definition paintedLate : Mono.State :=
  MonoUI.setCornerMode outer
    (Mono.setRoundedRatio 1
       (Mono.setPixels [(0, 0); (1, 0); (2, 1)] Mono.initial)).

(** What the bridge synthesizer must produce, for an editor whose grid has
    the cells [occupied], in terms of its outputs [bridges] and
    [bridgeMap]. *)
Definition bridge_synthesis (Math_sin : Q → Q) (occupied : Cell → Prop)
    (nonEmpty : Prop) (cornerMode : CornerMode) (roundedRatio seed : Q)
    (gridWidth gridHeight : Z) (bridges : list Bridge)
    (bridgeMap : list Cell) : Prop :=
  (∀ X Y : Z,
     1 ≤ X < gridWidth → 1 ≤ Y < gridHeight →
     cornerMode ≠ outer → nonEmpty →
     ((mkBridge X Y TR_GAP_FILLET ∈ bridges
       ∧ mkBridge X Y BL_GAP_FILLET ∈ bridges ∧ (X, Y) ∈ bridgeMap)
      ↔ (occupied (X - 1, Y - 1) ∧ occupied (X, Y)
         ∧ ¬ occupied (X, Y - 1) ∧ ¬ occupied (X - 1, Y)
         ∧ (pseudoRandom Math_sin (inject_Z X) (inject_Z Y) (seed + 1)
            < roundedRatio)%Q))
     ∧ ((mkBridge X Y BR_GAP_FILLET ∈ bridges
         ∧ mkBridge X Y TL_GAP_FILLET ∈ bridges ∧ (X, Y) ∈ bridgeMap)
        ↔ (occupied (X, Y - 1) ∧ occupied (X - 1, Y)
           ∧ ¬ occupied (X - 1, Y - 1) ∧ ¬ occupied (X, Y)
           ∧ (pseudoRandom Math_sin (inject_Z X) (inject_Z Y) (seed + 2)
              < roundedRatio)%Q)))
  ∧ (cornerMode = outer ∨ ¬ nonEmpty → bridges = [] ∧ bridgeMap = [])
  ∧ ((∀ c, occupied c ↔ c = (0, 0) ∨ c = (1, 1)) →
     2 ≤ gridWidth → 2 ≤ gridHeight → (roundedRatio == 1)%Q →
     cornerMode ≠ outer →
     bridges = [mkBridge 1 1 TR_GAP_FILLET; mkBridge 1 1 BL_GAP_FILLET]).

(** ** Vocabulary for contours *)

(** Consecutive edges meet head to tail. *)
Definition chained (c : list Edge) : Prop :=
  ∀ i e e', c !! i = Some e → c !! (S i) = Some e' → startPt e' = endPt e.

(** The last edge ends where the first edge starts. *)
Definition closed (c : list Edge) : Prop :=
  ∃ e0 el, head c = Some e0 ∧ last c = Some el ∧ endPt el = startPt e0.

Definition wellFormed (c : list Edge) : Prop :=
  (2 < length c)%nat ∧ chained c ∧ closed c.

(** Number of unused edges, among [rest] at indices [j], [j+1], ..., whose
    [f]-end ([startPt] or [endPt]) is the lattice point [v]. *)
Fixpoint degree (f : Edge → Cell) (used : gset nat) (v : Cell) (j : nat)
    (rest : list Edge) : nat :=
  match rest with
  | [] => 0
  | e :: rest' =>
      (if decide ((j ∉ used) ∧ f e = v) then 1 else 0)
      + degree f used v (S j) rest'
  end.

(** Number of unused edges among [rest]. *)
Fixpoint unusedCount (used : gset nat) (j : nat) (rest : list Edge) : nat :=
  match rest with
  | [] => 0
  | _ :: rest' =>
      (if decide (j ∉ used) then 1 else 0) + unusedCount used (S j) rest'
  end.

(** Every lattice point has as many unused edges leaving it as entering
    it. *)
Definition balanced (edges : list Edge) (used : gset nat) : Prop :=
  ∀ v, degree startPt used v 0 edges = degree endPt used v 0 edges.

(** [es] are the edges of [edges] at the indices [js]. *)
Definition edgesAt (edges : list Edge) (js : list nat) (es : list Edge)
  : Prop :=
  Forall2 (λ j e, edges !! j = Some e) js es.

(** Number of edges of [l] whose [f]-end is [v]. *)
Definition cnt (f : Edge → Cell) (v : Cell) (l : list Edge) : nat :=
  length (filter (λ e, f e = v) l).

(** The boundary edges of the cells [cells], in order, for the occupancy
    query [hasPixel]. *)
Definition gridEdges (hasPixel : Z → Z → bool) (cells : list Cell)
  : list Edge :=
  flat_map (λ c : Cell, cellEdges hasPixel c.1 c.2) cells.

(** The cell an edge was generated for. *)
Definition cellOf (e : Edge) : Cell :=
  match side e with
  | top => (x1 e, y1 e)
  | right => (x1 e - 1, y1 e)
  | bottom => (x2 e, y2 e - 1)
  | left => (x2 e, y2 e)
  end.

(** A monochrome editor reached by painting three cells on the default
    32x32 grid and then shrinking the grid to 4 columns: the cell (4,0)
    stays in the set but is now outside the grid. *)
Definition shrunkGrid : Mono.State :=
  Mono.setGridWidth 4
    (Mono.updatePixels [(4, 0)] Mono.brush
       (Mono.updatePixels [(2, 0)] Mono.brush
          (Mono.updatePixels [(3, 0)] Mono.brush Mono.initial))).

(** The colored editor after the same three strokes and the same change of
    the grid width. *)
Definition coloredShrunkGrid : Colored.State :=
  ColoredUI.setGridWidth 4
    (Colored.updatePixels [(4, 0)] Colored.brush
       (Colored.updatePixels [(2, 0)] Colored.brush
          (Colored.updatePixels [(3, 0)] Colored.brush Colored.initial))).

(** ** Vocabulary for paths *)

(** The corner is drawn rounded: a segment to a back-off point, then a curve
    around the vertex [(px, py)]. *)
Definition roundedOnCanvas (px py : Q) (ops : list CanvasOp) : Prop :=
  ∃ bx by_ fx fy r, ops = [lineTo bx by_; arcTo px py fx fy r].

Definition roundedInSvg (px py : Q) (cmds : list PathCmd) : Prop :=
  ∃ bx by_ fx fy, cmds = [svgL bx by_; svgQ px py fx fy].

(** *** Geometry of a path

    What a path traces, in drawing order: straight segments and rounded
    corners (from a point, around a control point, to a point).  The canvas
    arc and the quadratic curve of the export are both read as the rounded
    corner between their end points around their control point. *)

Definition Pt : Type := Q * Q.

Inductive Piece :=
  | Straight (p q : Pt)
  | Rounded (p c q : Pt).

Fixpoint canvasPieces (cur start : Pt) (ops : list CanvasOp) : list Piece :=
  match ops with
  | [] => []
  | moveTo x y :: k => canvasPieces (x, y) (x, y) k
  | lineTo x y :: k => Straight cur (x, y) :: canvasPieces (x, y) start k
  | arcTo x1 y1 x2 y2 _ :: k =>
      Rounded cur (x1, y1) (x2, y2) :: canvasPieces (x2, y2) start k
  | quadraticCurveTo cx cy x y :: k =>
      Rounded cur (cx, cy) (x, y) :: canvasPieces (x, y) start k
  | closePath :: k => Straight cur start :: canvasPieces start start k
  | _ :: k => canvasPieces cur start k
  end.

Fixpoint svgPieces (cur start : Pt) (cmds : list PathCmd) : list Piece :=
  match cmds with
  | [] => []
  | svgM x y :: k => svgPieces (x, y) (x, y) k
  | svgL x y :: k => Straight cur (x, y) :: svgPieces (x, y) start k
  | svgQ cx cy x y :: k =>
      Rounded cur (cx, cy) (x, y) :: svgPieces (x, y) start k
  | svgZ :: k => Straight cur start :: svgPieces start start k
  end.

(** Equality of traced geometry, coordinates compared as numbers. *)
Definition pt_eqb (p q : Pt) : bool :=
  Qeq_bool p.1 q.1 && Qeq_bool p.2 q.2.

Definition piece_eqb (a b : Piece) : bool :=
  match a, b with
  | Straight p q, Straight p' q' => pt_eqb p p' && pt_eqb q q'
  | Rounded p c q, Rounded p' c' q' =>
      pt_eqb p p' && pt_eqb c c' && pt_eqb q q'
  | _, _ => false
  end.

Fixpoint pieces_eqb (l k : list Piece) : bool :=
  match l, k with
  | [], [] => true
  | a :: l', b :: k' => piece_eqb a b && pieces_eqb l' k'
  | _, _ => false
  end.

(** A canvas call and a path command that draw the same thing from the
    same current point. *)
Inductive sameDrawing : CanvasOp → PathCmd → Prop :=
  | same_move x y : sameDrawing (moveTo x y) (svgM x y)
  | same_line x y : sameDrawing (lineTo x y) (svgL x y)
  | same_corner x1 y1 x2 y2 r :
      sameDrawing (arcTo x1 y1 x2 y2 r) (svgQ x1 y1 x2 y2)
  | same_close : sameDrawing closePath svgZ.

(** The contour part of the two renderers, without the bridge fillets. *)
Definition canvasContours (s : Mono.State) : list CanvasOp :=
  let m := Render.metrics s in
  let minDim := JS.min (visualPixelWidth m) (visualPixelHeight m) in
  concat (imap (Render.drawContour s (Mono.roundness s * minDim)%Q minDim)
            (Mono.findContour s)).

Definition svgContours (s : Mono.State) : list PathCmd :=
  let m := Render.metrics s in
  let minDim := JS.min (visualPixelWidth m) (visualPixelHeight m) in
  concat (imap (Render.svgContour s (Mono.roundness s * minDim)%Q minDim)
            (Mono.findContour s)).

(** A monochrome editor with the default 32x32 grid of square cells, the
    cells (0,0) and (1,1) painted, roundness 0.25 and roundedRatio 1, before
    the recomputation of rounding and bridges. *)
Definition diagonalGrid : Mono.State :=
  Mono.setRoundedRatio 1
    (Mono.setRoundness 0.25
       (Mono.updatePixels [(1, 1)] Mono.brush
          (Mono.updatePixels [(0, 0)] Mono.brush Mono.initial))).

(** The same editor after the recomputation: every corner is selected and
    the bridge pair sits at the lattice point (1,1). *)
Definition bridgedGrid : Mono.State :=
  Mono.setBridgeMap [(1, 1)]
    (Mono.setBridges
       [mkBridge 1 1 TR_GAP_FILLET; mkBridge 1 1 BL_GAP_FILLET]
       (Mono.setRoundedCorners
          [(0, 0); (0, 1); (0, 2); (0, 3); (1, 0); (1, 1); (1, 2); (1, 3)]%nat
          diagonalGrid)).
(** *** Reading a path back

    A path is read back the way it is drawn: it falls into subpaths, one
    from every move on, and a subpath into the commands drawn for each of
    its vertices, one group from every straight segment on. *)

(** The elements of [l] before the first one that satisfies [start]. *)
Fixpoint upTo {A} (start : A → bool) (l : list A) : list A :=
  match l with
  | [] => []
  | a :: l' => if start a then [] else a :: upTo start l'
  end.

(** [l] cut in front of every element that satisfies [start]; what comes
    before the first such element is left out. *)
Fixpoint cutBefore {A} (start : A → bool) (l : list A) : list (list A) :=
  match l with
  | [] => []
  | a :: l' =>
      if start a then (a :: upTo start l') :: cutBefore start l'
      else cutBefore start l'
  end.

(** One piece of such a cut: it starts with a [start] and has no other. *)
Definition cutPiece {A} (start : A → bool) (g : list A) : Prop :=
  ∃ a rest, g = a :: rest ∧ start a = true
            ∧ Forall (λ x, start x = false) rest.

(** Every element of [l] but those that satisfy [p]. *)
Fixpoint without {A} (p : A → bool) (l : list A) : list A :=
  match l with
  | [] => []
  | a :: l' => if p a then without p l' else a :: without p l'
  end.

Definition isM (c : PathCmd) : bool :=
  match c with svgM _ _ => true | _ => false end.

Definition isL (c : PathCmd) : bool :=
  match c with svgL _ _ => true | _ => false end.

Definition isZ (c : PathCmd) : bool :=
  match c with svgZ => true | _ => false end.

(** The subpaths of an SVG path. *)
Definition svgSubpaths (cmds : list PathCmd) : list (list PathCmd) :=
  cutBefore isM cmds.

(** The commands drawn for each vertex of a subpath, the closing command
    apart. *)
Definition svgCorners (subpath : list PathCmd) : list (list PathCmd) :=
  cutBefore isL (without isZ subpath).

(** The commands drawn for the vertex [i] of the subpath [cId]. *)
Definition svgCornerAt (cmds : list PathCmd) (cId i : nat)
  : option (list PathCmd) :=
  svgSubpaths cmds !! cId ≫= λ subpath, svgCorners subpath !! i.

Definition isPathCall (op : CanvasOp) : bool :=
  match op with
  | moveTo _ _ | lineTo _ _ | arcTo _ _ _ _ _ | quadraticCurveTo _ _ _ _
  | closePath => true
  | _ => false
  end.

Definition isMoveTo (op : CanvasOp) : bool :=
  match op with moveTo _ _ => true | _ => false end.

Definition isLineTo (op : CanvasOp) : bool :=
  match op with lineTo _ _ => true | _ => false end.

Definition isClosePath (op : CanvasOp) : bool :=
  match op with closePath => true | _ => false end.

Definition isArcTo (op : CanvasOp) : bool :=
  match op with arcTo _ _ _ _ _ => true | _ => false end.

Definition isQuadraticCurveTo (op : CanvasOp) : bool :=
  match op with quadraticCurveTo _ _ _ _ => true | _ => false end.

(** The current path of the context when [fill] is called: the path calls
    made since the last [beginPath]; [path] is the current path so far. *)
Fixpoint pathAtFill (path : list CanvasOp) (ops : list CanvasOp)
  : list CanvasOp :=
  match ops with
  | [] => []
  | beginPath :: k => pathAtFill [] k
  | fill _ :: _ => path
  | op :: k => pathAtFill (if isPathCall op then path ++ [op] else path) k
  end.

(** The path that a sequence of canvas calls fills. *)
Definition filledPath (ops : list CanvasOp) : list CanvasOp :=
  pathAtFill [] ops.

Definition canvasSubpaths (ops : list CanvasOp) : list (list CanvasOp) :=
  cutBefore isMoveTo (filledPath ops).

Definition canvasCorners (subpath : list CanvasOp) : list (list CanvasOp) :=
  cutBefore isLineTo (without isClosePath subpath).

Definition canvasCornerAt (ops : list CanvasOp) (cId i : nat)
  : option (list CanvasOp) :=
  canvasSubpaths ops !! cId ≫= λ subpath, canvasCorners subpath !! i.

(** The corner drawn on the canvas the way the export draws it: a segment
    to a back-off point, then a quadratic curve around the vertex. *)
Definition quadraticOnCanvas (px py : Q) (ops : list CanvasOp) : Prop :=
  ∃ bx by_ fx fy, ops = [lineTo bx by_; quadraticCurveTo px py fx fy].

(** A monochrome editor with the cell (0,0) painted and roundedRatio 1:
    every corner of its one contour is selected. *)
Definition roundedCell : Mono.State :=
  Mono.setRoundedCorners [(0, 0); (0, 1); (0, 2); (0, 3)]%nat
    (Mono.setRoundedRatio 1
       (Mono.updatePixels [(0, 0)] Mono.brush Mono.initial)).

(** The same cell with the roundness slider at 0, before the recomputation
    of rounding and bridges. *)
Definition flatCell : Mono.State :=
  Mono.setRoundness 0
    (Mono.setRoundedRatio 1
       (Mono.updatePixels [(0, 0)] Mono.brush Mono.initial)).
(** ** Vocabulary for lines *)

(** The longer side of the bounding box of two cells, in steps. *)
Definition lineSpan (x0 y0 x1 y1 : Z) : Z :=
  Z.max (Z.abs (x1 - x0)) (Z.abs (y1 - y0)).

(** [q] is one of the eight neighbours of [p]. *)
Definition adjacent (p q : Cell) : Prop :=
  Z.abs (q.1 - p.1) ≤ 1 ∧ Z.abs (q.2 - p.2) ≤ 1 ∧ p ≠ q.

(** Twice the area of the triangle of [p] and the two end points: the
    distance of [p] to the ideal segment, times the length of the
    segment. *)
Definition deviation (x0 y0 x1 y1 : Z) (p : Cell) : Z :=
  Z.abs ((p.1 - x0) * (y1 - y0) - (p.2 - y0) * (x1 - x0)).

(** The offsets [(a, b)] from the start, along x and y, of the point of
    index [i] of a line spanning [dx] columns and [dy] rows: one step per
    index along the longer side, and the other offset within half a cell
    of the segment. *)
Definition lineOffsets (dx dy i a b : Z) : Prop :=
  0 ≤ a ≤ dx ∧ 0 ≤ b ≤ dy
  ∧ if decide (dy ≤ dx)
    then a = i ∧ - dx ≤ 2 * (b * dx - a * dy)
         ∧ (2 * (b * dx - a * dy) < dx ∨ dx = 0)
    else b = i ∧ - dy < 2 * (b * dx - a * dy) ≤ dy.
(** ** Vocabulary for the pointer handlers *)

(** [p] lies on the row or on the column of [origin]. *)
Definition onCross (origin p : Cell) : Prop :=
  p.1 = origin.1 ∨ p.2 = origin.2.

(** The cell that [handlePointerMove] works with: the cell under the
    pointer, moved by the Shift+Drag lock when it applies. *)
Definition moveCell (canvas : option Rect) (m : DisplayMetrics)
    (isDrawing : bool) (strokeOrigin : option Cell) (e : Pointer.Event)
  : Cell :=
  let c := getPixelCoords canvas m (Pointer.clientX e) (Pointer.clientY e) in
  match strokeOrigin with
  | Some origin =>
      if isDrawing && Pointer.shiftKey e
      then orthogonalLock origin c.1 c.2 else c
  | None => c
  end.

(** The rectangle of the cell [c] on screen lies inside the cursor box. *)
Definition insideCursor (m : DisplayMetrics) (box : Cursor.Style) (c : Cell)
  : Prop :=
  (Cursor.left box <= inject_Z c.1 * visualPixelWidth m
   ∧ (inject_Z c.1 + 1) * visualPixelWidth m
     <= Cursor.left box + Cursor.width box
   ∧ Cursor.top box <= inject_Z c.2 * visualPixelHeight m
   ∧ (inject_Z c.2 + 1) * visualPixelHeight m
     <= Cursor.top box + Cursor.height box)%Q.

(** A stroke on the monochrome canvas: the pointer goes down, moves any
    number of times and goes up. *)
Definition monoPointerStroke (canvas : option Rect) (down : Pointer.Event)
    (moves : list Pointer.Event) (v : MonoUI.View) : MonoUI.View :=
  MonoUI.handlePointerUp
    (fold_left (λ v e, MonoUI.handlePointerMove canvas e v) moves
       (MonoUI.handlePointerDown canvas down v)).

Definition coloredPointerStroke (canvas : option Rect)
    (down : Pointer.Event) (moves : list Pointer.Event)
    (v : ColoredUI.View) : ColoredUI.View :=
  ColoredUI.onPointerUp
    (fold_left (λ v e, ColoredUI.handlePointerMove canvas e v) moves
       (ColoredUI.handlePointerDown canvas down v)).

(** ** Vocabulary for runs of the editor *)

(** What the user and the browser can do to the monochrome editor, the
    grid-size inputs apart: pointer and keyboard events, the buttons and
    sliders, and the effect that recomputes rounding and bridges. *)
Inductive MonoAction :=
  | MonoPointerDown (canvas : option Rect) (e : Pointer.Event)
  | MonoPointerMove (canvas : option Rect) (e : Pointer.Event)
  | MonoPointerUp
  | MonoPointerLeave
  | MonoPointerEnter
  | MonoKeyDown (e : Keyboard.Event)
  | MonoUndo
  | MonoRedo
  | MonoClear
  | MonoSetTool (t : Mono.Tool)
  | MonoSetBrushSize (n : Z)
  | MonoSetRoundness (r : Q)
  | MonoSetRoundedRatio (r : Q)
  | MonoSetCornerMode (m : CornerMode)
  | MonoSetSeed (seed : Q)
  | MonoSetAspectRatio (a : Q)
  | MonoRegenerate.

Definition monoAct (Math_sin : Q → Q) (a : MonoAction) (v : MonoUI.View)
  : MonoUI.View :=
  let onEditor f := MonoUI.setEditor (f (MonoUI.editor v)) v in
  match a with
  | MonoPointerDown canvas e => MonoUI.handlePointerDown canvas e v
  | MonoPointerMove canvas e => MonoUI.handlePointerMove canvas e v
  | MonoPointerUp => MonoUI.handlePointerUp v
  | MonoPointerLeave => MonoUI.onPointerLeave v
  | MonoPointerEnter => MonoUI.onPointerEnter v
  | MonoKeyDown e => MonoUI.handleKeyDown e v
  | MonoUndo => onEditor Mono.handleUndo
  | MonoRedo => onEditor Mono.handleRedo
  | MonoClear => onEditor MonoUI.clearCanvas
  | MonoSetTool t => onEditor (MonoUI.setTool t)
  | MonoSetBrushSize n => onEditor (MonoUI.setBrushSize n)
  | MonoSetRoundness r => onEditor (Mono.setRoundness r)
  | MonoSetRoundedRatio r => onEditor (Mono.setRoundedRatio r)
  | MonoSetCornerMode m => onEditor (MonoUI.setCornerMode m)
  | MonoSetSeed seed => onEditor (MonoUI.setSeed seed)
  | MonoSetAspectRatio a => onEditor (MonoUI.setAspectRatio a)
  | MonoRegenerate => onEditor (Mono.regenerateRounding Math_sin)
  end.

Definition monoRun (Math_sin : Q → Q) (actions : list MonoAction)
    (v : MonoUI.View) : MonoUI.View :=
  fold_left (λ v a, monoAct Math_sin a v) actions v.

(** A grid, or a snapshot of it, without repeated cells and inside a
    [W] x [H] grid. *)
Definition tidy (W H : Z) (g : list Cell) : Prop :=
  NoDup g ∧ ∀ c, c ∈ g → inGrid W H c.

(** The grid and all the snapshots are tidy, and the two stacks hold no
    more than 50 snapshots together. *)
Definition monoSound (s : Mono.State) : Prop :=
  ok3 (tidy (Mono.gridWidth s) (Mono.gridHeight s)) (monoH s)
  ∧ (length (Mono.history s) + length (Mono.redoStack s) ≤ 50)%nat.

(** What the user and the browser can do to the colored editor, the
    grid-size inputs apart: pointer and keyboard events, the buttons and
    sliders, and the effect that recomputes rounding and bridges.  The
    gradient, blend and stroke switches only change how the grid is
    drawn. *)
Inductive ColoredAction :=
  | ColoredPointerDown (canvas : option Rect) (e : Pointer.Event)
  | ColoredPointerMove (canvas : option Rect) (e : Pointer.Event)
  | ColoredPointerUp
  | ColoredPointerLeave
  | ColoredPointerEnter
  | ColoredKey (e : Keyboard.Event)
  | ColoredUndo
  | ColoredRedo
  | ColoredClear
  | ColoredSetTool (t : Colored.Tool)
  | ColoredSetBrushSize (n : Z)
  | ColoredSetCurrentColor (c : string)
  | ColoredSetRoundness (r : Q)
  | ColoredSetRoundedRatio (r : Q)
  | ColoredSetCornerMode (m : CornerMode)
  | ColoredSetSeed (seed : Q)
  | ColoredSetAspectRatio (a : Q)
  | ColoredRegenerate.

Definition coloredAct (Math_sin : Q → Q) (a : ColoredAction)
    (v : ColoredUI.View) : ColoredUI.View :=
  let onEditor f := ColoredUI.setEditor (f (ColoredUI.editor v)) v in
  match a with
  | ColoredPointerDown canvas e => ColoredUI.handlePointerDown canvas e v
  | ColoredPointerMove canvas e => ColoredUI.handlePointerMove canvas e v
  | ColoredPointerUp => ColoredUI.onPointerUp v
  | ColoredPointerLeave => ColoredUI.onPointerLeave v
  | ColoredPointerEnter => ColoredUI.onPointerEnter v
  | ColoredKey e => ColoredUI.onKey e v
  | ColoredUndo => onEditor Colored.handleUndo
  | ColoredRedo => onEditor Colored.handleRedo
  | ColoredClear => onEditor ColoredUI.clearCanvas
  | ColoredSetTool t => onEditor (ColoredUI.setTool t)
  | ColoredSetBrushSize n => onEditor (ColoredUI.setBrushSize n)
  | ColoredSetCurrentColor c => onEditor (ColoredUI.setCurrentColor c)
  | ColoredSetRoundness r => onEditor (ColoredUI.setRoundness r)
  | ColoredSetRoundedRatio r => onEditor (ColoredUI.setRoundedRatio r)
  | ColoredSetCornerMode m => onEditor (ColoredUI.setCornerMode m)
  | ColoredSetSeed seed => onEditor (ColoredUI.setSeed seed)
  | ColoredSetAspectRatio a => onEditor (ColoredUI.setAspectRatio a)
  | ColoredRegenerate => onEditor (Colored.regenerateRounding Math_sin)
  end.

Definition coloredRun (Math_sin : Q → Q) (actions : list ColoredAction)
    (v : ColoredUI.View) : ColoredUI.View :=
  fold_left (λ v a, coloredAct Math_sin a v) actions v.

(** The keys of the grid and of all the snapshots are tidy, and the two
    stacks hold no more than 50 snapshots together. *)
Definition coloredSound (s : Colored.State) : Prop :=
  ok3 (λ m : list (Cell * string),
         tidy (Colored.gridWidth s) (Colored.gridHeight s) m.*1)
    (coloredH s)
  ∧ (length (Colored.history s) + length (Colored.redoStack s) ≤ 50)%nat.

(** A monochrome editor in the middle of a session: three cells painted
    with a brush of size 2 selected, and one snapshot in the history. *)
Definition monoSession : MonoUI.View :=
  MonoUI.setEditor
    (Mono.setHistory [[(1, 1)]]
       (Mono.setPixels [(1, 1); (2, 2); (5, 5)]
          (MonoUI.setBrushSize 2 Mono.initial)))
    MonoUI.initial.

(** The user paints a short stroke, undoes and redoes it, switches the
    corner mode, and the rounding is recomputed. *)
Definition monoSessionActions : list MonoAction :=
  [MonoPointerDown (Some (mkRect 0 0))
     (Pointer.mkEvent 200 100 false false false false);
   MonoPointerMove (Some (mkRect 0 0))
     (Pointer.mkEvent 230 100 false false false false);
   MonoPointerUp; MonoUndo; MonoRedo; MonoSetCornerMode inner;
   MonoRegenerate].

Definition coloredSession : ColoredUI.View :=
  ColoredUI.setEditor
    (Colored.setHistory [[((1, 1), "#FF3B30")]]
       (Colored.setPixelMap
          [((1, 1), "#FF3B30"); ((2, 2), "#007AFF"); ((5, 5), "#000000")]
          (ColoredUI.setBrushSize 2 Colored.initial)))
    ColoredUI.initial.

Definition coloredSessionActions : list ColoredAction :=
  [ColoredPointerDown (Some (mkRect 0 0))
     (Pointer.mkEvent 200 100 false false false false);
   ColoredPointerMove (Some (mkRect 0 0))
     (Pointer.mkEvent 230 100 false false false false);
   ColoredPointerUp; ColoredUndo; ColoredRedo; ColoredSetCornerMode inner;
   ColoredRegenerate].
(** ** Vocabulary for the geometry of roundings *)

(** An edge between two neighbouring lattice points. *)
Definition unitEdge (e : Edge) : Prop :=
  (Z.abs (x2 e - x1 e) = 1 ∧ y2 e = y1 e)
  ∨ (x2 e = x1 e ∧ Z.abs (y2 e - y1 e) = 1).

(** The vector of the edge [e] on screen. *)
Definition screenVector (m : DisplayMetrics) (e : Edge) : Pt :=
  ((inject_Z (x2 e - x1 e) * visualPixelWidth m)%Q,
   (inject_Z (y2 e - y1 e) * visualPixelHeight m)%Q).
(** ** Vocabulary for canvas fills *)

(** The color of the pixel [c] of a [W] x [H] canvas after one-pixel
    fills in opaque colors: that of the last fill of [c]; a fill outside
    the canvas has no effect, and a pixel never filled stays
    transparent. *)
Definition pixelColor (W H : Z) (fills : list (Cell * string)) (c : Cell)
  : option string :=
  if decide (inGrid W H c) then InsOrd.mget c (reverse fills) else None.
(** ** Vocabulary for the random helpers *)

(** Every draw of the stream is a number in [0, 1). *)
Definition unitDraws (rnd : nat → Q) : Prop :=
  ∀ n, (0 <= rnd n)%Q ∧ (rnd n < 1)%Q.

(** Every draw is a double in [0, 1), as [Math.random] gives them. *)
Definition doubleDraws (rnd : nat → Q) : Prop :=
  ∀ n, (JS.double (rnd n) == rnd n)%Q ∧ (0 <= rnd n)%Q ∧ (rnd n < 1)%Q.
(** * Properties *)

(** ** Numbers, ranges, insertion-ordered containers *)

Lemma ltb_lt (a b : Q) : JS.ltb a b = true ↔ (a < b)%Q.
Proof.
  unfold JS.ltb. rewrite negb_true_iff, <- not_true_iff_false, Qle_bool_iff.
  split; [apply Qnot_le_lt | apply Qlt_not_le].
Qed.

Lemma elem_of_range (lo hi k : Z) : k ∈ JS.range lo hi ↔ lo ≤ k < hi.
Proof. unfold JS.range. rewrite elem_of_seqZ. lia. Qed.

Lemma range_cons (lo hi : Z) :
  lo < hi → JS.range lo hi = lo :: JS.range (lo + 1) hi.
Proof.
  intros Hlt. unfold JS.range. rewrite seqZ_cons by lia.
  do 2 f_equal; lia.
Qed.

Lemma range_nil (lo hi : Z) : hi ≤ lo → JS.range lo hi = [].
Proof. intros Hle. unfold JS.range. apply seqZ_nil. lia. Qed.

Lemma near_eq (a b : Z) : Mono.near a b = true ↔ a = b.
Proof.
  unfold Mono.near. rewrite ltb_lt. split.
  - intros Hlt. destruct (decide (a = b)) as [|Hne]; [done|].
    exfalso. apply (Qlt_not_le _ _ Hlt).
    apply Qle_trans with (y := inject_Z 1); [done|].
    change (Qabs (inject_Z (a - b))) with (inject_Z (Z.abs (a - b))).
    rewrite <- Zle_Qle. lia.
  - intros ->. rewrite Z.sub_diag. done.
Qed.

(** Both editors chain an edge exactly when its start is the end of the
    current one. *)
Lemma mono_meets_eq (p q : Cell) : Mono.meets p q = true ↔ p = q.
Proof.
  unfold Mono.meets. rewrite andb_true_iff, !near_eq.
  destruct p, q; cbn. split; [intros [-> ->]; done | intros [= -> ->]; done].
Qed.

Lemma colored_meets_eq (p q : Cell) : Colored.meets p q = true ↔ p = q.
Proof.
  unfold Colored.meets. rewrite andb_true_iff, !bool_decide_eq_true.
  destruct p, q; cbn. split; [intros [-> ->]; done | intros [= -> ->]; done].
Qed.

Section insord_facts.
Context {K : Type} `{EqDecision K}.

Lemma has_true (k : K) (s : list K) : InsOrd.has k s = true ↔ k ∈ s.
Proof. unfold InsOrd.has. apply bool_decide_eq_true. Qed.

Lemma has_false (k : K) (s : list K) : InsOrd.has k s = false ↔ k ∉ s.
Proof. unfold InsOrd.has. apply bool_decide_eq_false. Qed.

Lemma elem_of_add (k k' : K) (s : list K) :
  k' ∈ InsOrd.add k s ↔ k' = k ∨ k' ∈ s.
Proof.
  unfold InsOrd.add. destruct (decide (k ∈ s)).
  - split; [by right | intros [-> | ?]; done].
  - rewrite elem_of_app, list_elem_of_singleton. tauto.
Qed.

Lemma elem_of_delete (k k' : K) (s : list K) :
  k' ∈ InsOrd.delete k s ↔ k' ≠ k ∧ k' ∈ s.
Proof. unfold InsOrd.delete. by rewrite list_elem_of_filter. Qed.

Lemma NoDup_add (k : K) (s : list K) : NoDup s → NoDup (InsOrd.add k s).
Proof.
  intros Hs. unfold InsOrd.add. destruct (decide (k ∈ s)); [done|].
  apply NoDup_app. split_and!; [done| |apply NoDup_singleton].
  intros x Hx ->%list_elem_of_singleton. done.
Qed.

Lemma NoDup_delete (k : K) (s : list K) :
  NoDup s → NoDup (InsOrd.delete k s).
Proof. apply NoDup_filter. Qed.

Lemma same_elements_refl (s : list K) : InsOrd.same_elements s s = true.
Proof.
  unfold InsOrd.same_elements. rewrite bool_decide_eq_true_2 by done.
  apply forallb_forall. intros x Hx. apply has_true, list_elem_of_In, Hx.
Qed.
End insord_facts.

Section insord_map_facts.
Context {K V : Type} `{EqDecision K}.

Lemma mget_mset (k k' : K) (v : V) (m : list (K * V)) :
  InsOrd.mget k' (InsOrd.mset k v m)
  = if decide (k = k') then Some v else InsOrd.mget k' m.
Proof.
  induction m as [|[k0 v0] m IH]; cbn.
  - repeat case_decide; congruence.
  - destruct (decide (k0 = k)) as [->|Hne]; cbn.
    + repeat case_decide; congruence.
    + rewrite IH. repeat case_decide; congruence.
Qed.

Lemma mget_mdelete (k k' : K) (m : list (K * V)) :
  InsOrd.mget k' (InsOrd.mdelete k m)
  = if decide (k = k') then None else InsOrd.mget k' m.
Proof.
  unfold InsOrd.mdelete.
  induction m as [|[k0 v0] m IH].
  - cbn. by case_decide.
  - rewrite filter_cons. cbn [fst].
    destruct (decide (k0 ≠ k)) as [Hne|Heq]; cbn [InsOrd.mget].
    + rewrite IH. repeat case_decide; congruence.
    + apply dec_stable in Heq as ->. rewrite IH.
      repeat case_decide; congruence.
Qed.

Lemma mhas_mget (k : K) (m : list (K * V)) :
  InsOrd.mhas k m = true ↔ is_Some (InsOrd.mget k m).
Proof.
  unfold InsOrd.mhas. rewrite bool_decide_eq_true.
  induction m as [|[k0 v0] m IH]; cbn.
  - rewrite elem_of_nil. split; [done|]. by intros [? ?].
  - rewrite elem_of_cons, IH. cbn. case_decide; subst.
    + split; [eauto|]. by left.
    + split; [intros [?|?]; [congruence|done]|]. by right.
Qed.
End insord_map_facts.
(** ** Doubles *)

Lemma pow2_pos (e : Z) : (0 < 2 ^ e)%Q.
Proof. by apply Qpower_0_lt. Qed.

Lemma pow2_le (n m : Z) : n ≤ m → (2 ^ n <= 2 ^ m)%Q.
Proof. intros H. by apply Qpower_le_compat_l. Qed.

Lemma pow2_lt (n m : Z) : n < m → (2 ^ n < 2 ^ m)%Q.
Proof. intros H. by apply Qpower_lt_compat_l. Qed.

Lemma pow2_lt_inv (n m : Z) : (2 ^ n < 2 ^ m)%Q → n < m.
Proof. intros H. by apply (Qpower_lt_compat_l_inv 2). Qed.

Lemma pow2_add (n m : Z) : (2 ^ (n + m) == 2 ^ n * 2 ^ m)%Q.
Proof. by apply Qpower_plus. Qed.

Lemma pow2_Z (n : Z) : 0 ≤ n → (inject_Z (2 ^ n) == 2 ^ n)%Q.
Proof. intros H. by rewrite Zpower_Qpower. Qed.

Lemma Qabs_frac (x : Q) :
  (Qabs x * inject_Z (Z.pos (Qden x)) == inject_Z (Z.abs (Qnum x)))%Q.
Proof.
  destruct x as [n d]. unfold Qabs, Qeq, Qmult, inject_Z. cbn. lia.
Qed.

Lemma roundHalfEven_floor (q : Q) :
  Qfloor q ≤ JS.roundHalfEven q ≤ Qfloor q + 1.
Proof.
  unfold JS.roundHalfEven. destruct (_ ?= _)%Q; [|lia..].
  destruct (Z.even _); lia.
Qed.

(** Rounding to the nearest integer never crosses an integer. *)
Lemma roundHalfEven_ge (q : Q) (z : Z) :
  (inject_Z z <= q)%Q → z ≤ JS.roundHalfEven q.
Proof.
  intros H. apply Qfloor_resp_le in H. rewrite Qfloor_Z in H.
  pose proof (roundHalfEven_floor q). lia.
Qed.

Lemma roundHalfEven_le (q : Q) (z : Z) :
  (q <= inject_Z z)%Q → JS.roundHalfEven q ≤ z.
Proof.
  intros H. pose proof (Qfloor_le q) as Hf.
  pose proof (Qfloor_resp_le _ _ H) as Hz. rewrite Qfloor_Z in Hz.
  unfold JS.roundHalfEven.
  destruct (Z.eq_dec (Qfloor q) z) as [Heq|Hne].
  - assert (Hc : (q - inject_Z (Qfloor q) ?= 1 # 2)%Q = Lt).
    { apply (proj1 (Qlt_alt _ _)). rewrite Heq. lra. }
    rewrite Hc. lia.
  - destruct (_ ?= _)%Q; [|lia..]. destruct (Z.even _); lia.
Qed.

(** It moves a number by half a unit at most. *)
Lemma roundHalfEven_near (q : Q) :
  (q - (1 # 2) <= inject_Z (JS.roundHalfEven q))%Q
  ∧ (inject_Z (JS.roundHalfEven q) <= q + (1 # 2))%Q.
Proof.
  pose proof (Qfloor_le q) as Hlo. pose proof (Qlt_floor q) as Hhi.
  rewrite inject_Z_plus in Hhi. change (inject_Z 1) with 1%Q in Hhi.
  unfold JS.roundHalfEven.
  destruct (q - inject_Z (Qfloor q) ?= 1 # 2)%Q eqn:Hc.
  - apply (proj2 (Qeq_alt _ _)) in Hc. destruct (Z.even _).
    + split; lra.
    + rewrite inject_Z_plus. change (inject_Z 1) with 1%Q. split; lra.
  - apply (proj2 (Qlt_alt _ _)) in Hc. split; lra.
  - apply (proj2 (Qgt_alt _ _)) in Hc. rewrite inject_Z_plus.
    change (inject_Z 1) with 1%Q. split; lra.
Qed.

(** [log2floor x] is the exponent of the power of two at or below [|x|]. *)
Lemma log2floor_spec (x : Q) :
  ¬ (x == 0)%Q →
  (2 ^ JS.log2floor x <= Qabs x)%Q ∧ (Qabs x < 2 ^ (JS.log2floor x + 1))%Q.
Proof.
  intros Hx. unfold JS.log2floor.
  set (n := Z.abs (Qnum x)). set (d := Z.pos (Qden x)).
  assert (Hn : 0 < n).
  { subst n. destruct x as [[|p|p] q]; cbn; try lia.
    exfalso. apply Hx. reflexivity. }
  assert (Hd : 0 < d) by (subst d; lia).
  pose proof (Z.log2_spec n Hn) as [Hn1 Hn2].
  pose proof (Z.log2_spec d Hd) as [Hd1 Hd2].
  pose proof (Z.log2_nonneg n) as Hln. pose proof (Z.log2_nonneg d) as Hld.
  pose proof (Qabs_frac x) as Hfrac. fold n d in Hfrac.
  assert (HdQ : (0 < inject_Z d)%Q).
  { change 0%Q with (inject_Z 0). by rewrite <- Zlt_Qlt. }
  rewrite Zle_Qle in Hn1, Hd1. rewrite Zlt_Qlt in Hn2, Hd2.
  rewrite !pow2_Z in Hn1, Hd1, Hn2, Hd2 by lia.
  set (ln := Z.log2 n) in *. set (ld := Z.log2 d) in *.
  replace (Z.succ ln) with (ln + 1) in Hn2 by lia.
  replace (Z.succ ld) with (ld + 1) in Hd2 by lia.
  destruct (Qle_bool (2 ^ (ln - ld)) (Qabs x)) eqn:Ht.
  - apply Qle_bool_iff in Ht. split; [done|].
    (* |x| * d = n < 2^(ln+1) = 2^(e+1) * 2^ld <= 2^(e+1) * d *)
    apply (Qmult_lt_r _ _ (inject_Z d)); [done|]. rewrite Hfrac.
    eapply Qlt_le_trans; [exact Hn2|].
    replace (ln + 1) with ((ln - ld + 1) + ld) by lia. rewrite pow2_add.
    apply Qmult_le_l; [apply pow2_pos|done].
  - apply not_true_iff_false in Ht. rewrite Qle_bool_iff in Ht.
    apply Qnot_le_lt in Ht. split.
    + apply (Qmult_le_r _ _ (inject_Z d)); [done|]. rewrite Hfrac.
      eapply Qle_trans; [|exact Hn1].
      replace ln with ((ln - ld - 1) + (ld + 1)) at 2 by lia.
      rewrite pow2_add.
      apply Qmult_le_l; [apply pow2_pos|]. by apply Qlt_le_weak.
    + by replace (ln - ld - 1 + 1) with (ln - ld) by lia.
Qed.

Lemma log2floor_unique (x : Q) (k : Z) :
  (2 ^ k <= Qabs x)%Q → (Qabs x < 2 ^ (k + 1))%Q → JS.log2floor x = k.
Proof.
  intros Hlo Hhi.
  assert (Hx : ¬ (x == 0)%Q).
  { intros Hx. rewrite Hx in Hlo. pose proof (pow2_pos k) as Hk.
    change (Qabs 0) with 0%Q in Hlo.
    apply (Qlt_irrefl 0). by eapply Qlt_le_trans. }
  destruct (log2floor_spec x Hx) as [Hlo' Hhi'].
  assert (JS.log2floor x < k + 1).
  { apply pow2_lt_inv. by eapply Qle_lt_trans. }
  assert (k < JS.log2floor x + 1).
  { apply pow2_lt_inv. by eapply Qle_lt_trans. }
  lia.
Qed.

Lemma ulpExp_ge (x : Q) : -1074 ≤ JS.ulpExp x.
Proof. unfold JS.ulpExp. lia. Qed.

(** Below [2^j] the last place is at [2^(j-53)] or lower. *)
Lemma ulpExp_le (x : Q) (j : Z) :
  0 ≤ j → (Qabs x < 2 ^ j)%Q → JS.ulpExp x ≤ j - 53.
Proof.
  intros Hj Hx. unfold JS.ulpExp.
  destruct (Qeq_dec x 0) as [H0|H0].
  - pose proof (Z.log2_nonneg (Z.pos (Qden x))) as Hd.
    assert (Hn : Qnum x = 0).
    { destruct x as [n d]. unfold Qeq in H0. cbn in *. lia. }
    unfold JS.log2floor. rewrite Hn. change (Z.log2 (Z.abs 0)) with 0.
    destruct (Qle_bool _ _) eqn:Ht; [|lia].
    apply Qle_bool_iff in Ht.
    assert (Ha : (Qabs x == 0)%Q) by (by rewrite H0).
    rewrite Ha in Ht. exfalso.
    apply (Qlt_irrefl 0). eapply Qlt_le_trans; [apply pow2_pos|exact Ht].
  - destruct (log2floor_spec x H0) as [Hlo _].
    assert (JS.log2floor x < j).
    { apply pow2_lt_inv. by eapply Qle_lt_trans. }
    lia.
Qed.

(** From [2^-1022] on the last place is 52 places below the first. *)
Lemma ulpExp_normal (x : Q) :
  (2 ^ (-1022) <= Qabs x)%Q →
  JS.ulpExp x = JS.log2floor x - 52 ∧ (2 ^ (JS.ulpExp x + 52) <= Qabs x)%Q.
Proof.
  intros Hx.
  assert (H0 : ¬ (x == 0)%Q).
  { intros H0. rewrite H0 in Hx. pose proof (pow2_pos (-1022)) as Hk.
    change (Qabs 0) with 0%Q in Hx.
    apply (Qlt_irrefl 0). by eapply Qlt_le_trans. }
  destruct (log2floor_spec x H0) as [Hlo Hhi].
  assert (-1022 < JS.log2floor x + 1).
  { apply pow2_lt_inv. by eapply Qle_lt_trans. }
  unfold JS.ulpExp. rewrite Z.max_r by lia. split; [done|].
  by replace (JS.log2floor x - 52 + 52) with (JS.log2floor x) by lia.
Qed.

(** [double] moves a number by half a unit of its last place at most. *)
Lemma double_near (x : Q) :
  (x - (1 # 2) * 2 ^ JS.ulpExp x <= JS.double x)%Q
  ∧ (JS.double x <= x + (1 # 2) * 2 ^ JS.ulpExp x)%Q.
Proof.
  unfold JS.double. set (e := JS.ulpExp x).
  pose proof (pow2_pos e) as He.
  destruct (roundHalfEven_near (x / 2 ^ e)) as [Hlo Hhi].
  apply (Qmult_le_r _ _ (2 ^ e)) in Hlo, Hhi; [|done..].
  assert (Hx : (x / 2 ^ e * 2 ^ e == x)%Q).
  { field. intros H0. rewrite H0 in He. by apply Qlt_irrefl in He. }
  set (t := (x / 2 ^ e)%Q) in *. set (p := (2 ^ e)%Q) in *.
  set (z := inject_Z (JS.roundHalfEven t)) in *.
  clearbody z p t.
  assert (Hlo' : (t * p - (1 # 2) * p <= z * p)%Q) by lra.
  assert (Hhi' : (z * p <= t * p + (1 # 2) * p)%Q) by lra.
  by rewrite Hx in Hlo', Hhi'.
Qed.

(** It never crosses a number with no place below the last place of
    [x]. *)
Lemma double_le_grid (x : Q) (z : Z) :
  (x <= inject_Z z * 2 ^ JS.ulpExp x)%Q →
  (JS.double x <= inject_Z z * 2 ^ JS.ulpExp x)%Q.
Proof.
  intros H. unfold JS.double. set (e := JS.ulpExp x) in *.
  pose proof (pow2_pos e) as He.
  apply Qmult_le_r; [done|]. rewrite <- Zle_Qle.
  apply roundHalfEven_le. apply Qle_shift_div_r; done.
Qed.

Lemma double_ge_grid (x : Q) (z : Z) :
  (inject_Z z * 2 ^ JS.ulpExp x <= x)%Q →
  (inject_Z z * 2 ^ JS.ulpExp x <= JS.double x)%Q.
Proof.
  intros H. unfold JS.double. set (e := JS.ulpExp x) in *.
  pose proof (pow2_pos e) as He.
  apply Qmult_le_r; [done|]. rewrite <- Zle_Qle.
  apply roundHalfEven_ge. apply Qle_shift_div_l; done.
Qed.

Lemma int_on_grid (z e : Z) :
  e ≤ 0 → (inject_Z z == inject_Z (z * 2 ^ (- e)) * 2 ^ e)%Q.
Proof.
  intros He. rewrite inject_Z_mult, pow2_Z by lia.
  rewrite <- Qmult_assoc, <- pow2_add.
  replace (- e + e) with 0 by lia. change (2 ^ 0)%Q with 1%Q. ring.
Qed.

(** Below [2^53] it never crosses an integer. *)
Lemma double_le_int (x : Q) (z : Z) :
  (Qabs x < 2 ^ 53)%Q → (x <= inject_Z z)%Q → (JS.double x <= inject_Z z)%Q.
Proof.
  intros Hx Hz. pose proof (ulpExp_le x 53 ltac:(lia) Hx) as He.
  rewrite (int_on_grid z (JS.ulpExp x)) in * by lia.
  by apply double_le_grid.
Qed.

Lemma double_ge_int (x : Q) (z : Z) :
  (Qabs x < 2 ^ 53)%Q → (inject_Z z <= x)%Q → (inject_Z z <= JS.double x)%Q.
Proof.
  intros Hx Hz. pose proof (ulpExp_le x 53 ltac:(lia) Hx) as He.
  rewrite (int_on_grid z (JS.ulpExp x)) in * by lia.
  by apply double_ge_grid.
Qed.

Lemma double_nonneg (x : Q) : (0 <= x)%Q → (0 <= JS.double x)%Q.
Proof.
  intros Hx. pose proof (double_ge_grid x 0) as H.
  rewrite Qmult_0_l in H. by apply H.
Qed.

Lemma double_nonpos (x : Q) : (x <= 0)%Q → (JS.double x <= 0)%Q.
Proof.
  intros Hx. pose proof (double_le_grid x 0) as H.
  rewrite Qmult_0_l in H. by apply H.
Qed.

(** An integer below [2^53] is a double. *)
Lemma double_int (z : Z) :
  Z.abs z < 2 ^ 53 → (JS.double (inject_Z z) == inject_Z z)%Q.
Proof.
  intros Hz.
  assert (Hx : (Qabs (inject_Z z) < 2 ^ 53)%Q).
  { rewrite <- (pow2_Z 53) by lia.
    change (Qabs (inject_Z z)) with (inject_Z (Z.abs z)).
    by rewrite <- Zlt_Qlt. }
  apply Qle_antisym.
  - apply double_le_int; [done|apply Qle_refl].
  - apply double_ge_int; [done|apply Qle_refl].
Qed.

(** From [2^-1022] on, rounding moves a number by one part in [2^53] at
    most. *)
Lemma double_relative (x : Q) :
  (2 ^ (-1022) <= Qabs x)%Q →
  (Qabs (JS.double x - x) <= Qabs x * unitRoundoff)%Q.
Proof.
  intros Hx. destruct (ulpExp_normal x Hx) as [_ He].
  destruct (double_near x) as [Hlo Hhi].
  set (e := JS.ulpExp x) in *. pose proof (pow2_pos e) as Hpe.
  rewrite pow2_add in He.
  assert (Hhalf : ((1 # 2) * 2 ^ e <= Qabs x * unitRoundoff)%Q).
  { eapply Qle_trans;
      [|apply Qmult_le_r; [reflexivity|exact He]].
    apply Qle_lteq. right. unfold unitRoundoff. field. }
  set (d := JS.double x) in *. set (a := Qabs x) in *.
  set (p := (2 ^ e)%Q) in *. set (u := unitRoundoff) in *.
  clearbody d a p u. clear He Hx.
  apply Qabs_Qle_condition. split; lra.
Qed.

Lemma roundHalfEven_wd (p q : Q) :
  (p == q)%Q → JS.roundHalfEven p = JS.roundHalfEven q.
Proof.
  intros H. unfold JS.roundHalfEven.
  assert (Hf : Qfloor p = Qfloor q) by (by rewrite H).
  rewrite Hf.
  assert (Hc : (p - inject_Z (Qfloor q) ?= 1 # 2)%Q
               = (q - inject_Z (Qfloor q) ?= 1 # 2)%Q) by (by rewrite H).
  by rewrite Hc.
Qed.

Lemma double_zero (x : Q) : (x == 0)%Q → (JS.double x == 0)%Q.
Proof.
  intros H. unfold JS.double. set (e := JS.ulpExp x).
  assert (Hq : (x / 2 ^ e == 0)%Q).
  { rewrite H. unfold Qdiv. apply Qmult_0_l. }
  rewrite (roundHalfEven_wd _ _ Hq). apply Qmult_0_l.
Qed.

(** [double] does not depend on how the number is written. *)
#[global] Instance double_wd : Proper (Qeq ==> Qeq) JS.double.
Proof.
  intros x y H. destruct (Qeq_dec x 0) as [H0|H0].
  - rewrite (double_zero x H0), (double_zero y); [done|]. by rewrite <- H.
  - assert (H0' : ¬ (y == 0)%Q) by (by rewrite <- H).
    destruct (log2floor_spec x H0) as [Hlo Hhi].
    assert (He : JS.log2floor y = JS.log2floor x).
    { apply log2floor_unique; by rewrite <- H. }
    unfold JS.double, JS.ulpExp. rewrite He.
    set (e := Z.max (-1074) (JS.log2floor x - 52)).
    assert (Hq : (x / 2 ^ e == y / 2 ^ e)%Q) by (by rewrite H).
    by rewrite (roundHalfEven_wd _ _ Hq).
Qed.

(** From [2^-1022] on, [double] keeps a positive number within one part
    in [2^53]. *)
Lemma double_relative_pos (x : Q) :
  (2 ^ (-1022) <= x)%Q →
  (x * (1 - unitRoundoff) <= JS.double x)%Q
  ∧ (JS.double x <= x * (1 + unitRoundoff))%Q.
Proof.
  intros Hx. pose proof (pow2_pos (-1022)) as Hp.
  assert (Hpos : (0 <= x)%Q).
  { apply Qlt_le_weak. by eapply Qlt_le_trans. }
  assert (Ha : (Qabs x == x)%Q) by (by apply Qabs_pos).
  pose proof (double_relative x) as H. rewrite Ha in H.
  specialize (H Hx). apply Qabs_Qle_condition in H as [Hlo Hhi].
  set (d := JS.double x) in *. set (u := unitRoundoff) in *.
  clearbody d u. clear Ha Hx Hp. split; lra.
Qed.

(** Below 1 the last place is at [2^-53] or lower, and rounding adds half
    of that at most. *)
Lemma double_small (x : Q) :
  (0 <= x)%Q → (x < 1)%Q → (JS.double x <= x + (1 # 2) * unitRoundoff)%Q.
Proof.
  intros H0 H1.
  assert (Ha : (Qabs x < 2 ^ 0)%Q) by (by rewrite Qabs_pos).
  pose proof (ulpExp_le x 0 ltac:(lia) Ha) as He.
  destruct (double_near x) as [_ Hhi].
  pose proof (pow2_le (JS.ulpExp x) (-53) ltac:(lia)) as Hp.
  change (2 ^ (-53))%Q with unitRoundoff in Hp.
  set (p := (2 ^ JS.ulpExp x)%Q) in *. set (u := unitRoundoff) in *.
  set (d := JS.double x) in *. clearbody p u d. clear Ha He. lra.
Qed.

(** A double is a whole number of units of its last place. *)
Lemma double_on_grid (x : Q) :
  (JS.double x
   == inject_Z (JS.roundHalfEven (x / 2 ^ JS.ulpExp x)) * 2 ^ JS.ulpExp x)%Q.
Proof. reflexivity. Qed.

(** From here on [double] is computed, by evaluation, or reasoned about
    through the lemmas above: it is never unfolded in place. *)
#[global] Opaque JS.double.

(** ** The embedding at work *)

(** A single cell at the grid corner (0,0) of a 4x4 grid: one contour of
    four edges, every corner convex. *)
Example single_cell_contour :
  let s :=
    Mono.setGridWidth 4
      (Mono.updatePixels [(0, 0)] Mono.brush Mono.initial) in
  Mono.findContour s
  = [[mkEdge 0 0 1 0 top; mkEdge 1 0 1 1 right; mkEdge 1 1 0 1 bottom;
      mkEdge 0 1 0 0 left]]
  ∧ (∀ c i e, Mono.findContour s !! 0%nat = Some c → c !! i = Some e →
               getCornerType e (nextEdge c i e) = convex).
Proof.
  intros s. split; [by vm_compute|].
  intros c i e Hc Hi. vm_compute in Hc. injection Hc as <-.
  do 4 (destruct i as [|i]; [injection Hi as <-; reflexivity|]).
  discriminate Hi.
Qed.

(** Two cells side by side share no edge: one contour of six edges around
    the pair, traced in the order the greedy scan finds them. *)
Example domino_contour :
  Mono.findContour
    (Mono.updatePixels [(1, 0)] Mono.brush
       (Mono.updatePixels [(0, 0)] Mono.brush Mono.initial))
  = [[mkEdge 0 0 1 0 top; mkEdge 1 0 2 0 top; mkEdge 2 0 2 1 right;
      mkEdge 2 1 1 1 bottom; mkEdge 1 1 0 1 bottom; mkEdge 0 1 0 0 left]].
Proof. by vm_compute. Qed.

(** A brush of size 3 at the grid corner paints the four cells of its
    square that are inside the grid. *)
Example brush_at_corner :
  Mono.pixels
    (Mono.updatePixels [(0, 0)] Mono.brush
       (Mono.mkState [] false [] [] 0.4 0.7 3 Mono.brush [] [] [] random
          12345 1 None 32 32))
  = [(0, 0); (1, 0); (0, 1); (1, 1)].
Proof. by vm_compute. Qed.

(** Repainting a cell of the colored editor changes its color in place. *)
Example repaint_keeps_place :
  Colored.pixelMap
    (Colored.updatePixels [(0, 0)] Colored.brush
       (Colored.mkState [((0, 0), "#000000"); ((5, 5), "#000000")] false
          Colored.brush 1 "#FF3B30" [] [] 0.4 0.7 [] random [] [] 12345 1
          32 32))
  = [((0, 0), "#FF3B30"); ((5, 5), "#000000")].
Proof. by vm_compute. Qed.

(** The order in which cells were painted decides how the greedy scan cuts
    the boundary at a diagonal touch: the same three cells give one contour
    of ten edges or two contours of six and four. *)
Example paint_order_changes_contours :
  let early := Mono.setPixels [(0, 0); (2, 1); (1, 0)] Mono.initial in
  let late := Mono.setPixels [(0, 0); (1, 0); (2, 1)] Mono.initial in
  (∀ c, c ∈ Mono.pixels early ↔ c ∈ Mono.pixels late)
  ∧ length <$> Mono.findContour early = [10%nat]
  ∧ length <$> Mono.findContour late = [6%nat; 4%nat].
Proof.
  intros early late. split_and!; [|by vm_compute..].
  intros c. subst early late. cbn. rewrite !elem_of_cons, !elem_of_nil.
  tauto.
Qed.

(** ** Corner classification *)

(** C5. The corner between two consecutive edges of a contour (the last edge
    wrapping to the first) is classified convex exactly when the cross
    product dx1*dy2 - dy1*dx2 of their direction vectors is positive, and
    concave exactly when it is non-positive; collinear edges give concave. *)
Theorem getCornerType_by_cross (contour : list Edge) (i : nat)
    (edge : Edge) :
  contour !! i = Some edge →
  ∃ next : Edge,
    contour !! ((i + 1) mod length contour)%nat = Some next
    ∧ nextEdge contour i edge = next
    ∧ let dx1 := x2 edge - x1 edge in
      let dy1 := y2 edge - y1 edge in
      let dx2 := x2 next - x1 next in
      let dy2 := y2 next - y1 next in
      (getCornerType edge next = convex ↔ 0 < dx1 * dy2 - dy1 * dx2)
      ∧ (getCornerType edge next = concave ↔ dx1 * dy2 - dy1 * dx2 ≤ 0)
      ∧ (dx1 * dy2 - dy1 * dx2 = 0 → getCornerType edge next = concave).
Proof.
  intros Hi.
  assert (Hlen : (i < length contour)%nat) by (by eapply lookup_lt_Some).
  destruct (lookup_lt_is_Some_2 contour ((i + 1) mod length contour)%nat)
    as [next Hnext].
  { apply Nat.mod_upper_bound. lia. }
  exists next. unfold nextEdge. rewrite Hnext. cbn.
  split_and!; [done..| | |]; unfold getCornerType, cross.
  - destruct (Z.ltb_spec 0
      ((x2 edge - x1 edge) * (y2 next - y1 next)
       - (y2 edge - y1 edge) * (x2 next - x1 next))); split; (done || lia).
  - destruct (Z.ltb_spec 0
      ((x2 edge - x1 edge) * (y2 next - y1 next)
       - (y2 edge - y1 edge) * (x2 next - x1 next))); split; (done || lia).
  - intros ->. done.
Qed.

Lemma getCornerType_by_cross_witness :
  ∃ next : Edge,
    [mkEdge 0 0 1 0 top; mkEdge 1 0 1 1 right; mkEdge 1 1 0 1 bottom;
     mkEdge 0 1 0 0 left] !! ((3 + 1) mod 4)%nat = Some next
    ∧ getCornerType (mkEdge 0 1 0 0 left) next = convex.
Proof.
  destruct (getCornerType_by_cross
              [mkEdge 0 0 1 0 top; mkEdge 1 0 1 1 right;
               mkEdge 1 1 0 1 bottom; mkEdge 0 1 0 0 left]
              3 (mkEdge 0 1 0 0 left) eq_refl)
    as (next & Hnext & _ & Hconvex & _).
  exists next. split; [exact Hnext|].
  cbn in Hnext. injection Hnext as <-. apply Hconvex. reflexivity.
Defined.

(** ** Grid store: painting and erasing *)

Lemma elem_of_brushCells (size : Z) (points : list Cell) (c : Cell) :
  c ∈ brushCells size points ↔
  ∃ pt dx dy, pt ∈ points ∧ 0 ≤ dx < size ∧ 0 ≤ dy < size
    ∧ c = (pt.1 + dx - size / 2, pt.2 + dy - size / 2).
Proof.
  unfold brushCells. rewrite list_elem_of_bind. split.
  - intros (pt & Hc & Hpt). apply list_elem_of_bind in Hc as (dy & Hc & Hdy).
    apply list_elem_of_bind in Hc as (dx & Hc & Hdx).
    apply list_elem_of_singleton in Hc.
    apply elem_of_range in Hdx, Hdy. exists pt, dx, dy. done.
  - intros (pt & dx & dy & Hpt & Hdx & Hdy & ->). exists pt. split; [|done].
    apply list_elem_of_bind. exists dy. split; [|by apply elem_of_range].
    apply list_elem_of_bind. exists dx. split; [|by apply elem_of_range].
    by apply list_elem_of_singleton.
Qed.

Lemma covered_brushCells (gridWidth gridHeight size : Z)
    (points : list Cell) (c : Cell) :
  covered gridWidth gridHeight size points c ↔
  c ∈ brushCells size points ∧ inGrid gridWidth gridHeight c.
Proof.
  rewrite elem_of_brushCells. unfold covered, inGrid. split.
  - intros (pt & dx & dy & ? & ? & ? & ? & ? & ?). split; [|done].
    by exists pt, dx, dy.
  - intros [(pt & dx & dy & ? & ? & ? & ?) [? ?]]. by exists pt, dx, dy.
Qed.

Lemma fold_left_ext {A St : Type} (f g : St → A → St) (l : list A) (s : St) :
  (∀ s a, f s a = g s a) → fold_left f l s = fold_left g l s.
Proof.
  intros Hfg. revert s. induction l as [|a l IH]; intros s; [done|].
  cbn. rewrite Hfg. apply IH.
Qed.

Lemma fold_left_bind {A B St : Type} (f : St → B → St) (g : A → list B)
    (l : list A) (s : St) :
  fold_left (λ s a, fold_left f (g a) s) l s = fold_left f (l ≫= g) s.
Proof.
  revert s. induction l as [|a l IH]; intros s; [done|].
  cbn. rewrite fold_left_app. apply IH.
Qed.

Lemma inGrid_test (gridWidth gridHeight px py : Z) :
  (0 <=? px) && (px <? gridWidth) && (0 <=? py) && (py <? gridHeight) = true
  ↔ inGrid gridWidth gridHeight (px, py).
Proof. unfold inGrid. cbn. rewrite !andb_true_iff. lia. Qed.

Lemma mono_updatePixels_pixels (points : list Cell) (a : Mono.Tool)
    (s : Mono.State) :
  Mono.pixels (Mono.updatePixels points a s)
  = fold_left
      (λ next c, Mono.paintCell (Mono.gridWidth s) (Mono.gridHeight s) a
                   c.1 c.2 next)
      (brushCells (Mono.brushSize s) points) (Mono.pixels s).
Proof.
  unfold Mono.updatePixels, brushCells. cbn [Mono.pixels Mono.setPixels].
  rewrite <- fold_left_bind. apply fold_left_ext. intros next pt.
  rewrite <- fold_left_bind. apply fold_left_ext. intros next' dy.
  rewrite <- fold_left_bind. apply fold_left_ext. intros next'' dx. done.
Qed.

Lemma mono_paint_cells (W H : Z) (cells prev : list Cell) (c : Cell) :
  c ∈ fold_left (λ next c, Mono.paintCell W H Mono.brush c.1 c.2 next)
        cells prev
  ↔ c ∈ prev ∨ (c ∈ cells ∧ inGrid W H c).
Proof.
  revert prev. induction cells as [|[px py] cells IH]; intros prev; cbn.
  - rewrite elem_of_nil. tauto.
  - rewrite IH, elem_of_cons. unfold Mono.paintCell.
    destruct ((0 <=? px) && (px <? W) && (0 <=? py) && (py <? H)) eqn:Hin.
    + apply inGrid_test in Hin. rewrite elem_of_add.
      split; [intros [[->|?]|?]|intros [?|[[->|?] ?]]]; tauto.
    + apply not_true_iff_false in Hin. rewrite inGrid_test in Hin.
      split; [intros [?|?]|intros [?|[[->|?] ?]]]; tauto.
Qed.

Lemma mono_erase_cells (W H : Z) (cells prev : list Cell) (c : Cell) :
  c ∈ fold_left (λ next c, Mono.paintCell W H Mono.eraser c.1 c.2 next)
        cells prev
  ↔ c ∈ prev ∧ ¬ (c ∈ cells ∧ inGrid W H c).
Proof.
  revert prev. induction cells as [|[px py] cells IH]; intros prev; cbn.
  - rewrite elem_of_nil. tauto.
  - rewrite IH, elem_of_cons. unfold Mono.paintCell.
    destruct ((0 <=? px) && (px <? W) && (0 <=? py) && (py <? H)) eqn:Hin.
    + apply inGrid_test in Hin. rewrite elem_of_delete.
      split.
      * intros [[Hne ?] Hn]. split; [done|]. intros [[->|?] ?]; tauto.
      * intros [? Hn]. split_and!; [|done|tauto].
        intros ->. tauto.
    + apply not_true_iff_false in Hin. rewrite inGrid_test in Hin.
      split.
      * intros [? Hn]. split; [done|]. intros [[->|?] ?]; tauto.
      * intros [? Hn]. split; [done|]. tauto.
Qed.

Lemma mono_paintCell_NoDup (W H : Z) (a : Mono.Tool) (px py : Z)
    (next : list Cell) :
  NoDup next → NoDup (Mono.paintCell W H a px py next).
Proof.
  intros Hn. unfold Mono.paintCell.
  destruct (_ && _); [|done].
  destruct a; [by apply NoDup_add | by apply NoDup_delete].
Qed.

(** Painting and erasing keep the key list free of repetitions: the list
    stays a faithful image of the JS [Set]. *)
Lemma mono_updatePixels_NoDup (points : list Cell) (a : Mono.Tool)
    (s : Mono.State) :
  NoDup (Mono.pixels s) → NoDup (Mono.pixels (Mono.updatePixels points a s)).
Proof.
  rewrite mono_updatePixels_pixels.
  generalize (brushCells (Mono.brushSize s) points), (Mono.pixels s).
  intros cells. induction cells as [|c cells IH]; intros prev Hp; [done|].
  cbn. apply IH. by apply mono_paintCell_NoDup.
Qed.

Lemma colored_updatePixels_pixelMap (points : list Cell) (a : Colored.Tool)
    (s : Colored.State) :
  Colored.pixelMap (Colored.updatePixels points a s)
  = fold_left
      (λ next c,
         Colored.paintCell (Colored.gridWidth s) (Colored.gridHeight s) a
           (Colored.currentColor s) c.1 c.2 next)
      (brushCells (Colored.brushSize s) points) (Colored.pixelMap s).
Proof.
  unfold Colored.updatePixels, brushCells.
  cbn [Colored.pixelMap Colored.setPixelMap].
  rewrite <- fold_left_bind. apply fold_left_ext. intros next pt.
  rewrite <- fold_left_bind. apply fold_left_ext. intros next' dy.
  rewrite <- fold_left_bind. apply fold_left_ext. intros next'' dx. done.
Qed.

Lemma colored_paint_cells (W H : Z) (color : string)
    (cells : list Cell) (prev : Colored.PixelMap) (c : Cell) :
  let next :=
    fold_left
      (λ next c, Colored.paintCell W H Colored.brush color c.1 c.2 next)
      cells prev in
  (c ∈ cells ∧ inGrid W H c → InsOrd.mget c next = Some color)
  ∧ (¬ (c ∈ cells ∧ inGrid W H c) → InsOrd.mget c next = InsOrd.mget c prev).
Proof.
  revert prev. induction cells as [|[px py] cells IH]; intros prev; cbn.
  - rewrite elem_of_nil. tauto.
  - destruct (IH (Colored.paintCell W H Colored.brush color px py prev))
      as [IH1 IH2]. clear IH.
    rewrite elem_of_cons.
    destruct (decide (c ∈ cells ∧ inGrid W H c)) as [Hc|Hc].
    { split; [intros _; by apply IH1 | tauto]. }
    rewrite (IH2 Hc). unfold Colored.paintCell.
    destruct ((0 <=? px) && (px <? W) && (0 <=? py) && (py <? H)) eqn:Hin.
    + apply inGrid_test in Hin. rewrite mget_mset.
      case_decide as Heq.
      * subst c. split; [done|]. tauto.
      * split; [intros [[->|?] ?]; tauto | done].
    + apply not_true_iff_false in Hin. rewrite inGrid_test in Hin.
      split; [intros [[->|?] ?]; tauto | done].
Qed.

Lemma colored_erase_cells (W H : Z) (color : string)
    (cells : list Cell) (prev : Colored.PixelMap) (c : Cell) :
  let next :=
    fold_left
      (λ next c, Colored.paintCell W H Colored.eraser color c.1 c.2 next)
      cells prev in
  (c ∈ cells ∧ inGrid W H c → InsOrd.mget c next = None)
  ∧ (¬ (c ∈ cells ∧ inGrid W H c) → InsOrd.mget c next = InsOrd.mget c prev).
Proof.
  revert prev. induction cells as [|[px py] cells IH]; intros prev; cbn.
  - rewrite elem_of_nil. tauto.
  - destruct (IH (Colored.paintCell W H Colored.eraser color px py prev))
      as [IH1 IH2]. clear IH.
    rewrite elem_of_cons.
    destruct (decide (c ∈ cells ∧ inGrid W H c)) as [Hc|Hc].
    { split; [intros _; by apply IH1 | tauto]. }
    rewrite (IH2 Hc). unfold Colored.paintCell.
    destruct ((0 <=? px) && (px <? W) && (0 <=? py) && (py <? H)) eqn:Hin.
    + apply inGrid_test in Hin. rewrite mget_mdelete.
      case_decide as Heq.
      * subst c. split; [done|]. tauto.
      * split; [intros [[->|?] ?]; tauto | done].
    + apply not_true_iff_false in Hin. rewrite inGrid_test in Hin.
      split; [intros [[->|?] ?]; tauto | done].
Qed.

(** C9. Painting marks exactly the in-grid cells of the brush squares as
    occupied (with the current color in the colored editor), erasing clears
    exactly those cells; cells of a square that fall outside the grid are
    skipped, and every cell outside the in-grid part of the squares keeps
    its occupancy and color. *)
Theorem updatePixels_brush_squares :
  (∀ (s : Mono.State) (points : list Cell) (c : Cell),
     let cov :=
       covered (Mono.gridWidth s) (Mono.gridHeight s) (Mono.brushSize s)
         points c in
     (c ∈ Mono.pixels (Mono.updatePixels points Mono.brush s)
      ↔ c ∈ Mono.pixels s ∨ cov)
     ∧ (c ∈ Mono.pixels (Mono.updatePixels points Mono.eraser s)
        ↔ c ∈ Mono.pixels s ∧ ¬ cov))
  ∧ (∀ (s : Colored.State) (points : list Cell) (c : Cell),
       let cov :=
         covered (Colored.gridWidth s) (Colored.gridHeight s)
           (Colored.brushSize s) points c in
       let painted :=
         Colored.pixelMap (Colored.updatePixels points Colored.brush s) in
       let erased :=
         Colored.pixelMap (Colored.updatePixels points Colored.eraser s) in
       (cov → InsOrd.mget c painted = Some (Colored.currentColor s)
              ∧ InsOrd.mhas c painted = true)
       ∧ (cov → InsOrd.mget c erased = None ∧ InsOrd.mhas c erased = false)
       ∧ (¬ cov → InsOrd.mget c painted = InsOrd.mget c (Colored.pixelMap s)
                  ∧ InsOrd.mget c erased = InsOrd.mget c (Colored.pixelMap s))).
Proof.
  split.
  - intros s points c cov. subst cov.
    rewrite !mono_updatePixels_pixels, mono_paint_cells, mono_erase_cells.
    rewrite covered_brushCells. done.
  - intros s points c cov painted erased. subst cov painted erased.
    rewrite !colored_updatePixels_pixelMap, covered_brushCells.
    pose proof (colored_paint_cells (Colored.gridWidth s)
                  (Colored.gridHeight s) (Colored.currentColor s)
                  (brushCells (Colored.brushSize s) points)
                  (Colored.pixelMap s) c) as [Hp1 Hp2].
    pose proof (colored_erase_cells (Colored.gridWidth s)
                  (Colored.gridHeight s) (Colored.currentColor s)
                  (brushCells (Colored.brushSize s) points)
                  (Colored.pixelMap s) c) as [He1 He2].
    split_and!.
    + intros Hc. split; [by apply Hp1|].
      apply mhas_mget. rewrite (Hp1 Hc). by eexists.
    + intros Hc. split; [by apply He1|].
      apply not_true_iff_false. rewrite mhas_mget, (He1 Hc).
      by intros [? ?].
    + intros Hc. split; [by apply Hp2 | by apply He2].
Qed.

(** ** Undo and redo *)

Lemma slice_last_short {A} (n : nat) (l : list A) :
  (length l ≤ n)%nat → JS.slice_last n l = l.
Proof.
  intros Hle. unfold JS.slice_last.
  replace (length l - n)%nat with 0%nat by lia. done.
Qed.

Lemma slice_init_snoc {A} (l : list A) (x : A) : JS.slice_init (l ++ [x]) = l.
Proof.
  unfold JS.slice_init. rewrite length_app. cbn.
  replace (length l + 1 - 1)%nat with (length l) by lia.
  by rewrite take_app_length.
Qed.

Lemma undoH_nil {G} (g : G) (r : list G) : undoH (g, [], r) = (g, [], r).
Proof. done. Qed.

Lemma undoH_snoc {G} (g p : G) (h r : list G) :
  undoH (g, h ++ [p], r) = (p, h, g :: r).
Proof. unfold undoH. by rewrite last_snoc, slice_init_snoc. Qed.

Lemma undoH_all {G} (h : list G) :
  ∀ (g : G) (r : list G) (n : nat), (length h ≤ n)%nat →
    Nat.iter n undoH (g, h, r)
    = match h with
      | [] => (g, [], r)
      | h1 :: t => (h1, [], t ++ g :: r)
      end.
Proof.
  induction h as [|p h IH] using rev_ind; intros g r n Hn.
  - clear Hn. induction n as [|n IHn]; [done|].
    by rewrite Nat.iter_succ, IHn.
  - rewrite length_app in Hn. cbn in Hn.
    destruct n as [|n]; [lia|].
    rewrite Nat.iter_succ_r, undoH_snoc, IH by lia.
    destruct h as [|h1 t]; cbn; [done|].
    by rewrite <- app_assoc.
Qed.

Lemma redoH_all {G} (r : list G) :
  ∀ (g : G) (h : list G) (n : nat), (length r ≤ n)%nat →
    (Nat.iter n redoH (g, h, r)).1.1 = default g (last r).
Proof.
  induction r as [|x r IH]; intros g h n Hn.
  - clear Hn. induction n as [|n IHn]; [done|].
    rewrite Nat.iter_succ.
    assert (Hfix : Nat.iter n redoH (g, h, []) = (g, h, [])).
    { clear. induction n as [|n IHn]; [done|].
      by rewrite Nat.iter_succ, IHn. }
    by rewrite Hfix.
  - cbn in Hn. destruct n as [|n]; [lia|].
    rewrite Nat.iter_succ_r. cbn [redoH]. rewrite IH by lia.
    rewrite last_cons. by destruct (last r).
Qed.

Lemma mono_handleUndo_H (s : Mono.State) :
  monoH (Mono.handleUndo s) = undoH (monoH s).
Proof.
  destruct s. unfold Mono.handleUndo, monoH, undoH. cbn.
  by destruct (last _).
Qed.

Lemma mono_handleRedo_H (s : Mono.State) :
  monoH (Mono.handleRedo s) = redoH (monoH s).
Proof.
  destruct s as [? ? ? [|? ?] ? ? ? ? ? ? ? ? ? ? ? ? ?]; done.
Qed.

Lemma colored_handleUndo_H (s : Colored.State) :
  coloredH (Colored.handleUndo s) = undoH (coloredH s).
Proof.
  destruct s. unfold Colored.handleUndo, coloredH, undoH. cbn.
  by destruct (last _).
Qed.

Lemma colored_handleRedo_H (s : Colored.State) :
  coloredH (Colored.handleRedo s) = redoH (coloredH s).
Proof.
  destruct s as [? ? ? ? ? ? [|? ?] ? ? ? ? ? ? ? ? ? ?]; done.
Qed.

Lemma iter_commute {A B} (p : A → B) (f : A → A) (g : B → B) :
  (∀ a, p (f a) = g (p a)) →
  ∀ n a, p (Nat.iter n f a) = Nat.iter n g (p a).
Proof.
  intros Hc n a. induction n as [|n IH]; [done|].
  by rewrite !Nat.iter_succ, Hc, IH.
Qed.

Lemma fresh_history_restores {G} (N : nat)
    (x : list G * list (list G) * list (list G)) :
  fresh_history N x →
  (Nat.iter N undoH x).1.1 = []
  ∧ (Nat.iter N redoH (Nat.iter N undoH x)).1.1 = x.1.1.
Proof.
  destruct x as [[g h] r]. intros (Hr & Hlen & Hhead). cbn in *. subst r.
  rewrite undoH_all by done. destruct h as [|h1 t]; cbn.
  - subst g. split; [done|]. by rewrite redoH_all by (cbn; lia).
  - subst h1. split; [done|].
    rewrite redoH_all by (rewrite length_app; cbn in *; lia).
    by rewrite last_snoc.
Qed.

Lemma fresh_history_push {G} (k : nat) (g : list G) (h : list (list G))
    (r : list (list G)) :
  fresh_history k (g, h, r) → (k < 50)%nat →
  fresh_history (S k) (g, JS.slice_last 50 (h ++ [g]), []).
Proof.
  intros (_ & Hlen & Hhead) Hk. cbn in *.
  rewrite slice_last_short by (rewrite length_app; cbn; lia).
  split_and!; cbn; [done|rewrite length_app; cbn; lia|].
  destruct h; cbn; done.
Qed.

Lemma fresh_history_mono {G} (k k' : nat)
    (x : list G * list (list G) * list (list G)) :
  fresh_history k x → (k ≤ k')%nat → fresh_history k' x.
Proof. intros (? & ? & ?) ?. split_and!; [done|lia|done]. Qed.

Lemma fresh_history_repaint {G} (k : nat) (g g' : list G)
    (h : list (list G)) (r : list (list G)) :
  fresh_history k (g, h, r) → h ≠ [] → fresh_history k (g', h, r).
Proof. intros (? & ? & ?) ?. split_and!; [done..|]. by destruct h. Qed.

Lemma mono_saveToHistory_fresh (k : nat) (s : Mono.State) :
  fresh_history k (monoH s) → (k < 50)%nat →
  fresh_history (S k) (monoH (Mono.saveToHistory s))
  ∧ Mono.history (Mono.saveToHistory s) ≠ [].
Proof.
  intros Hf Hk. unfold Mono.saveToHistory.
  assert (Hpush :
    fresh_history (S k)
      (monoH (Mono.setRedoStack []
         (Mono.setHistory
            (JS.slice_last 50 (Mono.history s ++ [Mono.pixels s])) s)))
    ∧ Mono.history (Mono.setRedoStack []
         (Mono.setHistory
            (JS.slice_last 50 (Mono.history s ++ [Mono.pixels s])) s)) ≠ []).
  { split; [by apply (fresh_history_push k _ _ (Mono.redoStack s))|].
    cbn. destruct Hf as (_ & Hlen & _). cbn in Hlen.
    rewrite slice_last_short.
    + by destruct (Mono.history s).
    + rewrite length_app. cbn [length]. lia. }
  destruct (last (Mono.history s)) as [lastState|] eqn:Hlast; [|done].
  destruct (InsOrd.same_elements lastState (Mono.pixels s)); [|done].
  split; [by eapply fresh_history_mono; [|apply Nat.le_succ_diag_r]|].
  intros Hnil. by rewrite Hnil in Hlast.
Qed.

Lemma colored_saveToHistory_fresh (k : nat) (s : Colored.State) :
  fresh_history k (coloredH s) → (k < 50)%nat →
  fresh_history (S k) (coloredH (Colored.saveToHistory s))
  ∧ Colored.history (Colored.saveToHistory s) ≠ [].
Proof.
  intros Hf Hk. unfold Colored.saveToHistory.
  assert (Hpush :
    fresh_history (S k)
      (coloredH (Colored.setRedoStack []
         (Colored.setHistory
            (JS.slice_last 50 (Colored.history s ++ [Colored.pixelMap s]))
            s)))
    ∧ Colored.history (Colored.setRedoStack []
         (Colored.setHistory
            (JS.slice_last 50 (Colored.history s ++ [Colored.pixelMap s]))
            s)) ≠ []).
  { split; [by apply (fresh_history_push k _ _ (Colored.redoStack s))|].
    cbn. destruct Hf as (_ & Hlen & _). cbn in Hlen.
    rewrite slice_last_short.
    + by destruct (Colored.history s).
    + rewrite length_app. cbn [length]. lia. }
  destruct (last (Colored.history s)) as [lastState|] eqn:Hlast; [|done].
  destruct (_ && _); [|done].
  split; [by eapply fresh_history_mono; [|apply Nat.le_succ_diag_r]|].
  intros Hnil. by rewrite Hnil in Hlast.
Qed.

Lemma mono_batches_H (batches : list (list Cell * Mono.Tool))
    (s : Mono.State) :
  let s' := fold_left (λ s b, Mono.updatePixels b.1 b.2 s) batches s in
  Mono.history s' = Mono.history s ∧ Mono.redoStack s' = Mono.redoStack s.
Proof.
  revert s. induction batches as [|b batches IH]; intros s; [done|].
  cbn. destruct (IH (Mono.updatePixels b.1 b.2 s)) as [-> ->]. done.
Qed.

Lemma colored_batches_H (batches : list (list Cell * Colored.Tool))
    (s : Colored.State) :
  let s' := fold_left (λ s b, Colored.updatePixels b.1 b.2 s) batches s in
  Colored.history s' = Colored.history s
  ∧ Colored.redoStack s' = Colored.redoStack s.
Proof.
  revert s. induction batches as [|b batches IH]; intros s; [done|].
  cbn. destruct (IH (Colored.updatePixels b.1 b.2 s)) as [-> ->]. done.
Qed.

Lemma mono_stroke_fresh (k : nat) (b : list (list Cell * Mono.Tool))
    (s : Mono.State) :
  fresh_history k (monoH s) → (k < 50)%nat →
  fresh_history (S k) (monoH (monoStroke b s)).
Proof.
  intros Hf Hk. destruct (mono_saveToHistory_fresh k s Hf Hk) as [Hs Hne].
  unfold monoStroke, monoH.
  destruct (mono_batches_H b (Mono.saveToHistory s)) as [-> ->].
  by eapply fresh_history_repaint.
Qed.

Lemma colored_stroke_fresh (k : nat) (b : list (list Cell * Colored.Tool))
    (s : Colored.State) :
  fresh_history k (coloredH s) → (k < 50)%nat →
  fresh_history (S k) (coloredH (coloredStroke b s)).
Proof.
  intros Hf Hk. destruct (colored_saveToHistory_fresh k s Hf Hk) as [Hs Hne].
  unfold coloredStroke, coloredH.
  destruct (colored_batches_H b (Colored.saveToHistory s)) as [-> ->].
  by eapply fresh_history_repaint.
Qed.

Lemma strokes_fresh {St B G}
    (proj : St → list G * list (list G) * list (list G))
    (stroke : B → St → St) :
  (∀ k b s, fresh_history k (proj s) → (k < 50)%nat →
            fresh_history (S k) (proj (stroke b s))) →
  ∀ (strokes : list B) (k : nat) (s : St),
    fresh_history k (proj s) → (k + length strokes ≤ 50)%nat →
    fresh_history (k + length strokes)
      (proj (fold_left (λ s b, stroke b s) strokes s)).
Proof.
  intros Hstep strokes. induction strokes as [|b strokes IH]; intros k s Hf Hk.
  - cbn. by rewrite Nat.add_0_r.
  - cbn in *. replace (k + S (length strokes))%nat
      with (S k + length strokes)%nat by lia.
    apply IH; [apply Hstep; [done|lia] | lia].
Qed.

(** C8, as the history cap allows it.  For 1 <= N <= 50, N strokes from a
    fresh editor (empty grid, empty history, nothing to redo) followed by N
    undos give back the empty grid, and N redos after that give back the
    grid as it was painted. *)
Theorem undo_redo_within_cap (N : nat) :
  (1 ≤ N ≤ 50)%nat → undo_redo_restores N.
Proof.
  intros HN. split.
  - intros s0 strokes Hp Hh Hr Hlen painted undone redone.
    assert (Hf : fresh_history N (monoH painted)).
    { subst painted. rewrite <- Hlen.
      apply (strokes_fresh monoH monoStroke mono_stroke_fresh strokes 0 s0);
        [|cbn; lia].
      unfold monoH, fresh_history. rewrite Hp, Hh, Hr. cbn. done. }
    apply fresh_history_restores in Hf as [Hu Hre].
    subst undone redone.
    pose proof (iter_commute monoH _ _ mono_handleUndo_H N painted) as Eu.
    pose proof (iter_commute monoH _ _ mono_handleRedo_H N
                  (Nat.iter N Mono.handleUndo painted)) as Er.
    rewrite Eu in Er. rewrite <- Eu in Hu. rewrite <- Er in Hre. done.
  - intros s0 strokes Hp Hh Hr Hlen painted undone redone.
    assert (Hf : fresh_history N (coloredH painted)).
    { subst painted. rewrite <- Hlen.
      apply (strokes_fresh coloredH coloredStroke colored_stroke_fresh
               strokes 0 s0); [|cbn; lia].
      unfold coloredH, fresh_history. rewrite Hp, Hh, Hr. cbn. done. }
    apply fresh_history_restores in Hf as [Hu Hre].
    subst undone redone.
    pose proof (iter_commute coloredH _ _ colored_handleUndo_H N painted)
      as Eu.
    pose proof (iter_commute coloredH _ _ colored_handleRedo_H N
                  (Nat.iter N Colored.handleUndo painted)) as Er.
    rewrite Eu in Er. rewrite <- Eu in Hu. rewrite <- Er in Hre. done.
Qed.

Lemma undo_redo_within_cap_witness : undo_redo_restores 3.
Proof. apply (undo_redo_within_cap 3). lia. Defined.

(** C8 as stated fails beyond the cap: after 51 strokes the snapshot of the
    empty grid has been evicted, and 51 undos stop at the grid left by the
    first stroke. *)
Lemma undo_redo_beyond_cap : ¬ undo_redo_restores 51.
Proof.
  intros [Hmono _].
  destruct (Hmono Mono.initial strokes51 eq_refl eq_refl eq_refl eq_refl)
    as [Hundone _].
  vm_compute in Hundone. discriminate Hundone.
Qed.

(** ** The key lists stay free of repetitions

    The lists that stand for the JS [Set] and [Map] of the grid never hold a
    key twice, in the grid and in every snapshot, from the fresh editor on
    and through every handler of the embedding. *)

Lemma ok3_undoH {G} (P : G → Prop) (x : G * list G * list G) :
  ok3 P x → ok3 P (undoH x).
Proof.
  destruct x as [[g h] r]. intros (Hg & Hh & Hr). cbn in Hg, Hh, Hr.
  unfold undoH, ok3. destruct (last h) as [p|] eqn:Hl; [|by split_and!].
  apply last_Some in Hl as [h' ->]. rewrite slice_init_snoc.
  apply Forall_app in Hh as [Hh' Hp]. apply Forall_inv in Hp.
  split_and!; cbn; [done|done|by constructor].
Qed.

Lemma ok3_redoH {G} (P : G → Prop) (x : G * list G * list G) :
  ok3 P x → ok3 P (redoH x).
Proof.
  destruct x as [[g h] r]. intros (Hg & Hh & Hr). cbn in Hg, Hh, Hr.
  unfold redoH, ok3. destruct r as [|n r']; [by split_and!|].
  apply Forall_cons in Hr as [Hn Hr'].
  split_and!; cbn; [done| |done].
  apply Forall_app. split; [done|]. by constructor.
Qed.

Lemma ok3_push {G} (P : G → Prop) (g : G) (h r : list G) :
  ok3 P (g, h, r) → ok3 P (g, JS.slice_last 50 (h ++ [g]), []).
Proof.
  intros (Hg & Hh & Hr). cbn in *. unfold ok3.
  split_and!; cbn; [done| |constructor].
  unfold JS.slice_last. apply Forall_drop, Forall_app.
  split; [done|]. by constructor.
Qed.

Lemma mono_initial_ok : ok3 NoDup (monoH Mono.initial).
Proof. unfold ok3. split_and!; constructor. Qed.

Lemma mono_updatePixels_ok (points : list Cell) (a : Mono.Tool)
    (s : Mono.State) :
  ok3 NoDup (monoH s) → ok3 NoDup (monoH (Mono.updatePixels points a s)).
Proof.
  intros (Hg & Hh & Hr). unfold ok3. split_and!; [|done|done].
  by apply mono_updatePixels_NoDup.
Qed.

Lemma mono_saveToHistory_ok (s : Mono.State) :
  ok3 NoDup (monoH s) → ok3 NoDup (monoH (Mono.saveToHistory s)).
Proof.
  intros Hok. unfold Mono.saveToHistory.
  pose proof (ok3_push NoDup _ _ _ Hok) as Hpush.
  destruct (last (Mono.history s)); [|done].
  by destruct (InsOrd.same_elements _ _).
Qed.

Lemma mono_handleUndo_ok (s : Mono.State) :
  ok3 NoDup (monoH s) → ok3 NoDup (monoH (Mono.handleUndo s)).
Proof. rewrite mono_handleUndo_H. apply ok3_undoH. Qed.

Lemma mono_handleRedo_ok (s : Mono.State) :
  ok3 NoDup (monoH s) → ok3 NoDup (monoH (Mono.handleRedo s)).
Proof. rewrite mono_handleRedo_H. apply ok3_redoH. Qed.

Lemma mono_regenerateRounding_ok (Math_sin : Q → Q) (s : Mono.State) :
  ok3 NoDup (monoH s) →
  ok3 NoDup (monoH (Mono.regenerateRounding Math_sin s)).
Proof. done. Qed.

Lemma mono_setGridWidth_ok (w : Z) (s : Mono.State) :
  ok3 NoDup (monoH s) → ok3 NoDup (monoH (Mono.setGridWidth w s)).
Proof. done. Qed.

Lemma mset_keys (k : Cell) (v : string) (m : list (Cell * string)) :
  (InsOrd.mset k v m).*1 = if decide (k ∈ m.*1) then m.*1 else m.*1 ++ [k].
Proof.
  induction m as [|[k0 v0] m IH]; cbn.
  - rewrite decide_False; [done|]. apply not_elem_of_nil.
  - destruct (decide (k0 = k)) as [->|Hne]; cbn.
    + rewrite decide_True; [done|]. by left.
    + rewrite IH. destruct (decide (k ∈ m.*1)).
      * rewrite decide_True; [done|]. by right.
      * rewrite decide_False; [done|].
        intros [?|?]%elem_of_cons; congruence.
Qed.

Lemma mdelete_keys (k : Cell) (m : list (Cell * string)) :
  (InsOrd.mdelete k m).*1 = filter (λ k', k' ≠ k) m.*1.
Proof.
  unfold InsOrd.mdelete. induction m as [|[k0 v0] m IH]; [done|].
  rewrite fmap_cons, !filter_cons. cbn [fst].
  destruct (decide (k0 ≠ k)); cbn; by rewrite IH.
Qed.

Lemma colored_paintCell_keys (W H : Z) (a : Colored.Tool) (color : string)
    (px py : Z) (next : list (Cell * string)) :
  keysNoDup next → keysNoDup (Colored.paintCell W H a color px py next).
Proof.
  unfold keysNoDup, Colored.paintCell. intros Hn.
  destruct (_ && _); [|done]. destruct a; [| |done].
  - rewrite mset_keys. case_decide; [done|].
    apply NoDup_app. split_and!; [done| |apply NoDup_singleton].
    intros x Hx ->%list_elem_of_singleton. done.
  - rewrite mdelete_keys. by apply NoDup_filter.
Qed.

Lemma colored_updatePixels_ok (points : list Cell) (a : Colored.Tool)
    (s : Colored.State) :
  ok3 keysNoDup (coloredH s) →
  ok3 keysNoDup (coloredH (Colored.updatePixels points a s)).
Proof.
  intros (Hg & Hh & Hr). unfold ok3. split_and!; [|done|done].
  cbn [coloredH fst]. rewrite colored_updatePixels_pixelMap.
  cbn in Hg. revert Hg.
  generalize (brushCells (Colored.brushSize s) points), (Colored.pixelMap s).
  intros cells. induction cells as [|c cells IH]; intros prev Hp; [done|].
  cbn. apply IH. by apply colored_paintCell_keys.
Qed.

Lemma colored_saveToHistory_ok (s : Colored.State) :
  ok3 keysNoDup (coloredH s) →
  ok3 keysNoDup (coloredH (Colored.saveToHistory s)).
Proof.
  intros Hok. unfold Colored.saveToHistory.
  pose proof (ok3_push keysNoDup _ _ _ Hok) as Hpush.
  destruct (last (Colored.history s)); [|done].
  by destruct (_ && _).
Qed.

Lemma colored_handleUndo_ok (s : Colored.State) :
  ok3 keysNoDup (coloredH s) → ok3 keysNoDup (coloredH (Colored.handleUndo s)).
Proof. rewrite colored_handleUndo_H. apply ok3_undoH. Qed.

Lemma colored_handleRedo_ok (s : Colored.State) :
  ok3 keysNoDup (coloredH s) → ok3 keysNoDup (coloredH (Colored.handleRedo s)).
Proof. rewrite colored_handleRedo_H. apply ok3_redoH. Qed.

(** ** Pseudo-random draws *)

Lemma pseudoRandom_range (Math_sin : Q → Q) (x y seed : Q) :
  (0 <= pseudoRandom Math_sin x y seed)%Q
  ∧ (pseudoRandom Math_sin x y seed < 1)%Q.
Proof.
  unfold pseudoRandom, JS.floor.
  set (n := (Math_sin _ * _)%Q).
  pose proof (Qfloor_le n) as Hlo. pose proof (Qlt_floor n) as Hhi.
  rewrite inject_Z_plus in Hhi. change (inject_Z 1) with 1%Q in Hhi.
  split; lra.
Qed.

(** ** Bridge placement *)

Section bridge_facts.
Variable Math_sin : Q → Q.
Variables (cornerMode : CornerMode) (roundedRatio seed : Q).
Variable hasPixel : Z → Z → bool.

#[local] Abbreviation step := (bridgeStep Math_sin roundedRatio seed hasPixel).
#[local] Abbreviation pos := (posBridge Math_sin roundedRatio seed hasPixel).
#[local] Abbreviation neg := (negBridge Math_sin roundedRatio seed hasPixel).
#[local] Abbreviation at_ := (bridgesAt Math_sin roundedRatio seed hasPixel).

Lemma bridgeStep_list (X Y : Z) (acc : list Bridge * list Cell) :
  (step X Y acc).1 = acc.1 ++ at_ X Y.
Proof.
  unfold bridgeStep, bridgesAt, posBridge, negBridge, posDiagonal,
    negDiagonal.
  destruct (hasPixel (X - 1) (Y - 1)), (hasPixel X Y), (hasPixel X (Y - 1)),
    (hasPixel (X - 1) Y); cbn;
    repeat (destruct (JS.ltb _ _); cbn); by rewrite ?app_nil_r.
Qed.

Lemma bridgeStep_map (X Y : Z) (acc : list Bridge * list Cell) (c : Cell) :
  c ∈ (step X Y acc).2 ↔ c ∈ acc.2 ∨ (c = (X, Y) ∧ (pos X Y || neg X Y = true)).
Proof.
  unfold bridgeStep, posBridge, negBridge, posDiagonal, negDiagonal.
  destruct (hasPixel (X - 1) (Y - 1)), (hasPixel X Y), (hasPixel X (Y - 1)),
    (hasPixel (X - 1) Y); cbn;
    repeat (destruct (JS.ltb _ _); cbn);
    rewrite ?elem_of_add; naive_solver.
Qed.

Lemma bridge_rows_list (X : Z) (ys : list Z) (acc : list Bridge * list Cell) :
  (fold_left (λ acc Y, step X Y acc) ys acc).1
  = acc.1 ++ flat_map (at_ X) ys.
Proof.
  revert acc. induction ys as [|Y ys IH]; intros acc; cbn.
  - by rewrite app_nil_r.
  - by rewrite IH, bridgeStep_list, <- app_assoc.
Qed.

Lemma bridge_rows_map (X : Z) (ys : list Z) (acc : list Bridge * list Cell)
    (c : Cell) :
  c ∈ (fold_left (λ acc Y, step X Y acc) ys acc).2
  ↔ c ∈ acc.2 ∨ ∃ Y, Y ∈ ys ∧ c = (X, Y) ∧ (pos X Y || neg X Y = true).
Proof.
  revert acc. induction ys as [|Y ys IH]; intros acc; cbn.
  - setoid_rewrite elem_of_nil. naive_solver.
  - rewrite IH, bridgeStep_map. setoid_rewrite elem_of_cons. naive_solver.
Qed.

Lemma bridge_grid_list (xs ys : list Z) (acc : list Bridge * list Cell) :
  (fold_left (λ acc X, fold_left (λ acc Y, step X Y acc) ys acc) xs acc).1
  = acc.1 ++ flat_map (λ X, flat_map (at_ X) ys) xs.
Proof.
  revert acc. induction xs as [|X xs IH]; intros acc; cbn.
  - by rewrite app_nil_r.
  - by rewrite IH, bridge_rows_list, <- app_assoc.
Qed.

Lemma bridge_grid_map (xs ys : list Z) (acc : list Bridge * list Cell)
    (c : Cell) :
  c ∈ (fold_left (λ acc X, fold_left (λ acc Y, step X Y acc) ys acc) xs acc).2
  ↔ c ∈ acc.2
    ∨ ∃ X Y, X ∈ xs ∧ Y ∈ ys ∧ c = (X, Y) ∧ (pos X Y || neg X Y = true).
Proof.
  revert acc. induction xs as [|X xs IH]; intros acc; cbn.
  - setoid_rewrite elem_of_nil. naive_solver.
  - rewrite IH, bridge_rows_map. setoid_rewrite elem_of_cons. split.
    + intros [[?|(Y & ? & ? & ?)]|(X0 & Y & ? & ? & ? & ?)].
      * by left.
      * right. exists X, Y. tauto.
      * right. exists X0, Y. tauto.
    + intros [?|(X0 & Y & [->|?] & ? & ? & ?)].
      * by left; left.
      * left. right. by exists Y.
      * right. by exists X0, Y.
Qed.

(** The bridge pass, once enabled, pushes [bridgesAt] for every interior
    lattice point, column by column. *)
Lemma bridgePass_list (size : nat) (W H : Z) :
  (bridgePass Math_sin cornerMode roundedRatio seed hasPixel size W H).1
  = if negb (bool_decide (cornerMode = outer)) && (0 <? size)%nat
    then flat_map (λ X, flat_map (at_ X) (JS.range 1 H)) (JS.range 1 W)
    else [].
Proof.
  unfold bridgePass. destruct (_ && _); [|done].
  by rewrite bridge_grid_list.
Qed.

Lemma bridgePass_map (size : nat) (W H : Z) (c : Cell) :
  c ∈ (bridgePass Math_sin cornerMode roundedRatio seed hasPixel size W H).2
  ↔ cornerMode ≠ outer ∧ (0 < size)%nat
    ∧ 1 ≤ c.1 < W ∧ 1 ≤ c.2 < H ∧ (pos c.1 c.2 || neg c.1 c.2 = true).
Proof.
  unfold bridgePass.
  destruct (negb _ && _) eqn:Hen.
  - apply andb_true_iff in Hen as [Hm Hs].
    apply negb_true_iff, bool_decide_eq_false in Hm.
    apply Nat.ltb_lt in Hs.
    rewrite bridge_grid_map. cbn. rewrite elem_of_nil.
    setoid_rewrite elem_of_range. destruct c as [X Y]. cbn.
    split; [intros [[]|(X' & Y' & ? & ? & [= -> ->] & ?)]; done|].
    intros (_ & _ & ? & ? & ?). right. by exists X, Y.
  - cbn. rewrite elem_of_nil. split; [done|]. intros (Hm & Hs & _).
    apply andb_false_iff in Hen as [Hen|Hen].
    + apply negb_false_iff, bool_decide_eq_true in Hen. done.
    + apply Nat.ltb_ge in Hen. lia.
Qed.

Lemma elem_of_bridgesAt (X Y : Z) (b : Bridge) :
  b ∈ at_ X Y ↔
  bX b = X ∧ bY b = Y
  ∧ ((pos X Y = true
       ∧ (quadrant b = TR_GAP_FILLET ∨ quadrant b = BL_GAP_FILLET))
     ∨ (neg X Y = true
        ∧ (quadrant b = BR_GAP_FILLET ∨ quadrant b = TL_GAP_FILLET))).
Proof.
  unfold bridgesAt. rewrite elem_of_app.
  destruct (pos X Y), (neg X Y); rewrite ?elem_of_cons, ?elem_of_nil;
    destruct b as [bx by_ q]; cbn;
    (split; [intros H; destruct_or?; simplify_eq; naive_solver|]);
    intros (-> & -> & [[? [->| ->]]|[? [-> | ->]]]); try done; auto.
Qed.

Lemma elem_of_bridgePass (size : nat) (W H : Z) (b : Bridge) :
  b ∈ (bridgePass Math_sin cornerMode roundedRatio seed hasPixel size W H).1
  ↔ cornerMode ≠ outer ∧ (0 < size)%nat
    ∧ 1 ≤ bX b < W ∧ 1 ≤ bY b < H ∧ b ∈ at_ (bX b) (bY b).
Proof.
  rewrite bridgePass_list.
  destruct (negb _ && _) eqn:Hen.
  - apply andb_true_iff in Hen as [Hm Hs].
    apply negb_true_iff, bool_decide_eq_false in Hm.
    apply Nat.ltb_lt in Hs.
    rewrite list_elem_of_In, in_flat_map. split.
    + intros (X & HX & Hb). apply in_flat_map in Hb as (Y & HY & Hb).
      apply list_elem_of_In, elem_of_range in HX, HY.
      apply list_elem_of_In in Hb.
      pose proof Hb as (<- & <- & _)%elem_of_bridgesAt. done.
    + intros (_ & _ & HX & HY & Hb). exists (bX b).
      split; [by apply list_elem_of_In, elem_of_range|].
      apply in_flat_map. exists (bY b).
      split; [by apply list_elem_of_In, elem_of_range|].
      by apply list_elem_of_In.
  - rewrite elem_of_nil. split; [done|]. intros (Hm & Hs & _).
    apply andb_false_iff in Hen as [Hen|Hen].
    + apply negb_false_iff, bool_decide_eq_true in Hen. done.
    + apply Nat.ltb_ge in Hen. lia.
Qed.
End bridge_facts.

(** ** Rounding selection *)

Section rounding_facts.
Variable Math_sin : Q → Q.
Variables (cornerMode : CornerMode) (roundedRatio seed : Q).

#[local] Abbreviation sel := (selected Math_sin cornerMode roundedRatio seed).
#[local] Abbreviation rstep :=
  (roundingStep Math_sin cornerMode roundedRatio seed).

Lemma roundingStep_elem (contour : list Edge) (cId : nat) (edge : Edge)
    (i : nat) (acc : list (nat * nat)) (k : nat * nat) :
  k ∈ rstep contour cId edge i acc
  ↔ k ∈ acc ∨ (k = (cId, i) ∧ sel contour i edge = true).
Proof.
  unfold roundingStep, selected.
  destruct (modeExcludes _ _); cbn; [naive_solver|].
  destruct (JS.ltb _ _); [|naive_solver].
  rewrite elem_of_add. naive_solver.
Qed.

Lemma rounding_contour_elem (contour : list Edge) (cId : nat)
    (l : list Edge) (i0 : nat) (acc : list (nat * nat)) (k : nat * nat) :
  k ∈ forEachFrom (rstep contour cId) i0 l acc
  ↔ k ∈ acc
    ∨ ∃ i edge, k = (cId, (i0 + i)%nat) ∧ l !! i = Some edge
        ∧ sel contour (i0 + i) edge = true.
Proof.
  revert i0 acc. induction l as [|e l IH]; intros i0 acc; cbn.
  - split; [by left|]. intros [?|(i & edge & _ & Hl & _)]; [done|].
    by rewrite lookup_nil in Hl.
  - rewrite IH, roundingStep_elem. split.
    + intros [[?|[-> Hs]]|(i & edge & -> & Hl & Hs)]; [by left| |].
      * right. exists 0%nat, e. by rewrite Nat.add_0_r.
      * right. exists (S i), edge.
        by replace (i0 + S i)%nat with (S i0 + i)%nat by lia.
    + intros [?|(i & edge & -> & Hl & Hs)]; [by left; left|].
      destruct i as [|i]; cbn in Hl.
      * injection Hl as ->. rewrite Nat.add_0_r in *. left. by right.
      * right. exists i, edge.
        by replace (S i0 + i)%nat with (i0 + S i)%nat by lia.
Qed.

Lemma rounding_contours_elem (l : list (list Edge)) (c0 : nat)
    (acc : list (nat * nat)) (k : nat * nat) :
  k ∈ forEachFrom (λ contour cId, forEach (rstep contour cId) contour)
        c0 l acc
  ↔ k ∈ acc
    ∨ ∃ c contour i edge, k = ((c0 + c)%nat, i) ∧ l !! c = Some contour
        ∧ contour !! i = Some edge ∧ sel contour i edge = true.
Proof.
  revert c0 acc. induction l as [|x l IH]; intros c0 acc; cbn.
  - split; [by left|]. intros [?|(c & contour & i & edge & _ & Hl & _)];
      [done|]. by rewrite lookup_nil in Hl.
  - rewrite IH. unfold forEach. rewrite rounding_contour_elem. split.
    + intros [[?|(i & edge & -> & Hl & Hs)]
             |(c & contour & i & edge & -> & Hl & Hc & Hs)]; [by left| |].
      * right. exists 0%nat, x, i, edge. by rewrite Nat.add_0_r.
      * right. exists (S c), contour, i, edge.
        by replace (c0 + S c)%nat with (S c0 + c)%nat by lia.
    + intros [?|(c & contour & i & edge & -> & Hl & Hc & Hs)];
        [by left; left|].
      destruct c as [|c]; cbn in Hl.
      * injection Hl as ->. rewrite Nat.add_0_r. left. right.
        by exists i, edge.
      * right. exists c, contour, i, edge.
        by replace (S c0 + c)%nat with (c0 + S c)%nat by lia.
Qed.

(** The key [(cId, i)] is in the rounded set exactly when corner [i] of
    contour [cId] exists and is selected. *)
Lemma elem_of_roundingPass (contours : list (list Edge)) (cId i : nat) :
  (cId, i) ∈ roundingPass Math_sin cornerMode roundedRatio seed contours
  ↔ ∃ contour edge, contours !! cId = Some contour
      ∧ contour !! i = Some edge ∧ sel contour i edge = true.
Proof.
  unfold roundingPass, forEach. rewrite rounding_contours_elem.
  rewrite elem_of_nil. split.
  - intros [[]|(c & contour & i' & edge & [= -> ->] & ? & ? & ?)].
    by exists contour, edge.
  - intros (contour & edge & ? & ? & ?). right.
    by exists cId, contour, i, edge.
Qed.
End rounding_facts.

Lemma selected_iff (Math_sin : Q → Q) (mode : CornerMode) (ratio seed : Q)
    (contour : list Edge) (i : nat) (edge : Edge) :
  selected Math_sin mode ratio seed contour i edge = true
  ↔ ((mode = outer → getCornerType edge (nextEdge contour i edge) = convex)
     ∧ (mode = inner → getCornerType edge (nextEdge contour i edge) = concave))
    ∧ (pseudoRandom Math_sin (inject_Z (x2 edge)) (inject_Z (y2 edge)) seed
       < ratio)%Q.
Proof.
  unfold selected. rewrite andb_true_iff, ltb_lt, negb_true_iff.
  destruct mode, (getCornerType edge (nextEdge contour i edge)); cbn; split;
    try (intros [? ?]; split_and!; (done || intros; congruence));
    intros [[H1 H2] H3]; split; try done;
    solve [specialize (H1 eq_refl); discriminate
          |specialize (H2 eq_refl); discriminate].
Qed.

Lemma flat_map_nil {A B} (f : A → list B) (l : list A) :
  (∀ x, x ∈ l → f x = []) → flat_map f l = [].
Proof.
  induction l as [|a l IH]; intros Hf; [done|]. cbn.
  rewrite Hf by (by left). apply IH. intros x Hx. apply Hf. by right.
Qed.

Lemma posDiagonal_true (hasPixel : Z → Z → bool) (X Y : Z) :
  posDiagonal hasPixel X Y = true
  ↔ hasPixel (X - 1) (Y - 1) = true ∧ hasPixel X Y = true
    ∧ hasPixel X (Y - 1) = false ∧ hasPixel (X - 1) Y = false.
Proof.
  unfold posDiagonal. rewrite !andb_true_iff, !negb_true_iff. tauto.
Qed.

Lemma negDiagonal_true (hasPixel : Z → Z → bool) (X Y : Z) :
  negDiagonal hasPixel X Y = true
  ↔ hasPixel X (Y - 1) = true ∧ hasPixel (X - 1) Y = true
    ∧ hasPixel (X - 1) (Y - 1) = false ∧ hasPixel X Y = false.
Proof.
  unfold negDiagonal. rewrite !andb_true_iff, !negb_true_iff. tauto.
Qed.

Lemma diagonals_exclusive (hasPixel : Z → Z → bool) (X Y : Z) :
  posDiagonal hasPixel X Y = true → negDiagonal hasPixel X Y = false.
Proof.
  unfold posDiagonal, negDiagonal.
  destruct (hasPixel (X - 1) (Y - 1)), (hasPixel X Y), (hasPixel X (Y - 1)),
    (hasPixel (X - 1) Y); done.
Qed.

(** The bridge pass meets [bridge_synthesis] for any occupancy query that
    decides [occupied]. *)
Lemma bridgePass_synthesis (Math_sin : Q → Q) (occupied : Cell → Prop)
    (nonEmpty : Prop) (hasPixel : Z → Z → bool) (size : nat)
    (mode : CornerMode) (ratio seed : Q) (W H : Z) :
  (∀ x y, hasPixel x y = true ↔ occupied (x, y)) →
  ((0 < size)%nat ↔ ∃ c, occupied c) →
  (nonEmpty ↔ (0 < size)%nat) →
  let out := bridgePass Math_sin mode ratio seed hasPixel size W H in
  bridge_synthesis Math_sin occupied nonEmpty mode ratio seed W H
    out.1 out.2.
Proof.
  intros Hocc Hsize HnonEmpty out. subst out.
  assert (Hfalse : ∀ x y, hasPixel x y = false ↔ ¬ occupied (x, y)).
  { intros x y. rewrite <- Hocc. symmetry. apply not_true_iff_false. }
  split_and!.
  - intros X Y HX HY Hmode Hne. apply HnonEmpty in Hne.
    assert (Hin : ∀ q, mkBridge X Y q
        ∈ (bridgePass Math_sin mode ratio seed hasPixel size W H).1
        ↔ mkBridge X Y q ∈ bridgesAt Math_sin ratio seed hasPixel X Y).
    { intros q. rewrite elem_of_bridgePass. cbn. tauto. }
    rewrite !Hin, !elem_of_bridgesAt, bridgePass_map. cbn.
    assert (Hpb : posBridge Math_sin ratio seed hasPixel X Y = true
      ↔ occupied (X - 1, Y - 1) ∧ occupied (X, Y)
        ∧ ¬ occupied (X, Y - 1) ∧ ¬ occupied (X - 1, Y)
        ∧ (pseudoRandom Math_sin (inject_Z X) (inject_Z Y) (seed + 1)
           < ratio)%Q).
    { unfold posBridge.
      rewrite andb_true_iff, posDiagonal_true, ltb_lt, !Hfalse, !Hocc.
      tauto. }
    assert (Hnb : negBridge Math_sin ratio seed hasPixel X Y = true
      ↔ occupied (X, Y - 1) ∧ occupied (X - 1, Y)
        ∧ ¬ occupied (X - 1, Y - 1) ∧ ¬ occupied (X, Y)
        ∧ (pseudoRandom Math_sin (inject_Z X) (inject_Z Y) (seed + 2)
           < ratio)%Q).
    { unfold negBridge.
      rewrite andb_true_iff, negDiagonal_true, ltb_lt, !Hfalse, !Hocc.
      tauto. }
    rewrite <- Hpb, <- Hnb. clear Hpb Hnb Hin.
    destruct (posBridge Math_sin ratio seed hasPixel X Y),
      (negBridge Math_sin ratio seed hasPixel X Y); cbn;
      split; split; intros; destruct_and?; destruct_or?; destruct_and?;
      destruct_or?; try done; split_and!; try done; auto.
  - intros Hoff. rewrite HnonEmpty in Hoff.
    assert (Hdis : negb (bool_decide (mode = outer)) && (0 <? size)%nat
                   = false).
    { apply andb_false_iff. destruct Hoff as [->|Hempty].
      - left. by rewrite bool_decide_eq_true_2.
      - right. apply Nat.ltb_ge. lia. }
    unfold bridgePass. by rewrite Hdis.
  - intros Hcells HW HH Hratio Hmode.
    assert (Hsz : (0 < size)%nat).
    { apply Hsize. exists (0, 0). apply Hcells. by left. }
    rewrite bridgePass_list.
    rewrite (proj2 (andb_true_iff _ _)); cycle 1.
    { split; [|by apply Nat.ltb_lt].
      by apply negb_true_iff, bool_decide_eq_false. }
    assert (Hhas : ∀ x y, hasPixel x y = true
                          ↔ (x = 0 ∧ y = 0) ∨ (x = 1 ∧ y = 1)).
    { intros x y. rewrite Hocc, Hcells. split.
      - intros [[= -> ->]|[= -> ->]]; [by left|by right].
      - intros [[-> ->]|[-> ->]]; [by left|by right]. }
    assert (Hno : ∀ x y, ¬ ((x = 0 ∧ y = 0) ∨ (x = 1 ∧ y = 1))
                         → hasPixel x y = false).
    { intros x y Hn. apply not_true_iff_false. by rewrite Hhas. }
    assert (Hnil : ∀ X Y, 1 ≤ X → 1 ≤ Y → (X, Y) ≠ (1, 1) →
              bridgesAt Math_sin ratio seed hasPixel X Y = []).
    { intros X Y HX HY Hne. unfold bridgesAt, posBridge, negBridge.
      assert (Hxy : hasPixel X Y = false).
      { apply Hno. intros [[? ?]|[? ?]]; [lia|]. apply Hne. congruence. }
      assert (Hneg : negDiagonal hasPixel X Y = false).
      { apply not_true_iff_false. rewrite negDiagonal_true, !Hhas.
        intros ([[? ?]|[? ?]] & [[? ?]|[? ?]] & _); lia. }
      unfold posDiagonal. rewrite Hxy, Hneg, andb_false_r. done. }
    rewrite (range_cons 1 W) by lia. cbn [flat_map].
    rewrite (range_cons 1 H) by lia. cbn [flat_map].
    rewrite (flat_map_nil _ (JS.range (1 + 1) H)); cycle 1.
    { intros Y HY%elem_of_range. apply Hnil; [lia..|].
      intros [= ?]. lia. }
    rewrite (flat_map_nil _ (JS.range (1 + 1) W)); cycle 1.
    { intros X HX%elem_of_range.
      rewrite Hnil by (try lia; intros [= ?]; lia). apply flat_map_nil.
      intros Y HY%elem_of_range. apply Hnil; [lia..|].
      intros [= ? ?]. lia. }
    rewrite !app_nil_r. unfold bridgesAt, posBridge, negBridge.
    assert (Hpos : posDiagonal hasPixel 1 1 = true).
    { rewrite posDiagonal_true. split_and!.
      - apply Hhas. by left.
      - apply Hhas. by right.
      - apply Hno. intros [[? ?]|[? ?]]; lia.
      - apply Hno. intros [[? ?]|[? ?]]; lia. }
    rewrite Hpos, (diagonals_exclusive _ _ _ Hpos). cbn.
    rewrite (proj2 (ltb_lt _ _)); [done|].
    rewrite Hratio. apply pseudoRandom_range.
Qed.

Lemma length_pos_elem {A} (l : list A) :
  (0 < length l)%nat ↔ ∃ x, x ∈ l.
Proof.
  destruct l as [|a l]; cbn.
  - split; [lia|]. intros [x Hx]. by apply elem_of_nil in Hx.
  - split; [|lia]. intros _. exists a. by left.
Qed.

Lemma length_pos_nonempty {A} (l : list A) : l ≠ [] ↔ (0 < length l)%nat.
Proof. destruct l; cbn; split; (done || lia). Qed.


(** ** Determinism of the recomputation *)

(** The bridge pass looks at the grid only through the occupancy query:
    grids holding the same cells, painted in any order, get the same bridge
    list and the same membership map. *)
Lemma bridges_order_independent (Math_sin : Q → Q) (a b : Mono.State) :
  (∀ c, c ∈ Mono.pixels a ↔ c ∈ Mono.pixels b) →
  Mono.seed a = Mono.seed b →
  Mono.roundedRatio a = Mono.roundedRatio b →
  Mono.cornerMode a = Mono.cornerMode b →
  Mono.gridWidth a = Mono.gridWidth b →
  Mono.gridHeight a = Mono.gridHeight b →
  let a' := Mono.regenerateRounding Math_sin a in
  let b' := Mono.regenerateRounding Math_sin b in
  Mono.bridges a' = Mono.bridges b' ∧ Mono.bridgeMap a' = Mono.bridgeMap b'.
Proof.
  intros Hp Hs Hr Hm Hw Hh a' b'. subst a' b'. cbn.
  rewrite Hs, Hr, Hm, Hw, Hh.
  assert (Hhas : ∀ x y, Mono.hasPixel a x y = Mono.hasPixel b x y).
  { intros x y. unfold Mono.hasPixel, InsOrd.has.
    apply bool_decide_ext, Hp. }
  assert (Hsize : (0 <? length (Mono.pixels a))%nat
                  = (0 <? length (Mono.pixels b))%nat).
  { destruct (Mono.pixels a) as [|ca la] eqn:Ea,
      (Mono.pixels b) as [|cb lb] eqn:Eb; try done.
    - exfalso. apply (not_elem_of_nil cb). apply Hp. by left.
    - exfalso. apply (not_elem_of_nil ca). apply Hp. by left. }
  assert (Hpass :
    bridgePass Math_sin (Mono.cornerMode b) (Mono.roundedRatio b)
      (Mono.seed b) (Mono.hasPixel a) (length (Mono.pixels a))
      (Mono.gridWidth b) (Mono.gridHeight b)
    = bridgePass Math_sin (Mono.cornerMode b) (Mono.roundedRatio b)
        (Mono.seed b) (Mono.hasPixel b) (length (Mono.pixels b))
        (Mono.gridWidth b) (Mono.gridHeight b)).
  { unfold bridgePass. rewrite Hsize. destruct (_ && _); [|done].
    apply fold_left_ext. intros acc X. apply fold_left_ext. intros acc' Y.
    unfold bridgeStep. by rewrite !Hhas. }
  by rewrite Hpass.
Qed.

(** C2, as the tracer allows it.  Two runs of the recomputation on editors
    that hold the same cells and agree on seed, roundedRatio, cornerMode,
    gridWidth and gridHeight (and may differ in everything else, the order
    in which the cells were painted included) produce the same bridge list
    and the same bridge-membership map.  When the cells were also painted
    in the same order, the runs produce the same rounded-corner set.
    pseudoRandom gives the same value on the same inputs. *)
Theorem regenerateRounding_deterministic (Math_sin : Q → Q)
    (a b : Mono.State) :
  (∀ c, c ∈ Mono.pixels a ↔ c ∈ Mono.pixels b) →
  Mono.seed a = Mono.seed b →
  Mono.roundedRatio a = Mono.roundedRatio b →
  Mono.cornerMode a = Mono.cornerMode b →
  Mono.gridWidth a = Mono.gridWidth b →
  Mono.gridHeight a = Mono.gridHeight b →
  let a' := Mono.regenerateRounding Math_sin a in
  let b' := Mono.regenerateRounding Math_sin b in
  Mono.bridges a' = Mono.bridges b'
  ∧ Mono.bridgeMap a' = Mono.bridgeMap b'
  ∧ (Mono.pixels a = Mono.pixels b
     → Mono.roundedCorners a' = Mono.roundedCorners b')
  ∧ (∀ x y seed x' y' seed' : Q,
       x = x' → y = y' → seed = seed' →
       pseudoRandom Math_sin x y seed = pseudoRandom Math_sin x' y' seed').
Proof.
  intros Hp Hs Hr Hm Hw Hh a' b'.
  destruct (bridges_order_independent Math_sin a b Hp Hs Hr Hm Hw Hh)
    as [Hb Hbm].
  split_and!; [exact Hb|exact Hbm| |].
  - intros Hl. subst a' b'.
    unfold Mono.regenerateRounding, Mono.findContour, Mono.boundaryEdges,
      Mono.hasPixel. cbn.
    by rewrite Hl, Hs, Hr, Hm, Hw, Hh.
  - by intros x y seed x' y' seed' -> -> ->.
Qed.

Lemma regenerateRounding_deterministic_witness :
  let a := Mono.setPixels [(0, 0); (1, 1)] Mono.initial in
  let b :=
    Mono.setHistory [[(5, 5)]]
      (Mono.setRoundedCorners [(7%nat, 7%nat)]
         (Mono.setBridgeMap [(3, 3)]
            (Mono.setPixels [(1, 1); (0, 0)] Mono.initial))) in
  Mono.bridges (Mono.regenerateRounding (λ q, q) a)
  = Mono.bridges (Mono.regenerateRounding (λ q, q) b)
  ∧ Mono.bridgeMap (Mono.regenerateRounding (λ q, q) a)
    = Mono.bridgeMap (Mono.regenerateRounding (λ q, q) b).
Proof.
  intros a b.
  destruct (regenerateRounding_deterministic (λ q, q) a b)
    as (Hb & Hm & _); try reflexivity.
  - intros c. subst a b. cbn. rewrite !elem_of_cons, !elem_of_nil. tauto.
  - split; [exact Hb | exact Hm].
Defined.

(** ** The tracer *)

Lemma degree_mark (f : Edge → Cell) (used : gset nat) (v : Cell)
    (rest : list Edge) :
  ∀ (j0 k : nat) (e : Edge),
    rest !! k = Some e → (j0 + k)%nat ∉ used →
    degree f used v j0 rest
    = (degree f ({[(j0 + k)%nat]} ∪ used) v j0 rest
       + (if decide (f e = v) then 1 else 0))%nat.
Proof.
  assert (Hfar : ∀ rest j0 j, (j < j0)%nat →
            degree f ({[j]} ∪ used) v j0 rest = degree f used v j0 rest).
  { clear. induction rest as [|e rest IH]; intros j0 j Hlt; cbn; [done|].
    rewrite IH by lia. f_equal.
    destruct (decide ((j0 ∉ used) ∧ f e = v)) as [[? ?]|Hn].
    - rewrite decide_True; [done|]. split; [set_solver by lia|done].
    - rewrite decide_False; [done|]. intros [? ?]. apply Hn.
      split; [set_solver|done]. }
  induction rest as [|e' rest IH]; intros j0 k e Hk Hu; [done|].
  destruct k as [|k]; cbn in Hk |- *.
  - injection Hk as ->. rewrite Nat.add_0_r in *.
    rewrite Hfar by lia.
    rewrite (decide_False (P := (j0 ∉ {[j0]} ∪ used) ∧ _)) by set_solver.
    destruct (decide (f e = v)).
    + rewrite decide_True by done. lia.
    + rewrite decide_False by tauto. lia.
  - replace (j0 + S k)%nat with (S j0 + k)%nat in * by lia.
    rewrite (IH (S j0) k e Hk Hu).
    destruct (decide ((j0 ∉ used) ∧ f e' = v)) as [[? ?]|Hn];
      destruct (decide ((j0 ∉ {[(S j0 + k)%nat]} ∪ used) ∧ f e' = v))
        as [[? ?]|Hn']; try lia; exfalso.
    + apply Hn'. split; [set_solver by lia|done].
    + apply Hn. split; [set_solver|done].
Qed.

Lemma unusedCount_mark (used : gset nat) (rest : list Edge) :
  ∀ (j0 k : nat) (e : Edge),
    rest !! k = Some e → (j0 + k)%nat ∉ used →
    unusedCount used j0 rest
    = S (unusedCount ({[(j0 + k)%nat]} ∪ used) j0 rest).
Proof.
  assert (Hfar : ∀ rest j0 j, (j < j0)%nat →
            unusedCount ({[j]} ∪ used) j0 rest = unusedCount used j0 rest).
  { clear. induction rest as [|e rest IH]; intros j0 j Hlt; cbn; [done|].
    rewrite IH by lia. f_equal.
    destruct (decide (j0 ∉ used)) as [?|Hn].
    - rewrite decide_True; [done|]. set_solver by lia.
    - rewrite decide_False; [done|]. set_solver. }
  induction rest as [|e' rest IH]; intros j0 k e Hk Hu; [done|].
  destruct k as [|k]; cbn in Hk |- *.
  - rewrite Nat.add_0_r in *. rewrite Hfar by lia.
    rewrite decide_True by done.
    rewrite (decide_False (P := (j0 ∉ {[j0]} ∪ used))) by set_solver. lia.
  - replace (j0 + S k)%nat with (S j0 + k)%nat in * by lia.
    rewrite (IH (S j0) k e Hk Hu).
    destruct (decide (j0 ∉ used)) as [?|Hn];
      destruct (decide (j0 ∉ {[(S j0 + k)%nat]} ∪ used)) as [?|Hn'];
      try lia; exfalso.
    + apply Hn'. set_solver by lia.
    + apply Hn. set_solver.
Qed.
Section tracer_facts.
Variable meets : Cell → Cell → bool.
Hypothesis meets_eq : ∀ p q, meets p q = true ↔ p = q.

Lemma scan_Some (used : gset nat) (current : Edge) (rest : list Edge) :
  ∀ (j0 j : nat) (next : Edge),
    scan meets used current j0 rest = Some (j, next) →
    ∃ k, j = (j0 + k)%nat ∧ rest !! k = Some next ∧ (j ∉ used)
         ∧ startPt next = endPt current.
Proof.
  induction rest as [|e rest IH]; intros j0 j next Hs; cbn in Hs; [done|].
  destruct (decide (j0 ∈ used)) as [Hu|Hu].
  - apply IH in Hs as (k & -> & ? & ? & ?). exists (S k).
    split_and!; [lia|done..].
  - destruct (meets (endPt current) (startPt e)) eqn:Hm.
    + injection Hs as <- <-. exists 0%nat. apply meets_eq in Hm.
      split_and!; [lia|done..].
    + apply IH in Hs as (k & -> & ? & ? & ?). exists (S k).
      split_and!; [lia|done..].
Qed.

Lemma scan_None (used : gset nat) (current : Edge) (rest : list Edge) :
  ∀ j0, scan meets used current j0 rest = None →
        degree startPt used (endPt current) j0 rest = 0%nat.
Proof.
  induction rest as [|e rest IH]; intros j0 Hs; cbn in *; [done|].
  destruct (decide (j0 ∈ used)) as [Hu|Hu].
  - rewrite decide_False by tauto. by rewrite IH.
  - destruct (meets (endPt current) (startPt e)) eqn:Hm; [done|].
    rewrite decide_False; [by rewrite IH|].
    intros [_ He]. symmetry in He. apply meets_eq in He. congruence.
Qed.

End tracer_facts.

Section tracer_invariants.
Variable meets : Cell → Cell → bool.
Hypothesis meets_eq : ∀ p q, meets p q = true ↔ p = q.
Variable edges : list Edge.

#[local] Abbreviation ind v w := (if decide (v = w) then 1%nat else 0%nat).

Lemma unusedCount_le (used : gset nat) (rest : list Edge) (j : nat) :
  (unusedCount used j rest ≤ length rest)%nat.
Proof.
  revert j. induction rest as [|e rest IH]; intros j; cbn; [done|].
  specialize (IH (S j)). case_decide; lia.
Qed.

Lemma chained_snoc (c : list Edge) (cur next : Edge) :
  chained c → last c = Some cur → startPt next = endPt cur →
  chained (c ++ [next]).
Proof.
  intros Hc Hl Hn i e e' Hi Hi'.
  assert (Hlt : (S i < length (c ++ [next]))%nat)
    by (by eapply lookup_lt_Some).
  rewrite length_app in Hlt. cbn in Hlt.
  destruct (decide (S i = length c)) as [Heq|Hne].
  - rewrite lookup_app_r in Hi' by lia.
    replace (S i - length c)%nat with 0%nat in Hi' by lia.
    injection Hi' as <-.
    rewrite lookup_app_l in Hi by lia.
    rewrite last_lookup in Hl.
    replace (pred (length c)) with i in Hl by lia. congruence.
  - rewrite lookup_app_l in Hi, Hi' by lia. by eapply Hc.
Qed.

Lemma chained_singleton (e : Edge) : chained [e].
Proof. intros i e1 e2 _ Hi. destruct i; done. Qed.

(** Fuel is never the reason the loop stops: with more fuel than unused
    edges, any other such amount of fuel gives the same result. *)
Lemma traceLoop_fuel (f1 : nat) :
  ∀ (f2 : nat) (used : gset nat) (contour : list Edge) (current : Edge),
    (unusedCount used 0 edges < f1)%nat →
    (unusedCount used 0 edges < f2)%nat →
    traceLoop meets f1 edges used contour current
    = traceLoop meets f2 edges used contour current.
Proof.
  induction f1 as [|f1 IH]; intros f2 used contour current H1 H2; [lia|].
  destruct f2 as [|f2]; [lia|]. cbn.
  destruct (scan meets used current 0 edges) as [[j next]|] eqn:Hs; [|done].
  destruct (meets _ _); [done|].
  apply scan_Some in Hs as (k & -> & Hk & Hu & _); [|done].
  pose proof (unusedCount_mark used edges 0 k next Hk Hu) as Hm.
  apply IH; lia.
Qed.

(** The edges appended by the loop sit at fresh, pairwise distinct indices,
    which are exactly the indices it marks. *)
Lemma traceLoop_indices (fuel : nat) :
  ∀ (used : gset nat) (contour : list Edge) (current : Edge)
    (c' : list Edge) (u' : gset nat),
    traceLoop meets fuel edges used contour current = (c', u') →
    ∃ js es, c' = contour ++ es ∧ edgesAt edges js es ∧ NoDup js
             ∧ (∀ j, j ∈ js → j ∉ used)
             ∧ u' = list_to_set js ∪ used.
Proof.
  induction fuel as [|fuel IH]; intros used contour current c' u' Ht;
    cbn in Ht.
  { injection Ht as <- <-. exists [], []. rewrite app_nil_r.
    split_and!; [done|constructor|constructor|set_solver|set_solver]. }
  destruct (scan meets used current 0 edges) as [[j next]|] eqn:Hs.
  2:{ injection Ht as <- <-. exists [], []. rewrite app_nil_r.
      split_and!; [done|constructor|constructor|set_solver|set_solver]. }
  apply scan_Some in Hs as (k & -> & Hk & Hu & _); [|done]. cbn in Hu.
  destruct (meets _ _).
  - injection Ht as <- <-. exists [k], [next].
    split_and!; [done|by repeat constructor|apply NoDup_singleton| |].
    + intros j ->%list_elem_of_singleton. done.
    + cbn. set_solver.
  - apply IH in Ht as (js & es & -> & Hat & Hnd & Hfresh & ->).
    exists (k :: js), (next :: es).
    split_and!.
    + by rewrite <- app_assoc.
    + by constructor.
    + constructor; [|done]. intros Hin. apply Hfresh in Hin. set_solver.
    + intros j [->|Hin]%elem_of_cons; [done|].
      apply Hfresh in Hin. set_solver.
    + cbn. set_solver.
Qed.

Lemma traceLoop_chained (fuel : nat) :
  ∀ (used : gset nat) (contour : list Edge) (current : Edge)
    (c' : list Edge) (u' : gset nat),
    chained contour → last contour = Some current →
    traceLoop meets fuel edges used contour current = (c', u') →
    chained c'.
Proof.
  induction fuel as [|fuel IH]; intros used contour current c' u' Hc Hl Ht;
    cbn in Ht.
  { by injection Ht as <- <-. }
  destruct (scan meets used current 0 edges) as [[j next]|] eqn:Hs.
  2:{ by injection Ht as <- <-. }
  apply scan_Some in Hs as (k & -> & Hk & Hu & Hn); [|done].
  pose proof (chained_snoc contour current next Hc Hl Hn) as Hc'.
  destruct (meets _ _).
  - by injection Ht as <- <-.
  - eapply IH; [exact Hc'| |exact Ht]. by rewrite last_snoc.
Qed.

(** With balanced unused edges around an open walk from [startPt e0] to
    [endPt current], the loop can only stop back at [startPt e0], and it
    leaves the unused edges balanced. *)
Lemma traceLoop_closed (fuel : nat) :
  ∀ (used : gset nat) (contour : list Edge) (current e0 : Edge)
    (c' : list Edge) (u' : gset nat),
    (unusedCount used 0 edges < fuel)%nat →
    head contour = Some e0 → last contour = Some current →
    (∀ v, (degree startPt used v 0 edges + ind v (startPt e0)
           = degree endPt used v 0 edges + ind v (endPt current))%nat) →
    traceLoop meets fuel edges used contour current = (c', u') →
    closed c' ∧ balanced edges u'.
Proof.
  induction fuel as [|fuel IH];
    intros used contour current e0 c' u' Hfuel Hh Hl Hbal Ht; [lia|].
  cbn in Ht.
  destruct (scan meets used current 0 edges) as [[j next]|] eqn:Hs.
  - apply scan_Some in Hs as (k & -> & Hk & Hu & Hn); [|done]. cbn in Hu.
    assert (Hh' : head (contour ++ [next]) = Some e0).
    { destruct contour; [done|]. by cbn in *. }
    assert (Hbal' : ∀ v,
      (degree startPt ({[k]} ∪ used) v 0 edges + ind v (startPt e0)
       = degree endPt ({[k]} ∪ used) v 0 edges + ind v (endPt next))%nat).
    { intros v. specialize (Hbal v).
      rewrite (degree_mark startPt used v edges 0 k next Hk Hu) in Hbal.
      rewrite (degree_mark endPt used v edges 0 k next Hk Hu) in Hbal.
      cbn in Hbal. rewrite Hn in Hbal.
      repeat case_decide; simplify_eq; lia. }
    rewrite Hh' in Ht. cbn in Ht.
    destruct (meets (endPt next) (startPt e0)) eqn:Hm.
    + injection Ht as <- <-. apply meets_eq in Hm. split.
      * exists e0, next. by rewrite last_snoc.
      * intros v. specialize (Hbal' v). rewrite Hm in Hbal'. lia.
    + pose proof (unusedCount_mark used edges 0 k next Hk Hu) as Hmk.
      cbn in Hmk.
      eapply (IH _ _ _ e0); [|exact Hh'|by rewrite last_snoc|exact Hbal'
                             |exact Ht].
      lia.
  - injection Ht as <- <-.
    apply scan_None in Hs; [|done].
    pose proof (Hbal (endPt current)) as Hv. rewrite Hs in Hv.
    rewrite (decide_True (P := endPt current = endPt current)) in Hv by done.
    destruct (decide (endPt current = startPt e0)) as [Heq|Hne]; [|lia].
    split.
    + by exists e0, current.
    + intros v. specialize (Hbal v). rewrite Heq in Hbal. lia.
Qed.
End tracer_invariants.

Section chain_facts.
Variable meets : Cell → Cell → bool.
Hypothesis meets_eq : ∀ p q, meets p q = true ↔ p = q.
Variable edges : list Edge.

#[local] Abbreviation suffixAt i rest :=
  (∀ k e, rest !! k = Some e → edges !! (i + k)%nat = Some e).

Lemma suffixAt_tail (i : nat) (e : Edge) (rest : list Edge) :
  suffixAt i (e :: rest) → suffixAt (S i) rest.
Proof.
  intros Hs k e' Hk. replace (S i + k)%nat with (i + S k)%nat by lia.
  by apply Hs.
Qed.

(** Every contour kept by the outer loop has more than two edges and is
    chained head to tail, whatever the edge list. *)
Lemma traceAll_shape (rest : list Edge) :
  ∀ (i : nat) (used : gset nat) (contours : list (list Edge)),
    Forall (λ c, (2 < length c)%nat ∧ chained c) contours →
    Forall (λ c, (2 < length c)%nat ∧ chained c)
      (traceAll meets (length edges) edges i rest used contours).
Proof.
  induction rest as [|e rest IH]; intros i used contours Hacc;
    cbn [traceAll]; [done|].
  destruct (decide (i ∈ used)); [by apply IH|].
  destruct (traceLoop meets (length edges) edges ({[i]} ∪ used) [e] e)
    as [contour used'] eqn:Ht.
  apply IH.
  destruct (2 <? length contour)%nat eqn:Hlen; [|done].
  apply Forall_app. split; [done|]. constructor; [|done].
  split; [by apply Nat.ltb_lt|].
  eapply traceLoop_chained; [exact meets_eq|apply chained_singleton| |exact Ht].
  done.
Qed.

(** On balanced edges every contour kept by the outer loop is closed as
    well. *)
Lemma traceAll_wellFormed (rest : list Edge) :
  ∀ (i : nat) (used : gset nat) (contours : list (list Edge)),
    suffixAt i rest → balanced edges used →
    Forall wellFormed contours →
    Forall wellFormed
      (traceAll meets (length edges) edges i rest used contours).
Proof.
  induction rest as [|e rest IH]; intros i used contours Hsuf Hbal Hacc;
    cbn [traceAll]; [done|].
  pose proof (suffixAt_tail _ _ _ Hsuf) as Hsuf'.
  destruct (decide (i ∈ used)) as [Hu|Hu]; [by apply IH|].
  destruct (traceLoop meets (length edges) edges ({[i]} ∪ used) [e] e)
    as [contour used'] eqn:Ht.
  assert (Hi : edges !! (0 + i)%nat = Some e).
  { specialize (Hsuf 0%nat e eq_refl). by rewrite Nat.add_0_r in Hsuf. }
  pose proof (unusedCount_mark used edges 0 i e Hi Hu) as Hcnt. cbn in Hcnt.
  pose proof (unusedCount_le used edges 0) as Hle.
  destruct (traceLoop_closed meets meets_eq edges (length edges)
              ({[i]} ∪ used) [e] e e contour used') as [Hclosed Hbal'];
    [lia|done|done| |exact Ht|].
  { intros v. specialize (Hbal v).
    rewrite (degree_mark startPt used v edges 0 i e Hi Hu) in Hbal.
    rewrite (degree_mark endPt used v edges 0 i e Hi Hu) in Hbal.
    cbn in Hbal. repeat case_decide; simplify_eq; lia. }
  apply IH; [done..|].
  destruct (2 <? length contour)%nat eqn:Hlen; [|done].
  apply Forall_app. split; [done|]. constructor; [|done].
  split_and!; [by apply Nat.ltb_lt| |done].
  eapply traceLoop_chained; [exact meets_eq|apply chained_singleton| |exact Ht].
  done.
Qed.

(** The edges of the contours kept by the outer loop sit at pairwise
    distinct indices of the edge list. *)
Lemma traceAll_indices (rest : list Edge) :
  ∀ (i : nat) (used : gset nat) (contours : list (list Edge))
    (js0 : list nat),
    suffixAt i rest →
    edgesAt edges js0 (concat contours) → NoDup js0 →
    (∀ j, j ∈ js0 → j ∈ used) →
    ∃ js,
      edgesAt edges js
        (concat (traceAll meets (length edges) edges i rest used contours))
      ∧ NoDup js.
Proof.
  induction rest as [|e rest IH]; intros i used contours js0 Hsuf Hat Hnd Hin;
    cbn [traceAll]; [by exists js0|].
  pose proof (suffixAt_tail _ _ _ Hsuf) as Hsuf'.
  destruct (decide (i ∈ used)) as [Hu|Hu]; [by eapply IH|].
  destruct (traceLoop meets (length edges) edges ({[i]} ∪ used) [e] e)
    as [contour used'] eqn:Ht.
  apply traceLoop_indices in Ht as (js & es & -> & Hes & Hjs & Hfresh & ->);
    [|done].
  assert (Hi : edges !! i = Some e).
  { specialize (Hsuf 0%nat e eq_refl). by rewrite Nat.add_0_r in Hsuf. }
  destruct (2 <? length ([e] ++ es))%nat.
  - apply (IH _ _ _ (js0 ++ i :: js)); [done| | |].
    + rewrite concat_app. cbn. rewrite app_nil_r.
      apply Forall2_app; [done|]. by constructor.
    + apply NoDup_app. split_and!; [done| |].
      * intros j Hj [->|Hj']%elem_of_cons; [by apply Hin in Hj|].
        apply Hfresh in Hj'. apply Hin in Hj. set_solver.
      * constructor; [|done]. intros Hj. apply Hfresh in Hj. set_solver.
    + intros j [Hj|[->|Hj]%elem_of_cons]%elem_of_app.
      * apply Hin in Hj. set_solver.
      * set_solver.
      * set_solver.
  - apply (IH _ _ _ js0); [done..|].
    intros j Hj. apply Hin in Hj. set_solver.
Qed.

(** More fuel than [length edges] changes nothing. *)
Lemma traceAll_fuel (fuel : nat) (rest : list Edge) :
  (length edges ≤ fuel)%nat →
  ∀ (i : nat) (used : gset nat) (contours : list (list Edge)),
    suffixAt i rest →
    traceAll meets fuel edges i rest used contours
    = traceAll meets (length edges) edges i rest used contours.
Proof.
  intros Hfuel. induction rest as [|e rest IH]; intros i used contours Hsuf;
    cbn [traceAll]; [done|].
  pose proof (suffixAt_tail _ _ _ Hsuf) as Hsuf'.
  destruct (decide (i ∈ used)) as [Hu|Hu]; [by apply IH|].
  assert (Hi : edges !! (0 + i)%nat = Some e).
  { specialize (Hsuf 0%nat e eq_refl). by rewrite Nat.add_0_r in Hsuf. }
  pose proof (unusedCount_mark used edges 0 i e Hi Hu) as Hcnt. cbn in Hcnt.
  pose proof (unusedCount_le used edges 0) as Hle.
  rewrite (traceLoop_fuel meets meets_eq edges fuel (length edges)) by lia.
  destruct (traceLoop meets (length edges) edges ({[i]} ∪ used) [e] e)
    as [contour used'].
  by apply IH.
Qed.

Lemma suffixAt_whole : suffixAt 0 edges.
Proof. intros k e Hk. done. Qed.

Lemma chainEdges_fuel (fuel : nat) :
  (length edges ≤ fuel)%nat → edges ≠ [] →
  traceAll meets fuel edges 0 edges ∅ [] = chainEdges meets edges.
Proof.
  intros Hfuel Hne. unfold chainEdges.
  rewrite decide_False by (by destruct edges).
  apply traceAll_fuel; [done|apply suffixAt_whole].
Qed.

Lemma chainEdges_shape :
  Forall (λ c, (2 < length c)%nat ∧ chained c) (chainEdges meets edges).
Proof.
  unfold chainEdges. case_decide; [done|]. by apply traceAll_shape.
Qed.

Lemma chainEdges_wellFormed :
  balanced edges ∅ → Forall wellFormed (chainEdges meets edges).
Proof.
  intros Hbal. unfold chainEdges. case_decide; [done|].
  apply traceAll_wellFormed; [apply suffixAt_whole|done|done].
Qed.

Lemma chainEdges_indices :
  ∃ js, edgesAt edges js (concat (chainEdges meets edges)) ∧ NoDup js.
Proof.
  unfold chainEdges. case_decide.
  - exists []. split; constructor.
  - apply (traceAll_indices edges 0 ∅ [] []);
      [apply suffixAt_whole|constructor|constructor|].
    intros j Hj. by apply elem_of_nil in Hj.
Qed.

Lemma edgesAt_NoDup (js : list nat) (es : list Edge) :
  edgesAt edges js es → NoDup js → NoDup edges → NoDup es.
Proof.
  intros Hat Hjs Hed. apply NoDup_alt. intros a b e Ha Hb.
  destruct (Forall2_lookup_r _ _ _ _ _ Hat Ha) as (ja & Hja & Hea).
  destruct (Forall2_lookup_r _ _ _ _ _ Hat Hb) as (jb & Hjb & Heb).
  assert (ja = jb) as -> by exact (NoDup_lookup edges ja jb e Hed Hea Heb).
  exact (NoDup_lookup js a b jb Hjs Hja Hjb).
Qed.

Lemma chainEdges_NoDup :
  NoDup edges → NoDup (concat (chainEdges meets edges)).
Proof.
  intros Hed. destruct chainEdges_indices as (js & Hat & Hjs).
  by eapply edgesAt_NoDup.
Qed.
End chain_facts.

(** ** Boundary edges of a grid *)

Lemma flat_map_bind {A B} (f : A → list B) (l : list A) :
  flat_map f l = l ≫= f.
Proof. induction l as [|a l IH]; [done|]. cbn. by rewrite IH. Qed.

Lemma flat_map_filter {A B} (P : A → Prop) `{∀ x, Decision (P x)}
    (f : A → list B) (l : list A) :
  flat_map (λ x, if decide (P x) then f x else []) l
  = flat_map f (filter P l).
Proof.
  induction l as [|a l IH]; [done|]. rewrite filter_cons. cbn [flat_map].
  destruct (decide (P a)); cbn [flat_map]; by rewrite IH.
Qed.

Lemma cellOf_cellEdges (hasPixel : Z → Z → bool) (x y : Z) (e : Edge) :
  e ∈ cellEdges hasPixel x y → cellOf e = (x, y).
Proof.
  unfold cellEdges.
  destruct (hasPixel x (y - 1)), (hasPixel (x + 1) y), (hasPixel x (y + 1)),
    (hasPixel (x - 1) y); cbn;
    rewrite ?elem_of_cons, ?elem_of_nil; intros H;
    destruct_or?; try done; subst e; unfold cellOf; cbn; f_equal; lia.
Qed.

Lemma NoDup_cellEdges (hasPixel : Z → Z → bool) (x y : Z) :
  NoDup (cellEdges hasPixel x y).
Proof.
  unfold cellEdges.
  destruct (hasPixel x (y - 1)), (hasPixel (x + 1) y), (hasPixel x (y + 1)),
    (hasPixel (x - 1) y); cbn;
    repeat (constructor; [rewrite ?elem_of_cons, ?elem_of_nil;
                          intros H; destruct_or?; done|]);
    constructor.
Qed.

Lemma NoDup_gridEdges (hasPixel : Z → Z → bool) (cells : list Cell) :
  NoDup cells → NoDup (gridEdges hasPixel cells).
Proof.
  intros Hnd. unfold gridEdges. rewrite flat_map_bind.
  apply NoDup_bind; [|intros; apply NoDup_cellEdges|done].
  intros [xa ya] [xb yb] e _ _ Ha%cellOf_cellEdges Hb%cellOf_cellEdges.
  cbn in *. congruence.
Qed.

Lemma degree_empty (f : Edge → Cell) (v : Cell) (rest : list Edge) :
  ∀ j, degree f ∅ v j rest = cnt f v rest.
Proof.
  unfold cnt. induction rest as [|e rest IH]; intros j; [done|].
  cbn [degree]. rewrite IH, filter_cons.
  destruct (decide (f e = v)).
  - rewrite decide_True by set_solver. done.
  - rewrite decide_False by tauto. done.
Qed.

Lemma cnt_app (f : Edge → Cell) (v : Cell) (l k : list Edge) :
  cnt f v (l ++ k) = (cnt f v l + cnt f v k)%nat.
Proof. unfold cnt. by rewrite filter_app, length_app. Qed.

Lemma cnt_gridEdges (f : Edge → Cell) (v : Cell)
    (hasPixel : Z → Z → bool) (cells : list Cell) :
  cnt f v (gridEdges hasPixel cells)
  = sum_list_with (λ c, cnt f v (cellEdges hasPixel c.1 c.2)) cells.
Proof.
  induction cells as [|c cells IH]; [done|].
  unfold gridEdges in *. cbn [flat_map sum_list_with].
  by rewrite cnt_app, IH.
Qed.

Lemma sum_list_with_ext {A} (g1 g2 : A → nat) (l : list A) :
  (∀ x, g1 x = g2 x) → sum_list_with g1 l = sum_list_with g2 l.
Proof.
  intros Hg. induction l as [|a l IH]; [done|]. cbn. by rewrite Hg, IH.
Qed.

Lemma sum_list_with_add {A} (g1 g2 : A → nat) (l : list A) :
  sum_list_with (λ x, g1 x + g2 x)%nat l
  = (sum_list_with g1 l + sum_list_with g2 l)%nat.
Proof. induction l as [|a l IH]; [done|]. cbn. rewrite IH. lia. Qed.

Lemma sum_pick (P : Cell → Prop) `{∀ c, Decision (P c)} (q : Cell)
    (w : Cell → nat) (l : list Cell) :
  NoDup l → (∀ c, P c ↔ c = q) →
  sum_list_with (λ c, if decide (P c) then w c else 0%nat) l
  = if decide (q ∈ l) then w q else 0%nat.
Proof.
  intros Hnd HP. induction Hnd as [|c l Hc Hnd IH]; cbn [sum_list_with].
  - rewrite decide_False; [done|]. apply not_elem_of_nil.
  - rewrite IH. destruct (decide (P c)) as [Hp|Hp].
    + apply HP in Hp as ->.
      rewrite (decide_True (P := q ∈ q :: l)) by (by left).
      rewrite decide_False by done. lia.
    + destruct (decide (q ∈ l)).
      * rewrite decide_True by (by right). done.
      * rewrite decide_False; [done|].
        intros [->|?]%elem_of_cons; [|done]. by apply Hp, HP.
Qed.

Lemma cnt_opt (f : Edge → Cell) (v : Cell) (b : bool) (e : Edge)
    (l : list Edge) :
  cnt f v ((if b then [e] else []) ++ l)
  = ((if decide (f e = v) then Nat.b2n b else 0) + cnt f v l)%nat.
Proof.
  unfold cnt. destruct b; cbn [app Nat.b2n].
  - rewrite filter_cons. by case_decide.
  - by case_decide.
Qed.

Lemma cnt_cellEdges (f : Edge → Cell) (v : Cell) (hasPixel : Z → Z → bool)
    (x y : Z) :
  cnt f v (cellEdges hasPixel x y)
  = ((if decide (f (mkEdge x y (x + 1) y top) = v)
      then Nat.b2n (negb (hasPixel x (y - 1)%Z)) else 0)
     + ((if decide (f (mkEdge (x + 1) y (x + 1) (y + 1) right) = v)
         then Nat.b2n (negb (hasPixel (x + 1)%Z y)) else 0)
        + ((if decide (f (mkEdge (x + 1) (y + 1) x (y + 1) bottom) = v)
            then Nat.b2n (negb (hasPixel x (y + 1)%Z)) else 0)
           + (if decide (f (mkEdge x (y + 1) x y left) = v)
              then Nat.b2n (negb (hasPixel (x - 1)%Z y)) else 0))))%nat.
Proof.
  unfold cellEdges.
  rewrite <- (app_nil_r (if negb (hasPixel (x - 1) y) then _ else _)).
  rewrite !cnt_opt. unfold cnt. cbn [filter list_filter length]. lia.
Qed.

Section balance.
Variable hasPixel : Z → Z → bool.
Variable cells : list Cell.
Hypothesis cells_NoDup : NoDup cells.
Variables X Y : Z.

#[local] Abbreviation occ q w :=
  (if decide (q ∈ cells) then Nat.b2n (negb w) else 0%nat).

(** Edges leaving the lattice point (X, Y): the top edge of the cell below
    right, the right edge of the cell below left, the bottom edge of the
    cell above left, the left edge of the cell above right. *)
Lemma out_total :
  cnt startPt (X, Y) (gridEdges hasPixel cells)
  = sum_list [occ (X, Y) (hasPixel X (Y - 1));
              occ (X - 1, Y) (hasPixel X Y);
              occ (X - 1, Y - 1) (hasPixel (X - 1) Y);
              occ (X, Y - 1) (hasPixel (X - 1) (Y - 1))].
Proof.
  cbn [sum_list_with id]. rewrite Nat.add_0_r.
  rewrite cnt_gridEdges.
  rewrite (sum_list_with_ext _ _ _
             (λ c, cnt_cellEdges startPt (X, Y) hasPixel c.1 c.2)).
  rewrite !sum_list_with_add. cbn [startPt x1 y1].
  f_equal; [|f_equal; [|f_equal]].
  - rewrite (sum_pick _ (X, Y)); [done|done|].
    intros [x y]. unfold startPt, endPt. cbn.
    split; intros [= ? ?]; f_equal; lia.
  - rewrite (sum_pick _ (X - 1, Y)); [|done|].
    + cbn. by replace (X - 1 + 1) with X by lia.
    + intros [x y]. unfold startPt, endPt. cbn.
      split; intros [= ? ?]; f_equal; lia.
  - rewrite (sum_pick _ (X - 1, Y - 1)); [|done|].
    + cbn. by replace (Y - 1 + 1) with Y by lia.
    + intros [x y]. unfold startPt, endPt. cbn.
      split; intros [= ? ?]; f_equal; lia.
  - rewrite (sum_pick _ (X, Y - 1)); [done|done|].
    intros [x y]. unfold startPt, endPt. cbn.
    split; intros [= ? ?]; f_equal; lia.
Qed.

(** Edges entering (X, Y): the top edge of the cell below left, the right
    edge of the cell above left, the bottom edge of the cell above right,
    the left edge of the cell below right. *)
Lemma in_total :
  cnt endPt (X, Y) (gridEdges hasPixel cells)
  = sum_list [occ (X - 1, Y) (hasPixel (X - 1) (Y - 1));
              occ (X - 1, Y - 1) (hasPixel X (Y - 1));
              occ (X, Y - 1) (hasPixel X Y);
              occ (X, Y) (hasPixel (X - 1) Y)].
Proof.
  cbn [sum_list_with id]. rewrite Nat.add_0_r.
  rewrite cnt_gridEdges.
  rewrite (sum_list_with_ext _ _ _
             (λ c, cnt_cellEdges endPt (X, Y) hasPixel c.1 c.2)).
  rewrite !sum_list_with_add. cbn [endPt x2 y2].
  f_equal; [|f_equal; [|f_equal]].
  - rewrite (sum_pick _ (X - 1, Y)); [done|done|].
    intros [x y]. unfold startPt, endPt. cbn.
    split; intros [= ? ?]; f_equal; lia.
  - rewrite (sum_pick _ (X - 1, Y - 1)); [|done|].
    + cbn. by replace (X - 1 + 1) with X by lia.
    + intros [x y]. unfold startPt, endPt. cbn.
      split; intros [= ? ?]; f_equal; lia.
  - rewrite (sum_pick _ (X, Y - 1)); [|done|].
    + cbn. by replace (Y - 1 + 1) with Y by lia.
    + intros [x y]. unfold startPt, endPt. cbn.
      split; intros [= ? ?]; f_equal; lia.
  - rewrite (sum_pick _ (X, Y)); [done|done|].
    intros [x y]. unfold startPt, endPt. cbn.
    split; intros [= ? ?]; f_equal; lia.
Qed.

Hypothesis hasPixel_cells : ∀ x y, hasPixel x y = true ↔ (x, y) ∈ cells.

Lemma in_out_equal :
  cnt startPt (X, Y) (gridEdges hasPixel cells)
  = cnt endPt (X, Y) (gridEdges hasPixel cells).
Proof.
  rewrite out_total, in_total. cbn [sum_list_with id].
  assert (Hd : ∀ x y, (if decide ((x, y) ∈ cells) then true else false)
                      = hasPixel x y).
  { intros x y. destruct (decide ((x, y) ∈ cells)) as [Hin|Hin].
    - symmetry. by apply hasPixel_cells.
    - symmetry. apply not_true_iff_false. by rewrite hasPixel_cells. }
  assert (Ho : ∀ x y w, occ (x, y) w
                        = Nat.b2n (hasPixel x y && negb w)).
  { intros x y w. rewrite <- Hd. by destruct (decide _). }
  rewrite !Ho.
  destruct (hasPixel X Y), (hasPixel (X - 1) Y), (hasPixel X (Y - 1)),
    (hasPixel (X - 1) (Y - 1)); done.
Qed.
End balance.

(** The boundary edges of a grid are balanced at every lattice point. *)
Lemma gridEdges_balanced (hasPixel : Z → Z → bool) (cells : list Cell) :
  NoDup cells → (∀ x y, hasPixel x y = true ↔ (x, y) ∈ cells) →
  balanced (gridEdges hasPixel cells) ∅.
Proof.
  intros Hnd Hh [X Y]. rewrite !degree_empty. by apply in_out_equal.
Qed.

(** ** Contours of the two editors *)

Lemma mono_boundaryEdges_gridEdges (s : Mono.State) :
  Mono.boundaryEdges s
  = gridEdges (Mono.hasPixel s)
      (filter (inGrid (Mono.gridWidth s) (Mono.gridHeight s)) (Mono.pixels s)).
Proof.
  unfold Mono.boundaryEdges, gridEdges. rewrite <- flat_map_filter.
  apply flat_map_ext. intros [x y]. cbn.
  destruct (decide (inGrid (Mono.gridWidth s) (Mono.gridHeight s) (x, y)))
    as [Hin|Hout]; unfold inGrid in *; cbn in *.
  - rewrite (proj2 (orb_false_iff _ _)); [done|].
    rewrite !orb_false_iff, !Z.leb_gt, !Z.ltb_ge. lia.
  - destruct (_ || _) eqn:Hg; [done|]. exfalso. apply Hout.
    rewrite !orb_false_iff, !Z.leb_gt, !Z.ltb_ge in Hg. lia.
Qed.

Lemma filter_all {A} (P : A → Prop) `{∀ x, Decision (P x)} (l : list A) :
  (∀ x, x ∈ l → P x) → filter P l = l.
Proof.
  induction l as [|a l IH]; intros Hall; [done|].
  rewrite filter_cons, decide_True by (apply Hall; by left).
  f_equal. apply IH. intros x Hx. apply Hall. by right.
Qed.

Lemma mono_boundaryEdges_balanced (s : Mono.State) :
  NoDup (Mono.pixels s) →
  (∀ c, c ∈ Mono.pixels s → inGrid (Mono.gridWidth s) (Mono.gridHeight s) c) →
  balanced (Mono.boundaryEdges s) ∅.
Proof.
  intros Hnd Hin. rewrite mono_boundaryEdges_gridEdges, filter_all by done.
  apply gridEdges_balanced; [done|]. intros x y. apply has_true.
Qed.

Lemma colored_boundaryEdges_balanced (s : Colored.State) :
  NoDup (Colored.pixelMap s).*1 → balanced (Colored.boundaryEdges s) ∅.
Proof.
  intros Hnd. apply (gridEdges_balanced _ _ Hnd). intros x y.
  unfold Colored.hasPixel, InsOrd.mhas. apply bool_decide_eq_true.
Qed.

(** When every stored cell lies inside the grid (in the colored editor:
    always), every contour returned by findContour has more than two edges,
    its consecutive edges meet head to tail, and its last edge ends where
    its first edge starts.  Whatever the grid, every returned contour has
    more than two edges, met head to tail: shorter chains are dropped.
    (The key lists have no repeated key, as in any JS Set or Map.) *)
Lemma findContour_wellFormed :
  (∀ s : Mono.State,
     NoDup (Mono.pixels s) →
     (∀ c, c ∈ Mono.pixels s
           → inGrid (Mono.gridWidth s) (Mono.gridHeight s) c) →
     Forall wellFormed (Mono.findContour s))
  ∧ (∀ s : Colored.State,
       NoDup (Colored.pixelMap s).*1 →
       Forall wellFormed (Colored.findContour s))
  ∧ (∀ s : Mono.State,
       Forall (λ c, (2 < length c)%nat ∧ chained c) (Mono.findContour s)).
Proof.
  split_and!.
  - intros s Hnd Hin. apply (chainEdges_wellFormed _ mono_meets_eq).
    by apply mono_boundaryEdges_balanced.
  - intros s Hnd. apply (chainEdges_wellFormed _ colored_meets_eq).
    by apply colored_boundaryEdges_balanced.
  - intros s. apply (chainEdges_shape _ mono_meets_eq).
Qed.

(** C1.  The monochrome findContour breaks the claim after the grid is
    shrunk: the stored cell (4,0), now outside the 4-wide grid, is skipped
    by the bounds guard of the edge loop but still counted as a neighbour
    by hasPixel, so the right edge of (3,0) is never generated and the
    only traced contour stays open, from (4,1) to (3,0).  The colored
    findContour, which has no such guard, traces the closed contour of
    eight edges on the same cells. *)
Theorem findContour_open_after_shrink :
  Mono.pixels shrunkGrid = [(3, 0); (2, 0); (4, 0)]
  ∧ Mono.gridWidth shrunkGrid = 4
  ∧ Mono.findContour shrunkGrid
    = [[mkEdge 4 1 3 1 bottom; mkEdge 3 1 2 1 bottom; mkEdge 2 1 2 0 left;
        mkEdge 2 0 3 0 top]]
  ∧ ¬ Forall wellFormed (Mono.findContour shrunkGrid)
  ∧ (Colored.pixelMap coloredShrunkGrid).*1 = Mono.pixels shrunkGrid
  ∧ Colored.gridWidth coloredShrunkGrid = Mono.gridWidth shrunkGrid
  ∧ length <$> Colored.findContour coloredShrunkGrid = [8%nat]
  ∧ Forall wellFormed (Colored.findContour coloredShrunkGrid).
Proof.
  assert (Hc : Mono.findContour shrunkGrid
               = [[mkEdge 4 1 3 1 bottom; mkEdge 3 1 2 1 bottom;
                   mkEdge 2 1 2 0 left; mkEdge 2 0 3 0 top]])
    by (by vm_compute).
  split_and!; try (by vm_compute).
  - rewrite Hc. intros Hwf.
    apply Forall_cons in Hwf as [(_ & _ & Hclosed) _].
    destruct Hclosed as (e0 & el & [= <-] & [= <-] & Heq). discriminate Heq.
  - apply (chainEdges_wellFormed _ colored_meets_eq).
    apply colored_boundaryEdges_balanced.
    apply (bool_decide_unpack _). by vm_compute.
Qed.

(** ** Used edges *)

(** C10. The edges of the contours returned by one call to findContour sit
    at pairwise distinct indices of the generated edge list (each index is
    marked used once), so no boundary edge occurs twice in the output, within
    a contour or across contours. *)
Theorem findContour_edges_distinct :
  (∀ s : Mono.State,
     (∃ js, NoDup js
            ∧ edgesAt (Mono.boundaryEdges s) js (concat (Mono.findContour s)))
     ∧ (NoDup (Mono.pixels s) → NoDup (concat (Mono.findContour s))))
  ∧ (∀ s : Colored.State,
       (∃ js, NoDup js
              ∧ edgesAt (Colored.boundaryEdges s) js
                  (concat (Colored.findContour s)))
       ∧ (NoDup (Colored.pixelMap s).*1
          → NoDup (concat (Colored.findContour s)))).
Proof.
  split; intros s; split.
  - destruct (chainEdges_indices Mono.meets mono_meets_eq
                (Mono.boundaryEdges s)) as (js & Hat & Hnd).
    by exists js.
  - intros Hnd. apply (chainEdges_NoDup _ mono_meets_eq).
    rewrite mono_boundaryEdges_gridEdges.
    by apply NoDup_gridEdges, NoDup_filter.
  - destruct (chainEdges_indices Colored.meets colored_meets_eq
                (Colored.boundaryEdges s)) as (js & Hat & Hnd).
    by exists js.
  - intros Hnd. apply (chainEdges_NoDup _ colored_meets_eq).
    by apply NoDup_gridEdges.
Qed.

(** ** Rendering *)

Lemma gtb_lt (a b : Q) : JS.gtb a b = true ↔ (b < a)%Q.
Proof. unfold JS.gtb. apply ltb_lt. Qed.

Lemma min_Qmin (a b : Q) : JS.min a b = Qmin a b.
Proof.
  unfold JS.min, Qmin, GenericMinMax.gmin.
  destruct (Qle_bool a b) eqn:Hle.
  - apply Qle_bool_iff in Hle.
    destruct (a ?= b)%Q eqn:Hc; [reflexivity|reflexivity|].
    apply Qgt_alt, Qlt_not_le in Hc. by destruct Hc.
  - apply not_true_iff_false in Hle. rewrite Qle_bool_iff in Hle.
    destruct (a ?= b)%Q eqn:Hc; [| |reflexivity]; exfalso; apply Hle.
    + apply Qeq_alt in Hc. rewrite Hc. apply Qle_refl.
    + apply Qlt_alt in Hc. by apply Qlt_le_weak.
Qed.

Lemma signedStep_sgn (d : Z) (maxR : Q) :
  (signedStep d maxR == inject_Z (Z.sgn d) * maxR)%Q.
Proof.
  unfold signedStep, JS.sign. case_bool_decide as Hd; [reflexivity|].
  rewrite Hd. cbn. ring.
Qed.

Lemma shouldRound_true (s : Mono.State) (cId i : nat) (edge : Edge) :
  Render.shouldRound s cId i edge = true
  ↔ (cId, i) ∈ Mono.roundedCorners s
    ∧ (x2 edge, y2 edge) ∉ Mono.bridgeMap s.
Proof.
  unfold Render.shouldRound.
  destruct (InsOrd.has (x2 edge, y2 edge) (Mono.bridgeMap s)) eqn:Hb.
  - apply has_true in Hb. split; [done|]. tauto.
  - apply has_false in Hb. rewrite has_true. tauto.
Qed.

Lemma drawCorner_rounded (s : Mono.State) (r minDim : Q)
    (contour : list Edge) (cId i : nat) (edge : Edge) :
  roundedOnCanvas (inject_Z (x2 edge) * visualPixelWidth (Render.metrics s))
    (inject_Z (y2 edge) * visualPixelHeight (Render.metrics s))
    (Render.drawCorner s r minDim contour cId i edge)
  ↔ Render.shouldRound s cId i edge = true ∧ (0 < r)%Q.
Proof.
  unfold Render.drawCorner, roundedOnCanvas. rewrite <- gtb_lt.
  destruct (Render.shouldRound s cId i edge), (JS.gtb r 0); cbn;
    (split; [intros (? & ? & ? & ? & ? & ?); done || tauto|intros [? ?]]);
    try done.
  by eexists _, _, _, _, _.
Qed.

Lemma svgCorner_rounded (s : Mono.State) (r minDim : Q)
    (contour : list Edge) (cId i : nat) (edge : Edge) :
  roundedInSvg (inject_Z (x2 edge) * visualPixelWidth (Render.metrics s))
    (inject_Z (y2 edge) * visualPixelHeight (Render.metrics s))
    (Render.svgCorner s r minDim contour cId i edge)
  ↔ Render.shouldRound s cId i edge = true ∧ (0 < r)%Q.
Proof.
  unfold Render.svgCorner, roundedInSvg. rewrite <- gtb_lt.
  destruct (Render.shouldRound s cId i edge), (JS.gtb r 0); cbn;
    (split; [intros (? & ? & ? & ? & ?); done || tauto|intros [? ?]]);
    try done.
  by eexists _, _, _, _.
Qed.

Lemma findContour_nonempty (s : Mono.State) (cId : nat)
    (contour : list Edge) :
  Mono.findContour s !! cId = Some contour → (2 < length contour)%nat.
Proof.
  intros Hc.
  pose proof (chainEdges_shape Mono.meets mono_meets_eq (Mono.boundaryEdges s))
    as Hall.
  rewrite Forall_lookup in Hall. by destruct (Hall cId contour Hc).
Qed.

(** ** The canvas path against the exported path *)

Lemma sameDrawing_pieces (ops : list CanvasOp) (cmds : list PathCmd) :
  Forall2 sameDrawing ops cmds →
  ∀ cur start, canvasPieces cur start ops = svgPieces cur start cmds.
Proof.
  induction 1 as [|op cmd ops cmds Hsame _ IH]; intros cur start; [done|].
  destruct Hsame; cbn; by rewrite IH.
Qed.

Lemma Forall2_concat_imap {A B C} (R : B → C → Prop)
    (f : nat → A → list B) (g : nat → A → list C) (l : list A) :
  (∀ i a, l !! i = Some a → Forall2 R (f i a) (g i a)) →
  Forall2 R (concat (imap f l)) (concat (imap g l)).
Proof.
  revert f g. induction l as [|a l IH]; intros f g Hfg; cbn; [constructor|].
  apply Forall2_app.
  - by apply (Hfg 0%nat).
  - apply IH. intros i a' Hi. by apply (Hfg (S i)).
Qed.

(** The contour parts of the canvas path and of the exported path draw the
    same thing: same vertices, same back-off points at the same rounded
    vertices. *)
Lemma contours_sameDrawing (s : Mono.State) :
  Forall2 sameDrawing (canvasContours s) (svgContours s).
Proof.
  unfold canvasContours, svgContours.
  apply Forall2_concat_imap. intros cId contour Hc.
  pose proof (findContour_nonempty s cId contour Hc) as Hlen.
  unfold Render.drawContour, Render.svgContour.
  destruct contour as [|e0 rest]; [cbn in Hlen; lia|].
  cbn [app]. constructor; [constructor|].
  apply Forall2_app; [|repeat constructor].
  apply Forall2_concat_imap. intros i edge Hi.
  unfold Render.drawCorner, Render.svgCorner.
  destruct (_ && _); repeat constructor.
Qed.

(** Which draw is below the ratio is all the recomputation takes from the
    pseudo-random function. *)
Lemma forEachFrom_ext {A St} (f g : A → nat → St → St) (l : list A) :
  (∀ a i s, f a i s = g a i s) →
  ∀ i s, forEachFrom f i l s = forEachFrom g i l s.
Proof.
  intros Hfg. induction l as [|a l IH]; intros i s; [done|].
  cbn. by rewrite Hfg, IH.
Qed.

Lemma regenerateRounding_draws (sin1 sin2 : Q → Q) (s : Mono.State) :
  (∀ x y seed,
     JS.ltb (pseudoRandom sin1 x y seed) (Mono.roundedRatio s)
     = JS.ltb (pseudoRandom sin2 x y seed) (Mono.roundedRatio s)) →
  Mono.regenerateRounding sin1 s = Mono.regenerateRounding sin2 s.
Proof.
  intros Hd. unfold Mono.regenerateRounding.
  assert (Hr : roundingPass sin1 (Mono.cornerMode s) (Mono.roundedRatio s)
                 (Mono.seed s) (Mono.findContour s)
               = roundingPass sin2 (Mono.cornerMode s) (Mono.roundedRatio s)
                   (Mono.seed s) (Mono.findContour s)).
  { unfold roundingPass, forEach. apply forEachFrom_ext.
    intros contour cId acc. apply forEachFrom_ext.
    intros edge i acc'. unfold roundingStep. by rewrite Hd. }
  assert (Hb : ∀ W H,
    bridgePass sin1 (Mono.cornerMode s) (Mono.roundedRatio s) (Mono.seed s)
      (Mono.hasPixel s) (length (Mono.pixels s)) W H
    = bridgePass sin2 (Mono.cornerMode s) (Mono.roundedRatio s) (Mono.seed s)
        (Mono.hasPixel s) (length (Mono.pixels s)) W H).
  { intros W H. unfold bridgePass. destruct (_ && _); [|done].
    apply fold_left_ext. intros acc X. apply fold_left_ext. intros acc' Y.
    unfold bridgeStep. by rewrite !Hd. }
  by rewrite Hr, Hb.
Qed.

Lemma regenerate_diagonalGrid (Math_sin : Q → Q) :
  Mono.regenerateRounding Math_sin diagonalGrid = bridgedGrid.
Proof.
  rewrite (regenerateRounding_draws Math_sin (λ _, 0%Q)).
  - by vm_compute.
  - intros x y seed.
    change (Mono.roundedRatio diagonalGrid) with 1%Q.
    transitivity true; [|symmetry]; apply ltb_lt, pseudoRandom_range.
Qed.

(** C2 as stated fails: the same three cells, painted in two orders on
    editors that agree on seed, roundedRatio, cornerMode and grid size, get
    different rounded-corner sets, whatever the platform sine.  The greedy
    scan cuts the boundary at the diagonal touch (2,1) into one contour of
    ten edges or into two contours of six and four; the vertex (2,1) is
    concave in the first and convex in the second, so that 'outer' mode
    rounds six corners or eight. *)
Lemma rounding_depends_on_paint_order :
  (∀ c, c ∈ Mono.pixels paintedEarly ↔ c ∈ Mono.pixels paintedLate)
  ∧ Mono.seed paintedEarly = Mono.seed paintedLate
  ∧ Mono.roundedRatio paintedEarly = Mono.roundedRatio paintedLate
  ∧ Mono.cornerMode paintedEarly = Mono.cornerMode paintedLate
  ∧ Mono.gridWidth paintedEarly = Mono.gridWidth paintedLate
  ∧ Mono.gridHeight paintedEarly = Mono.gridHeight paintedLate
  ∧ ∀ Math_sin : Q → Q,
      Mono.roundedCorners (Mono.regenerateRounding Math_sin paintedEarly)
      = [(0, 1); (0, 3); (0, 4); (0, 5); (0, 8); (0, 9)]%nat
      ∧ Mono.roundedCorners (Mono.regenerateRounding Math_sin paintedLate)
        = [(0, 1); (0, 2); (0, 4); (0, 5); (1, 0); (1, 1); (1, 2);
           (1, 3)]%nat
      ∧ Mono.roundedCorners (Mono.regenerateRounding Math_sin paintedEarly)
        ≠ Mono.roundedCorners (Mono.regenerateRounding Math_sin paintedLate).
Proof.
  split_and!; try reflexivity.
  { intros c. cbn. rewrite !elem_of_cons, !elem_of_nil. tauto. }
  intros Math_sin.
  assert (Hd : ∀ s, Mono.roundedRatio s = 1%Q →
    Mono.regenerateRounding Math_sin s
    = Mono.regenerateRounding (λ _, 0%Q) s).
  { intros s Hr. apply regenerateRounding_draws. intros x y seed.
    rewrite Hr. transitivity true; [|symmetry];
      apply ltb_lt, pseudoRandom_range. }
  rewrite !Hd by reflexivity. split_and!; by vm_compute.
Qed.
(** ** Paths read back *)

Section cut_facts.
Context {A : Type} (start : A → bool).

Lemma upTo_app (rest k : list A) :
  Forall (λ x, start x = false) rest →
  upTo start (rest ++ k) = rest ++ upTo start k.
Proof.
  induction 1 as [|a rest Ha _ IH]; cbn; [done|]. by rewrite Ha, IH.
Qed.

Lemma cutBefore_skip (pre k : list A) :
  Forall (λ x, start x = false) pre →
  cutBefore start (pre ++ k) = cutBefore start k.
Proof. induction 1 as [|a pre Ha _ IH]; cbn; [done|]. by rewrite Ha. Qed.

Lemma upTo_pieces (gs : list (list A)) :
  Forall (cutPiece start) gs → upTo start (concat gs) = [].
Proof.
  destruct 1 as [|g gs (a & rest & -> & Ha & _) _]; cbn; [done|].
  by rewrite Ha.
Qed.

(** A path made of pieces is cut back into its pieces. *)
Lemma cutBefore_pieces (gs : list (list A)) :
  Forall (cutPiece start) gs → cutBefore start (concat gs) = gs.
Proof.
  induction 1 as [|g gs (a & rest & -> & Ha & Hrest) Hgs IH]; cbn; [done|].
  rewrite Ha, upTo_app, cutBefore_skip, upTo_pieces, IH, app_nil_r by done.
  done.
Qed.

Lemma without_all (p : A → bool) (l : list A) :
  Forall (λ x, p x = false) l → without p l = l.
Proof. induction 1 as [|a l Ha _ IH]; cbn; [done|]. by rewrite Ha, IH. Qed.

Lemma without_app (p : A → bool) (l k : list A) :
  without p (l ++ k) = without p l ++ without p k.
Proof.
  induction l as [|a l IH]; cbn; [done|]. destruct (p a); by rewrite IH.
Qed.
End cut_facts.

Lemma Forall_concat {A} (P : A → Prop) (ls : list (list A)) :
  Forall (Forall P) ls → Forall P (concat ls).
Proof.
  induction 1 as [|l ls Hl _ IH]; cbn; [constructor|]. by apply Forall_app.
Qed.

Lemma Forall_imap {A B} (P : B → Prop) (f : nat → A → B) (l : list A) :
  (∀ i a, l !! i = Some a → P (f i a)) → Forall P (imap f l).
Proof.
  intros Hf. apply Forall_lookup. intros i b Hb.
  rewrite list_lookup_imap in Hb.
  destruct (l !! i) as [a|] eqn:Ha; [|done]. injection Hb as <-.
  by apply Hf.
Qed.

(** *** The exported path *)

Section svg_facts.
Variable s : Mono.State.
Variables r minDim : Q.

Lemma svgCorner_shape (contour : list Edge) (cId i : nat) (edge : Edge) :
  cutPiece isL (Render.svgCorner s r minDim contour cId i edge)
  ∧ Forall (λ c, isM c = false)
      (Render.svgCorner s r minDim contour cId i edge)
  ∧ Forall (λ c, isZ c = false)
      (Render.svgCorner s r minDim contour cId i edge).
Proof.
  unfold Render.svgCorner. destruct (_ && _).
  - split_and!; [|by repeat constructor..].
    eexists _, _. split; [reflexivity|]. by repeat constructor.
  - split_and!; [|by repeat constructor..].
    eexists _, _. split; [reflexivity|]. by repeat constructor.
Qed.

Lemma svgContour_piece (cId : nat) (contour : list Edge) :
  contour ≠ [] → cutPiece isM (Render.svgContour s r minDim cId contour).
Proof.
  intros Hne. destruct contour as [|e0 rest]; [done|].
  unfold Render.svgContour. cbn [app]. eexists _, _.
  split; [reflexivity|]. split; [done|].
  apply Forall_app. split; [|by repeat constructor].
  apply Forall_concat, Forall_imap. intros i edge _.
  apply svgCorner_shape.
Qed.

Lemma svgCorners_contour (cId : nat) (contour : list Edge) :
  contour ≠ [] →
  svgCorners (Render.svgContour s r minDim cId contour)
  = imap (Render.svgCorner s r minDim contour cId) contour.
Proof.
  intros Hne. destruct contour as [|e0 rest]; [done|].
  unfold svgCorners, Render.svgContour. cbn [app without isZ].
  rewrite without_app. cbn [without isZ]. rewrite app_nil_r.
  rewrite without_all.
  - cbn [cutBefore isL]. apply cutBefore_pieces, Forall_imap.
    intros i edge _. apply svgCorner_shape.
  - apply Forall_concat, Forall_imap. intros i edge _.
    apply svgCorner_shape.
Qed.

Lemma svgFillet_piece (b : Bridge) (radius : Q) :
  cutPiece isM (Render.drawBridgeFillet s b radius true).1.
Proof.
  unfold Render.drawBridgeFillet.
  destruct (quadrant b); cbn; eexists _, _;
    (split; [reflexivity|]); by repeat constructor.
Qed.
End svg_facts.

(** The subpaths of the exported path: one per traced contour, in order,
    then one per bridge fillet. *)
Lemma pathData_subpaths (s : Mono.State) :
  let m := Render.metrics s in
  let minDim := JS.min (visualPixelWidth m) (visualPixelHeight m) in
  let r := (Mono.roundness s * minDim)%Q in
  svgSubpaths (Render.pathData s)
  = imap (Render.svgContour s r minDim) (Mono.findContour s)
    ++ (if (0 <? length (Mono.bridges s))%nat && JS.gtb r 0
        then (λ b, (Render.drawBridgeFillet s b r true).1)
               <$> Mono.bridges s
        else []).
Proof.
  intros m minDim r. unfold svgSubpaths, Render.pathData.
  fold m minDim r.
  set (fillets := if _ && _ then _ else _).
  set (groups := if _ && _ then _ else _).
  assert (Hf : fillets = concat groups).
  { subst fillets groups. destruct (_ && _); [|done].
    rewrite flat_map_concat_map. done. }
  rewrite Hf, <- concat_app. apply cutBefore_pieces, Forall_app. split.
  - apply Forall_imap. intros cId contour Hc. apply svgContour_piece.
    apply findContour_nonempty in Hc. destruct contour; [cbn in Hc; lia|done].
  - subst groups. destruct (_ && _); [|constructor].
    apply Forall_fmap, Forall_forall. intros b _. apply svgFillet_piece.
Qed.

(** *** The canvas path *)

Lemma pathAtFill_restart (pre k path : list CanvasOp) :
  Forall (λ op, ∀ rule, op ≠ fill rule) pre →
  pathAtFill path (pre ++ beginPath :: k) = pathAtFill [] k.
Proof.
  intros Hpre. revert path.
  induction Hpre as [|op pre Hop _ IH]; intros path; [done|].
  destruct op; cbn; try apply IH. by destruct (Hop rule).
Qed.

Lemma pathAtFill_calls (ops k path : list CanvasOp) (rule : string) :
  Forall (λ op, isPathCall op = true) ops →
  pathAtFill path (ops ++ fill rule :: k) = path ++ ops.
Proof.
  intros Hops. revert path.
  induction Hops as [|op ops Hop _ IH]; intros path; cbn.
  - by rewrite app_nil_r.
  - destruct op; try discriminate Hop; cbn; by rewrite IH, <- app_assoc.
Qed.

Section canvas_facts.
Variable s : Mono.State.
Variables r minDim : Q.

Lemma drawCorner_shape (contour : list Edge) (cId i : nat) (edge : Edge) :
  cutPiece isLineTo (Render.drawCorner s r minDim contour cId i edge)
  ∧ Forall (λ op, isMoveTo op = false)
      (Render.drawCorner s r minDim contour cId i edge)
  ∧ Forall (λ op, isClosePath op = false)
      (Render.drawCorner s r minDim contour cId i edge)
  ∧ Forall (λ op, isPathCall op = true)
      (Render.drawCorner s r minDim contour cId i edge).
Proof.
  unfold Render.drawCorner. destruct (_ && _).
  - split_and!; [|by repeat constructor..].
    eexists _, _. split; [reflexivity|]. by repeat constructor.
  - split_and!; [|by repeat constructor..].
    eexists _, _. split; [reflexivity|]. by repeat constructor.
Qed.

Lemma drawContour_piece (cId : nat) (contour : list Edge) :
  contour ≠ [] → cutPiece isMoveTo (Render.drawContour s r minDim cId contour).
Proof.
  intros Hne. destruct contour as [|e0 rest]; [done|].
  unfold Render.drawContour. cbn [app]. eexists _, _.
  split; [reflexivity|]. split; [done|].
  apply Forall_app. split; [|by repeat constructor].
  apply Forall_concat, Forall_imap. intros i edge _.
  apply drawCorner_shape.
Qed.

Lemma drawContour_calls (cId : nat) (contour : list Edge) :
  Forall (λ op, isPathCall op = true)
    (Render.drawContour s r minDim cId contour).
Proof.
  unfold Render.drawContour. apply Forall_app. split.
  { destruct contour; by repeat constructor. }
  apply Forall_app. split; [|by repeat constructor].
  apply Forall_concat, Forall_imap. intros i edge _.
  apply drawCorner_shape.
Qed.

Lemma canvasCorners_contour (cId : nat) (contour : list Edge) :
  contour ≠ [] →
  canvasCorners (Render.drawContour s r minDim cId contour)
  = imap (Render.drawCorner s r minDim contour cId) contour.
Proof.
  intros Hne. destruct contour as [|e0 rest]; [done|].
  unfold canvasCorners, Render.drawContour. cbn [app without isClosePath].
  rewrite without_app. cbn [without isClosePath]. rewrite app_nil_r.
  rewrite without_all.
  - cbn [cutBefore isLineTo]. apply cutBefore_pieces, Forall_imap.
    intros i edge _. apply drawCorner_shape.
  - apply Forall_concat, Forall_imap. intros i edge _.
    apply drawCorner_shape.
Qed.

Lemma canvasFillet_piece (b : Bridge) (radius : Q) :
  cutPiece isMoveTo (Render.drawBridgeFillet s b radius false).2
  ∧ Forall (λ op, isPathCall op = true)
      (Render.drawBridgeFillet s b radius false).2.
Proof.
  unfold Render.drawBridgeFillet.
  destruct (quadrant b); cbn; (split; [|by repeat constructor]);
    eexists _, _; (split; [reflexivity|]); by repeat constructor.
Qed.
End canvas_facts.

Lemma findContour_pixels (s : Mono.State) (cId : nat) (contour : list Edge) :
  Mono.findContour s !! cId = Some contour → Mono.pixels s ≠ [].
Proof.
  intros Hc Hp. unfold Mono.findContour, Mono.boundaryEdges in Hc.
  rewrite Hp in Hc. cbn in Hc. discriminate Hc.
Qed.

(** What [drawScene] fills is the silhouette path. *)
Lemma drawScene_filledPath (s : Mono.State) (isExport : bool) :
  Mono.pixels s ≠ [] →
  filledPath (Render.drawScene s isExport) = Render.drawSilhouette s.
Proof.
  intros Hp. unfold filledPath, Render.drawScene.
  destruct (decide (length (Mono.pixels s) = 0%nat)) as [H0|_].
  { by apply length_zero_iff_nil in H0. }
  set (grid := if isExport then [] else Render.drawGridLines s).
  replace ([fillStyle "#ffffff";
            fillRect 0 0 (inject_Z (displayWidth (Render.metrics s)))
              (inject_Z (displayHeight (Render.metrics s)))]
           ++ grid
           ++ [fillStyle "#000000"; beginPath] ++ Render.drawSilhouette s
              ++ [fill "evenodd"])
    with (([fillStyle "#ffffff";
            fillRect 0 0 (inject_Z (displayWidth (Render.metrics s)))
              (inject_Z (displayHeight (Render.metrics s)))]
           ++ grid ++ [fillStyle "#000000"])
          ++ beginPath :: (Render.drawSilhouette s ++ [fill "evenodd"]))
    by (by rewrite <- !app_assoc).
  rewrite pathAtFill_restart.
  - apply (pathAtFill_calls _ [] []).
    unfold Render.drawSilhouette. apply Forall_app. split.
    + apply Forall_concat, Forall_imap. intros cId contour _.
      apply drawContour_calls.
    + destruct (_ && _); [|constructor].
      rewrite flat_map_concat_map. apply Forall_concat, Forall_fmap.
      apply Forall_forall. intros b _. apply canvasFillet_piece.
  - apply Forall_app. split; [by repeat constructor|].
    apply Forall_app. split; [|by repeat constructor].
    subst grid. destruct isExport; [constructor|].
    unfold Render.drawGridLines.
    repeat (apply Forall_app; split); try (by repeat constructor);
      rewrite flat_map_concat_map; apply Forall_concat, Forall_fmap;
      apply Forall_forall; intros i _; by repeat constructor.
Qed.

(** The subpaths that [drawScene] fills: one per traced contour, in order,
    then one per bridge fillet. *)
Lemma drawScene_subpaths (s : Mono.State) (isExport : bool) :
  Mono.pixels s ≠ [] →
  let m := Render.metrics s in
  let minDim := JS.min (visualPixelWidth m) (visualPixelHeight m) in
  let r := (Mono.roundness s * minDim)%Q in
  canvasSubpaths (Render.drawScene s isExport)
  = imap (Render.drawContour s r minDim) (Mono.findContour s)
    ++ (if (0 <? length (Mono.bridges s))%nat && JS.gtb r 0
        then (λ b, (Render.drawBridgeFillet s b (r * minDim) false).2)
               <$> Mono.bridges s
        else []).
Proof.
  intros Hp m minDim r. unfold canvasSubpaths.
  rewrite drawScene_filledPath by done. unfold Render.drawSilhouette.
  fold m minDim r.
  set (fillets := if _ && _ then _ else _).
  set (groups := if _ && _ then _ else _).
  assert (Hf : fillets = concat groups).
  { subst fillets groups. destruct (_ && _); [|done].
    rewrite flat_map_concat_map. done. }
  rewrite Hf, <- concat_app. apply cutBefore_pieces, Forall_app. split.
  - apply Forall_imap. intros cId contour Hc. apply drawContour_piece.
    apply findContour_nonempty in Hc. destruct contour; [cbn in Hc; lia|done].
  - subst groups. destruct (_ && _); [|constructor].
    apply Forall_fmap, Forall_forall. intros b _. apply canvasFillet_piece.
Qed.

(** The commands of both renderers for the vertex [i] of the contour
    [cId]. *)
Lemma cornerAt_contour (s : Mono.State) (isExport : bool) (cId i : nat)
    (contour : list Edge) (edge : Edge) :
  Mono.findContour s !! cId = Some contour →
  contour !! i = Some edge →
  let m := Render.metrics s in
  let minDim := JS.min (visualPixelWidth m) (visualPixelHeight m) in
  let r := (Mono.roundness s * minDim)%Q in
  svgCornerAt (Render.pathData s) cId i
  = Some (Render.svgCorner s r minDim contour cId i edge)
  ∧ canvasCornerAt (Render.drawScene s isExport) cId i
    = Some (Render.drawCorner s r minDim contour cId i edge).
Proof.
  intros Hc Hi m minDim r.
  assert (Hne : contour ≠ []).
  { apply findContour_nonempty in Hc. destruct contour; [cbn in Hc; lia|done]. }
  unfold svgCornerAt, canvasCornerAt.
  rewrite pathData_subpaths,
    (drawScene_subpaths s isExport (findContour_pixels s cId contour Hc)).
  fold m minDim r.
  assert (Hlt : (cId < length (Mono.findContour s))%nat)
    by (by apply lookup_lt_Some in Hc).
  rewrite !lookup_app_l by (by rewrite length_imap).
  rewrite !list_lookup_imap, Hc. cbn.
  rewrite svgCorners_contour, canvasCorners_contour by done.
  by rewrite !list_lookup_imap, Hi.
Qed.
(** ** Rounded vertices in the two renderers *)

Lemma shouldRound_regenerated (Math_sin : Q → Q) (s : Mono.State)
    (cId i : nat) (contour : list Edge) (edge : Edge) :
  Mono.findContour s !! cId = Some contour →
  contour !! i = Some edge →
  let s' := Mono.regenerateRounding Math_sin s in
  let cornerType := getCornerType edge (nextEdge contour i edge) in
  Render.shouldRound s' cId i edge = true
  ↔ ((Mono.cornerMode s = outer → cornerType = convex)
     ∧ (Mono.cornerMode s = inner → cornerType = concave))
    ∧ (pseudoRandom Math_sin (inject_Z (x2 edge)) (inject_Z (y2 edge))
         (Mono.seed s) < Mono.roundedRatio s)%Q
    ∧ (x2 edge, y2 edge) ∉ Mono.bridgeMap s'.
Proof.
  intros Hc Hi s' cornerType.
  assert (Hsel : (cId, i) ∈ Mono.roundedCorners s'
    ↔ ((Mono.cornerMode s = outer → cornerType = convex)
       ∧ (Mono.cornerMode s = inner → cornerType = concave))
      ∧ (pseudoRandom Math_sin (inject_Z (x2 edge)) (inject_Z (y2 edge))
           (Mono.seed s) < Mono.roundedRatio s)%Q).
  { subst s' cornerType. cbn.
    rewrite elem_of_roundingPass, <- selected_iff. split.
    - intros (contour' & edge' & Hc' & Hi' & Hs). by simplify_eq.
    - intros Hs. by exists contour, edge. }
  rewrite shouldRound_true, Hsel. tauto.
Qed.

(** C4, for a positive radius.  After a recomputation, when the radius
    roundness * minDim is positive, the commands that the exported path
    ([getSVGString]) and the filled canvas path ([drawScene]) hold for a
    vertex of a traced contour are the rounded ones exactly when (a) the
    corner mode keeps the class of the vertex ('outer' only convex, 'inner'
    only concave, 'random' both), (b) the draw on the vertex coordinates
    and the seed is strictly below roundedRatio, and (c) the vertex is not
    a lattice point of the bridge-membership map; a vertex on a bridge
    lattice point is drawn as a plain corner. *)
Theorem rounded_iff_selected_and_unbridged (Math_sin : Q → Q)
    (s : Mono.State) (isExport : bool) (cId i : nat) (contour : list Edge)
    (edge : Edge) :
  Mono.findContour s !! cId = Some contour →
  contour !! i = Some edge →
  let s' := Mono.regenerateRounding Math_sin s in
  let m := Render.metrics s' in
  (0 < Mono.roundness s'
       * JS.min (visualPixelWidth m) (visualPixelHeight m))%Q →
  let cornerType := getCornerType edge (nextEdge contour i edge) in
  let verdict :=
    ((Mono.cornerMode s = outer → cornerType = convex)
     ∧ (Mono.cornerMode s = inner → cornerType = concave))
    ∧ (pseudoRandom Math_sin (inject_Z (x2 edge)) (inject_Z (y2 edge))
         (Mono.seed s) < Mono.roundedRatio s)%Q
    ∧ (x2 edge, y2 edge) ∉ Mono.bridgeMap s' in
  let px := (inject_Z (x2 edge) * visualPixelWidth m)%Q in
  let py := (inject_Z (y2 edge) * visualPixelHeight m)%Q in
  ∃ (cmds : list PathCmd) (ops : list CanvasOp),
    svgCornerAt (Render.pathData s') cId i = Some cmds
    ∧ canvasCornerAt (Render.drawScene s' isExport) cId i = Some ops
    ∧ (roundedInSvg px py cmds ↔ verdict)
    ∧ (roundedOnCanvas px py ops ↔ verdict)
    ∧ ((x2 edge, y2 edge) ∈ Mono.bridgeMap s'
       → cmds = [svgL px py] ∧ ops = [lineTo px py]).
Proof.
  intros Hc Hi s' m Hr cornerType verdict px py.
  pose proof (shouldRound_regenerated Math_sin s cId i contour edge Hc Hi)
    as Hmain. cbn zeta in Hmain. fold s' cornerType verdict in Hmain.
  destruct (cornerAt_contour s' isExport cId i contour edge Hc Hi)
    as [Hsvg Hcanvas].
  eexists _, _. split; [exact Hsvg|]. split; [exact Hcanvas|].
  fold m. split_and!.
  - subst px py m. rewrite svgCorner_rounded, Hmain. tauto.
  - subst px py m. rewrite drawCorner_rounded, Hmain. tauto.
  - intros Hb. assert (Hno : Render.shouldRound s' cId i edge = false).
    { apply not_true_iff_false. rewrite Hmain. subst verdict. tauto. }
    unfold Render.svgCorner, Render.drawCorner. by rewrite Hno.
Qed.

Lemma rounded_iff_selected_and_unbridged_witness :
  let s' := Mono.regenerateRounding (λ _, 0%Q) diagonalGrid in
  let m := Render.metrics s' in
  ∃ (cmds : list PathCmd) (ops : list CanvasOp),
    svgCornerAt (Render.pathData s') 0 0 = Some cmds
    ∧ canvasCornerAt (Render.drawScene s' false) 0 0 = Some ops
    ∧ roundedInSvg (inject_Z 1 * visualPixelWidth m)
        (inject_Z 0 * visualPixelHeight m) cmds
    ∧ roundedOnCanvas (inject_Z 1 * visualPixelWidth m)
        (inject_Z 0 * visualPixelHeight m) ops.
Proof.
  intros s' m.
  destruct (rounded_iff_selected_and_unbridged (λ _, 0%Q) diagonalGrid
              false 0 0
              [mkEdge 0 0 1 0 top; mkEdge 1 0 1 1 right;
               mkEdge 1 1 0 1 bottom; mkEdge 0 1 0 0 left]
              (mkEdge 0 0 1 0 top)
              ltac:(vm_compute; reflexivity) eq_refl
              ltac:(vm_compute; reflexivity))
    as (cmds & ops & Hsvg & Hcanvas & Hs & Hc & _).
  assert (Hmap : Mono.bridgeMap s' = [(1, 1)]) by (by vm_compute).
  assert (Hverdict :
    ((Mono.cornerMode diagonalGrid = outer
      → getCornerType (mkEdge 0 0 1 0 top) (mkEdge 1 0 1 1 right) = convex)
     ∧ (Mono.cornerMode diagonalGrid = inner
        → getCornerType (mkEdge 0 0 1 0 top) (mkEdge 1 0 1 1 right)
          = concave))
    ∧ (pseudoRandom (λ _, 0%Q) (inject_Z 1) (inject_Z 0)
         (Mono.seed diagonalGrid) < Mono.roundedRatio diagonalGrid)%Q
    ∧ (1, 0) ∉ Mono.bridgeMap s').
  { rewrite Hmap. split_and!.
    - intros Hm. vm_compute in Hm. discriminate Hm.
    - intros Hm. vm_compute in Hm. discriminate Hm.
    - by vm_compute.
    - intros Hin%list_elem_of_singleton. discriminate Hin. }
  exists cmds, ops. split_and!; [exact Hsvg|exact Hcanvas| |].
  - by apply Hs.
  - by apply Hc.
Defined.

(** C4 as stated fails at roundness 0, the lower end of the slider: the
    first vertex of the one-cell contour passes (a), (b) and (c), whatever
    the platform sine, and both renderers draw it as a plain corner. *)
Lemma unrounded_at_zero_roundness :
  Mono.roundness flatCell = 0%Q
  ∧ ∀ Math_sin : Q → Q,
      let s' := Mono.regenerateRounding Math_sin flatCell in
      let m := Render.metrics s' in
      let edge := mkEdge 0 0 1 0 top in
      let contour :=
        [edge; mkEdge 1 0 1 1 right; mkEdge 1 1 0 1 bottom;
         mkEdge 0 1 0 0 left] in
      let px := (inject_Z (x2 edge) * visualPixelWidth m)%Q in
      let py := (inject_Z (y2 edge) * visualPixelHeight m)%Q in
      Mono.findContour flatCell = [contour]
      ∧ modeExcludes (Mono.cornerMode flatCell)
          (getCornerType edge (nextEdge contour 0 edge)) = false
      ∧ (pseudoRandom Math_sin (inject_Z (x2 edge)) (inject_Z (y2 edge))
           (Mono.seed flatCell) < Mono.roundedRatio flatCell)%Q
      ∧ ((x2 edge, y2 edge) ∉ Mono.bridgeMap s')
      ∧ svgCornerAt (Render.pathData s') 0 0 = Some [svgL px py]
      ∧ canvasCornerAt (Render.drawScene s' false) 0 0
        = Some [lineTo px py]
      ∧ ¬ roundedInSvg px py [svgL px py]
      ∧ ¬ roundedOnCanvas px py [lineTo px py].
Proof.
  split; [reflexivity|]. intros Math_sin s' m edge contour px py.
  assert (Hs' : s' = Mono.regenerateRounding (λ _, 0%Q) flatCell).
  { subst s'. apply regenerateRounding_draws. intros x y seed.
    change (Mono.roundedRatio flatCell) with 1%Q.
    transitivity true; [|symmetry]; apply ltb_lt, pseudoRandom_range. }
  split_and!.
  - by vm_compute.
  - by vm_compute.
  - change (Mono.roundedRatio flatCell) with 1%Q. apply pseudoRandom_range.
  - rewrite Hs'. vm_compute. apply not_elem_of_nil.
  - subst px py m. rewrite Hs'. by vm_compute.
  - subst px py m. rewrite Hs'. by vm_compute.
  - intros (? & ? & ? & ? & ?). discriminate.
  - intros (? & ? & ? & ? & ? & ?). discriminate.
Qed.

(** ** The path of a contour *)

(** C6, with the canvas path as it is.  For every traced contour, the
    subpath of the exported path ([getSVGString]) and the subpath of the
    filled canvas path ([drawScene]) move to the start of the first edge,
    then, edge by edge, either draw a straight segment to the end point of
    the edge or, when that vertex is selected for rounding and the radius
    is positive, a segment to the point backed off from the vertex against
    the incoming direction by min(roundness * minDim, minDim / 2), followed
    by a curve to the point the same distance along the outgoing
    direction; then they close the subpath.  The curve is a quadratic
    curve with the vertex as control point in the export, and an [arcTo]
    around the vertex with that radius on the canvas. *)
Theorem contour_path_structure (s : Mono.State) (isExport : bool)
    (cId : nat) (contour : list Edge) :
  Mono.findContour s !! cId = Some contour →
  let vw := visualPixelWidth (Render.metrics s) in
  let vh := visualPixelHeight (Render.metrics s) in
  let minDim := JS.min vw vh in
  let r := (Mono.roundness s * minDim)%Q in
  let maxR := JS.min r (minDim * 0.5)%Q in
  ∃ (e0 : Edge) (segs : list (list PathCmd)) (calls : list (list CanvasOp)),
    head contour = Some e0
    ∧ svgSubpaths (Render.pathData s) !! cId
      = Some (svgM (inject_Z (x1 e0) * vw) (inject_Z (y1 e0) * vh)
                :: concat segs ++ [svgZ])
    ∧ canvasSubpaths (Render.drawScene s isExport) !! cId
      = Some (moveTo (inject_Z (x1 e0) * vw) (inject_Z (y1 e0) * vh)
                :: concat calls ++ [closePath])
    ∧ length segs = length contour
    ∧ length calls = length contour
    ∧ maxR = Qmin (Mono.roundness s * minDim) (minDim * 0.5)
    ∧ (minDim * 0.5 == minDim / 2)%Q
    ∧ ∀ (i : nat) (edge : Edge),
        contour !! i = Some edge →
        let next := nextEdge contour i edge in
        let px := (inject_Z (x2 edge) * vw)%Q in
        let py := (inject_Z (y2 edge) * vh)%Q in
        ∃ (seg : list PathCmd) (call : list CanvasOp),
          segs !! i = Some seg ∧ calls !! i = Some call
          ∧ svgCornerAt (Render.pathData s) cId i = Some seg
          ∧ canvasCornerAt (Render.drawScene s isExport) cId i = Some call
          ∧ if Render.shouldRound s cId i edge && JS.gtb r 0
            then ∃ bx by_ fx fy,
                   seg = [svgL bx by_; svgQ px py fx fy]
                   ∧ call = [lineTo bx by_; arcTo px py fx fy maxR]
                   ∧ (bx == px - inject_Z (Z.sgn (x2 edge - x1 edge)) * maxR)%Q
                   ∧ (by_ == py - inject_Z (Z.sgn (y2 edge - y1 edge)) * maxR)%Q
                   ∧ (fx == px + inject_Z (Z.sgn (x2 next - x1 next)) * maxR)%Q
                   ∧ (fy == py + inject_Z (Z.sgn (y2 next - y1 next)) * maxR)%Q
            else seg = [svgL px py] ∧ call = [lineTo px py].
Proof.
  intros Hc vw vh minDim r maxR.
  pose proof (findContour_nonempty s cId contour Hc) as Hlen.
  pose proof (findContour_pixels s cId contour Hc) as Hp.
  assert (Hlt : (cId < length (Mono.findContour s))%nat)
    by (by apply lookup_lt_Some in Hc).
  destruct contour as [|e0 rest]; [cbn in Hlen; lia|].
  exists e0,
    (imap (Render.svgCorner s r minDim (e0 :: rest) cId) (e0 :: rest)),
    (imap (Render.drawCorner s r minDim (e0 :: rest) cId) (e0 :: rest)).
  split_and!.
  - done.
  - rewrite pathData_subpaths. fold vw vh minDim r.
    rewrite lookup_app_l by (by rewrite length_imap).
    by rewrite list_lookup_imap, Hc.
  - rewrite (drawScene_subpaths s isExport Hp). fold vw vh minDim r.
    rewrite lookup_app_l by (by rewrite length_imap).
    by rewrite list_lookup_imap, Hc.
  - by rewrite length_imap.
  - by rewrite length_imap.
  - subst maxR. apply min_Qmin.
  - unfold Qdiv. apply Qmult_comp; reflexivity.
  - intros i edge Hi next px py.
    destruct (cornerAt_contour s isExport cId i (e0 :: rest) edge Hc Hi)
      as [Hsvg Hcanvas].
    fold vw vh minDim r in Hsvg, Hcanvas.
    eexists _, _. rewrite !list_lookup_imap, Hi. cbn [fmap option_fmap option_map].
    split; [reflexivity|]. split; [reflexivity|].
    split; [exact Hsvg|]. split; [exact Hcanvas|].
    unfold Render.svgCorner, Render.drawCorner.
    fold vw vh next px py.
    destruct (Render.shouldRound s cId i edge && JS.gtb r 0); [|done].
    eexists _, _, _, _. split; [reflexivity|]. split; [reflexivity|].
    fold maxR. rewrite !signedStep_sgn. split_and!; reflexivity.
Qed.

Lemma contour_path_structure_witness :
  let vw := visualPixelWidth (Render.metrics bridgedGrid) in
  let vh := visualPixelHeight (Render.metrics bridgedGrid) in
  ∃ (segs : list (list PathCmd)) (calls : list (list CanvasOp)),
    svgSubpaths (Render.pathData bridgedGrid) !! 0%nat
    = Some (svgM (inject_Z 0 * vw) (inject_Z 0 * vh)
              :: concat segs ++ [svgZ])
    ∧ canvasSubpaths (Render.drawScene bridgedGrid true) !! 0%nat
      = Some (moveTo (inject_Z 0 * vw) (inject_Z 0 * vh)
                :: concat calls ++ [closePath])
    ∧ length segs = 4%nat ∧ length calls = 4%nat.
Proof.
  intros vw vh.
  destruct (contour_path_structure bridgedGrid true 0
              [mkEdge 0 0 1 0 top; mkEdge 1 0 1 1 right;
               mkEdge 1 1 0 1 bottom; mkEdge 0 1 0 0 left]
              ltac:(vm_compute; reflexivity))
    as (e0 & segs & calls & He0 & Hsvg & Hcanvas & Hlen & Hlen' & _).
  injection He0 as <-.
  exists segs, calls.
  split_and!; [exact Hsvg|exact Hcanvas|exact Hlen|exact Hlen'].
Defined.

(** C6 as stated fails on the canvas: the first vertex of the one-cell
    contour is selected for rounding and the radius is positive, and
    [drawScene] rounds it with [arcTo], an arc of a circle, where the
    export has the quadratic curve. *)
Lemma canvas_corner_is_arc :
  let m := Render.metrics roundedCell in
  let minDim := JS.min (visualPixelWidth m) (visualPixelHeight m) in
  let edge := mkEdge 0 0 1 0 top in
  let px := (inject_Z (x2 edge) * visualPixelWidth m)%Q in
  let py := (inject_Z (y2 edge) * visualPixelHeight m)%Q in
  Mono.findContour roundedCell
  = [[edge; mkEdge 1 0 1 1 right; mkEdge 1 1 0 1 bottom;
      mkEdge 0 1 0 0 left]]
  ∧ Render.shouldRound roundedCell 0 0 edge = true
  ∧ (0 < Mono.roundness roundedCell * minDim)%Q
  ∧ ∃ (cmds : list PathCmd) (ops : list CanvasOp),
      svgCornerAt (Render.pathData roundedCell) 0 0 = Some cmds
      ∧ canvasCornerAt (Render.drawScene roundedCell false) 0 0 = Some ops
      ∧ roundedInSvg px py cmds
      ∧ roundedOnCanvas px py ops
      ∧ ¬ quadraticOnCanvas px py ops
      ∧ existsb isQuadraticCurveTo
          (filledPath (Render.drawScene roundedCell false)) = false.
Proof.
  intros m minDim edge px py.
  split; [by vm_compute|]. split; [by vm_compute|].
  split; [by vm_compute|].
  destruct (cornerAt_contour roundedCell false 0 0
              [edge; mkEdge 1 0 1 1 right; mkEdge 1 1 0 1 bottom;
               mkEdge 0 1 0 0 left] edge
              ltac:(vm_compute; reflexivity) eq_refl)
    as [Hsvg Hcanvas].
  eexists _, _. split; [exact Hsvg|]. split; [exact Hcanvas|].
  assert (Hround : Render.shouldRound roundedCell 0 0 edge
                   && JS.gtb (Mono.roundness roundedCell * minDim) 0 = true)
    by (by vm_compute).
  unfold Render.svgCorner, Render.drawCorner. fold m minDim.
  rewrite Hround. split_and!.
  - by eexists _, _, _, _.
  - by eexists _, _, _, _, _.
  - intros (? & ? & ? & ? & ?). discriminate.
  - by vm_compute.
Qed.
(** C7, evaluated where it fails.  On the diagonal grid the contour parts
    of the canvas path and of the exported path trace the same geometry,
    but the whole paths do not: drawScene passes r * minDim to
    drawBridgeFillet where getSVGString passes r, so the canvas fillet at
    (1,1) has radius 10.9375 (half a cell) and the exported one 5.46875
    (roundness times the cell size). *)
Theorem bridge_fillet_radius_mismatch (Math_sin : Q → Q) :
  let s := Mono.regenerateRounding Math_sin diagonalGrid in
  let o : Pt := (0, 0)%Q in
  let minDim :=
    JS.min (visualPixelWidth (Render.metrics s))
      (visualPixelHeight (Render.metrics s)) in
  let r := (Mono.roundness s * minDim)%Q in
  let b := mkBridge 1 1 TR_GAP_FILLET in
  canvasPieces o o (canvasContours s) = svgPieces o o (svgContours s)
  ∧ pieces_eqb (canvasPieces o o (Render.drawSilhouette s))
      (svgPieces o o (Render.svgPath (Render.getSVGString s))) = false
  ∧ pieces_eqb
      (canvasPieces o o (Render.drawBridgeFillet s b (r * minDim) false).2)
      [Rounded (21.875, 10.9375) (21.875, 21.875) (32.8125, 21.875);
       Straight (32.8125, 21.875) (21.875, 21.875);
       Straight (21.875, 21.875) (21.875, 10.9375)]%Q = true
  ∧ pieces_eqb
      (svgPieces o o (Render.drawBridgeFillet s b r true).1)
      [Rounded (21.875, 16.40625) (21.875, 21.875) (27.34375, 21.875);
       Straight (27.34375, 21.875) (21.875, 21.875);
       Straight (21.875, 21.875) (21.875, 16.40625)]%Q = true.
Proof.
  intros s o minDim r b. split.
  - apply sameDrawing_pieces, contours_sameDrawing.
  - subst s o minDim r b. rewrite regenerate_diagonalGrid.
    by vm_compute.
Qed.
(** ** Lines *)

Section line_facts.
Variables x0 y0 x1 y1 : Z.

#[local] Abbreviation dx := (Z.abs (x1 - x0)).
#[local] Abbreviation dy := (Z.abs (y1 - y0)).
#[local] Abbreviation sx := (if x0 <? x1 then 1 else -1).
#[local] Abbreviation sy := (if y0 <? y1 then 1 else -1).

Lemma line_sx_target (a : Z) :
  0 ≤ a ≤ dx → (x0 + sx * a = x1 ↔ a = dx).
Proof. destruct (Z.ltb_spec x0 x1); lia. Qed.

Lemma line_sy_target (b : Z) :
  0 ≤ b ≤ dy → (y0 + sy * b = y1 ↔ b = dy).
Proof. destruct (Z.ltb_spec y0 y1); lia. Qed.

(** The loop when the box is at least as wide as high: every round steps
    along x, and the row stays within half a cell of the segment. *)
Lemma lineLoop_wide :
  dy ≤ dx → 0 < dx →
  ∀ (n : nat) (a b x y err : Z),
    0 ≤ a → a + Z.of_nat n = dx → 0 ≤ b →
    - dx ≤ 2 * (b * dx - a * dy) < dx →
    x = x0 + sx * a → y = y0 + sy * b →
    err = dx - dy + (b * dx - a * dy) →
    ∃ l, (∀ (fuel : nat) (pts : list Cell), (n < fuel)%nat →
            lineLoop fuel x1 y1 dx dy sx sy x y err pts = Some (pts ++ l))
         ∧ length l = S n
         ∧ ∀ (i : nat) (p : Cell), l !! i = Some p →
             ∃ b', p = (x0 + sx * (a + Z.of_nat i), y0 + sy * b')
                   ∧ 0 ≤ b'
                   ∧ - dx ≤ 2 * (b' * dx - (a + Z.of_nat i) * dy) < dx.
Proof.
  intros Hwide Hpos n. induction n as [|n IH];
    intros a b x y err Ha Han Hb Hdev Hx Hy Herr.
  - assert (a = dx) by lia. assert (b = dy) by nia.
    assert (x = x1) as Hx1 by (subst x a; apply line_sx_target; lia).
    assert (y = y1) as Hy1 by (subst y b; apply line_sy_target; lia).
    exists [(x, y)]. split_and!; [|done|].
    { intros [|fuel] pts Hfuel; [lia|]. cbn [lineLoop].
      rewrite Hx1, Hy1, !Z.eqb_refl. done. }
    intros [|i] p Hp; [|done]. cbn in Hp. injection Hp as <-.
    exists b. split_and!; [|lia|nia|nia].
    f_equal; [|exact Hy].
    replace (a + Z.of_nat 0) with a by lia. exact Hx.
  - assert (b ≤ dy) by nia.
    assert (x ≠ x1).
    { subst x. rewrite line_sx_target; lia. }
    assert (- dy < 2 * err) as Hstep.
    { subst err. destruct (decide (dy = dx)) as [Heq|]; [|lia].
      rewrite Heq in *.
      assert (b = a) as ->; [|lia].
      destruct (Z.lt_trichotomy b a) as [?|[?|?]]; [nia|done|nia]. }
    destruct (Z.ltb_spec (2 * err) dx) as [Hy1|Hy0].
    + destruct (IH (a + 1) (b + 1) (x + sx) (y + sy) (err - dy + dx))
        as (l & Hl & Hlen & Hpts);
        [lia|lia|lia|nia|subst x; lia|subst y; lia|subst err; lia|].
      exists ((x, y) :: l). split_and!; [|cbn; lia|].
      { intros [|fuel] pts Hfuel; [lia|]. cbn [lineLoop].
        destruct (Z.eqb_spec x x1) as [|_]; [done|]. cbn [andb].
        destruct (Z.ltb_spec (- dy) (2 * err)) as [_|]; [|lia].
        destruct (Z.ltb_spec (2 * err) dx) as [_|]; [|lia].
        rewrite Hl by lia. by rewrite <- app_assoc. }
      intros [|i] p Hp.
      * cbn in Hp. injection Hp as <-. exists b.
        split_and!; [subst x y; f_equal; lia|lia|lia|lia].
      * cbn in Hp. destruct (Hpts i p Hp) as (b' & -> & ? & ?).
        exists b'. split_and!; [f_equal; lia|lia|nia|nia].
    + destruct (IH (a + 1) b (x + sx) y (err - dy))
        as (l & Hl & Hlen & Hpts);
        [lia|lia|lia|nia|subst x; lia|subst y; lia|subst err; lia|].
      exists ((x, y) :: l). split_and!; [|cbn; lia|].
      { intros [|fuel] pts Hfuel; [lia|]. cbn [lineLoop].
        destruct (Z.eqb_spec x x1) as [|_]; [done|]. cbn [andb].
        destruct (Z.ltb_spec (- dy) (2 * err)) as [_|]; [|lia].
        destruct (Z.ltb_spec (2 * err) dx) as [|_]; [lia|].
        rewrite Hl by lia. by rewrite <- app_assoc. }
      intros [|i] p Hp.
      * cbn in Hp. injection Hp as <-. exists b.
        split_and!; [subst x y; f_equal; lia|lia|lia|lia].
      * cbn in Hp. destruct (Hpts i p Hp) as (b' & -> & ? & ?).
        exists b'. split_and!; [f_equal; lia|lia|nia|nia].
Qed.

(** The loop when the box is higher than wide: every round steps along y. *)
Lemma lineLoop_high :
  dx < dy →
  ∀ (n : nat) (a b x y err : Z),
    0 ≤ b → b + Z.of_nat n = dy → 0 ≤ a →
    - dy < 2 * (b * dx - a * dy) ≤ dy →
    x = x0 + sx * a → y = y0 + sy * b →
    err = dx - dy + (b * dx - a * dy) →
    ∃ l, (∀ (fuel : nat) (pts : list Cell), (n < fuel)%nat →
            lineLoop fuel x1 y1 dx dy sx sy x y err pts = Some (pts ++ l))
         ∧ length l = S n
         ∧ ∀ (i : nat) (p : Cell), l !! i = Some p →
             ∃ a', p = (x0 + sx * a', y0 + sy * (b + Z.of_nat i))
                   ∧ 0 ≤ a'
                   ∧ - dy < 2 * ((b + Z.of_nat i) * dx - a' * dy) ≤ dy.
Proof.
  intros Hhigh n. induction n as [|n IH];
    intros a b x y err Hb Hbn Ha Hdev Hx Hy Herr.
  - assert (b = dy) by lia. assert (a = dx) by nia.
    assert (x = x1) as Hx1 by (subst x a; apply line_sx_target; lia).
    assert (y = y1) as Hy1 by (subst y b; apply line_sy_target; lia).
    exists [(x, y)]. split_and!; [|done|].
    { intros [|fuel] pts Hfuel; [lia|]. cbn [lineLoop].
      rewrite Hx1, Hy1, !Z.eqb_refl. done. }
    intros [|i] p Hp; [|done]. cbn in Hp. injection Hp as <-.
    exists a. split_and!; [|lia|nia|nia].
    f_equal; [exact Hx|].
    replace (b + Z.of_nat 0) with b by lia. exact Hy.
  - assert (a ≤ dx) by nia.
    assert (y ≠ y1).
    { subst y. rewrite line_sy_target; lia. }
    assert (2 * err < dx) as Hstep by (subst err; lia).
    destruct (Z.ltb_spec (- dy) (2 * err)) as [Hx1|Hx0].
    + destruct (IH (a + 1) (b + 1) (x + sx) (y + sy) (err - dy + dx))
        as (l & Hl & Hlen & Hpts);
        [lia|lia|lia|nia|subst x; lia|subst y; lia|subst err; lia|].
      exists ((x, y) :: l). split_and!; [|cbn; lia|].
      { intros [|fuel] pts Hfuel; [lia|]. cbn [lineLoop].
        destruct (Z.eqb_spec y y1) as [|_]; [done|]. rewrite andb_false_r.
        destruct (Z.ltb_spec (- dy) (2 * err)) as [_|]; [|lia].
        destruct (Z.ltb_spec (2 * err) dx) as [_|]; [|lia].
        rewrite Hl by lia. by rewrite <- app_assoc. }
      intros [|i] p Hp.
      * cbn in Hp. injection Hp as <-. exists a.
        split_and!; [subst x y; f_equal; lia|lia|lia|lia].
      * cbn in Hp. destruct (Hpts i p Hp) as (a' & -> & ? & ?).
        exists a'. split_and!; [f_equal; lia|lia|nia|nia].
    + destruct (IH a (b + 1) x (y + sy) (err + dx))
        as (l & Hl & Hlen & Hpts);
        [lia|lia|lia|nia|subst x; lia|subst y; lia|subst err; lia|].
      exists ((x, y) :: l). split_and!; [|cbn; lia|].
      { intros [|fuel] pts Hfuel; [lia|]. cbn [lineLoop].
        destruct (Z.eqb_spec y y1) as [|_]; [done|]. rewrite andb_false_r.
        destruct (Z.ltb_spec (- dy) (2 * err)) as [|_]; [lia|].
        destruct (Z.ltb_spec (2 * err) dx) as [_|]; [|lia].
        rewrite Hl by lia. by rewrite <- app_assoc. }
      intros [|i] p Hp.
      * cbn in Hp. injection Hp as <-. exists a.
        split_and!; [subst x y; f_equal; lia|lia|lia|lia].
      * cbn in Hp. destruct (Hpts i p Hp) as (a' & -> & ? & ?).
        exists a'. split_and!; [f_equal; lia|lia|nia|nia].
Qed.

Lemma line_points :
  ∃ l,
    (∀ fuel, (lineRounds x0 y0 x1 y1 ≤ fuel)%nat →
       getLinePixelsWithin fuel x0 y0 x1 y1 = Some l)
    ∧ length l = lineRounds x0 y0 x1 y1
    ∧ ∀ (i : nat) (p : Cell), l !! i = Some p →
        ∃ a b, p = (x0 + sx * a, y0 + sy * b)
               ∧ lineOffsets dx dy (Z.of_nat i) a b.
Proof.
  unfold getLinePixelsWithin, lineRounds, lineOffsets.
  destruct (decide (dy ≤ dx)) as [Hwide|Hhigh].
  - destruct (decide (dx = 0)) as [Hzero|Hpos].
    + assert (dy = 0) as Hdy by lia.
      assert (x0 = x1) as Hx by lia. assert (y0 = y1) as Hy by lia.
      exists [(x0, y0)]. split_and!.
      * intros [|f] Hf; [lia|]. cbn [lineLoop].
        rewrite Hx, Hy, !Z.eqb_refl. done.
      * rewrite Hzero, Hdy. done.
      * intros [|i] p Hp; [|done]. cbn in Hp. injection Hp as <-.
        exists 0, 0. split; [f_equal; lia|]. lia.
    + destruct (lineLoop_wide Hwide ltac:(lia) (Z.to_nat dx) 0 0 x0 y0
                  (dx - dy)) as (l & Hl & Hlen & Hpts); [lia..|].
      exists l. split_and!.
      * intros f Hf. rewrite Hl by lia. done.
      * rewrite Hlen. f_equal. lia.
      * intros i p Hp. pose proof (lookup_lt_Some _ _ _ Hp) as Hi.
        destruct (Hpts i p Hp) as (b' & -> & ? & ?).
        exists (Z.of_nat i), b'. split; [f_equal; lia|].
        assert (b' ≤ dy) by nia.
        split_and!; lia.
  - destruct (lineLoop_high ltac:(lia) (Z.to_nat dy) 0 0 x0 y0
                (dx - dy)) as (l & Hl & Hlen & Hpts); [lia..|].
    exists l. split_and!.
    + intros f Hf. rewrite Hl by lia. done.
    + rewrite Hlen. f_equal. lia.
    + intros i p Hp. pose proof (lookup_lt_Some _ _ _ Hp) as Hi.
      destruct (Hpts i p Hp) as (a' & -> & ? & ?).
      exists a', (Z.of_nat i). split; [f_equal; lia|].
      assert (a' ≤ dx) by nia.
      split_and!; lia.
Qed.
End line_facts.
Lemma getLinePixels_offsets (x0 y0 x1 y1 : Z) :
  let l := getLinePixels x0 y0 x1 y1 in
  (∀ fuel, (lineRounds x0 y0 x1 y1 ≤ fuel)%nat →
     getLinePixelsWithin fuel x0 y0 x1 y1 = Some l)
  ∧ length l = lineRounds x0 y0 x1 y1
  ∧ ∀ (i : nat) (p : Cell), l !! i = Some p →
      ∃ a b, p = (x0 + (if x0 <? x1 then 1 else -1) * a,
                  y0 + (if y0 <? y1 then 1 else -1) * b)
             ∧ lineOffsets (Z.abs (x1 - x0)) (Z.abs (y1 - y0))
                 (Z.of_nat i) a b.
Proof.
  destruct (line_points x0 y0 x1 y1) as (l & Hl & Hlen & Hpts).
  assert (getLinePixels x0 y0 x1 y1 = l) as ->; [|done].
  unfold getLinePixels. by rewrite Hl.
Qed.
(** X1. [getLinePixels] returns: its loop breaks in the round after the last
    step along the longer side of the bounding box.  The line has one cell
    per such step, starts at [(x0, y0)] and ends at [(x1, y1)]. *)
Theorem getLinePixels_returns (x0 y0 x1 y1 : Z) (fuel : nat) :
  (lineRounds x0 y0 x1 y1 ≤ fuel)%nat →
  let l := getLinePixels x0 y0 x1 y1 in
  getLinePixelsWithin fuel x0 y0 x1 y1 = Some l
  ∧ Z.of_nat (length l) = lineSpan x0 y0 x1 y1 + 1
  ∧ head l = Some (x0, y0)
  ∧ last l = Some (x1, y1).
Proof.
  intros Hfuel l.
  destruct (getLinePixels_offsets x0 y0 x1 y1) as (Hl & Hlen & Hpts).
  fold l in Hl, Hlen, Hpts. split_and!.
  - by apply Hl.
  - rewrite Hlen. unfold lineRounds, lineSpan. lia.
  - destruct l as [|p l'] eqn:El; [done|]. cbn. f_equal.
    destruct (Hpts 0%nat p eq_refl) as (a & b & -> & Ha & Hb & Hoff).
    assert (a = 0 ∧ b = 0) as [-> ->]; [|f_equal; lia].
    destruct (decide _); [|nia].
    destruct Hoff as (-> & ? & [?|?]); [|lia]. split; [done|nia].
  - rewrite last_lookup, Hlen. unfold lineRounds. cbn [Nat.pred].
    destruct (l !! Z.to_nat (lineSpan x0 y0 x1 y1)) as [p|] eqn:Ep.
    2:{ apply lookup_ge_None in Ep. rewrite Hlen in Ep.
        unfold lineRounds, lineSpan in Ep. lia. }
    fold (lineSpan x0 y0 x1 y1). rewrite Ep. f_equal.
    destruct (Hpts _ p Ep) as (a & b & -> & Ha & Hb & Hoff).
    unfold lineSpan in *. rewrite Z2Nat.id in Hoff by lia.
    assert (a = Z.abs (x1 - x0) ∧ b = Z.abs (y1 - y0)) as [-> ->].
    { destruct (decide _).
      - destruct Hoff as (-> & ? & [?|?]); split; try lia; nia.
      - destruct Hoff as (-> & ?); split; try lia; nia. }
    f_equal.
    + destruct (Z.ltb_spec x0 x1); lia.
    + destruct (Z.ltb_spec y0 y1); lia.
Qed.

Lemma getLinePixels_returns_witness :
  getLinePixelsWithin 10 0 0 3 (-1) = Some [(0, 0); (1, 0); (2, -1); (3, -1)]
  ∧ last (getLinePixels 0 0 3 (-1)) = Some (3, -1).
Proof.
  pose proof (getLinePixels_returns 0 0 3 (-1) 10 ltac:(vm_compute; lia))
    as (H1 & _ & _ & H4).
  split; [exact H1|exact H4].
Defined.
(** X2. Consecutive cells of a line of [getLinePixels] are neighbours, side by
    side or diagonal, so the line has no gap; and no cell occurs twice. *)
Theorem getLinePixels_connected (x0 y0 x1 y1 : Z) :
  let l := getLinePixels x0 y0 x1 y1 in
  (∀ (i : nat) (p q : Cell),
     l !! i = Some p → l !! (S i) = Some q → adjacent p q)
  ∧ NoDup l.
Proof.
  intros l.
  destruct (getLinePixels_offsets x0 y0 x1 y1) as (_ & _ & Hpts).
  fold l in Hpts. split.
  - intros i p q Hp Hq.
    destruct (Hpts _ _ Hp) as (a & b & -> & Ha & Hb & Hoff).
    destruct (Hpts _ _ Hq) as (a' & b' & -> & Ha' & Hb' & Hoff').
    assert ((a' = a ∨ a' = a + 1) ∧ (b' = b ∨ b' = b + 1)
            ∧ (a' = a + 1 ∨ b' = b + 1)) as Hstep.
    { destruct (decide _).
      - destruct Hoff as (-> & ? & [?|?]), Hoff' as (-> & ? & [?|?]);
          try lia.
        assert (b ≤ b') by nia. assert (b' ≤ b + 1) by nia. lia.
      - destruct Hoff as (-> & ?), Hoff' as (-> & ?).
        assert (a ≤ a') by nia. assert (a' ≤ a + 1) by nia. lia. }
    unfold adjacent. cbn [fst snd].
    destruct (Z.ltb_spec x0 x1), (Z.ltb_spec y0 y1);
      (split_and!; [lia|lia|intros [=]; lia]).
  - apply NoDup_alt. intros i j p Hp Hq.
    destruct (Hpts _ _ Hp) as (a & b & -> & Ha & Hb & Hoff).
    destruct (Hpts _ _ Hq) as (a' & b' & [= Hx Hy] & Ha' & Hb' & Hoff').
    assert (a = a') by (destruct (Z.ltb_spec x0 x1); lia).
    assert (b = b') by (destruct (Z.ltb_spec y0 y1); lia).
    destruct (decide _).
    + destruct Hoff as (? & _), Hoff' as (? & _). lia.
    + destruct Hoff as (? & _), Hoff' as (? & _). lia.
Qed.

(** X3. Every cell of a line of [getLinePixels] lies in the bounding box of the
    two end points, within half a cell of the ideal segment, measured
    along the shorter side of the box. *)
Theorem getLinePixels_near_segment (x0 y0 x1 y1 : Z) (p : Cell) :
  p ∈ getLinePixels x0 y0 x1 y1 →
  Z.min x0 x1 ≤ p.1 ≤ Z.max x0 x1
  ∧ Z.min y0 y1 ≤ p.2 ≤ Z.max y0 y1
  ∧ 2 * deviation x0 y0 x1 y1 p ≤ lineSpan x0 y0 x1 y1.
Proof.
  intros Hp. apply list_elem_of_lookup in Hp as [i Hp].
  destruct (getLinePixels_offsets x0 y0 x1 y1) as (_ & _ & Hpts).
  destruct (Hpts _ _ Hp) as (a & b & -> & Ha & Hb & Hoff).
  unfold deviation, lineSpan. cbn [fst snd].
  assert (2 * Z.abs (b * Z.abs (x1 - x0) - a * Z.abs (y1 - y0))
          ≤ Z.max (Z.abs (x1 - x0)) (Z.abs (y1 - y0))) as Hdev.
  { pose proof (Z.abs_nonneg (x1 - x0)). pose proof (Z.abs_nonneg (y1 - y0)).
    generalize dependent (Z.abs (x1 - x0)). intros dx.
    generalize dependent (Z.abs (y1 - y0)). intros dy. intros.
    destruct (decide _).
    - destruct Hoff as (_ & ? & [?|?]).
      + set (t := b * dx - a * dy) in *. lia.
      + assert (dy = 0) as -> by lia. subst dx.
        replace (b * 0 - a * 0) with 0 by ring. lia.
    - set (t := b * dx - a * dy) in *. lia. }
  clear Hoff.
  destruct (Z.ltb_spec x0 x1), (Z.ltb_spec y0 y1).
  - rewrite (Z.abs_eq (x1 - x0)), (Z.abs_eq (y1 - y0)) in * by lia.
    split_and!; lia.
  - rewrite (Z.abs_eq (x1 - x0)), (Z.abs_neq (y1 - y0)) in * by lia.
    split_and!; lia.
  - rewrite (Z.abs_neq (x1 - x0)), (Z.abs_eq (y1 - y0)) in * by lia.
    split_and!; lia.
  - rewrite (Z.abs_neq (x1 - x0)), (Z.abs_neq (y1 - y0)) in * by lia.
    split_and!; lia.
Qed.

Lemma getLinePixels_near_segment_witness :
  2 * deviation 0 0 3 (-1) (2, -1) ≤ lineSpan 0 0 3 (-1).
Proof.
  apply (getLinePixels_near_segment 0 0 3 (-1) (2, -1)).
  vm_compute. apply list_elem_of_In. cbn. tauto.
Defined.
(** ** Display metrics and pointer coordinates *)

Lemma max_cases (a b : Q) :
  (a <= JS.max a b)%Q ∧ (b <= JS.max a b)%Q
  ∧ (JS.max a b = a ∨ JS.max a b = b).
Proof.
  unfold JS.max. destruct (Qle_bool a b) eqn:E.
  - apply Qle_bool_iff in E. split_and!; [done|apply Qle_refl|by right].
  - assert (¬ (a <= b)%Q) as Hn.
    { intros H. apply Qle_bool_iff in H. congruence. }
    apply Qnot_le_lt in Hn.
    split_and!; [apply Qle_refl|by apply Qlt_le_weak|by left].
Qed.

Lemma floor_unique (q : Q) (n : Z) :
  Qfloor q = n ↔ (inject_Z n <= q ∧ q < inject_Z n + 1)%Q.
Proof.
  split.
  - intros <-. split; [apply Qfloor_le|].
    pose proof (Qlt_floor q) as H. rewrite inject_Z_plus in H. exact H.
  - intros [Hlo Hhi].
    pose proof (Qfloor_le q) as Hf. pose proof (Qlt_floor q) as Hg.
    rewrite inject_Z_plus in Hg. change (inject_Z 1) with 1%Q in Hg.
    assert (inject_Z n < inject_Z (Qfloor q) + 1)%Q as H1 by lra.
    assert (inject_Z (Qfloor q) < inject_Z n + 1)%Q as H2 by lra.
    change 1%Q with (inject_Z 1) in H1, H2.
    rewrite <- inject_Z_plus in H1, H2.
    rewrite <- Zlt_Qlt in H1, H2. lia.
Qed.

Lemma round_bounds (a : Q) (lo hi : Z) :
  (inject_Z lo <= a)%Q → (a <= inject_Z hi)%Q → lo ≤ JS.round a ≤ hi.
Proof.
  intros Hlo Hhi. unfold JS.round.
  pose proof (Qfloor_le (a + (1 # 2))) as Hf.
  pose proof (Qlt_floor (a + (1 # 2))) as Hg.
  rewrite inject_Z_plus in Hg. change (inject_Z 1) with 1%Q in Hg.
  assert (inject_Z lo < inject_Z (Qfloor (a + (1 # 2))) + 1)%Q as H1 by lra.
  assert (inject_Z (Qfloor (a + (1 # 2))) < inject_Z hi + 1)%Q as H2 by lra.
  change 1%Q with (inject_Z 1) in H1, H2.
  rewrite <- inject_Z_plus in H1, H2.
  rewrite <- Zlt_Qlt in H1, H2. lia.
Qed.

Lemma unitRoundoff_facts :
  (0 < unitRoundoff)%Q ∧ (unitRoundoff <= 1 # 1000000)%Q
  ∧ (2 ^ (-1022) <= 1 # 2)%Q.
Proof. split_and!; by vm_compute. Qed.

Lemma round_range (a : Q) (lo hi : Z) :
  (inject_Z lo - (1 # 2) <= a)%Q → (a < inject_Z hi + (1 # 2))%Q →
  lo ≤ JS.round a ≤ hi.
Proof.
  intros Hlo Hhi. unfold JS.round.
  pose proof (Qfloor_le (a + (1 # 2))) as Hf.
  pose proof (Qlt_floor (a + (1 # 2))) as Hg.
  rewrite inject_Z_plus in Hg. change (inject_Z 1) with 1%Q in Hg.
  assert (inject_Z lo < inject_Z (Qfloor (a + (1 # 2))) + 1)%Q as H1 by lra.
  assert (inject_Z (Qfloor (a + (1 # 2))) < inject_Z hi + 1)%Q as H2 by lra.
  change 1%Q with (inject_Z 1) in H1, H2.
  rewrite <- inject_Z_plus in H1, H2.
  rewrite <- Zlt_Qlt in H1, H2. lia.
Qed.

(** Rounding a number of ordinary size keeps it within one part in
    [2^53]. *)
Lemma double_ordinary (x : Q) :
  (1 # 1267650600228229401496703205376 <= x)%Q →
  (x * (1 - u53) <= JS.double x)%Q ∧ (JS.double x <= x * (1 + u53))%Q.
Proof.
  intros Hx. apply (double_relative_pos x).
  eapply Qle_trans; [|exact Hx]. vm_compute. discriminate.
Qed.

(** The arithmetic of [getDisplayMetrics]: [t] is the exact product
    [gridWidth * aspectRatio], the other numbers are the doubles that the
    function computes. *)
Lemma fit_rounded (W H a : Q) :
  (1 <= W)%Q → (W <= 1024)%Q → (1 <= H)%Q → (H <= 1024)%Q →
  (1 # 1024 <= a)%Q → (a <= 1024)%Q →
  let T := JS.double (W * a) in
  let sf := JS.double (700 / JS.max T H) in
  let vpw := JS.double (sf * a) in
  let dw := JS.double (W * vpw) in
  let dh := JS.double (H * sf) in
  (0 < vpw)%Q ∧ (0 < sf)%Q
  ∧ (0 <= dw)%Q ∧ (dw < 700 + (1 # 2))%Q
  ∧ (0 <= dh)%Q ∧ (dh < 700 + (1 # 2))%Q
  ∧ ((H <= T)%Q → (700 - (1 # 2) <= dw)%Q)
  ∧ ((T <= H)%Q → (700 - (1 # 2) <= dh)%Q).
Proof.
  intros HW0 HW1 HH0 HH1 Ha0 Ha1 T sf vpw dw dh.
  set (t := (W * a)%Q) in *.
  assert (Ht0 : (1 # 1024 <= t)%Q).
  { assert (H1 : (1 * a <= W * a)%Q) by (apply Qmult_le_compat_r; lra).
    fold t in H1. lra. }
  assert (Ht1 : (t <= 1048576)%Q).
  { assert (H1 : (W * a <= 1024 * 1024)%Q)
      by (apply Qmult_le_compat_nonneg; lra).
    fold t in H1. lra. }
  destruct (double_ordinary t ltac:(lra)) as [HT0 HT1].
  fold T in HT0, HT1.
  destruct (max_cases T H) as (HLT & HLH & HL).
  set (L := JS.max T H) in *.
  assert (HL1 : (L <= 2097152)%Q).
  { clearbody L T. destruct HL as [Hl|Hl]; rewrite Hl; lra. }
  set (q := (700 / L)%Q) in *.
  assert (Hq : (q * L == 700)%Q) by (unfold q; field; lra).
  assert (Hq0 : (1 # 1048576 <= q)%Q).
  { unfold q. apply Qle_shift_div_l; lra. }
  destruct (double_ordinary q ltac:(lra)) as [Hs0 Hs1].
  fold sf in Hs0, Hs1.
  assert (Hsf0 : (1 # 2097152 <= sf)%Q).
  { clearbody sf q T. lra. }
  set (P := (sf * L)%Q).
  assert (HP0 : (700 * (1 - u53) <= P)%Q).
  { assert (H1 : (q * (1 - u53) * L <= sf * L)%Q)
      by (apply Qmult_le_compat_r; [done|lra]).
    assert (He : (q * (1 - u53) * L == 700 * (1 - u53))%Q)
      by (rewrite <- Hq; ring).
    by rewrite He in H1. }
  assert (HP1 : (P <= 700 * (1 + u53))%Q).
  { assert (H1 : (sf * L <= q * (1 + u53) * L)%Q)
      by (apply Qmult_le_compat_r; [done|lra]).
    assert (He : (q * (1 + u53) * L == 700 * (1 + u53))%Q)
      by (rewrite <- Hq; ring).
    by rewrite He in H1. }
  (* the height *)
  set (xh := (H * sf)%Q) in *.
  assert (Hxh0 : (sf <= xh)%Q).
  { assert (H1 : (1 * sf <= H * sf)%Q)
      by (apply Qmult_le_compat_r; clearbody sf; lra).
    fold xh in H1. clearbody sf xh. lra. }
  assert (Hxh1 : (xh <= P)%Q).
  { assert (H1 : (H * sf <= L * sf)%Q)
      by (apply Qmult_le_compat_r; clearbody sf; lra).
    unfold P. rewrite (Qmult_comm sf L). exact H1. }
  destruct (double_ordinary xh ltac:(clearbody sf xh; lra)) as [Hh0 Hh1].
  fold dh in Hh0, Hh1.
  (* the width *)
  set (v := (sf * a)%Q) in *.
  assert (Hv0 : (1 # 2147483648 <= v)%Q).
  { assert (H1 : ((1 # 2097152) * (1 # 1024) <= sf * a)%Q)
      by (apply Qmult_le_compat_nonneg; clearbody sf; lra).
    fold v in H1. clearbody v. lra. }
  destruct (double_ordinary v ltac:(clearbody v; lra)) as [Hw0 Hw1].
  fold vpw in Hw0, Hw1.
  set (R := (t * sf)%Q).
  assert (HR : (W * v == R)%Q) by (unfold v, R, t; ring).
  set (xw := (W * vpw)%Q) in *.
  assert (Hvpw0 : (1 # 4294967296 <= vpw)%Q).
  { clearbody vpw v. lra. }
  assert (Hxw0 : (vpw <= xw)%Q).
  { assert (H1 : (1 * vpw <= W * vpw)%Q)
      by (apply Qmult_le_compat_r; clearbody vpw; lra).
    fold xw in H1. clearbody vpw xw. lra. }
  assert (Hxw1 : (R * (1 - u53) <= xw)%Q).
  { assert (H1 : (W * (v * (1 - u53)) <= W * vpw)%Q)
      by (apply Qmult_le_l; [lra|done]).
    assert (He : (W * (v * (1 - u53)) == R * (1 - u53))%Q)
      by (rewrite <- HR; ring).
    by rewrite He in H1. }
  assert (Hxw2 : (xw <= R * (1 + u53))%Q).
  { assert (H1 : (W * vpw <= W * (v * (1 + u53)))%Q)
      by (apply Qmult_le_l; [lra|done]).
    assert (He : (W * (v * (1 + u53)) == R * (1 + u53))%Q)
      by (rewrite <- HR; ring).
    by rewrite He in H1. }
  assert (HR1 : (R * (1 - u53) <= P)%Q).
  { assert (H1 : (t * (1 - u53) * sf <= L * sf)%Q)
      by (apply Qmult_le_compat_r; clearbody sf T; lra).
    assert (He : (t * (1 - u53) * sf == R * (1 - u53))%Q) by (unfold R; ring).
    rewrite He in H1. unfold P. by rewrite (Qmult_comm sf L). }
  destruct (double_ordinary xw ltac:(clearbody vpw xw; lra)) as [Hd0 Hd1].
  fold dw in Hd0, Hd1.
  assert (HRT : (H <= T)%Q → (P <= R * (1 + u53))%Q).
  { intros HHT.
    assert (HLT' : (L <= T)%Q).
    { clearbody L T. destruct HL as [Hl|Hl]; rewrite Hl; lra. }
    assert (H1 : (L * sf <= t * (1 + u53) * sf)%Q)
      by (apply Qmult_le_compat_r; clearbody sf T; lra).
    assert (He : (t * (1 + u53) * sf == R * (1 + u53))%Q) by (unfold R; ring).
    rewrite He in H1. unfold P. by rewrite (Qmult_comm sf L). }
  assert (HPH : (T <= H)%Q → (P <= xh)%Q).
  { intros HTH.
    assert (HLH' : (L <= H)%Q).
    { clearbody L T. destruct HL as [Hl|Hl]; rewrite Hl; lra. }
    assert (H1 : (L * sf <= H * sf)%Q)
      by (apply Qmult_le_compat_r; clearbody sf; lra).
    unfold P. by rewrite (Qmult_comm sf L). }
  clearbody dw dh xw xh vpw v sf P R q L T t.
  split_and!; lra.
Qed.

(** X4. For a grid of 1 to 1024 cells each way and an aspect ratio from
    1/1024 to 1024, [getDisplayMetrics], computed in doubles, gives cells of
    positive width and height and a display that fits the 700-pixel
    square; the side that the scale factor is computed from is exactly
    700 pixels. *)
Theorem getDisplayMetrics_fits (gridWidth gridHeight : Z) (aspectRatio : Q) :
  1 ≤ gridWidth ≤ 1024 → 1 ≤ gridHeight ≤ 1024 →
  (1 # 1024 <= aspectRatio)%Q → (aspectRatio <= 1024)%Q →
  let m := getDisplayMetrics gridWidth gridHeight aspectRatio in
  let totalGridWidth := JS.double (inject_Z gridWidth * aspectRatio) in
  (0 < visualPixelWidth m)%Q ∧ (0 < visualPixelHeight m)%Q
  ∧ 0 ≤ displayWidth m ≤ 700 ∧ 0 ≤ displayHeight m ≤ 700
  ∧ ((inject_Z gridHeight <= totalGridWidth)%Q → displayWidth m = 700)
  ∧ ((totalGridWidth <= inject_Z gridHeight)%Q → displayHeight m = 700)
  ∧ Z.max (displayWidth m) (displayHeight m) = 700.
Proof.
  intros [HW0 HW1] [HH0 HH1] Ha0 Ha1 m T.
  assert (HW : (1 <= inject_Z gridWidth)%Q ∧ (inject_Z gridWidth <= 1024)%Q).
  { change 1%Q with (inject_Z 1). change 1024%Q with (inject_Z 1024).
    by rewrite <- !Zle_Qle. }
  assert (HH : (1 <= inject_Z gridHeight)%Q
               ∧ (inject_Z gridHeight <= 1024)%Q).
  { change 1%Q with (inject_Z 1). change 1024%Q with (inject_Z 1024).
    by rewrite <- !Zle_Qle. }
  destruct HW as [HWa HWb], HH as [HHa HHb].
  destruct (fit_rounded _ _ _ HWa HWb HHa HHb Ha0 Ha1)
    as (Hvw & Hvh & Hw0 & Hw1 & Hh0 & Hh1 & Hwide & Htall).
  fold T in Hwide, Htall.
  assert (Hdw : 0 ≤ displayWidth m ≤ 700).
  { apply round_range; [|exact Hw1].
    eapply Qle_trans; [|exact Hw0]. by vm_compute. }
  assert (Hdh : 0 ≤ displayHeight m ≤ 700).
  { apply round_range; [|exact Hh1].
    eapply Qle_trans; [|exact Hh0]. by vm_compute. }
  assert (Hwide' : (inject_Z gridHeight <= T)%Q → displayWidth m = 700).
  { intros Hle. apply Z.le_antisymm; [apply Hdw|].
    apply (round_range _ 700 700); [by apply Hwide|exact Hw1]. }
  assert (Htall' : (T <= inject_Z gridHeight)%Q → displayHeight m = 700).
  { intros Hle. apply Z.le_antisymm; [apply Hdh|].
    apply (round_range _ 700 700); [by apply Htall|exact Hh1]. }
  split_and!; try done; try lia.
  destruct (Qlt_le_dec T (inject_Z gridHeight)) as [Hlt|Hle].
  - rewrite (Htall' (Qlt_le_weak _ _ Hlt)). lia.
  - rewrite (Hwide' Hle). lia.
Qed.

Lemma getDisplayMetrics_fits_witness :
  let m := getDisplayMetrics 45 18 (1 # 4) in
  displayWidth m = 437 ∧ displayHeight m = 700
  ∧ 0 ≤ displayWidth m ≤ 700
  ∧ Z.max (displayWidth m) (displayHeight m) = 700.
Proof.
  intros m.
  destruct (getDisplayMetrics_fits 45 18 (1 # 4))
    as (_ & _ & Hw & _ & _ & _ & Hmax);
    [lia|lia|vm_compute; discriminate|vm_compute; discriminate|].
  split; [vm_compute; reflexivity|]. split; [vm_compute; reflexivity|].
  split; [exact Hw|exact Hmax].
Defined.

(** The cell that the rounded division gives for a point at [rel]. *)
Lemma floor_double_div (rel size : Q) :
  (0 < size)%Q → (0 <= rel)%Q →
  let n := Qfloor (JS.double (rel / size)) in
  0 ≤ n ∧ inCellUpToRounding rel size n.
Proof.
  intros Hsize Hrel n.
  destruct unitRoundoff_facts as (Hu0 & Hu1 & Hc).
  assert (Hq : (rel / size * size == rel)%Q) by (field; lra).
  assert (Hq0 : (0 <= rel / size)%Q).
  { apply Qle_shift_div_l; lra. }
  pose proof (double_nonneg _ Hq0) as Hd0.
  pose proof (Qfloor_le (JS.double (rel / size))) as Hlo.
  pose proof (Qlt_floor (JS.double (rel / size))) as Hhi.
  rewrite inject_Z_plus in Hhi. change (inject_Z 1) with 1%Q in Hhi.
  fold n in Hlo, Hhi.
  assert (Hn0 : 0 ≤ n).
  { apply Qfloor_resp_le in Hd0. exact Hd0. }
  split; [done|]. unfold inCellUpToRounding.
  destruct (Qlt_le_dec (rel / size) (2 ^ (-1022))) as [Hsmall|Hnormal].
  - assert (H1 : (rel / size < 1)%Q) by (eapply Qlt_le_trans; [done|lra]).
    pose proof (double_small _ Hq0 H1) as Hd.
    assert (Hn : n = 0).
    { assert (Hlt : (inject_Z n < inject_Z 1)%Q).
      { change (inject_Z 1) with 1%Q.
        set (d := JS.double (rel / size)) in *.
        set (q := (rel / size)%Q) in *. set (c := (2 ^ (-1022))%Q) in *.
        set (u := unitRoundoff) in *. clearbody d q c u. lra. }
      rewrite <- Zlt_Qlt in Hlt. lia. }
    rewrite Hn. change (inject_Z 0) with 0%Q.
    set (q := (rel / size)%Q) in *. set (c := (2 ^ (-1022))%Q) in *.
    set (u := unitRoundoff) in *. clearbody q c u.
    assert (Hrs : (rel <= (1 # 2) * size)%Q).
    { rewrite <- Hq. apply Qmult_le_r; [done|lra]. }
    assert (Hru : (0 <= rel * u)%Q) by (apply Qmult_le_0_compat; lra).
    split; lra.
  - destruct (double_relative_pos _ Hnormal) as [Hdlo Hdhi].
    set (d := JS.double (rel / size)) in *.
    set (q := (rel / size)%Q) in *. set (z := inject_Z n) in *.
    set (u := unitRoundoff) in *. clearbody d q z u. clear Hnormal Hc.
    split.
    + assert (H : (z * size <= q * (1 + u) * size)%Q).
      { apply Qmult_le_r; [done|lra]. }
      assert (He : (q * (1 + u) * size == rel * (1 + u))%Q).
      { rewrite <- Hq. ring. }
      by rewrite He in H.
    + assert (H : (q * (1 - u) * size < (z + 1) * size)%Q).
      { apply Qmult_lt_r; [done|lra]. }
      assert (He : (q * (1 - u) * size == rel * (1 - u))%Q).
      { rewrite <- Hq. ring. }
      by rewrite He in H.
Qed.

(** X5. [getPixelCoords], computed in doubles, returns for a pointer at or
    beyond the corner of the canvas a cell with coordinates from 0 on, and
    the pointer lies in the rectangle of that cell up to one part in 2^53
    of its distance to the corner: the rounded division decides at the
    border of two cells.  A pointer inside the displayed grid by that
    margin gets a cell of the grid.  Before the canvas is mounted the
    cell is (0, 0). *)
Theorem getPixelCoords_cell (rect : Rect) (m : DisplayMetrics)
    (clientX clientY : Q) :
  (0 < visualPixelWidth m)%Q → (0 < visualPixelHeight m)%Q →
  let relX := JS.double (clientX - rectLeft rect) in
  let relY := JS.double (clientY - rectTop rect) in
  let cell := getPixelCoords (Some rect) m clientX clientY in
  ((0 <= relX)%Q
   → 0 ≤ cell.1 ∧ inCellUpToRounding relX (visualPixelWidth m) cell.1)
  ∧ ((0 <= relY)%Q
     → 0 ≤ cell.2 ∧ inCellUpToRounding relY (visualPixelHeight m) cell.2)
  ∧ (∀ gridWidth gridHeight : Z,
       (0 <= relX)%Q →
       (relX * (1 + unitRoundoff)
        < inject_Z gridWidth * visualPixelWidth m)%Q →
       (0 <= relY)%Q →
       (relY * (1 + unitRoundoff)
        < inject_Z gridHeight * visualPixelHeight m)%Q →
       inGrid gridWidth gridHeight cell)
  ∧ getPixelCoords None m clientX clientY = (0, 0).
Proof.
  intros Hw Hh relX relY cell.
  assert (Hx : (0 <= relX)%Q
    → 0 ≤ cell.1 ∧ inCellUpToRounding relX (visualPixelWidth m) cell.1).
  { intros H0. subst cell. unfold getPixelCoords. cbn [fst snd].
    apply (floor_double_div relX _ Hw H0). }
  assert (Hy : (0 <= relY)%Q
    → 0 ≤ cell.2 ∧ inCellUpToRounding relY (visualPixelHeight m) cell.2).
  { intros H0. subst cell. unfold getPixelCoords. cbn [fst snd].
    apply (floor_double_div relY _ Hh H0). }
  split; [exact Hx|]. split; [exact Hy|]. split; [|done].
  intros W H Hx0 Hx1 Hy0 Hy1.
  destruct (Hx Hx0) as [Hcx [Hxa _]]. destruct (Hy Hy0) as [Hcy [Hya _]].
  assert (Hcmp : ∀ (n k : Z) (size : Q), (0 < size)%Q →
            (inject_Z n * size < inject_Z k * size)%Q → n < k).
  { intros n k size Hs Hlt.
    apply Qmult_lt_r in Hlt; [|done]. by rewrite <- Zlt_Qlt in Hlt. }
  unfold inGrid. split; (split; [done|]).
  - apply (Hcmp _ _ (visualPixelWidth m) Hw). by eapply Qle_lt_trans.
  - apply (Hcmp _ _ (visualPixelHeight m) Hh). by eapply Qle_lt_trans.
Qed.

Lemma getPixelCoords_cell_witness :
  let m := getDisplayMetrics 21 21 1 in
  getPixelCoords (Some (mkRect 0 0)) m 500 30 = (14, 0)
  ∧ inGrid 21 21 (getPixelCoords (Some (mkRect 0 0)) m 500 30)
  ∧ inCellUpToRounding (JS.double (500 - 0)) (visualPixelWidth m)
      (getPixelCoords (Some (mkRect 0 0)) m 500 30).1.
Proof.
  intros m. split; [vm_compute; reflexivity|].
  destruct (getPixelCoords_cell (mkRect 0 0) m 500 30)
    as (Hx & _ & Hin & _); [vm_compute; reflexivity..|].
  split.
  - apply Hin; vm_compute; (reflexivity || discriminate).
  - apply Hx. vm_compute. discriminate.
Defined.
(** ** Pointer handlers *)

Lemma mono_saveToHistory_frame (s : Mono.State) :
  let s' := Mono.saveToHistory s in
  Mono.pixels s' = Mono.pixels s
  ∧ Mono.brushSize s' = Mono.brushSize s
  ∧ Mono.tool s' = Mono.tool s
  ∧ Mono.gridWidth s' = Mono.gridWidth s
  ∧ Mono.gridHeight s' = Mono.gridHeight s
  ∧ Mono.lastActivePixel s' = Mono.lastActivePixel s
  ∧ Mono.isDrawing s' = Mono.isDrawing s.
Proof.
  unfold Mono.saveToHistory. destruct (last (Mono.history s)); [|done].
  by destruct (InsOrd.same_elements _ _).
Qed.

Lemma covered_centre (W H size : Z) (points : list Cell) (c : Cell) :
  0 < size → c ∈ points → inGrid W H c → covered W H size points c.
Proof.
  intros Hsize Hc [Hx Hy]. exists c, (size / 2), (size / 2).
  assert (0 ≤ size / 2 < size).
  { split; [apply Z.div_pos; lia|apply Z.div_lt; lia]. }
  split_and!; try done; try lia.
  destruct c as [x y]. cbn. f_equal; lia.
Qed.

(** The grid after the pointer goes down on the monochrome canvas, for the
    points and the tool that reach [updatePixels]. *)
Lemma mono_handlePointerDown_pixels (canvas : option Rect)
    (e : Pointer.Event) (v : MonoUI.View) :
  let s := MonoUI.editor v in
  let target :=
    getPixelCoords canvas (Render.metrics s) (Pointer.clientX e)
      (Pointer.clientY e) in
  let points :=
    match Mono.lastActivePixel s with
    | Some last =>
        if Pointer.shiftKey e && bool_decide (Mono.tool s = Mono.brush)
        then getLinePixels last.1 last.2 target.1 target.2
        else [target]
    | None => [target]
    end in
  let s' := MonoUI.editor (MonoUI.handlePointerDown canvas e v) in
  Mono.pixels s'
  = fold_left
      (λ next c,
         Mono.paintCell (Mono.gridWidth s) (Mono.gridHeight s)
           (MonoUI.effectiveTool e (Mono.tool s)) c.1 c.2 next)
      (brushCells (Mono.brushSize s) points) (Mono.pixels s)
  ∧ Mono.lastActivePixel s' = Some target
  ∧ MonoUI.strokeOrigin (MonoUI.handlePointerDown canvas e v) = Some target
  ∧ Mono.isDrawing s' = true
  ∧ Mono.history s' = Mono.history (Mono.saveToHistory s)
  ∧ Mono.redoStack s' = Mono.redoStack (Mono.saveToHistory s).
Proof.
  intros s target points s'. subst s' points. unfold MonoUI.handlePointerDown.
  fold s. fold target. destruct target as [x y] eqn:Et. cbn [fst snd].
  destruct (mono_saveToHistory_frame s) as (Hp & Hb & Ht & Hw & Hh & Hl & Hd).
  cbn zeta in Hp, Hb, Ht, Hw, Hh, Hl, Hd.
  set (pts := match Mono.lastActivePixel s with
              | Some last =>
                  if Pointer.shiftKey e
                     && bool_decide (Mono.tool s = Mono.brush)
                  then getLinePixels last.1 last.2 x y
                  else [(x, y)]
              | None => [(x, y)]
              end).
  set (s1 := MonoUI.setIsDrawing true (Mono.saveToHistory s)).
  assert (match Mono.lastActivePixel s with
          | Some lastActivePixel =>
              if Pointer.shiftKey e
                 && bool_decide (Mono.tool s = Mono.brush)
              then Mono.updatePixels
                     (getLinePixels lastActivePixel.1 lastActivePixel.2 x y)
                     (MonoUI.effectiveTool e (Mono.tool s)) s1
              else Mono.updatePixels [(x, y)]
                     (MonoUI.effectiveTool e (Mono.tool s)) s1
          | None => Mono.updatePixels [(x, y)]
                      (MonoUI.effectiveTool e (Mono.tool s)) s1
          end
          = Mono.updatePixels pts (MonoUI.effectiveTool e (Mono.tool s)) s1)
    as ->.
  { subst pts. destruct (Mono.lastActivePixel s); [|done].
    by destruct (_ && _). }
  cbn [MonoUI.editor MonoUI.setEditor MonoUI.strokeOrigin
       MonoUI.setStrokeOrigin].
  split_and!; try done.
  change (Mono.pixels (Mono.setLastActivePixel _ ?t)) with (Mono.pixels t).
  rewrite mono_updatePixels_pixels.
  change (Mono.gridWidth s1) with (Mono.gridWidth (Mono.saveToHistory s)).
  change (Mono.gridHeight s1) with (Mono.gridHeight (Mono.saveToHistory s)).
  change (Mono.brushSize s1) with (Mono.brushSize (Mono.saveToHistory s)).
  change (Mono.pixels s1) with (Mono.pixels (Mono.saveToHistory s)).
  by rewrite Hp, Hb, Hw, Hh.
Qed.

(** X6. Shift+click with the brush selected joins the last active cell to the
    clicked cell: the brush squares along the whole line of [getLinePixels]
    are painted, or erased when Ctrl or Meta is held. *)
Theorem mono_shift_click_line (canvas : option Rect) (e : Pointer.Event)
    (v : MonoUI.View) (last : Cell) :
  Mono.lastActivePixel (MonoUI.editor v) = Some last →
  Pointer.shiftKey e = true →
  Mono.tool (MonoUI.editor v) = Mono.brush →
  let s := MonoUI.editor v in
  let target :=
    getPixelCoords canvas (Render.metrics s) (Pointer.clientX e)
      (Pointer.clientY e) in
  let line := getLinePixels last.1 last.2 target.1 target.2 in
  let s' := MonoUI.editor (MonoUI.handlePointerDown canvas e v) in
  let cov :=
    covered (Mono.gridWidth s) (Mono.gridHeight s) (Mono.brushSize s) line in
  Mono.lastActivePixel s' = Some target
  ∧ (Pointer.metaKey e || Pointer.ctrlKey e = false →
     (∀ c, c ∈ Mono.pixels s' ↔ c ∈ Mono.pixels s ∨ cov c)
     ∧ (0 < Mono.brushSize s →
        ∀ c, c ∈ line → inGrid (Mono.gridWidth s) (Mono.gridHeight s) c →
             c ∈ Mono.pixels s'))
  ∧ (Pointer.metaKey e || Pointer.ctrlKey e = true →
     ∀ c, c ∈ Mono.pixels s' ↔ c ∈ Mono.pixels s ∧ ¬ cov c).
Proof.
  intros Hlast Hshift Htool s target line s' cov.
  fold s in Hlast, Htool.
  destruct (mono_handlePointerDown_pixels canvas e v)
    as (Hpix & Hl & _). cbn zeta in Hpix, Hl. fold s in Hpix, Hl.
  fold target in Hpix, Hl. fold s' in Hpix, Hl.
  rewrite Hlast, Hshift, Htool in Hpix.
  rewrite bool_decide_eq_true_2 in Hpix by done. cbn [andb] in Hpix.
  fold line in Hpix. unfold MonoUI.effectiveTool in Hpix.
  split_and!; [done| |].
  - intros Hmod. rewrite Hmod in Hpix.
    assert (∀ c, c ∈ Mono.pixels s' ↔ c ∈ Mono.pixels s ∨ cov c) as Hiff.
    { intros c. rewrite Hpix, mono_paint_cells. unfold cov.
      by rewrite covered_brushCells. }
    split; [done|]. intros Hsize c Hc Hin. apply Hiff. right.
    by apply covered_centre.
  - intros Hmod c. rewrite Hmod in Hpix.
    rewrite Hpix, mono_erase_cells. unfold cov.
    by rewrite covered_brushCells.
Qed.

Lemma mono_shift_click_line_witness :
  let v :=
    MonoUI.setEditor (Mono.setLastActivePixel (Some (0, 0)) Mono.initial)
      MonoUI.initial in
  let e := Pointer.mkEvent 70 30 true false false false in
  (2, 1) ∈ Mono.pixels
             (MonoUI.editor (MonoUI.handlePointerDown (Some (mkRect 0 0)) e v)).
Proof.
  intros v e.
  pose proof (mono_shift_click_line (Some (mkRect 0 0)) e v (0, 0)
                eq_refl eq_refl eq_refl) as (_ & H & _).
  destruct (H eq_refl) as [_ Hline].
  apply Hline; [done| |done].
  vm_compute. apply list_elem_of_In. cbn. tauto.
Defined.
Lemma colored_saveToHistory_frame (s : Colored.State) :
  let s' := Colored.saveToHistory s in
  Colored.pixelMap s' = Colored.pixelMap s
  ∧ Colored.brushSize s' = Colored.brushSize s
  ∧ Colored.tool s' = Colored.tool s
  ∧ Colored.currentColor s' = Colored.currentColor s
  ∧ Colored.gridWidth s' = Colored.gridWidth s
  ∧ Colored.gridHeight s' = Colored.gridHeight s
  ∧ Colored.isDrawing s' = Colored.isDrawing s.
Proof.
  unfold Colored.saveToHistory. destruct (last (Colored.history s)); [|done].
  by destruct (_ && _).
Qed.

(** The grid after the pointer goes down on the colored canvas with a
    painting tool, for the points and the tool that reach [updatePixels]. *)
Lemma colored_handlePointerDown_pixelMap (canvas : option Rect)
    (e : Pointer.Event) (v : ColoredUI.View) :
  let s := ColoredUI.editor v in
  Colored.tool s ≠ Colored.eyedropper → Pointer.altKey e = false →
  let target :=
    getPixelCoords canvas (ColoredUI.metrics s) (Pointer.clientX e)
      (Pointer.clientY e) in
  let eff := ColoredUI.effectiveTool e (Colored.tool s) in
  let points :=
    match ColoredUI.lastActivePixel v with
    | Some last =>
        if Pointer.shiftKey e && bool_decide (eff = Colored.brush)
        then getLinePixels last.1 last.2 target.1 target.2
        else [target]
    | None => [target]
    end in
  let v' := ColoredUI.handlePointerDown canvas e v in
  let s' := ColoredUI.editor v' in
  Colored.pixelMap s'
  = fold_left
      (λ next c,
         Colored.paintCell (Colored.gridWidth s) (Colored.gridHeight s) eff
           (Colored.currentColor s) c.1 c.2 next)
      (brushCells (Colored.brushSize s) points) (Colored.pixelMap s)
  ∧ ColoredUI.lastActivePixel v' = Some target
  ∧ ColoredUI.strokeOrigin v' = Some target
  ∧ Colored.isDrawing s' = true
  ∧ Colored.history s' = Colored.history (Colored.saveToHistory s)
  ∧ Colored.redoStack s' = Colored.redoStack (Colored.saveToHistory s).
Proof.
  intros s Htool Halt target eff points v' s'. subst s' v' points.
  unfold ColoredUI.handlePointerDown. fold s. fold target.
  destruct target as [x y] eqn:Et. cbn [fst snd].
  rewrite Halt, orb_false_r, bool_decide_eq_false_2 by done. fold eff.
  destruct (colored_saveToHistory_frame s)
    as (Hp & Hb & Ht & Hc & Hw & Hh & Hd).
  cbn zeta in Hp, Hb, Ht, Hc, Hw, Hh, Hd.
  set (pts := match ColoredUI.lastActivePixel v with
              | Some last =>
                  if Pointer.shiftKey e && bool_decide (eff = Colored.brush)
                  then getLinePixels last.1 last.2 x y
                  else [(x, y)]
              | None => [(x, y)]
              end).
  set (s1 := ColoredUI.setIsDrawing true (Colored.saveToHistory s)).
  assert (match ColoredUI.lastActivePixel v with
          | Some last =>
              if Pointer.shiftKey e && bool_decide (eff = Colored.brush)
              then Colored.updatePixels (getLinePixels last.1 last.2 x y)
                     eff s1
              else Colored.updatePixels [(x, y)] eff s1
          | None => Colored.updatePixels [(x, y)] eff s1
          end
          = Colored.updatePixels pts eff s1) as ->.
  { subst pts. destruct (ColoredUI.lastActivePixel v); [|done].
    by destruct (_ && _). }
  cbn [ColoredUI.editor ColoredUI.setEditor ColoredUI.strokeOrigin
       ColoredUI.setStrokeOrigin ColoredUI.lastActivePixel
       ColoredUI.setLastActivePixel].
  split_and!; try done.
  rewrite colored_updatePixels_pixelMap.
  change (Colored.gridWidth s1)
    with (Colored.gridWidth (Colored.saveToHistory s)).
  change (Colored.gridHeight s1)
    with (Colored.gridHeight (Colored.saveToHistory s)).
  change (Colored.brushSize s1)
    with (Colored.brushSize (Colored.saveToHistory s)).
  change (Colored.currentColor s1)
    with (Colored.currentColor (Colored.saveToHistory s)).
  change (Colored.pixelMap s1)
    with (Colored.pixelMap (Colored.saveToHistory s)).
  by rewrite Hp, Hb, Hw, Hh, Hc.
Qed.

(** X7. In the colored editor Shift+click joins the last active cell to the
    clicked cell when the effective tool is the brush: every cell of the
    brush squares along the line of [getLinePixels] takes the current color
    and no other cell changes.  With the eraser only the brush square of the
    clicked cell is erased, Shift or not. *)
Theorem colored_shift_click_line (canvas : option Rect) (e : Pointer.Event)
    (v : ColoredUI.View) (last : Cell) :
  let s := ColoredUI.editor v in
  Colored.tool s ≠ Colored.eyedropper → Pointer.altKey e = false →
  ColoredUI.lastActivePixel v = Some last →
  Pointer.shiftKey e = true →
  let target :=
    getPixelCoords canvas (ColoredUI.metrics s) (Pointer.clientX e)
      (Pointer.clientY e) in
  let line := getLinePixels last.1 last.2 target.1 target.2 in
  let after :=
    Colored.pixelMap
      (ColoredUI.editor (ColoredUI.handlePointerDown canvas e v)) in
  let cov :=
    covered (Colored.gridWidth s) (Colored.gridHeight s)
      (Colored.brushSize s) in
  (ColoredUI.effectiveTool e (Colored.tool s) = Colored.brush →
   ∀ c, (cov line c → InsOrd.mget c after = Some (Colored.currentColor s))
        ∧ (¬ cov line c
           → InsOrd.mget c after = InsOrd.mget c (Colored.pixelMap s)))
  ∧ (ColoredUI.effectiveTool e (Colored.tool s) = Colored.eraser →
     ∀ c, (cov [target] c → InsOrd.mget c after = None)
          ∧ (¬ cov [target] c
             → InsOrd.mget c after = InsOrd.mget c (Colored.pixelMap s))).
Proof.
  intros s Htool Halt Hlast Hshift target line after cov.
  destruct (colored_handlePointerDown_pixelMap canvas e v Htool Halt)
    as (Hpix & _). cbn zeta in Hpix. fold s in Hpix. fold target in Hpix.
  fold after in Hpix. rewrite Hlast, Hshift in Hpix. cbn [andb] in Hpix.
  fold line in Hpix.
  split; intros Heff c; rewrite Heff in Hpix; rewrite Hpix; unfold cov;
    rewrite !covered_brushCells.
  - rewrite bool_decide_eq_true_2 by done. apply colored_paint_cells.
  - rewrite bool_decide_eq_false_2 by done. apply colored_erase_cells.
Qed.

Lemma colored_shift_click_line_witness :
  let v :=
    ColoredUI.setLastActivePixel (Some (0, 0)) ColoredUI.initial in
  let e := Pointer.mkEvent 70 30 true false false false in
  InsOrd.mget (2, 1)
    (Colored.pixelMap
       (ColoredUI.editor
          (ColoredUI.handlePointerDown (Some (mkRect 0 0)) e v)))
  = Some "#000000".
Proof.
  intros v e.
  pose proof (colored_shift_click_line (Some (mkRect 0 0)) e v (0, 0)
                ltac:(done) eq_refl eq_refl eq_refl) as [H _].
  apply (H eq_refl (2, 1)).
  exists (2, 1), 0, 0. vm_compute. split_and!; try done.
  apply list_elem_of_In. cbn. tauto.
Defined.
(** What one pointer move does to the monochrome editor. *)
Lemma mono_handlePointerMove_step (rect : Rect) (e : Pointer.Event)
    (v : MonoUI.View) :
  let s := MonoUI.editor v in
  let m := Render.metrics s in
  let p := moveCell (Some rect) m (Mono.isDrawing s) (MonoUI.strokeOrigin v)
             e in
  let v' := MonoUI.handlePointerMove (Some rect) e v in
  let s' := MonoUI.editor v' in
  MonoUI.strokeOrigin v' = MonoUI.strokeOrigin v
  ∧ MonoUI.cursorX v' = (inject_Z p.1 * visualPixelWidth m)%Q
  ∧ MonoUI.cursorY v' = (inject_Z p.2 * visualPixelHeight m)%Q
  ∧ Mono.isDrawing s' = Mono.isDrawing s
  ∧ Mono.history s' = Mono.history s
  ∧ Mono.redoStack s' = Mono.redoStack s
  ∧ Mono.brushSize s' = Mono.brushSize s
  ∧ Mono.tool s' = Mono.tool s
  ∧ Mono.gridWidth s' = Mono.gridWidth s
  ∧ Mono.gridHeight s' = Mono.gridHeight s
  ∧ (Mono.isDrawing s = false → s' = s)
  ∧ (Mono.isDrawing s = true →
     Mono.lastActivePixel s' = Some p
     ∧ Mono.pixels s'
       = fold_left
           (λ next c,
              Mono.paintCell (Mono.gridWidth s) (Mono.gridHeight s)
                (MonoUI.effectiveTool e (Mono.tool s)) c.1 c.2 next)
           (brushCells (Mono.brushSize s) [p]) (Mono.pixels s)).
Proof.
  intros s m p v' s'. subst s' v' p. unfold MonoUI.handlePointerMove, moveCell.
  fold s. fold m.
  destruct (getPixelCoords (Some rect) m (Pointer.clientX e)
              (Pointer.clientY e)) as [x y]. cbn [fst snd].
  set (p := match MonoUI.strokeOrigin v with
            | Some origin =>
                if Mono.isDrawing s && Pointer.shiftKey e
                then orthogonalLock origin x y else (x, y)
            | None => (x, y)
            end).
  destruct p as [px py] eqn:Ep. cbn [fst snd].
  destruct (Mono.isDrawing s) eqn:Ed; cbn [negb];
    cbn [MonoUI.editor MonoUI.setEditor MonoUI.setCursor MonoUI.strokeOrigin
         MonoUI.cursorX MonoUI.cursorY].
  - split_and!; try done.
    intros _. split; [done|].
    change (Mono.pixels (Mono.setLastActivePixel _ ?t)) with (Mono.pixels t).
    by rewrite mono_updatePixels_pixels.
  - split_and!; done.
Qed.

Lemma orthogonalLock_onCross (origin : Cell) (x y : Z) :
  onCross origin (orthogonalLock origin x y).
Proof.
  unfold orthogonalLock, onCross. destruct (_ <? _); cbn; [by right|by left].
Qed.

Lemma mono_paint_or_erase (W H size : Z) (a : Mono.Tool) (p : Cell)
    (prev : list Cell) (c : Cell) :
  (c ∈ fold_left (λ next c, Mono.paintCell W H a c.1 c.2 next)
         (brushCells size [p]) prev
   ↔ c ∈ prev)
  ∨ covered W H size [p] c.
Proof.
  rewrite covered_brushCells.
  destruct (decide (c ∈ brushCells size [p] ∧ inGrid W H c)) as [Hc|Hc];
    [by right|left].
  destruct a.
  - rewrite mono_paint_cells. tauto.
  - rewrite mono_erase_cells. tauto.
Qed.

(** X8. While Shift is held during a drag, the monochrome editor only touches
    cells in the brush squares of cells on the row or the column of the cell
    where the stroke started. *)
Theorem mono_shift_drag_locked (rect : Rect) (moves : list Pointer.Event)
    (v : MonoUI.View) (origin : Cell) :
  MonoUI.strokeOrigin v = Some origin →
  Mono.isDrawing (MonoUI.editor v) = true →
  Forall (λ e, Pointer.shiftKey e = true) moves →
  let s := MonoUI.editor v in
  let s' :=
    MonoUI.editor
      (fold_left (λ v e, MonoUI.handlePointerMove (Some rect) e v) moves v) in
  (∀ c, (c ∈ Mono.pixels s' ↔ c ∈ Mono.pixels s)
        ∨ ∃ p, onCross origin p
               ∧ covered (Mono.gridWidth s) (Mono.gridHeight s)
                   (Mono.brushSize s) [p] c)
  ∧ (moves ≠ [] →
     ∃ p, Mono.lastActivePixel s' = Some p ∧ onCross origin p).
Proof.
  intros Ho Hd Hshift. revert v Ho Hd.
  induction Hshift as [|e moves He Hmoves IH]; intros v Ho Hd s s'.
  { split; [by left|done]. }
  subst s'. cbn [fold_left].
  destruct (mono_handlePointerMove_step rect e v)
    as (Ho1 & _ & _ & Hd1 & _ & _ & Hb1 & _ & Hw1 & Hh1 & _ & Hdraw).
  cbn zeta in Ho1, Hd1, Hb1, Hw1, Hh1, Hdraw. fold s in Hd1, Hb1, Hw1, Hh1, Hdraw.
  destruct (Hdraw Hd) as [Hlast Hpix]. clear Hdraw.
  set (v1 := MonoUI.handlePointerMove (Some rect) e v) in *.
  assert (onCross origin
            (moveCell (Some rect) (Render.metrics s) (Mono.isDrawing s)
               (MonoUI.strokeOrigin v) e)) as Hcross.
  { unfold moveCell. fold s in Hd. rewrite Ho, Hd, He. cbn [andb].
    apply orthogonalLock_onCross. }
  set (p := moveCell (Some rect) (Render.metrics s) (Mono.isDrawing s)
              (MonoUI.strokeOrigin v) e) in *.
  destruct (IH v1) as [IHpix IHlast];
    [by rewrite Ho1|by rewrite Hd1|].
  cbn zeta in IHpix, IHlast. rewrite Hw1, Hh1, Hb1 in IHpix.
  split.
  - intros c. destruct (IHpix c) as [Hsame|Hcov]; [|by right].
    rewrite Hsame, Hpix.
    destruct (mono_paint_or_erase (Mono.gridWidth s) (Mono.gridHeight s)
                (Mono.brushSize s) (MonoUI.effectiveTool e (Mono.tool s))
                p (Mono.pixels s) c) as [?|?]; [by left|right].
    by exists p.
  - intros _. destruct moves as [|e' moves']; [by exists p|].
    by apply IHlast.
Qed.

Lemma mono_shift_drag_locked_witness :
  let v :=
    MonoUI.handlePointerDown (Some (mkRect 0 0))
      (Pointer.mkEvent 50 50 false false false false) MonoUI.initial in
  let s' :=
    MonoUI.editor
      (fold_left (λ v e, MonoUI.handlePointerMove (Some (mkRect 0 0)) e v)
         [Pointer.mkEvent 120 70 true false false false] v) in
  ∃ p, Mono.lastActivePixel s' = Some p ∧ onCross (2, 2) p.
Proof.
  intros v s'.
  apply (mono_shift_drag_locked (mkRect 0 0)
           [Pointer.mkEvent 120 70 true false false false] v (2, 2));
    [reflexivity|reflexivity|by repeat constructor|done].
Defined.
(** ** A stroke is one step of the history *)

Lemma last_slice_last {A} (n : nat) (h : list A) (g : A) :
  (0 < n)%nat → last (JS.slice_last n (h ++ [g])) = Some g.
Proof.
  intros Hn. unfold JS.slice_last. rewrite length_app. cbn [length].
  rewrite drop_app_le by lia. apply last_snoc.
Qed.

Lemma same_elements_spec {K} `{EqDecision K} (a b : list K) :
  InsOrd.same_elements a b = true
  ↔ length a = length b ∧ ∀ x, x ∈ a → x ∈ b.
Proof.
  unfold InsOrd.same_elements, InsOrd.has.
  rewrite andb_true_iff, bool_decide_eq_true, forallb_forall.
  split; intros [Hlen Hall]; (split; [done|]).
  - intros x Hx. apply list_elem_of_In in Hx.
    by apply Hall, bool_decide_eq_true in Hx.
  - intros x Hx. apply bool_decide_eq_true, Hall. by apply list_elem_of_In.
Qed.

Lemma same_elements_NoDup {K} `{EqDecision K} (a b : list K) :
  NoDup a → InsOrd.same_elements a b = true → ∀ x, x ∈ a ↔ x ∈ b.
Proof.
  intros Ha [Hlen Hsub]%same_elements_spec x.
  assert (a ≡ₚ b) as Hperm.
  { apply submseteq_length_Permutation; [|lia].
    by apply NoDup_submseteq. }
  by rewrite Hperm.
Qed.

(** What [saveToHistory] leaves on top of the monochrome history: the
    current grid, or an older snapshot of the same cells. *)
Lemma mono_saveToHistory_last (s : Mono.State) :
  ∃ snapshot,
    last (Mono.history (Mono.saveToHistory s)) = Some snapshot
    ∧ InsOrd.same_elements snapshot (Mono.pixels s) = true
    ∧ (snapshot = Mono.pixels s ∨ last (Mono.history s) = Some snapshot)
    ∧ (Mono.history s = [] → snapshot = Mono.pixels s).
Proof.
  unfold Mono.saveToHistory.
  destruct (last (Mono.history s)) as [lastState|] eqn:El.
  - destruct (InsOrd.same_elements lastState (Mono.pixels s)) eqn:Es.
    + exists lastState. split_and!; [done|done|by right|].
      intros Hnil. by rewrite Hnil in El.
    + exists (Mono.pixels s). cbn. rewrite last_slice_last by lia.
      split_and!; [done|apply same_elements_refl|by left|done].
  - exists (Mono.pixels s). cbn. rewrite last_slice_last by lia.
    split_and!; [done|apply same_elements_refl|by left|done].
Qed.

Lemma colored_saveToHistory_last (s : Colored.State) :
  last (Colored.history (Colored.saveToHistory s))
  = Some (Colored.pixelMap s).
Proof.
  unfold Colored.saveToHistory.
  destruct (last (Colored.history s)) as [lastState|] eqn:El.
  - destruct (bool_decide (length lastState = length (Colored.pixelMap s))
              && bool_decide (length lastState = 0%nat)) eqn:Es.
    + apply andb_true_iff in Es as [H1%bool_decide_eq_true H2%bool_decide_eq_true].
      rewrite El. f_equal.
      destruct lastState; [|done]. by destruct (Colored.pixelMap s).
    + cbn. by rewrite last_slice_last by lia.
  - cbn. by rewrite last_slice_last by lia.
Qed.

Lemma mono_moves_history (canvas : option Rect) (moves : list Pointer.Event)
    (v : MonoUI.View) :
  let v' := fold_left (λ v e, MonoUI.handlePointerMove canvas e v) moves v in
  Mono.history (MonoUI.editor v') = Mono.history (MonoUI.editor v)
  ∧ Mono.redoStack (MonoUI.editor v') = Mono.redoStack (MonoUI.editor v).
Proof.
  revert v. induction moves as [|e moves IH]; intros v; [done|].
  cbn [fold_left]. destruct (IH (MonoUI.handlePointerMove canvas e v))
    as [-> ->].
  destruct canvas as [rect|]; [|done].
  by destruct (mono_handlePointerMove_step rect e v)
    as (_ & _ & _ & _ & -> & -> & _).
Qed.

(** X9. One undo after a stroke on the monochrome canvas gives back the cells
    of the grid as it was when the pointer went down, and one redo after
    that gives back the result of the stroke. *)
Theorem mono_stroke_then_undo (canvas : option Rect) (down : Pointer.Event)
    (moves : list Pointer.Event) (v : MonoUI.View) :
  let before := MonoUI.editor v in
  let after := MonoUI.editor (monoPointerStroke canvas down moves v) in
  let undone := Mono.handleUndo after in
  length (Mono.pixels undone) = length (Mono.pixels before)
  ∧ (∀ c, c ∈ Mono.pixels undone → c ∈ Mono.pixels before)
  ∧ (ok3 NoDup (monoH before) →
     ∀ c, c ∈ Mono.pixels undone ↔ c ∈ Mono.pixels before)
  ∧ (Mono.history before = [] → Mono.pixels undone = Mono.pixels before)
  ∧ Mono.pixels (Mono.handleRedo undone) = Mono.pixels after
  ∧ Mono.lastActivePixel undone = None.
Proof.
  intros before after undone.
  destruct (mono_saveToHistory_last before)
    as (snapshot & Hlast & Hsame & Hfrom & Hnil).
  assert (Mono.history after = Mono.history (Mono.saveToHistory before)
          ∧ Mono.redoStack after = Mono.redoStack (Mono.saveToHistory before))
    as [Hh Hr].
  { subst after. unfold monoPointerStroke, MonoUI.handlePointerUp.
    cbn [MonoUI.editor MonoUI.setEditor MonoUI.setStrokeOrigin].
    change (Mono.history (MonoUI.setIsDrawing _ ?t)) with (Mono.history t).
    change (Mono.redoStack (MonoUI.setIsDrawing _ ?t)) with (Mono.redoStack t).
    destruct (mono_moves_history canvas moves
                (MonoUI.handlePointerDown canvas down v)) as [-> ->].
    by destruct (mono_handlePointerDown_pixels canvas down v)
      as (_ & _ & _ & _ & -> & ->). }
  assert (undone
          = Mono.setLastActivePixel None
              (Mono.setHistory (JS.slice_init (Mono.history after))
                 (Mono.setPixels snapshot
                    (Mono.setRedoStack
                       (Mono.pixels after :: Mono.redoStack after) after))))
    as Hundone.
  { subst undone. unfold Mono.handleUndo. by rewrite Hh, Hlast. }
  apply same_elements_spec in Hsame as Hspec. destruct Hspec as [Hlen Hsub].
  rewrite Hundone. cbn [Mono.pixels Mono.setPixels Mono.setHistory
    Mono.setLastActivePixel Mono.setRedoStack Mono.lastActivePixel].
  split_and!; try done.
  intros (Hpix & Hhist & _). cbn in Hpix, Hhist.
  apply same_elements_NoDup; [|done].
  destruct Hfrom as [->|Hfrom]; [done|].
  apply last_Some in Hfrom as [h' Hfrom]. rewrite Hfrom in Hhist.
  apply Forall_app in Hhist as [_ Hl]. by apply Forall_inv in Hl.
Qed.

Lemma mono_stroke_then_undo_witness :
  let v :=
    MonoUI.handlePointerUp
      (MonoUI.handlePointerDown (Some (mkRect 0 0))
         (Pointer.mkEvent 50 50 false false false false) MonoUI.initial) in
  let after :=
    MonoUI.editor
      (monoPointerStroke (Some (mkRect 0 0))
         (Pointer.mkEvent 90 50 false false false false)
         [Pointer.mkEvent 120 50 false false false false] v) in
  (2, 2) ∈ Mono.pixels (Mono.handleUndo after)
  ↔ (2, 2) ∈ Mono.pixels (MonoUI.editor v).
Proof.
  intros v after.
  pose proof (mono_stroke_then_undo (Some (mkRect 0 0))
                (Pointer.mkEvent 90 50 false false false false)
                [Pointer.mkEvent 120 50 false false false false] v)
    as (_ & _ & H & _).
  apply (λ Hok, H Hok (2, 2)). split_and!.
  - apply (NoDup_singleton (2, 2)).
  - apply (Forall_singleton NoDup []). constructor.
  - constructor.
Defined.
(** What one pointer move does to the colored editor. *)
Lemma colored_handlePointerMove_step (canvas : option Rect)
    (e : Pointer.Event) (v : ColoredUI.View) :
  let s := ColoredUI.editor v in
  let m := ColoredUI.metrics s in
  let p := moveCell canvas m (Colored.isDrawing s) (ColoredUI.strokeOrigin v)
             e in
  let eff := ColoredUI.effectiveTool e (Colored.tool s) in
  let v' := ColoredUI.handlePointerMove canvas e v in
  let s' := ColoredUI.editor v' in
  ColoredUI.strokeOrigin v' = ColoredUI.strokeOrigin v
  ∧ ColoredUI.cursorX v' = (inject_Z p.1 * visualPixelWidth m)%Q
  ∧ ColoredUI.cursorY v' = (inject_Z p.2 * visualPixelHeight m)%Q
  ∧ Colored.isDrawing s' = Colored.isDrawing s
  ∧ Colored.history s' = Colored.history s
  ∧ Colored.redoStack s' = Colored.redoStack s
  ∧ Colored.brushSize s' = Colored.brushSize s
  ∧ Colored.tool s' = Colored.tool s
  ∧ Colored.currentColor s' = Colored.currentColor s
  ∧ Colored.gridWidth s' = Colored.gridWidth s
  ∧ Colored.gridHeight s' = Colored.gridHeight s
  ∧ (Colored.isDrawing s = false ∨ eff = Colored.eyedropper → s' = s)
  ∧ (Colored.isDrawing s = true → eff ≠ Colored.eyedropper →
     ColoredUI.lastActivePixel v' = Some p
     ∧ Colored.pixelMap s'
       = fold_left
           (λ next c,
              Colored.paintCell (Colored.gridWidth s) (Colored.gridHeight s)
                eff (Colored.currentColor s) c.1 c.2 next)
           (brushCells (Colored.brushSize s) [p]) (Colored.pixelMap s)).
Proof.
  intros s m p eff v' s'. subst s' v' p.
  unfold ColoredUI.handlePointerMove, moveCell. fold s. fold m. fold eff.
  destruct (getPixelCoords canvas m (Pointer.clientX e)
              (Pointer.clientY e)) as [x y]. cbn [fst snd].
  set (p := match ColoredUI.strokeOrigin v with
            | Some origin =>
                if Colored.isDrawing s && Pointer.shiftKey e
                then orthogonalLock origin x y else (x, y)
            | None => (x, y)
            end).
  destruct p as [px py] eqn:Ep. cbn [fst snd].
  destruct (Colored.isDrawing s) eqn:Ed; cbn [negb].
  - destruct (decide (eff = Colored.eyedropper)) as [He|He].
    + rewrite bool_decide_eq_true_2 by done. split_and!; done.
    + rewrite bool_decide_eq_false_2 by done.
      cbn [ColoredUI.editor ColoredUI.setEditor ColoredUI.setCursor
           ColoredUI.strokeOrigin ColoredUI.cursorX ColoredUI.cursorY
           ColoredUI.setLastActivePixel ColoredUI.lastActivePixel].
      split_and!; try done.
      * by intros [?|?].
      * intros _ _. split; [done|].
        by rewrite colored_updatePixels_pixelMap.
  - split_and!; done.
Qed.

Lemma colored_moves_history (canvas : option Rect)
    (moves : list Pointer.Event) (v : ColoredUI.View) :
  let v' :=
    fold_left (λ v e, ColoredUI.handlePointerMove canvas e v) moves v in
  Colored.history (ColoredUI.editor v') = Colored.history (ColoredUI.editor v)
  ∧ Colored.redoStack (ColoredUI.editor v')
    = Colored.redoStack (ColoredUI.editor v).
Proof.
  revert v. induction moves as [|e moves IH]; intros v; [done|].
  cbn [fold_left]. destruct (IH (ColoredUI.handlePointerMove canvas e v))
    as [-> ->].
  by destruct (colored_handlePointerMove_step canvas e v)
    as (_ & _ & _ & _ & -> & -> & _).
Qed.

(** X10. One undo after a stroke on the colored canvas gives back the grid,
    cells and colors, as it was when the pointer went down, and one redo
    after that gives back the result of the stroke. *)
Theorem colored_stroke_then_undo (canvas : option Rect)
    (down : Pointer.Event) (moves : list Pointer.Event)
    (v : ColoredUI.View) :
  Colored.tool (ColoredUI.editor v) ≠ Colored.eyedropper →
  Pointer.altKey down = false →
  let before := ColoredUI.editor v in
  let after :=
    ColoredUI.editor (coloredPointerStroke canvas down moves v) in
  let undone := Colored.handleUndo after in
  Colored.pixelMap undone = Colored.pixelMap before
  ∧ Colored.pixelMap (Colored.handleRedo undone) = Colored.pixelMap after.
Proof.
  intros Htool Halt before after undone.
  pose proof (colored_saveToHistory_last before) as Hlast.
  assert (Colored.history after
          = Colored.history (Colored.saveToHistory before)) as Hh.
  { subst after. unfold coloredPointerStroke, ColoredUI.onPointerUp.
    cbn [ColoredUI.editor ColoredUI.setEditor].
    change (Colored.history (ColoredUI.setIsDrawing _ ?t))
      with (Colored.history t).
    destruct (colored_moves_history canvas moves
                (ColoredUI.handlePointerDown canvas down v)) as [-> _].
    by destruct (colored_handlePointerDown_pixelMap canvas down v Htool Halt)
      as (_ & _ & _ & _ & -> & _). }
  assert (undone
          = Colored.setHistory (JS.slice_init (Colored.history after))
              (Colored.setPixelMap (Colored.pixelMap before)
                 (Colored.setRedoStack
                    (Colored.pixelMap after :: Colored.redoStack after)
                    after))) as ->.
  { subst undone. unfold Colored.handleUndo. by rewrite Hh, Hlast. }
  done.
Qed.

Lemma colored_stroke_then_undo_witness :
  let v :=
    ColoredUI.onPointerUp
      (ColoredUI.handlePointerDown (Some (mkRect 0 0))
         (Pointer.mkEvent 50 50 false false false false)
         ColoredUI.initial) in
  let after :=
    ColoredUI.editor
      (coloredPointerStroke (Some (mkRect 0 0))
         (Pointer.mkEvent 90 50 false true false false)
         [Pointer.mkEvent 50 50 false true false false] v) in
  Colored.pixelMap (Colored.handleUndo after)
  = Colored.pixelMap (ColoredUI.editor v).
Proof.
  intros v after.
  apply (colored_stroke_then_undo (Some (mkRect 0 0))
           (Pointer.mkEvent 90 50 false true false false)
           [Pointer.mkEvent 50 50 false true false false] v);
    [done|reflexivity].
Defined.
(** ** The eyedropper *)

Lemma pickColor_spec (x y : Z) (s : Colored.State) :
  let s' := ColoredUI.pickColor x y s in
  Colored.pixelMap s' = Colored.pixelMap s
  ∧ Colored.history s' = Colored.history s
  ∧ Colored.redoStack s' = Colored.redoStack s
  ∧ Colored.isDrawing s' = Colored.isDrawing s
  ∧ Colored.brushSize s' = Colored.brushSize s
  ∧ Colored.gridWidth s' = Colored.gridWidth s
  ∧ Colored.gridHeight s' = Colored.gridHeight s
  ∧ ColoredUI.metrics s' = ColoredUI.metrics s
  ∧ (InsOrd.mget (x, y) (Colored.pixelMap s) = None → s' = s)
  ∧ (∀ color,
       InsOrd.mget (x, y) (Colored.pixelMap s) = Some color → color ≠ EmptyString →
       Colored.currentColor s' = color ∧ Colored.tool s' = Colored.brush).
Proof.
  unfold ColoredUI.pickColor.
  destruct (InsOrd.mget (x, y) (Colored.pixelMap s)) as [color|];
    [|by split_and!].
  destruct (decide (color = EmptyString)) as [Hempty|Hcolor].
  - rewrite bool_decide_eq_false_2 by (by intros ?). split_and!; try done.
    by intros ? [= <-] ?.
  - rewrite bool_decide_eq_true_2 by done. split_and!; try done.
    by intros ? [= <-] ?.
Qed.

(** X11. A click with the eyedropper, or with Alt held, never paints and never
    touches the history.  On a painted cell it takes the color of the cell
    and selects the brush, so that the next plain click paints that very
    color; on an empty cell it does nothing. *)
Theorem colored_eyedropper_picks (canvas : option Rect) (e : Pointer.Event)
    (v : ColoredUI.View) :
  Colored.tool (ColoredUI.editor v) = Colored.eyedropper
  ∨ Pointer.altKey e = true →
  let s := ColoredUI.editor v in
  let target :=
    getPixelCoords canvas (ColoredUI.metrics s) (Pointer.clientX e)
      (Pointer.clientY e) in
  let v' := ColoredUI.handlePointerDown canvas e v in
  let s' := ColoredUI.editor v' in
  Colored.pixelMap s' = Colored.pixelMap s
  ∧ Colored.history s' = Colored.history s
  ∧ Colored.redoStack s' = Colored.redoStack s
  ∧ Colored.isDrawing s' = Colored.isDrawing s
  ∧ ColoredUI.lastActivePixel v' = ColoredUI.lastActivePixel v
  ∧ (InsOrd.mget target (Colored.pixelMap s) = None → v' = v)
  ∧ (∀ color,
       InsOrd.mget target (Colored.pixelMap s) = Some color → color ≠ EmptyString →
       Colored.currentColor s' = color ∧ Colored.tool s' = Colored.brush
       ∧ ∀ (canvas2 : option Rect) (e2 : Pointer.Event),
           Pointer.altKey e2 = false → Pointer.shiftKey e2 = false →
           Pointer.metaKey e2 = false → Pointer.ctrlKey e2 = false →
           0 < Colored.brushSize s →
           let target2 :=
             getPixelCoords canvas2 (ColoredUI.metrics s)
               (Pointer.clientX e2) (Pointer.clientY e2) in
           inGrid (Colored.gridWidth s) (Colored.gridHeight s) target2 →
           InsOrd.mget target2
             (Colored.pixelMap
                (ColoredUI.editor (ColoredUI.handlePointerDown canvas2 e2 v')))
           = Some color).
Proof.
  intros Hpick s target v' s'.
  assert (v' = ColoredUI.setEditor (ColoredUI.pickColor target.1 target.2 s) v)
    as Hv'.
  { subst v'. unfold ColoredUI.handlePointerDown. fold s. fold target.
    destruct target as [x y]. cbn [fst snd].
    destruct Hpick as [Ht|Ha].
    - fold s in Ht. by rewrite Ht.
    - by rewrite Ha, orb_true_r. }
  assert (s' = ColoredUI.pickColor target.1 target.2 s) as Hs'.
  { subst s'. by rewrite Hv'. }
  destruct (pickColor_spec target.1 target.2 s)
    as (Hp & Hh & Hr & Hd & Hb & Hgw & Hgh & Hm & Hnone & Hsome).
  cbn zeta in Hp, Hh, Hr, Hd, Hb, Hgw, Hgh, Hm, Hnone, Hsome.
  rewrite <- surjective_pairing in Hnone, Hsome.
  rewrite <- Hs' in Hp, Hh, Hr, Hd, Hb, Hgw, Hgh, Hm, Hnone, Hsome.
  split_and!; try done.
  { by rewrite Hv'. }
  { intros Hn. rewrite Hv', <- Hs', (Hnone Hn). by destruct v. }
  intros color Hget Hcolor. destruct (Hsome color Hget Hcolor) as [Hc Ht].
  split_and!; [done|done|].
  intros canvas2 e2 Halt Hshift Hmeta Hctrl Hsize target2 Hin.
  destruct (colored_handlePointerDown_pixelMap canvas2 e2 v') as (Hpix & _);
    [by fold s'; rewrite Ht|done|].
  cbn zeta in Hpix. fold s' in Hpix.
  rewrite Hm in Hpix. fold target2 in Hpix. rewrite Hshift in Hpix.
  cbn [andb] in Hpix.
  assert (match ColoredUI.lastActivePixel v' with
          | Some _ | _ => [target2]
          end = [target2]) as Hpts
    by (by destruct (ColoredUI.lastActivePixel v')).
  rewrite Hpts in Hpix. rewrite Hpix.
  unfold ColoredUI.effectiveTool. rewrite Hmeta, Hctrl. cbn [orb].
  rewrite Ht, Hc, Hgw, Hgh, Hb, Hp.
  apply colored_paint_cells. split; [|done].
  apply (covered_brushCells (Colored.gridWidth s) (Colored.gridHeight s)).
  apply covered_centre; [done| |done]. by apply list_elem_of_singleton.
Qed.

Lemma colored_eyedropper_picks_witness :
  let s :=
    ColoredUI.setTool Colored.eyedropper
      (Colored.setPixelMap [((1, 1), "#FF3B30")] Colored.initial) in
  let v := ColoredUI.setEditor s ColoredUI.initial in
  let e := Pointer.mkEvent 30 30 false false false false in
  Colored.currentColor
    (ColoredUI.editor (ColoredUI.handlePointerDown (Some (mkRect 0 0)) e v))
  = "#FF3B30".
Proof.
  intros s v e.
  pose proof (colored_eyedropper_picks (Some (mkRect 0 0)) e v
                (or_introl eq_refl)) as (_ & _ & _ & _ & _ & _ & H).
  by apply (H "#FF3B30").
Defined.
(** ** Clear, undo and redo *)

(** X12. Clear Canvas empties the monochrome grid at once: nothing is left to
    trace or to export, even before rounding and bridges are recomputed.
    One undo gives back the cells of the grid. *)
Theorem mono_clearCanvas_undo (s : Mono.State) :
  let cleared := MonoUI.clearCanvas s in
  let undone := Mono.handleUndo cleared in
  Mono.pixels cleared = []
  ∧ Mono.findContour cleared = []
  ∧ Render.pathData cleared = []
  ∧ length (Mono.pixels undone) = length (Mono.pixels s)
  ∧ (∀ c, c ∈ Mono.pixels undone → c ∈ Mono.pixels s)
  ∧ (ok3 NoDup (monoH s) → ∀ c, c ∈ Mono.pixels undone ↔ c ∈ Mono.pixels s)
  ∧ (Mono.history s = [] → Mono.pixels undone = Mono.pixels s).
Proof.
  intros cleared undone.
  destruct (mono_saveToHistory_last s)
    as (snapshot & Hlast & Hsame & Hfrom & Hnil).
  assert (Mono.pixels undone = snapshot) as Hundone.
  { subst undone cleared. unfold Mono.handleUndo, MonoUI.clearCanvas.
    cbn [Mono.history Mono.setLastActivePixel Mono.setBridgeMap
         Mono.setBridges Mono.setRoundedCorners Mono.setPixels].
    by rewrite Hlast. }
  apply same_elements_spec in Hsame as Hspec. destruct Hspec as [Hlen Hsub].
  rewrite Hundone. split_and!; try done.
  intros (Hpix & Hhist & _). cbn in Hpix, Hhist.
  apply same_elements_NoDup; [|done].
  destruct Hfrom as [->|Hfrom]; [done|].
  apply last_Some in Hfrom as [h' Hfrom]. rewrite Hfrom in Hhist.
  apply Forall_app in Hhist as [_ Hl]. by apply Forall_inv in Hl.
Qed.

(** X13. Clear Canvas empties the colored grid and resets rounding and bridges;
    one undo gives back the grid, cells and colors. *)
Theorem colored_clearCanvas_undo (s : Colored.State) :
  let cleared := ColoredUI.clearCanvas s in
  Colored.pixelMap cleared = []
  ∧ Colored.findContour cleared = []
  ∧ Colored.roundedCorners cleared = []
  ∧ Colored.bridges cleared = []
  ∧ Colored.bridgeMap cleared = []
  ∧ Colored.pixelMap (Colored.handleUndo cleared) = Colored.pixelMap s.
Proof.
  intros cleared. split_and!; try done.
  subst cleared. unfold Colored.handleUndo, ColoredUI.clearCanvas.
  cbn [Colored.history Colored.setBridgeMap Colored.setBridges
       Colored.setRoundedCorners Colored.setPixelMap].
  by rewrite colored_saveToHistory_last.
Qed.

Lemma undoH_redoH {G} (g : G) (h r : list G) :
  h ≠ [] → redoH (undoH (g, h, r)) = (g, h, r).
Proof.
  intros Hh. destruct (last h) as [p|] eqn:El.
  - apply last_Some in El as [h' ->]. by rewrite undoH_snoc.
  - apply last_None in El. done.
Qed.

Lemma redoH_undoH {G} (g : G) (h r : list G) :
  r ≠ [] → undoH (redoH (g, h, r)) = (g, h, r).
Proof.
  intros Hr. destruct r as [|n r']; [done|]. cbn [redoH].
  by rewrite undoH_snoc.
Qed.


(** ** Snapshots *)

Lemma slice_last_full {A} (n : nat) (l : list A) (x : A) :
  length l = n → (0 < n)%nat → JS.slice_last n (l ++ [x]) = drop 1 l ++ [x].
Proof.
  intros Hlen Hn. unfold JS.slice_last. rewrite length_app. cbn [length].
  replace (length l + 1 - n)%nat with 1%nat by lia.
  rewrite drop_app_le by lia. done.
Qed.

(** X15. [saveToHistory] of the monochrome editor does nothing when the newest
    snapshot already has the cells of the grid.  Otherwise it empties the
    redo stack and stores the grid, keeping the 50 newest snapshots: a full
    history loses its oldest one.  Calling it twice is calling it once. *)
Theorem mono_saveToHistory_snapshot (s : Mono.State) :
  let s' := Mono.saveToHistory s in
  let repeated :=
    ∃ lastState, last (Mono.history s) = Some lastState
                 ∧ InsOrd.same_elements lastState (Mono.pixels s) = true in
  (repeated → s' = s)
  ∧ (¬ repeated →
     Mono.pixels s' = Mono.pixels s
     ∧ Mono.redoStack s' = []
     ∧ last (Mono.history s') = Some (Mono.pixels s)
     ∧ ((length (Mono.history s) < 50)%nat
        → Mono.history s' = Mono.history s ++ [Mono.pixels s])
     ∧ (length (Mono.history s) = 50%nat
        → Mono.history s' = drop 1 (Mono.history s) ++ [Mono.pixels s]))
  ∧ Mono.saveToHistory s' = s'.
Proof.
  intros s' repeated.
  assert (∀ t, last (Mono.history t) = Some (Mono.pixels t) →
               Mono.saveToHistory t = t) as Hskip.
  { intros t Ht. unfold Mono.saveToHistory.
    by rewrite Ht, same_elements_refl. }
  set (pushed := Mono.setRedoStack []
                   (Mono.setHistory
                      (JS.slice_last 50 (Mono.history s ++ [Mono.pixels s]))
                      s)).
  assert (last (Mono.history pushed) = Some (Mono.pixels s)) as Hlast.
  { cbn. by rewrite last_slice_last by lia. }
  assert (s' = s ∧ repeated ∨ s' = pushed ∧ ¬ repeated) as Hcases.
  { subst s' repeated. unfold Mono.saveToHistory. fold pushed.
    destruct (last (Mono.history s)) as [lastState|] eqn:El.
    - destruct (InsOrd.same_elements lastState (Mono.pixels s)) eqn:Es.
      + left. split; [done|]. by exists lastState.
      + right. split; [done|]. intros (l & [= <-] & Hl). congruence.
    - right. split; [done|]. by intros (l & [=] & _). }
  split_and!.
  - intros Hrep. by destruct Hcases as [[? _]|[_ ?]].
  - intros Hnew. destruct Hcases as [[_ ?]|[-> _]]; [done|].
    split_and!; [done|done|done| |].
    + intros Hlt. apply slice_last_short. rewrite length_app. cbn. lia.
    + intros Hlen. apply slice_last_full; [done|lia].
  - destruct Hcases as [[-> Hrep]|[-> _]].
    + unfold Mono.saveToHistory. destruct Hrep as (l & -> & ->). done.
    + by apply Hskip.
Qed.
(** ** Invariants of the monochrome editor *)

Lemma tidy_nil (W H : Z) : tidy W H [].
Proof. split; [constructor|]. intros c Hc. by apply elem_of_nil in Hc. Qed.

(** A concrete grid is checked by evaluation. *)
Lemma tidy_check (W H : Z) (g : list Cell) :
  bool_decide (NoDup g ∧ Forall (inGrid W H) g) = true → tidy W H g.
Proof.
  intros [Hnd Hin]%bool_decide_eq_true. split; [done|].
  by apply Forall_forall.
Qed.

Lemma mono_updatePixels_tidy (points : list Cell) (a : Mono.Tool)
    (s : Mono.State) :
  tidy (Mono.gridWidth s) (Mono.gridHeight s) (Mono.pixels s) →
  tidy (Mono.gridWidth s) (Mono.gridHeight s)
    (Mono.pixels (Mono.updatePixels points a s)).
Proof.
  intros [Hnd Hin]. split; [by apply mono_updatePixels_NoDup|].
  intros c. rewrite mono_updatePixels_pixels. destruct a.
  - rewrite mono_paint_cells. intros [?|[_ ?]]; [by apply Hin|done].
  - rewrite mono_erase_cells. intros [? _]. by apply Hin.
Qed.

Lemma mono_updatePixels_sound (points : list Cell) (a : Mono.Tool)
    (s : Mono.State) :
  monoSound s → monoSound (Mono.updatePixels points a s).
Proof.
  intros [(Hg & Hh & Hr) Hlen]. split; [|done].
  split_and!; [|done|done]. exact (mono_updatePixels_tidy points a s Hg).
Qed.

Lemma length_slice_last {A} (n : nat) (l : list A) :
  (length (JS.slice_last n l) ≤ n)%nat.
Proof. unfold JS.slice_last. rewrite length_drop. lia. Qed.

Lemma mono_saveToHistory_sound (s : Mono.State) :
  monoSound s → monoSound (Mono.saveToHistory s).
Proof.
  intros [Hok Hlen].
  assert (monoSound
            (Mono.setRedoStack []
               (Mono.setHistory
                  (JS.slice_last 50 (Mono.history s ++ [Mono.pixels s])) s)))
    as Hpush.
  { split.
    - apply (ok3_push _ _ _ _ Hok).
    - cbn. pose proof (length_slice_last 50
                         (Mono.history s ++ [Mono.pixels s])). lia. }
  unfold Mono.saveToHistory. destruct (last (Mono.history s)); [|done].
  by destruct (InsOrd.same_elements _ _).
Qed.

Lemma undoH_length {G} (x : G * list G * list G) :
  (length (undoH x).1.2 + length (undoH x).2
   = length x.1.2 + length x.2)%nat.
Proof.
  destruct x as [[g h] r]. cbn [undoH].
  destruct (last h) as [p|] eqn:El; [|done].
  apply last_Some in El as [h' ->]. rewrite slice_init_snoc. cbn.
  rewrite length_app. cbn. lia.
Qed.

Lemma redoH_length {G} (x : G * list G * list G) :
  (length (redoH x).1.2 + length (redoH x).2
   = length x.1.2 + length x.2)%nat.
Proof.
  destruct x as [[g h] [|n r]]; [done|]. cbn. rewrite length_app. cbn. lia.
Qed.

Lemma mono_handleUndo_grid (s : Mono.State) :
  Mono.gridWidth (Mono.handleUndo s) = Mono.gridWidth s
  ∧ Mono.gridHeight (Mono.handleUndo s) = Mono.gridHeight s.
Proof. unfold Mono.handleUndo. by destruct (last _). Qed.

Lemma mono_handleRedo_grid (s : Mono.State) :
  Mono.gridWidth (Mono.handleRedo s) = Mono.gridWidth s
  ∧ Mono.gridHeight (Mono.handleRedo s) = Mono.gridHeight s.
Proof. unfold Mono.handleRedo. by destruct (Mono.redoStack s). Qed.

Lemma mono_handleUndo_sound (s : Mono.State) :
  monoSound s → monoSound (Mono.handleUndo s).
Proof.
  intros [Hok Hlen]. unfold monoSound.
  destruct (mono_handleUndo_grid s) as [-> ->].
  rewrite mono_handleUndo_H. split; [by apply ok3_undoH|].
  pose proof (undoH_length (monoH s)) as H.
  change (Mono.history (Mono.handleUndo s))
    with (monoH (Mono.handleUndo s)).1.2.
  change (Mono.redoStack (Mono.handleUndo s))
    with (monoH (Mono.handleUndo s)).2.
  rewrite mono_handleUndo_H. cbn in H |- *. lia.
Qed.

Lemma mono_handleRedo_sound (s : Mono.State) :
  monoSound s → monoSound (Mono.handleRedo s).
Proof.
  intros [Hok Hlen]. unfold monoSound.
  destruct (mono_handleRedo_grid s) as [-> ->].
  rewrite mono_handleRedo_H. split; [by apply ok3_redoH|].
  pose proof (redoH_length (monoH s)) as H.
  change (Mono.history (Mono.handleRedo s))
    with (monoH (Mono.handleRedo s)).1.2.
  change (Mono.redoStack (Mono.handleRedo s))
    with (monoH (Mono.handleRedo s)).2.
  rewrite mono_handleRedo_H. cbn in H |- *. lia.
Qed.

Lemma mono_saveToHistory_grid (s : Mono.State) :
  Mono.gridWidth (Mono.saveToHistory s) = Mono.gridWidth s
  ∧ Mono.gridHeight (Mono.saveToHistory s) = Mono.gridHeight s.
Proof. by destruct (mono_saveToHistory_frame s) as (_ & _ & _ & -> & -> & _). Qed.

Lemma mono_clearCanvas_sound (s : Mono.State) :
  monoSound s → monoSound (MonoUI.clearCanvas s).
Proof.
  intros Hs. apply mono_saveToHistory_sound in Hs as [(Hg & Hh & Hr) Hlen].
  split; [|done]. split_and!; [apply tidy_nil|done|done].
Qed.

Lemma mono_handlePointerMove_editor (canvas : option Rect)
    (e : Pointer.Event) (v : MonoUI.View) :
  let s := MonoUI.editor v in
  let s' := MonoUI.editor (MonoUI.handlePointerMove canvas e v) in
  s' = s
  ∨ ∃ p t, s' = Mono.setLastActivePixel (Some p) (Mono.updatePixels [p] t s).
Proof.
  intros s s'. subst s'. unfold MonoUI.handlePointerMove. fold s.
  destruct canvas as [rect|]; [|by left].
  destruct (getPixelCoords _ _ _ _) as [x y].
  destruct (match MonoUI.strokeOrigin v with
            | Some origin =>
                if Mono.isDrawing s && Pointer.shiftKey e
                then orthogonalLock origin x y else (x, y)
            | None => (x, y)
            end) as [px py].
  destruct (Mono.isDrawing s); cbn [negb]; [|by left].
  right. by eexists _, _.
Qed.

Lemma mono_setTool_sound (t : Mono.Tool) (s : Mono.State) :
  monoSound s → monoSound (MonoUI.setTool t s).
Proof. done. Qed.

(** Every action keeps the grid size, and keeps a sound editor sound. *)
Lemma monoAct_sound (Math_sin : Q → Q) (a : MonoAction) (v : MonoUI.View) :
  let s := MonoUI.editor v in
  let s' := MonoUI.editor (monoAct Math_sin a v) in
  Mono.gridWidth s' = Mono.gridWidth s
  ∧ Mono.gridHeight s' = Mono.gridHeight s
  ∧ (monoSound s → monoSound s').
Proof.
  intros s s'. subst s'. destruct a; cbn [monoAct MonoUI.editor MonoUI.setEditor
    MonoUI.onPointerEnter MonoUI.onPointerLeave MonoUI.handlePointerUp
    MonoUI.setStrokeOrigin MonoUI.setIsCursorVisible]; fold s; try done.
  - (* pointer down *)
    unfold MonoUI.handlePointerDown. fold s.
    destruct (getPixelCoords _ _ _ _) as [x y].
    cbn [MonoUI.editor MonoUI.setEditor].
    destruct (mono_saveToHistory_grid s) as [Hw Hh].
    set (s1 := MonoUI.setIsDrawing true (Mono.saveToHistory s)).
    assert (monoSound s → monoSound s1) as H1.
    { intros Hs. by apply mono_saveToHistory_sound in Hs. }
    assert (∀ pts t,
      let s2 := Mono.setLastActivePixel (Some (x, y))
                  (Mono.updatePixels pts t s1) in
      Mono.gridWidth s2 = Mono.gridWidth s
      ∧ Mono.gridHeight s2 = Mono.gridHeight s
      ∧ (monoSound s → monoSound s2)) as H2.
    { intros pts t s2. split_and!; [done|done|].
      intros Hs. apply H1 in Hs.
      by apply (mono_updatePixels_sound pts t) in Hs. }
    destruct (Mono.lastActivePixel s); [destruct (_ && _)|]; apply H2.
  - (* pointer move *)
    destruct canvas as [rect|]; [|done].
    destruct (mono_handlePointerMove_editor (Some rect) e v)
      as [->|(p & t & ->)]; [done|].
    split_and!; [done|done|]. intros Hs.
    by apply (mono_updatePixels_sound [p] t) in Hs.
  - (* key down *)
    unfold MonoUI.handleKeyDown. fold s. cbn [MonoUI.editor MonoUI.setEditor].
    set (s1 := if (Keyboard.metaKey e || Keyboard.ctrlKey e)
                  && bool_decide (Keyboard.key e = "z")
               then if Keyboard.shiftKey e then Mono.handleRedo s
                    else Mono.handleUndo s
               else s).
    assert (Mono.gridWidth s1 = Mono.gridWidth s
            ∧ Mono.gridHeight s1 = Mono.gridHeight s
            ∧ (monoSound s → monoSound s1)) as (Hw & Hh & H1).
    { subst s1. destruct (_ && _); [|done].
      destruct (Keyboard.shiftKey e).
      - destruct (mono_handleRedo_grid s) as [-> ->].
        split_and!; [done|done|apply mono_handleRedo_sound].
      - destruct (mono_handleUndo_grid s) as [-> ->].
        split_and!; [done|done|apply mono_handleUndo_sound]. }
    destruct (bool_decide (Keyboard.key e = "b")),
      (bool_decide (Keyboard.key e = "e")); split_and!; try done;
      intros Hs; apply H1 in Hs; done.
  - destruct (mono_handleUndo_grid s) as [-> ->].
    split_and!; [done|done|apply mono_handleUndo_sound].
  - destruct (mono_handleRedo_grid s) as [-> ->].
    split_and!; [done|done|apply mono_handleRedo_sound].
  - split_and!; [apply mono_saveToHistory_grid..|apply mono_clearCanvas_sound].
Qed.

Lemma monoRun_sound (Math_sin : Q → Q) (actions : list MonoAction)
    (v : MonoUI.View) :
  let s := MonoUI.editor v in
  let s' := MonoUI.editor (monoRun Math_sin actions v) in
  Mono.gridWidth s' = Mono.gridWidth s
  ∧ Mono.gridHeight s' = Mono.gridHeight s
  ∧ (monoSound s → monoSound s').
Proof.
  revert v. induction actions as [|a actions IH]; intros v; [done|].
  cbn [monoRun fold_left].
  destruct (monoAct_sound Math_sin a v) as (Hw & Hh & Hs).
  destruct (IH (monoAct Math_sin a v)) as (Hw' & Hh' & Hs').
  cbn zeta in *. unfold monoRun in *. rewrite Hw', Hh', Hw, Hh. auto.
Qed.

Lemma mono_initial_sound : monoSound Mono.initial.
Proof.
  split; [|cbn; lia]. split_and!; [apply tidy_nil|constructor|constructor].
Qed.

(** X16. Whatever the user does to the monochrome editor, short of resizing
    the grid, the grid holds no cell twice and no cell outside its bounds,
    the history and the redo stack hold no more than 50 snapshots together,
    and every traced contour is a closed loop. *)
Theorem mono_run_sound (Math_sin : Q → Q) (actions : list MonoAction)
    (v : MonoUI.View) :
  monoSound (MonoUI.editor v) →
  let s := MonoUI.editor v in
  let s' := MonoUI.editor (monoRun Math_sin actions v) in
  Mono.gridWidth s' = Mono.gridWidth s
  ∧ Mono.gridHeight s' = Mono.gridHeight s
  ∧ NoDup (Mono.pixels s')
  ∧ (∀ c, c ∈ Mono.pixels s' → inGrid (Mono.gridWidth s) (Mono.gridHeight s) c)
  ∧ (length (Mono.history s') + length (Mono.redoStack s') ≤ 50)%nat
  ∧ Forall wellFormed (Mono.findContour s')
  ∧ monoSound s'.
Proof.
  intros Hs s s'. destruct (monoRun_sound Math_sin actions v) as (Hw & Hh & H).
  cbn zeta in Hw, Hh, H. fold s s' in Hw, Hh, H.
  destruct (H Hs) as [([Hnd Hin] & Hhist & Hredo) Hlen].
  unfold monoH in Hnd, Hin. cbn [fst snd] in Hnd, Hin.
  split_and!; try done.
  - by rewrite <- Hw, <- Hh.
  - apply (chainEdges_wellFormed _ mono_meets_eq).
    by apply mono_boundaryEdges_balanced.
Qed.

Lemma mono_run_sound_witness :
  let s' := MonoUI.editor (monoRun (λ q, q) monoSessionActions monoSession) in
  Forall wellFormed (Mono.findContour s')
  ∧ length <$> Mono.findContour s' = [4%nat; 4%nat; 4%nat; 10%nat].
Proof.
  intros s'. split; [|by vm_compute].
  apply (mono_run_sound (λ q, q) monoSessionActions monoSession).
  split; [|vm_compute; lia]. unfold ok3, monoH. cbn [fst snd].
  split_and!.
  - apply tidy_check. by vm_compute.
  - apply Forall_singleton, tidy_check. by vm_compute.
  - apply Forall_nil_2.
Defined.

(** ** Invariants of the colored editor *)

Lemma colored_paintCell_tidy (W H : Z) (a : Colored.Tool) (color : string)
    (px py : Z) (next : list (Cell * string)) :
  tidy W H next.*1 → tidy W H (Colored.paintCell W H a color px py next).*1.
Proof.
  intros [Hnd Hin]. split; [by apply colored_paintCell_keys|].
  unfold Colored.paintCell.
  destruct (_ && _) eqn:Eg; [|done]. apply inGrid_test in Eg.
  destruct a; [| |done].
  - rewrite mset_keys. case_decide; [done|].
    intros c Hc. apply elem_of_app in Hc as [?|Hc]; [by apply Hin|].
    by apply list_elem_of_singleton in Hc as ->.
  - rewrite mdelete_keys. intros c Hc.
    apply list_elem_of_filter in Hc as [_ ?]. by apply Hin.
Qed.

Lemma colored_updatePixels_sound (points : list Cell) (a : Colored.Tool)
    (s : Colored.State) :
  coloredSound s → coloredSound (Colored.updatePixels points a s).
Proof.
  intros [(Hg & Hh & Hr) Hlen]. split; [|done].
  split_and!; [|done|done].
  cbn [coloredH fst]. rewrite colored_updatePixels_pixelMap.
  change (Colored.gridWidth (Colored.updatePixels points a s))
    with (Colored.gridWidth s).
  change (Colored.gridHeight (Colored.updatePixels points a s))
    with (Colored.gridHeight s).
  cbn in Hg. revert Hg.
  generalize (brushCells (Colored.brushSize s) points), (Colored.pixelMap s).
  intros cells. induction cells as [|c cells IH]; intros prev Hp; [done|].
  cbn. apply IH. by apply colored_paintCell_tidy.
Qed.

Lemma colored_saveToHistory_sound (s : Colored.State) :
  coloredSound s → coloredSound (Colored.saveToHistory s).
Proof.
  intros [Hok Hlen].
  assert (coloredSound
            (Colored.setRedoStack []
               (Colored.setHistory
                  (JS.slice_last 50
                     (Colored.history s ++ [Colored.pixelMap s])) s)))
    as Hpush.
  { split.
    - apply (ok3_push _ _ _ _ Hok).
    - cbn. pose proof (length_slice_last 50
                         (Colored.history s ++ [Colored.pixelMap s])). lia. }
  unfold Colored.saveToHistory. destruct (last (Colored.history s)); [|done].
  by destruct (_ && _).
Qed.

Lemma colored_handleUndo_grid (s : Colored.State) :
  Colored.gridWidth (Colored.handleUndo s) = Colored.gridWidth s
  ∧ Colored.gridHeight (Colored.handleUndo s) = Colored.gridHeight s.
Proof. unfold Colored.handleUndo. by destruct (last _). Qed.

Lemma colored_handleRedo_grid (s : Colored.State) :
  Colored.gridWidth (Colored.handleRedo s) = Colored.gridWidth s
  ∧ Colored.gridHeight (Colored.handleRedo s) = Colored.gridHeight s.
Proof. unfold Colored.handleRedo. by destruct (Colored.redoStack s). Qed.

Lemma colored_handleUndo_sound (s : Colored.State) :
  coloredSound s → coloredSound (Colored.handleUndo s).
Proof.
  intros [Hok Hlen]. unfold coloredSound.
  destruct (colored_handleUndo_grid s) as [-> ->].
  rewrite colored_handleUndo_H. split; [by apply ok3_undoH|].
  pose proof (undoH_length (coloredH s)) as H.
  change (Colored.history (Colored.handleUndo s))
    with (coloredH (Colored.handleUndo s)).1.2.
  change (Colored.redoStack (Colored.handleUndo s))
    with (coloredH (Colored.handleUndo s)).2.
  rewrite colored_handleUndo_H. cbn in H |- *. lia.
Qed.

Lemma colored_handleRedo_sound (s : Colored.State) :
  coloredSound s → coloredSound (Colored.handleRedo s).
Proof.
  intros [Hok Hlen]. unfold coloredSound.
  destruct (colored_handleRedo_grid s) as [-> ->].
  rewrite colored_handleRedo_H. split; [by apply ok3_redoH|].
  pose proof (redoH_length (coloredH s)) as H.
  change (Colored.history (Colored.handleRedo s))
    with (coloredH (Colored.handleRedo s)).1.2.
  change (Colored.redoStack (Colored.handleRedo s))
    with (coloredH (Colored.handleRedo s)).2.
  rewrite colored_handleRedo_H. cbn in H |- *. lia.
Qed.

Lemma colored_saveToHistory_grid (s : Colored.State) :
  Colored.gridWidth (Colored.saveToHistory s) = Colored.gridWidth s
  ∧ Colored.gridHeight (Colored.saveToHistory s) = Colored.gridHeight s.
Proof.
  by destruct (colored_saveToHistory_frame s) as (_ & _ & _ & _ & -> & -> & _).
Qed.

Lemma colored_clearCanvas_sound (s : Colored.State) :
  coloredSound s → coloredSound (ColoredUI.clearCanvas s).
Proof.
  intros Hs. apply colored_saveToHistory_sound in Hs as [(Hg & Hh & Hr) Hlen].
  split; [|done]. split_and!; [apply tidy_nil|done|done].
Qed.

Lemma colored_pickColor_sound (x y : Z) (s : Colored.State) :
  Colored.gridWidth (ColoredUI.pickColor x y s) = Colored.gridWidth s
  ∧ Colored.gridHeight (ColoredUI.pickColor x y s) = Colored.gridHeight s
  ∧ (coloredSound s → coloredSound (ColoredUI.pickColor x y s)).
Proof.
  unfold ColoredUI.pickColor. destruct (InsOrd.mget _ _); [|done].
  by destruct (bool_decide _).
Qed.

Lemma colored_handlePointerMove_editor (canvas : option Rect)
    (e : Pointer.Event) (v : ColoredUI.View) :
  let s := ColoredUI.editor v in
  let s' := ColoredUI.editor (ColoredUI.handlePointerMove canvas e v) in
  s' = s ∨ ∃ p t, s' = Colored.updatePixels [p] t s.
Proof.
  intros s s'. subst s'. unfold ColoredUI.handlePointerMove. fold s.
  destruct (getPixelCoords _ _ _ _) as [x y].
  destruct (match ColoredUI.strokeOrigin v with
            | Some origin =>
                if Colored.isDrawing s && Pointer.shiftKey e
                then orthogonalLock origin x y else (x, y)
            | None => (x, y)
            end) as [px py].
  destruct (Colored.isDrawing s); cbn [negb]; [|by left].
  destruct (bool_decide _); [by left|].
  right. by eexists _, _.
Qed.

(** Every action keeps the grid size, and keeps a sound editor sound. *)
Lemma coloredAct_sound (Math_sin : Q → Q) (a : ColoredAction)
    (v : ColoredUI.View) :
  let s := ColoredUI.editor v in
  let s' := ColoredUI.editor (coloredAct Math_sin a v) in
  Colored.gridWidth s' = Colored.gridWidth s
  ∧ Colored.gridHeight s' = Colored.gridHeight s
  ∧ (coloredSound s → coloredSound s').
Proof.
  intros s s'. subst s'.
  destruct a; cbn [coloredAct ColoredUI.editor ColoredUI.setEditor
    ColoredUI.onPointerEnter ColoredUI.onPointerLeave ColoredUI.onPointerUp
    ColoredUI.setIsCursorVisible]; fold s; try done.
  - (* pointer down *)
    unfold ColoredUI.handlePointerDown. fold s.
    destruct (getPixelCoords _ _ _ _) as [x y].
    destruct (_ || _).
    { cbn [ColoredUI.editor ColoredUI.setEditor].
      apply colored_pickColor_sound. }
    cbn [ColoredUI.editor ColoredUI.setEditor ColoredUI.setLastActivePixel
         ColoredUI.setStrokeOrigin].
    set (s1 := ColoredUI.setIsDrawing true (Colored.saveToHistory s)).
    assert (coloredSound s → coloredSound s1) as H1.
    { intros Hs. by apply colored_saveToHistory_sound in Hs. }
    destruct (colored_saveToHistory_grid s) as [Hw Hh].
    assert (∀ pts t,
      let s2 := Colored.updatePixels pts t s1 in
      Colored.gridWidth s2 = Colored.gridWidth s
      ∧ Colored.gridHeight s2 = Colored.gridHeight s
      ∧ (coloredSound s → coloredSound s2)) as H2.
    { intros pts t s2. split_and!; [done|done|].
      intros Hs. apply H1 in Hs.
      by apply (colored_updatePixels_sound pts t) in Hs. }
    destruct (ColoredUI.lastActivePixel v); [destruct (_ && _)|]; apply H2.
  - (* pointer move *)
    destruct (colored_handlePointerMove_editor canvas e v)
      as [->|(p & t & ->)]; [done|].
    split_and!; [done|done|]. intros Hs.
    by apply (colored_updatePixels_sound [p] t) in Hs.
  - (* key *)
    unfold ColoredUI.onKey. fold s.
    cbn [ColoredUI.editor ColoredUI.setEditor].
    set (s1 := if (Keyboard.metaKey e || Keyboard.ctrlKey e)
                  && bool_decide (Keyboard.key e = "z")
               then if Keyboard.shiftKey e then Colored.handleRedo s
                    else Colored.handleUndo s
               else s).
    assert (Colored.gridWidth s1 = Colored.gridWidth s
            ∧ Colored.gridHeight s1 = Colored.gridHeight s
            ∧ (coloredSound s → coloredSound s1)) as (Hw & Hh & H1).
    { subst s1. destruct (_ && _); [|done].
      destruct (Keyboard.shiftKey e).
      - destruct (colored_handleRedo_grid s) as [-> ->].
        split_and!; [done|done|apply colored_handleRedo_sound].
      - destruct (colored_handleUndo_grid s) as [-> ->].
        split_and!; [done|done|apply colored_handleUndo_sound]. }
    destruct (bool_decide (Keyboard.key e = "b")),
      (bool_decide (Keyboard.key e = "e")); split_and!; try done;
      intros Hs; apply H1 in Hs; done.
  - destruct (colored_handleUndo_grid s) as [-> ->].
    split_and!; [done|done|apply colored_handleUndo_sound].
  - destruct (colored_handleRedo_grid s) as [-> ->].
    split_and!; [done|done|apply colored_handleRedo_sound].
  - split_and!;
      [apply colored_saveToHistory_grid..|apply colored_clearCanvas_sound].
Qed.

Lemma coloredRun_sound (Math_sin : Q → Q) (actions : list ColoredAction)
    (v : ColoredUI.View) :
  let s := ColoredUI.editor v in
  let s' := ColoredUI.editor (coloredRun Math_sin actions v) in
  Colored.gridWidth s' = Colored.gridWidth s
  ∧ Colored.gridHeight s' = Colored.gridHeight s
  ∧ (coloredSound s → coloredSound s').
Proof.
  revert v. induction actions as [|a actions IH]; intros v; [done|].
  cbn [coloredRun fold_left].
  destruct (coloredAct_sound Math_sin a v) as (Hw & Hh & Hs).
  destruct (IH (coloredAct Math_sin a v)) as (Hw' & Hh' & Hs').
  cbn zeta in *. unfold coloredRun in *. rewrite Hw', Hh', Hw, Hh. auto.
Qed.

Lemma colored_initial_sound : coloredSound Colored.initial.
Proof.
  split; [|cbn; lia]. split_and!; [apply tidy_nil|constructor|constructor].
Qed.

(** X17. Whatever the user does to the colored editor, short of resizing the
    grid, the grid holds no key twice and no cell outside its bounds, the
    history and the redo stack hold no more than 50 snapshots together, and
    every traced contour is a closed loop. *)
Theorem colored_run_sound (Math_sin : Q → Q) (actions : list ColoredAction)
    (v : ColoredUI.View) :
  coloredSound (ColoredUI.editor v) →
  let s := ColoredUI.editor v in
  let s' := ColoredUI.editor (coloredRun Math_sin actions v) in
  Colored.gridWidth s' = Colored.gridWidth s
  ∧ Colored.gridHeight s' = Colored.gridHeight s
  ∧ NoDup (Colored.pixelMap s').*1
  ∧ (∀ c, c ∈ (Colored.pixelMap s').*1
          → inGrid (Colored.gridWidth s) (Colored.gridHeight s) c)
  ∧ (length (Colored.history s') + length (Colored.redoStack s') ≤ 50)%nat
  ∧ Forall wellFormed (Colored.findContour s')
  ∧ coloredSound s'.
Proof.
  intros Hs s s'.
  destruct (coloredRun_sound Math_sin actions v) as (Hw & Hh & H).
  cbn zeta in Hw, Hh, H. fold s s' in Hw, Hh, H.
  destruct (H Hs) as [([Hnd Hin] & Hhist & Hredo) Hlen].
  unfold coloredH in Hnd, Hin. cbn [fst snd] in Hnd, Hin.
  split_and!; try done.
  - by rewrite <- Hw, <- Hh.
  - apply (chainEdges_wellFormed _ colored_meets_eq).
    by apply colored_boundaryEdges_balanced.
Qed.

Lemma colored_run_sound_witness :
  let s' :=
    ColoredUI.editor
      (coloredRun (λ q, q) coloredSessionActions coloredSession) in
  Forall wellFormed (Colored.findContour s')
  ∧ length <$> Colored.findContour s' = [4%nat; 4%nat; 4%nat; 10%nat].
Proof.
  intros s'. split; [|by vm_compute].
  apply (colored_run_sound (λ q, q) coloredSessionActions coloredSession).
  split; [|vm_compute; lia]. unfold ok3, coloredH. cbn [fst snd].
  split_and!.
  - apply tidy_check. by vm_compute.
  - apply Forall_singleton, tidy_check. by vm_compute.
  - apply Forall_nil_2.
Defined.
(** ** The two editors trace the same contours *)

Section tracer_ext.
Variables meets1 meets2 : Cell → Cell → bool.
Hypothesis meets_ext : ∀ p q, meets1 p q = meets2 p q.

Lemma scan_ext (used : gset nat) (current : Edge) (rest : list Edge) :
  ∀ j, scan meets1 used current j rest = scan meets2 used current j rest.
Proof.
  induction rest as [|next rest IH]; intros j; [done|].
  cbn [scan]. rewrite meets_ext, !IH. done.
Qed.

Lemma traceLoop_ext (fuel : nat) (edges : list Edge) :
  ∀ (used : gset nat) (contour : list Edge) (current : Edge),
    traceLoop meets1 fuel edges used contour current
    = traceLoop meets2 fuel edges used contour current.
Proof.
  induction fuel as [|fuel IH]; intros used contour current; [done|].
  cbn [traceLoop]. rewrite scan_ext.
  destruct (scan meets2 used current 0 edges) as [[j next]|]; [|done].
  rewrite meets_ext, IH. done.
Qed.

Lemma traceAll_ext (fuel : nat) (edges rest : list Edge) :
  ∀ (i : nat) (used : gset nat) (contours : list (list Edge)),
    traceAll meets1 fuel edges i rest used contours
    = traceAll meets2 fuel edges i rest used contours.
Proof.
  induction rest as [|e rest IH]; intros i used contours; [done|].
  cbn [traceAll]. rewrite traceLoop_ext, !IH.
  destruct (decide (i ∈ used)); [done|].
  destruct (traceLoop meets2 fuel edges ({[i]} ∪ used) [e] e). by rewrite IH.
Qed.

Lemma chainEdges_ext (edges : list Edge) :
  chainEdges meets1 edges = chainEdges meets2 edges.
Proof. unfold chainEdges. by rewrite traceAll_ext. Qed.
End tracer_ext.

Lemma meets_agree (p q : Cell) : Mono.meets p q = Colored.meets p q.
Proof.
  destruct (Mono.meets p q) eqn:Em, (Colored.meets p q) eqn:Ec; try done.
  - apply mono_meets_eq in Em. apply colored_meets_eq in Em. congruence.
  - apply colored_meets_eq in Ec. apply mono_meets_eq in Ec. congruence.
Qed.

Lemma hasPixel_agree (sm : Mono.State) (sc : Colored.State) (x y : Z) :
  (Colored.pixelMap sc).*1 = Mono.pixels sm →
  Mono.hasPixel sm x y = Colored.hasPixel sc x y.
Proof.
  intros Hkeys. unfold Mono.hasPixel, Colored.hasPixel, InsOrd.has,
    InsOrd.mhas. by rewrite <- Hkeys.
Qed.

Lemma cellEdges_ext (h1 h2 : Z → Z → bool) (x y : Z) :
  (∀ x y, h1 x y = h2 x y) → cellEdges h1 x y = cellEdges h2 x y.
Proof. intros H. unfold cellEdges. by rewrite !H. Qed.

(** X18. On the same cells, painted in the same order and all inside the grid,
    the colored editor traces the contours of the monochrome editor, and
    with the same seed and settings it selects the same corners and places
    the same bridges. *)
Theorem editors_agree (Math_sin : Q → Q) (sm : Mono.State)
    (sc : Colored.State) :
  (Colored.pixelMap sc).*1 = Mono.pixels sm →
  (∀ c, c ∈ Mono.pixels sm
        → inGrid (Mono.gridWidth sm) (Mono.gridHeight sm) c) →
  Colored.findContour sc = Mono.findContour sm
  ∧ (Colored.cornerMode sc = Mono.cornerMode sm →
     Colored.roundedRatio sc = Mono.roundedRatio sm →
     Colored.seed sc = Mono.seed sm →
     Colored.gridWidth sc = Mono.gridWidth sm →
     Colored.gridHeight sc = Mono.gridHeight sm →
     let sc' := Colored.regenerateRounding Math_sin sc in
     let sm' := Mono.regenerateRounding Math_sin sm in
     Colored.roundedCorners sc' = Mono.roundedCorners sm'
     ∧ Colored.bridges sc' = Mono.bridges sm'
     ∧ Colored.bridgeMap sc' = Mono.bridgeMap sm').
Proof.
  intros Hkeys Hin.
  assert (Colored.findContour sc = Mono.findContour sm) as Hcontours.
  { unfold Colored.findContour, Mono.findContour.
    rewrite (chainEdges_ext Colored.meets Mono.meets)
      by (intros; symmetry; apply meets_agree).
    f_equal. rewrite mono_boundaryEdges_gridEdges, filter_all by done.
    unfold Colored.boundaryEdges, gridEdges. rewrite <- Hkeys.
    apply flat_map_ext. intros c. apply cellEdges_ext. intros x y.
    symmetry. by apply hasPixel_agree. }
  split; [done|]. intros Hm Hr Hs Hw Hh sc' sm'. subst sc' sm'.
  cbn [Colored.regenerateRounding Mono.regenerateRounding
       Colored.roundedCorners Colored.bridges Colored.bridgeMap
       Colored.setBridgeMap Colored.setBridges Colored.setRoundedCorners
       Mono.roundedCorners Mono.bridges Mono.bridgeMap
       Mono.setBridgeMap Mono.setBridges Mono.setRoundedCorners].
  rewrite Hcontours, Hm, Hr, Hs, Hw, Hh.
  assert (bridgePass Math_sin (Mono.cornerMode sm) (Mono.roundedRatio sm)
            (Mono.seed sm) (Colored.hasPixel sc) (length (Colored.pixelMap sc))
            (Mono.gridWidth sm) (Mono.gridHeight sm)
          = bridgePass Math_sin (Mono.cornerMode sm) (Mono.roundedRatio sm)
              (Mono.seed sm) (Mono.hasPixel sm) (length (Mono.pixels sm))
              (Mono.gridWidth sm) (Mono.gridHeight sm)) as ->; [|done].
  unfold bridgePass.
  replace (length (Colored.pixelMap sc)) with (length (Mono.pixels sm))
    by (by rewrite <- Hkeys, length_fmap).
  destruct (_ && _); [|done].
  apply fold_left_ext. intros acc X. apply fold_left_ext. intros acc' Y.
  unfold bridgeStep. by rewrite !(hasPixel_agree sm sc).
Qed.

Lemma editors_agree_witness :
  let sm := Mono.setPixels [(0, 0); (1, 1)] Mono.initial in
  let sc :=
    Colored.setPixelMap [((0, 0), "#000000"); ((1, 1), "#FF3B30")]
      Colored.initial in
  Colored.findContour sc = Mono.findContour sm.
Proof.
  intros sm sc.
  apply (editors_agree (λ q, q) sm sc); [done|].
  intros c Hc. apply list_elem_of_In in Hc.
  destruct Hc as [<-|[<-|[]]]; by vm_compute.
Defined.
(** ** The brush cursor *)

Lemma scaled_le (a b : Z) (size : Q) :
  (0 < size)%Q → (inject_Z a * size <= inject_Z b * size)%Q ↔ a ≤ b.
Proof.
  intros Hs. rewrite Qmult_le_r by done. by rewrite Zle_Qle.
Qed.

Lemma elem_of_brushCells_single (size : Z) (p c : Cell) :
  c ∈ brushCells size [p]
  ↔ p.1 - size / 2 ≤ c.1 < p.1 - size / 2 + size
    ∧ p.2 - size / 2 ≤ c.2 < p.2 - size / 2 + size.
Proof.
  rewrite elem_of_brushCells. split.
  - intros (pt & dx & dy & ->%list_elem_of_singleton & ? & ? & ->). cbn. lia.
  - intros [? ?]. exists p, (c.1 - p.1 + size / 2), (c.2 - p.2 + size / 2).
    split_and!; [by apply list_elem_of_singleton|lia..|].
    destruct c as [cx cy]. cbn. f_equal; lia.
Qed.


(** ** Roundings stay on their edges *)

Lemma cellEdges_unit (hasPixel : Z → Z → bool) (x y : Z) (e : Edge) :
  e ∈ cellEdges hasPixel x y → unitEdge e.
Proof.
  unfold cellEdges, unitEdge. rewrite !elem_of_app.
  intros [H|[H|[H|H]]]; destruct (negb _); try (by apply elem_of_nil in H);
    apply list_elem_of_singleton in H as ->; cbn; lia.
Qed.

Lemma mono_boundaryEdges_unit (s : Mono.State) (e : Edge) :
  e ∈ Mono.boundaryEdges s → unitEdge e.
Proof.
  rewrite mono_boundaryEdges_gridEdges. unfold gridEdges.
  rewrite flat_map_bind, list_elem_of_bind. intros (c & He & _).
  by apply cellEdges_unit in He.
Qed.

Lemma mono_findContour_unit (s : Mono.State) (cId : nat)
    (contour : list Edge) (e : Edge) :
  Mono.findContour s !! cId = Some contour → e ∈ contour → unitEdge e.
Proof.
  intros Hc He.
  destruct (chainEdges_indices _ mono_meets_eq (Mono.boundaryEdges s))
    as (js & Hat & _).
  assert (e ∈ concat (Mono.findContour s)) as Hin.
  { apply list_elem_of_In, in_concat. exists contour.
    split; apply list_elem_of_In; [|done].
    by apply list_elem_of_lookup_2 in Hc. }
  apply list_elem_of_lookup in Hin as [k Hk].
  unfold edgesAt in Hat.
  destruct (Forall2_lookup_r _ _ _ _ _ Hat Hk) as (j & _ & Hj).
  apply (mono_boundaryEdges_unit s). by apply list_elem_of_lookup_2 in Hj.
Qed.

Lemma nextEdge_elem (contour : list Edge) (i : nat) (edge : Edge) :
  edge ∈ contour → nextEdge contour i edge ∈ contour.
Proof.
  intros He. unfold nextEdge.
  destruct (contour !! _) as [next|] eqn:En; [|done].
  by apply list_elem_of_lookup_2 in En.
Qed.

(** The step of a rounding along a unit edge is a fraction, at most one
    half, of the edge on screen. *)
Lemma unit_step_fraction (m : DisplayMetrics) (e : Edge) (maxR : Q) :
  unitEdge e →
  (0 < visualPixelWidth m)%Q → (0 < visualPixelHeight m)%Q →
  (0 < maxR)%Q →
  (maxR <= JS.min (visualPixelWidth m) (visualPixelHeight m) * 0.5)%Q →
  ∃ t : Q,
    (0 < t)%Q ∧ (t <= 1 # 2)%Q
    ∧ (signedStep (x2 e - x1 e) maxR == t * (screenVector m e).1)%Q
    ∧ (signedStep (y2 e - y1 e) maxR == t * (screenVector m e).2)%Q.
Proof.
  intros Hunit Hw Hh Hr Hmax. unfold screenVector. cbn [fst snd].
  set (w := visualPixelWidth m) in *. set (h := visualPixelHeight m) in *.
  assert (JS.min w h <= w ∧ JS.min w h <= h)%Q as [Hmw Hmh].
  { unfold JS.min. destruct (Qle_bool w h) eqn:E.
    - apply Qle_bool_iff in E. split; [apply Qle_refl|done].
    - split; [|apply Qle_refl].
      destruct (Qlt_le_dec h w) as [?|Hle]; [by apply Qlt_le_weak|].
      apply Qle_bool_iff in Hle. congruence. }
  destruct Hunit as [[Hdx Hdy]|[Hdx Hdy]].
  - exists (maxR / w)%Q. rewrite Hdy, Z.sub_diag.
    split_and!.
    + apply Qlt_shift_div_l; lra.
    + apply Qle_shift_div_r; lra.
    + rewrite signedStep_sgn.
      assert (Z.sgn (x2 e - x1 e) = x2 e - x1 e) as -> by lia.
      field. lra.
    + rewrite signedStep_sgn. cbn. ring.
  - exists (maxR / h)%Q. rewrite Hdx, Z.sub_diag.
    split_and!.
    + apply Qlt_shift_div_l; lra.
    + apply Qle_shift_div_r; lra.
    + rewrite signedStep_sgn. cbn. ring.
    + rewrite signedStep_sgn.
      assert (Z.sgn (y2 e - y1 e) = y2 e - y1 e) as -> by lia.
      field. lra.
Qed.


(** ** The fill of the colored silhouette *)

Lemma mget_elem {V} (k : Cell) (v : V) (m : list (Cell * V)) :
  InsOrd.mget k m = Some v → (k, v) ∈ m.
Proof.
  induction m as [|[k0 v0] m IH]; cbn; [done|].
  destruct (decide (k0 = k)) as [->|_].
  - intros [= ->]. by left.
  - intros H. right. by apply IH.
Qed.

Lemma mget_None {V} (k : Cell) (m : list (Cell * V)) :
  InsOrd.mget k m = None ↔ k ∉ m.*1.
Proof.
  induction m as [|[k0 v0] m IH]; cbn.
  - split; [intros _; apply not_elem_of_nil|done].
  - rewrite not_elem_of_cons. destruct (decide (k0 = k)) as [->|Hne].
    + split; [done|]. by intros [? _].
    + rewrite IH. split; [by split|by intros [_ ?]].
Qed.

Lemma mget_NoDup {V} (k : Cell) (v : V) (m : list (Cell * V)) :
  NoDup m.*1 → (k, v) ∈ m → InsOrd.mget k m = Some v.
Proof.
  induction m as [|[k0 v0] m IH]; cbn; intros Hnd Hin.
  - by apply elem_of_nil in Hin.
  - apply NoDup_cons in Hnd as [Hk0 Hnd].
    apply elem_of_cons in Hin as [[= <- <-]|Hin].
    + by rewrite decide_True.
    + destruct (decide (k0 = k)) as [->|_]; [|by apply IH].
      exfalso. apply Hk0. apply list_elem_of_fmap. by exists (k, v).
Qed.

Lemma mget_app {V} (k : Cell) (a b : list (Cell * V)) :
  InsOrd.mget k (a ++ b)
  = match InsOrd.mget k a with
    | Some v => Some v
    | None => InsOrd.mget k b
    end.
Proof.
  induction a as [|[k0 v0] a IH]; cbn; [done|].
  by destruct (decide (k0 = k)).
Qed.

Lemma mget_rev {V} (k : Cell) (m : list (Cell * V)) :
  NoDup m.*1 → InsOrd.mget k (reverse m) = InsOrd.mget k m.
Proof.
  intros Hnd. destruct (InsOrd.mget k m) as [v|] eqn:Eg.
  - apply mget_NoDup.
    + by rewrite fmap_reverse, reverse_Permutation.
    + rewrite elem_of_reverse. by apply mget_elem.
  - apply mget_None. apply mget_None in Eg.
    by rewrite fmap_reverse, elem_of_reverse.
Qed.

Lemma neighbors_sym (c k : Cell) :
  c ∈ ColoredRender.neighbors k.1 k.2 ↔ k ∈ ColoredRender.neighbors c.1 c.2.
Proof.
  destruct c as [cx cy], k as [kx ky]. unfold ColoredRender.neighbors.
  cbn [fst snd]. rewrite !elem_of_cons, !elem_of_nil.
  split; intros [[= ? ?]|[[= ? ?]|[[= ? ?]|[[= ? ?]|[]]]]]; subst.
  - right; left. f_equal; lia.
  - left. f_equal; lia.
  - do 3 right; left. f_equal; lia.
  - do 2 right; left. f_equal; lia.
  - right; left. f_equal; lia.
  - left. f_equal; lia.
  - do 3 right; left. f_equal; lia.
  - do 2 right; left. f_equal; lia.
Qed.

Lemma elem_of_dilationPass (pixelMap : Colored.PixelMap) (c : Cell)
    (color : string) :
  (c, color) ∈ ColoredRender.dilationPass pixelMap
  ↔ c ∉ pixelMap.*1
    ∧ ∃ k, k ∈ ColoredRender.neighbors c.1 c.2 ∧ (k, color) ∈ pixelMap.
Proof.
  unfold ColoredRender.dilationPass.
  rewrite flat_map_bind, list_elem_of_bind. split.
  - intros ([[x y] col] & Hin & Hk).
    rewrite flat_map_bind in Hin. apply list_elem_of_bind in Hin as (n & Hn & Hnb).
    destruct (InsOrd.mhas n pixelMap) eqn:Eh; cbn in Hn;
      [by apply elem_of_nil in Hn|].
    apply list_elem_of_singleton in Hn as [= -> ->].
    split.
    + unfold InsOrd.mhas in Eh. by apply bool_decide_eq_false in Eh.
    + exists (x, y). split; [|done]. by apply (neighbors_sym _ (x, y)).
  - intros (Hc & k & Hnb & Hk). exists (k, color). split; [|done].
    destruct k as [x y]. rewrite flat_map_bind. apply list_elem_of_bind.
    exists c. split; [|by apply (neighbors_sym c (x, y))].
    unfold InsOrd.mhas. rewrite bool_decide_eq_false_2 by done. cbn.
    by apply list_elem_of_singleton.
Qed.

(** X21. On the small canvas of the colored [drawScene] every painted cell of
    the grid shows its own color, with or without the dilation pass.  The
    dilation pass colors an empty cell exactly when one of its four
    neighbours is painted, with the color of such a neighbour; without it
    the empty cells stay transparent. *)
Theorem tempCanvas_colors (showGradient blendBg : bool) (s : Colored.State) :
  keysNoDup (Colored.pixelMap s) →
  let shown :=
    pixelColor (Colored.gridWidth s) (Colored.gridHeight s)
      (ColoredRender.tempCanvasFills showGradient blendBg
         (Colored.pixelMap s)) in
  let colorOf c := InsOrd.mget c (Colored.pixelMap s) in
  ∀ c, inGrid (Colored.gridWidth s) (Colored.gridHeight s) c →
    match colorOf c with
    | Some color => shown c = Some color
    | None =>
        if showGradient && negb blendBg
        then (∀ color, shown c = Some color →
                ∃ k, k ∈ ColoredRender.neighbors c.1 c.2
                     ∧ colorOf k = Some color)
             ∧ (shown c = None
                ↔ ∀ k, k ∈ ColoredRender.neighbors c.1 c.2
                       → colorOf k = None)
        else shown c = None
    end.
Proof.
  intros Hnd shown colorOf c Hin. subst shown colorOf.
  unfold pixelColor, ColoredRender.tempCanvasFills.
  rewrite decide_True by done. rewrite reverse_app, mget_app.
  rewrite (mget_rev c (Colored.pixelMap s) Hnd).
  destruct (InsOrd.mget c (Colored.pixelMap s)) as [color|] eqn:Eg; [done|].
  destruct (showGradient && negb blendBg); [|done].
  apply mget_None in Eg. split.
  - intros color Hc. apply mget_elem in Hc.
    rewrite elem_of_reverse in Hc.
    apply elem_of_dilationPass in Hc as (_ & k & Hk & Hkc).
    exists k. split; [done|]. by apply mget_NoDup.
  - rewrite mget_None. rewrite fmap_reverse, elem_of_reverse.
    split.
    + intros Hno k Hk. destruct (InsOrd.mget k (Colored.pixelMap s))
        as [color|] eqn:Ek; [|done].
      exfalso. apply Hno. apply list_elem_of_fmap. exists (c, color).
      split; [done|]. apply elem_of_dilationPass. split; [done|].
      exists k. split; [done|]. by apply mget_elem.
    + intros Hall Hc. apply list_elem_of_fmap in Hc as ([c' color] & -> & Hc).
      apply elem_of_dilationPass in Hc as (_ & k & Hk & Hkc). cbn in Hk.
      apply (mget_NoDup _ _ _ Hnd) in Hkc. rewrite (Hall k Hk) in Hkc. done.
Qed.

Lemma tempCanvas_colors_witness :
  pixelColor 32 32
    (ColoredRender.tempCanvasFills true false
       [((1, 1), "#FF3B30"); ((2, 1), "#007AFF")]) (2, 1)
  = Some "#007AFF".
Proof.
  pose proof (tempCanvas_colors true false
                (Colored.setPixelMap [((1, 1), "#FF3B30"); ((2, 1), "#007AFF")]
                   Colored.initial)) as H.
  apply (H ltac:(unfold keysNoDup; cbn; repeat constructor; set_solver)
           (2, 1) ltac:(by vm_compute)).
Defined.
(** * The visual discovery tool *)

Lemma floor_scaled (r : Q) (n : Z) :
  (0 <= r)%Q → (r < 1)%Q → 0 < n → 0 ≤ Qfloor (r * inject_Z n) < n.
Proof.
  intros Hr0 Hr1 Hn.
  assert (0 < inject_Z n)%Q as Hn'.
  { change 0%Q with (inject_Z 0). by rewrite <- Zlt_Qlt. }
  pose proof (Qfloor_le (r * inject_Z n)) as Hlo.
  pose proof (Qlt_floor (r * inject_Z n)) as Hhi.
  rewrite inject_Z_plus in Hhi. change (inject_Z 1) with 1%Q in Hhi.
  assert (0 <= r * inject_Z n)%Q as H0 by (apply Qmult_le_0_compat; lra).
  assert (r * inject_Z n < inject_Z n)%Q as H1.
  { rewrite <- (Qmult_1_l (inject_Z n)) at 2.
    apply Qmult_lt_compat_r; lra. }
  split.
  - assert (inject_Z (-1) < inject_Z (Qfloor (r * inject_Z n)))%Q as H.
    { change (inject_Z (-1)) with (-1)%Q. lra. }
    rewrite <- Zlt_Qlt in H. lia.
  - rewrite Zlt_Qlt. lra.
Qed.

(** A double below 1 is [1 - 2^-53] at most. *)
Lemma double_below_one (r : Q) :
  (JS.double r == r)%Q → (0 <= r)%Q → (r < 1)%Q →
  (r <= 1 - unitRoundoff)%Q.
Proof.
  intros Hd H0 H1.
  assert (Hu : (unitRoundoff == 1 # 9007199254740992)%Q) by reflexivity.
  destruct (Qlt_le_dec r (1 # 2)) as [Hs|Hl].
  { rewrite Hu. lra. }
  assert (Ha : (Qabs r == r)%Q) by (by apply Qabs_pos).
  assert (Hk : JS.log2floor r = -1).
  { apply log2floor_unique; rewrite Ha; [exact Hl|exact H1]. }
  assert (He : JS.ulpExp r = -53).
  { unfold JS.ulpExp. by rewrite Hk. }
  rewrite double_on_grid, He in Hd.
  set (m := JS.roundHalfEven (r / 2 ^ (-53))) in Hd.
  change (2 ^ (-53))%Q with unitRoundoff in Hd. rewrite Hu in Hd.
  assert (Hm : m < 9007199254740992).
  { rewrite Zlt_Qlt.
    change (inject_Z 9007199254740992) with (9007199254740992 # 1)%Q.
    set (M := inject_Z m) in *. clearbody M. lra. }
  assert (HM : (inject_Z m <= 9007199254740991 # 1)%Q).
  { change (9007199254740991 # 1)%Q with (inject_Z 9007199254740991).
    rewrite <- Zle_Qle. lia. }
  rewrite Hu. set (M := inject_Z m) in *. clearbody M. lra.
Qed.

(** The rounded product of such a draw and a positive integer stays below
    the integer. *)
Lemma double_scaled_lt (r : Q) (n : Z) :
  (0 <= r)%Q → (r <= 1 - unitRoundoff)%Q → 0 < n →
  (0 <= JS.double (r * inject_Z n))%Q
  ∧ (JS.double (r * inject_Z n) < inject_Z n)%Q.
Proof.
  intros Hr0 Hr1 Hn. destruct unitRoundoff_facts as (Hu0 & Hu1 & _).
  assert (Hn' : (1 <= inject_Z n)%Q).
  { change 1%Q with (inject_Z 1). rewrite <- Zle_Qle. lia. }
  assert (Hx0 : (0 <= r * inject_Z n)%Q) by (apply Qmult_le_0_compat; lra).
  split; [by apply double_nonneg|].
  assert (Hx1 : (r * inject_Z n <= (1 - unitRoundoff) * inject_Z n)%Q).
  { apply Qmult_le_compat_r; lra. }
  set (j := Z.log2_up n).
  assert (Hj : 0 ≤ j) by apply Z.log2_up_nonneg.
  assert (Hnj : n ≤ 2 ^ j).
  { destruct (decide (n = 1)) as [->|]; [done|].
    apply Z.log2_up_spec. lia. }
  assert (Hjn : (2 ^ (j - 1) < inject_Z n)%Q).
  { destruct (decide (n = 1)) as [->|Hn1]; [by vm_compute|].
    assert (0 < j) by (apply Z.log2_up_pos; lia).
    rewrite <- pow2_Z by lia. rewrite <- Zlt_Qlt.
    replace (j - 1) with (Z.pred j) by lia. apply Z.log2_up_spec. lia. }
  assert (Hnj' : (inject_Z n <= 2 ^ j)%Q).
  { rewrite <- pow2_Z by lia. by rewrite <- Zle_Qle. }
  assert (Ha : (Qabs (r * inject_Z n) < 2 ^ j)%Q).
  { rewrite Qabs_pos by done.
    set (N := inject_Z n) in *. set (u := unitRoundoff) in *.
    set (x := (r * N)%Q) in *. set (P := (2 ^ j)%Q) in *.
    assert (0 < u * N)%Q by (apply Qmult_lt_0_compat; lra).
    clearbody x N u P. lra. }
  pose proof (ulpExp_le _ j Hj Ha) as He.
  destruct (double_near (r * inject_Z n)) as [_ Hhi].
  pose proof (pow2_le _ _ He) as Hp.
  assert (Hhalf : ((1 # 2) * 2 ^ (j - 53) == 2 ^ (j - 1) * unitRoundoff)%Q).
  { replace (j - 53) with ((j - 1) + -52) by lia. rewrite pow2_add.
    assert (Hc : (2 ^ (-52) == 2 * unitRoundoff)%Q) by reflexivity.
    rewrite Hc. ring. }
  assert (Hun : (2 ^ (j - 1) * unitRoundoff < unitRoundoff * inject_Z n)%Q).
  { rewrite (Qmult_comm unitRoundoff). by apply Qmult_lt_compat_r. }
  assert (Heq : ((1 - unitRoundoff) * inject_Z n
                 == inject_Z n - unitRoundoff * inject_Z n)%Q) by ring.
  rewrite Heq in Hx1.
  set (N := inject_Z n) in *. set (u := unitRoundoff) in *.
  set (x := (r * N)%Q) in *. set (d := JS.double x) in *.
  set (p := (2 ^ JS.ulpExp x)%Q) in *. set (q := (2 ^ (j - 53))%Q) in *.
  set (h := (2 ^ (j - 1) * u)%Q) in *. set (w := (u * N)%Q) in *.
  clearbody d p q h w x N u. clear Ha Hjn Hnj'. lra.
Qed.

(** X22. [rInt(min, max)] is an integer from [min] to [max]: the sum is
    rounded, so [max] itself comes out for the draw [1 - 2^-53] with
    [min = 1] and [max = 9].  [pickRandom] returns an element of a non-empty
    array; on an empty array it returns [undefined]. *)
Theorem random_helpers_in_range (rnd : nat → Q) :
  doubleDraws rnd →
  (∀ min max : Z, - 2 ^ 52 < min → min < max → max < 2 ^ 52 →
     min ≤ (VisualSearch.rInt min max rnd).1 ≤ max)
  ∧ (∀ (A : Type) (arr : list A), arr ≠ [] →
       ∃ x, (VisualSearch.pickRandom arr rnd).1 = Some x ∧ x ∈ arr)
  ∧ (∀ A : Type, (VisualSearch.pickRandom (@nil A) rnd).1 = None)
  ∧ (let rnd' := λ _ : nat, (1 - unitRoundoff)%Q in
     doubleDraws rnd' ∧ (VisualSearch.rInt 1 9 rnd').1 = 9).
Proof.
  intros Hrnd. destruct (Hrnd 0%nat) as (Hrd & Hr0 & Hr1). split_and!.
  - intros min max Hmin Hlt Hmax.
    unfold VisualSearch.rInt, VisualSearch.bind, VisualSearch.Math_random,
      VisualSearch.ret. cbn [fst].
    set (r := rnd 0%nat) in *.
    assert (Hspan : (JS.double (inject_Z max - inject_Z min)
                     == inject_Z (max - min))%Q).
    { assert (Hm : (inject_Z max - inject_Z min == inject_Z (max - min))%Q).
      { unfold Z.sub. rewrite inject_Z_plus, inject_Z_opp. reflexivity. }
      rewrite Hm. apply double_int. lia. }
    rewrite Hspan.
    assert (Hs0 : (0 < inject_Z (max - min))%Q).
    { change 0%Q with (inject_Z 0). rewrite <- Zlt_Qlt. lia. }
    assert (Hs1 : (inject_Z (max - min) < inject_Z (2 ^ 53))%Q).
    { rewrite <- Zlt_Qlt. lia. }
    rewrite pow2_Z in Hs1 by lia.
    assert (Hx0 : (0 <= r * inject_Z (max - min))%Q).
    { apply Qmult_le_0_compat; lra. }
    assert (Hx1 : (r * inject_Z (max - min) <= inject_Z (max - min))%Q).
    { rewrite <- (Qmult_1_l (inject_Z (max - min))) at 2.
      apply Qmult_le_compat_r; lra. }
    assert (Hxa : (Qabs (r * inject_Z (max - min)) < 2 ^ 53)%Q).
    { rewrite Qabs_pos by done. by eapply Qle_lt_trans. }
    pose proof (double_nonneg _ Hx0) as Hp0.
    pose proof (double_le_int _ _ Hxa Hx1) as Hp1.
    set (p := JS.double (r * inject_Z (max - min))) in *.
    assert (Hq0 : (inject_Z min <= p + inject_Z min)%Q) by lra.
    assert (Hq1 : (p + inject_Z min <= inject_Z max)%Q).
    { unfold Z.sub in Hp1. rewrite inject_Z_plus, inject_Z_opp in Hp1. lra. }
    assert (Hqa : (Qabs (p + inject_Z min) < 2 ^ 53)%Q).
    { assert (Hlo : (inject_Z (- 2 ^ 52) < inject_Z min)%Q)
        by (by rewrite <- Zlt_Qlt).
      assert (Hhi : (inject_Z max < inject_Z (2 ^ 52))%Q)
        by (by rewrite <- Zlt_Qlt).
      assert (Hc : (inject_Z (2 ^ 52) <= 2 ^ 53)%Q) by (by vm_compute).
      assert (Hc' : (- 2 ^ 53 <= inject_Z (- 2 ^ 52))%Q) by (by vm_compute).
      set (c := (2 ^ 53)%Q) in *.
      set (a := inject_Z (2 ^ 52)) in *. set (b := inject_Z (- 2 ^ 52)) in *.
      clearbody c a b p.
      apply Qabs_case; intros _; lra. }
    pose proof (double_ge_int _ _ Hqa Hq0) as Hd0.
    pose proof (double_le_int _ _ Hqa Hq1) as Hd1.
    apply Qfloor_resp_le in Hd0. rewrite Qfloor_Z in Hd0.
    pose proof (Qfloor_le (JS.double (p + inject_Z min))) as Hf.
    assert (Hf' : (inject_Z (Qfloor (JS.double (p + inject_Z min)))
                   <= inject_Z max)%Q) by (by eapply Qle_trans).
    rewrite <- Zle_Qle in Hf'. done.
  - intros A arr Harr.
    unfold VisualSearch.pickRandom, VisualSearch.bind,
      VisualSearch.Math_random, VisualSearch.ret, VisualSearch.item.
    cbn [fst].
    assert (0 < Z.of_nat (length arr)) as Hlen by (destruct arr; [done|cbn; lia]).
    pose proof (double_below_one _ Hrd Hr0 Hr1) as Hr1'.
    destruct (double_scaled_lt _ _ Hr0 Hr1' Hlen) as [Hd0 Hd1].
    set (d := JS.double (rnd 0%nat * inject_Z (Z.of_nat (length arr)))) in *.
    assert (Hj0 : 0 ≤ Qfloor d).
    { apply Qfloor_resp_le in Hd0. exact Hd0. }
    assert (Hj1 : Qfloor d < Z.of_nat (length arr)).
    { rewrite Zlt_Qlt. eapply Qle_lt_trans; [apply Qfloor_le|done]. }
    destruct (Z.ltb_spec (Qfloor d) 0); [lia|].
    destruct (lookup_lt_is_Some_2 arr (Z.to_nat (Qfloor d))) as [x Hx]; [lia|].
    exists x. split; [done|]. by apply list_elem_of_lookup_2 in Hx.
  - intros A.
    unfold VisualSearch.pickRandom, VisualSearch.bind,
      VisualSearch.Math_random, VisualSearch.ret, VisualSearch.item.
    cbn [fst]. by destruct (_ <? _).
  - split; [|vm_compute; reflexivity].
    intros n. split_and!; vm_compute; (reflexivity || discriminate).
Qed.

Lemma random_helpers_in_range_witness :
  10 ≤ (VisualSearch.rInt 10 9999 (λ _, 1 # 2)).1 ≤ 9999.
Proof.
  apply (random_helpers_in_range (λ _, 1 # 2)); [|lia..].
  intros n. split_and!; vm_compute; (reflexivity || discriminate).
Defined.

(** With a draw in [0, 1) a round of [shuffle] exchanges two elements of
    the array. *)
Lemma swap_in_range {A} (i : nat) (r : Q) (arr : list A) :
  (0 <= r)%Q → (r < 1)%Q → (i < length arr)%nat →
  ∃ arr', VisualSearch.swap i (Qfloor (r * inject_Z (Z.of_nat i + 1))) arr
          = Some arr'
          ∧ arr' ≡ₚ arr.
Proof.
  intros Hr0 Hr1 Hi. set (j := Qfloor (r * inject_Z (Z.of_nat i + 1))).
  destruct (floor_scaled r (Z.of_nat i + 1) Hr0 Hr1 ltac:(lia)) as [Hj0 Hj1].
  fold j in Hj0, Hj1.
  destruct (lookup_lt_is_Some_2 arr i Hi) as [ai Hai].
  destruct (lookup_lt_is_Some_2 arr (Z.to_nat j) ltac:(lia)) as [aj Haj].
  unfold VisualSearch.swap, VisualSearch.item. rewrite Hai.
  destruct (Z.ltb_spec j 0); [lia|]. rewrite Haj.
  eexists. split; [done|]. by apply Permutation_insert_swap.
Qed.

Lemma shuffleFrom_spec {A} (i : nat) :
  ∀ (arr : list A) (rnd : nat → Q),
    unitDraws rnd → (i < length arr ∨ i = 0)%nat →
    let out := VisualSearch.shuffleFrom i arr rnd in
    (∃ l, out.1 = Some l ∧ l ≡ₚ arr) ∧ ∀ n, out.2 n = rnd (i + n)%nat.
Proof.
  induction i as [|i IH]; intros arr rnd Hrnd Hi.
  { split; [by exists arr|done]. }
  cbn [VisualSearch.shuffleFrom].
  unfold VisualSearch.bind, VisualSearch.Math_random.
  destruct (Hrnd 0%nat) as [Hr0 Hr1].
  destruct (swap_in_range (S i) (rnd 0%nat) arr Hr0 Hr1 ltac:(lia))
    as (arr' & -> & Hperm).
  destruct (IH arr' (λ n, rnd (S n))) as [(l & Hl & Hperm') Hrest].
  { intros n. apply Hrnd. }
  { left. rewrite (Permutation_length Hperm). lia. }
  cbn zeta in Hl, Hrest. split.
  - exists l. split; [done|]. by rewrite Hperm'.
  - intros n. by rewrite Hrest.
Qed.



(** X24. The search log holds the 15 most recent entries, newest first. *)
Theorem logSearch_recent {Entry} (entries : list Entry) :
  fold_left (λ log entry, VisualSearch.logSearch entry log) entries []
  = take 15 (rev entries).
Proof.
  induction entries as [|entry entries IH] using rev_ind; [done|].
  rewrite fold_left_app, rev_app_distr. cbn [fold_left rev app].
  rewrite IH. unfold VisualSearch.logSearch.
  set (recent := take 15 (rev entries)).
  assert (length recent ≤ 15)%nat as Hlen
    by (unfold recent; rewrite length_take; lia).
  cbn [length]. destruct (Nat.ltb_spec 15 (S (length recent))) as [Hfull|Hroom].
  - assert (length (rev entries) ≥ 15)%nat as Hrev.
    { unfold recent in Hlen, Hfull. rewrite length_take in Hfull. lia. }
    assert (length recent = 15%nat) as Hrecent by lia.
    change (take 15 (entry :: rev entries))
      with (entry :: take 14 (rev entries)).
    assert (recent = take 14 (rev entries) ++ drop 14 recent) as Hsplit.
    { rewrite <- (take_drop 14 recent) at 1. f_equal.
      unfold recent. rewrite take_take. f_equal. }
    assert (∃ x, drop 14 recent = [x]) as [x Hx].
    { assert (length (drop 14 recent) = 1%nat) as H1
        by (rewrite length_drop; lia).
      destruct (drop 14 recent) as [|x [|]]; try done. by exists x. }
    rewrite Hsplit, Hx.
    change (entry :: take 14 (rev entries) ++ [x])
      with ((entry :: take 14 (rev entries)) ++ [x]).
    by rewrite removelast_last.
  - assert (length (rev entries) < 15)%nat as Hrev.
    { unfold recent in Hroom. rewrite length_take in Hroom. lia. }
    unfold recent. rewrite !take_ge by (cbn; lia). done.
Qed.
